(** * Multi-objective scheduling of air compressors: the optimisation core

  A shallow embedding of the model-building, calibration, strategy and
  extraction layers ([model_builder.py], [objectives.py],
  [optimization_approaches.py], [results_manager.py]), of the loading
  of the parameters ([data_manager.py]), of the presentation of a
  schedule ([utils.py], [schedule_formatter.py]) and of the run that
  ties them together ([main.py]).

  Numbers.  Python floats are modelled by exact rationals ([Q]); the
  decimal literals of the source (1.5, 1.001, 1.1, 0.1, 0.001) are the
  rationals they denote.  Integers (indices, slots, counts) are [Z].

  Solver.  PuLP's [model.solve] is an external capability: it is a
  parameter [solve] of the functions that call it, returning a status and
  a value for every variable. *)

From Stdlib Require Import ZArith QArith Qminmax List Bool Lia Lqa.
From Stdlib Require String Ascii DecimalString.
From Stdlib Require Permutation Sorted.
Import ListNotations.

Set Implicit Arguments.

(* ================================================================== *)
(** ** Python primitives *)

Module Py.

(** The exceptions the embedded code can raise. *)
Inductive exn : Type := KeyError | ZeroDivisionError | TypeError.

Inductive result (A : Type) : Type :=
| Raise (e : exn)
| Return (a : A).
Arguments Raise {A} e.
Arguments Return {A} a.

Definition bind {A B} (m : result A) (k : A -> result B) : result B :=
  match m with
  | Raise e => Raise e
  | Return a => k a
  end.

(** [for a in l: body] over a threaded state. *)
Fixpoint for_ {A St} (l : list A) (body : A -> St -> result St) (st : St)
  : result St :=
  match l with
  | [] => Return st
  | a :: l' => bind (body a st) (for_ l' body)
  end.

(** A list comprehension [[f a for a in l]] whose element may raise. *)
Fixpoint comprehension {A B} (f : A -> result B) (l : list A)
  : result (list B) :=
  match l with
  | [] => Return []
  | a :: l' =>
      bind (f a) (fun b =>
      bind (comprehension f l') (fun bs => Return (b :: bs)))
  end.

(** [range(a, b)]. *)
Definition range (a b : Z) : list Z :=
  map (fun k => (a + Z.of_nat k)%Z) (seq 0 (Z.to_nat (b - a))).

(** Hashable keys: the index types of the dictionaries. *)
Class Key (K : Type) := { keqb : K -> K -> bool }.

#[export] Instance Key_Z : Key Z := {| keqb := Z.eqb |}.

#[export] Instance Key_pair {K1 K2} `{Key K1} `{Key K2} : Key (K1 * K2) :=
  {| keqb := fun a b => keqb (fst a) (fst b) && keqb (snd a) (snd b) |}.

(** A [dict]: insertion-ordered association list, first binding wins. *)
Definition dict (K V : Type) := list (K * V).

Section Dict.
Context {K V : Type} `{Key K}.

(** [d.get(k)] *)
Fixpoint get (d : dict K V) (k : K) : option V :=
  match d with
  | [] => None
  | (k', v) :: d' => if keqb k' k then Some v else get d' k
  end.

(** [d.get(k, dflt)] *)
Definition get_default (d : dict K V) (k : K) (dflt : V) : V :=
  match get d k with Some v => v | None => dflt end.

(** [k in d] *)
Definition contains (d : dict K V) (k : K) : bool :=
  match get d k with Some _ => true | None => false end.

(** [d[k]] *)
Definition item (d : dict K V) (k : K) : result V :=
  match get d k with Some v => Return v | None => Raise KeyError end.

(** [d.items()] *)
Definition items (d : dict K V) : list (K * V) := d.

(** [{k: f k for k in ks}] *)
Definition from_keys (f : K -> V) (ks : list K) : dict K V :=
  map (fun k => (k, f k)) ks.

(** [d[k] = v]: an existing key keeps its place, a new one goes last. *)
Fixpoint set_item (d : dict K V) (k : K) (v : V) : dict K V :=
  match d with
  | [] => [(k, v)]
  | (k', v') :: d' =>
      if keqb k' k then (k', v) :: d' else (k', v') :: set_item d' k v
  end.
End Dict.

(** [a or b] on an optional number: [None] and [0] are falsy. *)
Definition or_ (a : option Q) (b : Q) : Q :=
  match a with
  | Some q => if Qeq_bool q 0 then b else q
  | None => b
  end.

(** Truthiness of a number: [if q]. *)
Definition truthy (q : Q) : bool := negb (Qeq_bool q 0).

(** [max(a, b)]: the first argument is kept unless the second is
    strictly larger. *)
Definition max (a b : Q) : Q := if Qle_bool b a then a else b.

(** [a / b] on floats. *)
Definition div (a b : Q) : result Q :=
  if Qeq_bool b 0 then Raise ZeroDivisionError else Return (a / b).

End Py.

Import Py.

Notation "x <- c1 ;; c2" := (Py.bind c1 (fun x => c2))
(at level 61, c1 at next level, right associativity).
Notation "' pat <- c1 ;; c2" :=
(Py.bind c1 (fun x => match x with pat => c2 end))
(at level 61, pat pattern, c1 at next level, right associativity).

(* ================================================================== *)
(** ** The PuLP objects the code manipulates *)

Module Pulp.

(** Variable names.  The three per-slot families are indexed by the
    triple [(i, t, s)], [e] by the slot. *)
Inductive var_name : Type :=
| x_ (k : Z * Z * Z)
| y_ (k : Z * Z * Z)
| u_ (k : Z * Z * Z)
| e_ (t : Z)
| PL_
| Maximum_Deviation.

Inductive LpCategory : Type := LpContinuous | LpBinary.

Record LpVariable : Type := {
  name : var_name;
  lowBound : option Q;
  cat : LpCategory
}.

(** [LpVariable.dicts(name, indices, lowBound=.., cat=..)] *)
Definition LpVariable_dicts {K} (mk : K -> var_name) (indices : list K)
           (lb : option Q) (ct : LpCategory) : dict K LpVariable :=
  from_keys (fun k => {| name := mk k; lowBound := lb; cat := ct |}) indices.

(** Affine expressions: a list of terms and a constant. *)
Record LpAffineExpression : Type := {
  terms : list (LpVariable * Q);
  constant : Q
}.

Definition of_var (v : LpVariable) : LpAffineExpression :=
  {| terms := [(v, 1)]; constant := 0 |}.
Definition of_num (q : Q) : LpAffineExpression :=
  {| terms := []; constant := q |}.
Definition scale (q : Q) (a : LpAffineExpression) : LpAffineExpression :=
  {| terms := map (fun '(v, k) => (v, q * k)) (terms a);
     constant := q * constant a |}.
Definition add (a b : LpAffineExpression) : LpAffineExpression :=
  {| terms := terms a ++ terms b; constant := constant a + constant b |}.
Definition sub (a b : LpAffineExpression) : LpAffineExpression :=
  add a (scale (-1) b).
Definition lpSum (l : list LpAffineExpression) : LpAffineExpression :=
  fold_right add (of_num 0) l.
(** [expr / number]: PuLP multiplies by [1.0 / number]. *)
Definition divide (a : LpAffineExpression) (q : Q)
  : result LpAffineExpression :=
  r <- Py.div 1 q ;; Return (scale r a).

Inductive LpConstraintSense : Type := LE | EQ | GE.

(** Constraint labels (the f-string names of the source). *)
Inductive label : Type :=
| Electricity_Consumption (t : Z)
| Peak_Load (t : Z)
| Budget_Constraint (s : Z)
| Operation_Duration (i s : Z)
| Uninterruptible_1 (i t s : Z)
| Uninterruptible_2 (i t s : Z)
| Uninterruptible_3 (i t s : Z)
| Precedence_Constraint (i i_star t s : Z)
| Incentive_Constraint (i t s : Z)
| Maintain_Optimal_EC
| Maintain_Optimal_PL
| EC_Deviation_Constraint
| PL_Deviation_Constraint.

(** [lhs sense rhs] is stored by PuLP as [lhs - rhs sense 0]. *)
Record LpConstraint : Type := {
  c_expr : LpAffineExpression;
  c_sense : LpConstraintSense;
  c_name : label
}.

Definition constr (a : LpAffineExpression) (sn : LpConstraintSense)
           (b : LpAffineExpression) (lb : label) : LpConstraint :=
  {| c_expr := sub a b; c_sense := sn; c_name := lb |}.

Inductive model_name : Type :=
| Base_Model | EC_Ideal | PL_Ideal | EC_Only | PL_Only
| PR_EC_First_Step1 | PR_EC_First_Step2
| PR_PL_First_Step1 | PR_PL_First_Step2
| Weighted_Sum | Compromise_Programming.

Record LpProblem : Type := {
  p_name : model_name;
  objective : option LpAffineExpression;
  constraints : list LpConstraint
}.

(** [pl.LpProblem(name, pl.LpMinimize)] *)
Definition new_problem (nm : model_name) : LpProblem :=
  {| p_name := nm; objective := None; constraints := [] |}.

(** [model += constraint, name] *)
Definition add_constraint (m : LpProblem) (c : LpConstraint) : LpProblem :=
  {| p_name := p_name m; objective := objective m;
     constraints := constraints m ++ [c] |}.

(** [model += expression, name] *)
Definition set_objective (m : LpProblem) (a : LpAffineExpression)
  : LpProblem :=
  {| p_name := p_name m; objective := Some a;
     constraints := constraints m |}.

(** *** Semantics *)

Definition valuation := var_name -> Q.

(** [pl.value(expr)] *)
Definition value (v : valuation) (a : LpAffineExpression) : Q :=
  fold_right (fun '(x, k) acc => k * v (name x) + acc) (constant a)
             (terms a).

Definition holds (v : valuation) (c : LpConstraint) : Prop :=
  match c_sense c with
  | LE => value v (c_expr c) <= 0
  | EQ => value v (c_expr c) == 0
  | GE => 0 <= value v (c_expr c)
  end.

(** A variable's own domain: its lower bound and, for a binary, 0 or 1. *)
Definition in_domain (v : valuation) (x : LpVariable) : Prop :=
  match lowBound x with Some lb => lb <= v (name x) | None => True end /\
  match cat x with
  | LpBinary => v (name x) == 0 \/ v (name x) == 1
  | LpContinuous => True
  end.

Definition expr_vars (a : LpAffineExpression) : list LpVariable :=
  map fst (terms a).

(** [model.variables()]: those of the objective and of the constraints. *)
Definition variables (m : LpProblem) : list LpVariable :=
  match objective m with Some a => expr_vars a | None => [] end ++
  flat_map (fun c => expr_vars (c_expr c)) (constraints m).

Definition feasible (m : LpProblem) (v : valuation) : Prop :=
  Forall (holds v) (constraints m) /\ Forall (in_domain v) (variables m).

Definition objective_value (m : LpProblem) (v : valuation) : Q :=
  match objective m with Some a => value v a | None => 0 end.

(** The statuses a solve can end in. *)
Inductive LpStatus : Type :=
| LpStatusOptimal | LpStatusNotSolved | LpStatusInfeasible
| LpStatusUnbounded | LpStatusUndefined.

Definition is_optimal (st : LpStatus) : bool :=
  match st with LpStatusOptimal => true | _ => false end.

(** What [model.solve(...)] leaves behind. *)
Record Solved : Type := {
  status : LpStatus;
  varValue : valuation
}.

(** *** Which variables a solve gives a value

  PuLP stores an expression as a dictionary from variables to
  coefficients, and a product by zero leaves no entry ([0 * x] is the
  empty expression).  A term of the list whose coefficient is zero stands
  for such a product: the variables the expression has, for PuLP, are
  those of the other terms. *)

Definition var_name_eqb (a b : var_name) : bool :=
  match a, b with
  | x_ k, x_ k' => keqb k k'
  | y_ k, y_ k' => keqb k k'
  | u_ k, u_ k' => keqb k k'
  | e_ t, e_ t' => keqb t t'
  | PL_, PL_ => true
  | Maximum_Deviation, Maximum_Deviation => true
  | _, _ => false
  end.

Definition keys (a : LpAffineExpression) : list LpVariable :=
  map fst (filter (fun '(_, k) => negb (Qeq_bool k 0)) (terms a)).

(** [expr.isNumericalConstant()] *)
Definition isNumericalConstant (a : LpAffineExpression) : bool :=
  match keys a with [] => true | _ :: _ => false end.

(** The variables of the problem that is solved: those of the objective
    and of the constraints.  [solve] sets [varValue] for these; for any
    other variable it stays [None]. *)
Definition has_value (m : LpProblem) (x : LpVariable) : bool :=
  existsb (fun y => var_name_eqb (name y) (name x))
    (match objective m with Some a => keys a | None => [] end ++
     flat_map (fun c => keys (c_expr c)) (constraints m)).

(** [pl.value(x)] on a variable, after [m.solve()]. *)
Definition value_of (m : LpProblem) (sol : Solved) (x : LpVariable)
  : option Q :=
  if has_value m x then Some (varValue sol (name x)) else None.

(** [pl.value(m.objective)] after [m.solve()].  To solve a problem whose
    objective is a constant, PuLP adds a dummy variable to the objective,
    and takes it out again with coefficient zero; the dummy variable is
    never given a value, so the value of such an objective is [None]. *)
Definition value_of_objective (m : LpProblem) (sol : Solved) : option Q :=
  match objective m with
  | Some a =>
      if isNumericalConstant a then None else Some (value (varValue sol) a)
  | None => None
  end.

End Pulp.

Import Pulp.

(* ================================================================== *)
(** ** The parameters ([data_manager.py]) *)

Module DataManager.

(** The attributes the optimisation core reads.  [machine_dependencies]
    is what [get_machine_dependencies()] returns. *)
Record t : Type := {
I : Z;
T : Z;
S : Z;
R : dict (Z * Z) Q;
N : dict (Z * Z) Z;
E : dict (Z * Z) Z;
L : dict (Z * Z) Z;
c : dict Z Q;
o : dict Z Q;
alpha : Q;
A : dict Z Q;
machine_dependencies : dict (Z * Z) Z
}.

Definition get_machine_dependencies (dm : t) : dict (Z * Z) Z :=
machine_dependencies dm.

End DataManager.

Abbreviation DataManager := DataManager.t.

(* ================================================================== *)
(** ** [model_builder.py] *)

Module ModelBuilder.

Definition triple_dict := dict (Z * Z * Z) LpVariable.

(** [[(i, t, s) for i in range(1, I + 1) for t in range(1, T + 1)
      for s in range(1, S + 1)]] *)
Definition triples (I T S : Z) : list (Z * Z * Z) :=
flat_map (fun i =>
  flat_map (fun t =>
    map (fun s => (i, t, s)) (range 1 (S + 1)))
  (range 1 (T + 1)))
(range 1 (I + 1)).

(** [[(s, i) for s in range(1, S + 1) for i in range(1, I + 1)]] *)
Definition pairs (n m : Z) : list (Z * Z) :=
flat_map (fun a => map (fun b => (a, b)) (range 1 (m + 1))) (range 1 (n + 1)).

Definition _add_electricity_consumption_constraints
  (model : LpProblem) (e : dict Z LpVariable) (x : triple_dict)
  (R : dict (Z * Z) Q) (T S I : Z) : result LpProblem :=
for_ (range 1 (T + 1)) (fun t model =>
  et <- item e t ;;
  ts <- comprehension (fun '(s, i) =>
          xv <- item x (i, t, s) ;;
          Return (scale (get_default R (i, s) 0) (of_var xv)))
        (pairs S I) ;;
  Return (add_constraint model
            (constr (of_var et) EQ (lpSum ts) (Electricity_Consumption t))))
  model.

Definition _add_peak_load_constraints
  (model : LpProblem) (PL : LpVariable) (e : dict Z LpVariable) (T : Z)
  : result LpProblem :=
for_ (range 1 (T + 1)) (fun t model =>
  et <- item e t ;;
  Return (add_constraint model
            (constr (of_var PL) GE (of_var et) (Peak_Load t))))
  model.

(** The summand [R.get((i, s), 0) * (c.get(t, 0) * x[(i, t, s)] -
    o.get(t, 0) * y[(i, t, s)]) * alpha], shared by the budget constraint
    and the cost expression. *)
Definition cost_term (x y : triple_dict) (R : dict (Z * Z) Q)
  (c o : dict Z Q) (alpha : Q) (i t s : Z) : result LpAffineExpression :=
xv <- item x (i, t, s) ;;
yv <- item y (i, t, s) ;;
Return (scale alpha
         (scale (get_default R (i, s) 0)
            (sub (scale (get_default c t 0) (of_var xv))
                 (scale (get_default o t 0) (of_var yv))))).

Definition _add_budget_constraints
  (model : LpProblem) (x y : triple_dict) (R : dict (Z * Z) Q)
  (c o : dict Z Q) (alpha : Q) (A : dict Z Q) (T I S : Z)
  : result LpProblem :=
for_ (range 1 (S + 1)) (fun s model =>
  ts <- comprehension (fun '(t, i) => cost_term x y R c o alpha i t s)
        (pairs T I) ;;
  As <- item A s ;;
  Return (add_constraint model
            (constr (lpSum ts) LE (of_num As) (Budget_Constraint s))))
  model.

Definition _add_operation_duration_constraints
  (model : LpProblem) (x : triple_dict) (E L N : dict (Z * Z) Z) (S I : Z)
  : result LpProblem :=
for_ (range 1 (S + 1)) (fun s =>
  for_ (range 1 (I + 1)) (fun i model =>
    match get E (i, s), get L (i, s) with
    | Some Eis, Some Lis =>
        ts <- comprehension (fun t =>
                xv <- item x (i, t, s) ;; Return (of_var xv))
              (range Eis (Lis + 1)) ;;
        Return (add_constraint model
                  (constr (lpSum ts) GE
                     (of_num (inject_Z (get_default N (i, s) 0%Z)))
                     (Operation_Duration i s)))
    | _, _ => Return model
    end))
  model.

Definition _add_uninterruptible_operation_constraints
  (model : LpProblem) (x u : triple_dict) (S I T : Z) : result LpProblem :=
for_ (range 1 (S + 1)) (fun s =>
  for_ (range 1 (I + 1)) (fun i =>
    for_ (range 1 (T + 1)) (fun t model =>
      (* Constraint (7) *)
      xv <- item x (i, t, s) ;;
      uv <- item u (i, t, s) ;;
      let model := add_constraint model
        (constr (of_var xv) LE (sub (of_num 1) (of_var uv))
           (Uninterruptible_1 i t s)) in
      (* Constraint (8) - for t >= 2 *)
      model <- (if (2 <=? t)%Z then
                  xp <- item x (i, t - 1, s)%Z ;;
                  Return (add_constraint model
                    (constr (sub (of_var xp) (of_var xv)) LE (of_var uv)
                       (Uninterruptible_2 i t s)))
                else Return model) ;;
      (* Constraint (9) - for t >= 2 *)
      if (2 <=? t)%Z then
        up <- item u (i, t - 1, s)%Z ;;
        Return (add_constraint model
          (constr (of_var up) LE (of_var uv) (Uninterruptible_3 i t s)))
      else Return model)))
  model.

Definition _add_machine_dependency_constraints
  (model : LpProblem) (x u : triple_dict)
  (machine_dependencies : dict (Z * Z) Z) (T : Z) : result LpProblem :=
for_ (items machine_dependencies) (fun '((i, s), i_star) =>
  for_ (range 1 (T + 1)) (fun t model =>
    xv <- item x (i, t, s) ;;
    uv <- item u (i_star, t, s) ;;
    Return (add_constraint model
      (constr (of_var xv) LE (of_var uv)
         (Precedence_Constraint i i_star t s)))))
  model.

Definition _add_incentive_constraints
  (model : LpProblem) (x y : triple_dict) (S I T : Z) : result LpProblem :=
for_ (range 1 (S + 1)) (fun s =>
  for_ (range 1 (I + 1)) (fun i =>
    for_ (range 1 (T + 1)) (fun t model =>
      yv <- item y (i, t, s) ;;
      xv <- item x (i, t, s) ;;
      Return (add_constraint model
        (constr (of_var yv) LE (of_var xv) (Incentive_Constraint i t s))))))
  model.

(** What [build_base_model] returns: [model, x, y, u, e, PL]. *)
Record base : Type := {
model : LpProblem;
x : triple_dict;
y : triple_dict;
u : triple_dict;
e : dict Z LpVariable;
PL : LpVariable
}.

Definition build_base_model (data_manager : DataManager) (nm : model_name)
  : result base :=
let model := new_problem nm in
let I := DataManager.I data_manager in
let T := DataManager.T data_manager in
let S := DataManager.S data_manager in
let R := DataManager.R data_manager in
let E := DataManager.E data_manager in
let L := DataManager.L data_manager in
let N := DataManager.N data_manager in
let c := DataManager.c data_manager in
let o := DataManager.o data_manager in
let alpha := DataManager.alpha data_manager in
let A := DataManager.A data_manager in
let x := LpVariable_dicts x_ (triples I T S) None LpBinary in
let y := LpVariable_dicts y_ (triples I T S) None LpBinary in
let u := LpVariable_dicts u_ (triples I T S) None LpBinary in
let e := LpVariable_dicts e_ (range 1 (T + 1)) (Some 0) LpContinuous in
let PL := {| name := PL_; lowBound := Some 0; cat := LpContinuous |} in
model <- _add_electricity_consumption_constraints model e x R T S I ;;
model <- _add_peak_load_constraints model PL e T ;;
model <- _add_budget_constraints model x y R c o alpha A T I S ;;
model <- _add_operation_duration_constraints model x E L N S I ;;
model <- _add_uninterruptible_operation_constraints model x u S I T ;;
model <- _add_machine_dependency_constraints model x u
           (DataManager.get_machine_dependencies data_manager) T ;;
model <- _add_incentive_constraints model x y S I T ;;
Return {| model := model; x := x; y := y; u := u; e := e; PL := PL |}.

End ModelBuilder.

(** The decimal literals of the source. *)
Definition lit_1_5 : Q := 3 # 2.
Definition lit_1_001 : Q := 1001 # 1000.
Definition lit_1_1 : Q := 11 # 10.
Definition lit_0_1 : Q := 1 # 10.
Definition lit_0_001 : Q := 1 # 1000.
Definition lit_0_5 : Q := 1 # 2.

(** [pl.value(variable)], for a variable that has a value. *)
Definition var_value (sol : Solved) (x : LpVariable) : Q :=
varValue sol (name x).

(** [f"{v:.2f}"]: formatting [None] raises [TypeError].  The text is
    printed and plays no further part. *)
Definition format_2f (v : option Q) : result unit :=
match v with
| Some _ => Return tt
| None => Raise TypeError
end.

(* ================================================================== *)
(** ** [objectives.py] *)

Module ObjectiveManager.

Import ModelBuilder.

Section WithSolver.

(** [model.solve(pl.PULP_CBC_CMD(msg=False))] *)
Variable solve : LpProblem -> Solved.
Variable data_manager : DataManager.

Definition calculate_EC_expression (x y : triple_dict)
  : result LpAffineExpression :=
let R := DataManager.R data_manager in
let c := DataManager.c data_manager in
let o := DataManager.o data_manager in
let alpha := DataManager.alpha data_manager in
let S := DataManager.S data_manager in
let T := DataManager.T data_manager in
let I := DataManager.I data_manager in
ts <- comprehension (fun '(s, t, i) => cost_term x y R c o alpha i t s)
        (triples S T I) ;;
Return (lpSum ts).

Definition get_EC_ideal : result (option Q) :=
b <- build_base_model data_manager EC_Ideal ;;
electricity_cost <- calculate_EC_expression (x b) (y b) ;;
let model := set_objective (model b) electricity_cost in
let sol := solve model in
if is_optimal (status sol)
then Return (value_of_objective model sol)
else Return None.

Definition get_PL_ideal : result (option Q) :=
b <- build_base_model data_manager PL_Ideal ;;
let model := set_objective (model b) (of_var (PL b)) in
let sol := solve model in
if is_optimal (status sol)
then Return (value_of_objective model sol)
else Return None.

(** The model of the EC-only calibration solve, with its variables. *)
Definition EC_Only_model : result (LpProblem * base) :=
b <- build_base_model data_manager EC_Only ;;
ec <- calculate_EC_expression (x b) (y b) ;;
Return (set_objective (model b) ec, b).

(** The model of the PL-only calibration solve, with its variables. *)
Definition PL_Only_model : result (LpProblem * base) :=
b <- build_base_model data_manager PL_Only ;;
Return (set_objective (model b) (of_var (PL b)), b).

(** Lines 113-127: the nadir estimates before the equal-case
    perturbation.  The variables of the cost expression are those of the
    incentive constraints of the model, so they have values; the
    peak-load variable has one in [model_EC] only when a constraint holds
    it, and [None * 1.5] and [max(None, ...)] raise [TypeError]. *)
Definition estimate_nadir (EC_ideal PL_ideal : Q)
  (model_EC : LpProblem) (sol_EC : Solved) (b_EC : base)
  (model_PL : LpProblem) (sol_PL : Solved) (b_PL : base)
  : result (Q * Q) :=
if is_optimal (status sol_EC) && is_optimal (status sol_PL) then
  ec <- calculate_EC_expression (x b_EC) (y b_EC) ;;
  let EC_from_EC_opt := value (varValue sol_EC) ec in
  let PL_from_EC_opt := value_of model_EC sol_EC (PL b_EC) in
  ec' <- calculate_EC_expression (x b_PL) (y b_PL) ;;
  let EC_from_PL_opt := value (varValue sol_PL) ec' in
  let PL_from_PL_opt := value_of model_PL sol_PL (PL b_PL) in
  let EC_nadir := Py.max EC_from_PL_opt (EC_from_EC_opt * lit_1_5) in
  match PL_from_PL_opt, PL_from_EC_opt with
  | Some PL_from_PL_opt, Some PL_from_EC_opt =>
      Return (EC_nadir, Py.max PL_from_EC_opt (PL_from_PL_opt * lit_1_5))
  | _, _ => Raise TypeError
  end
else
  Return (if truthy EC_ideal then EC_ideal * 2 else 100,
          if truthy PL_ideal then PL_ideal * 2 else 20).

(** Lines 129-133: [if nadir == ideal: nadir = ideal * 1.1 + 0.1]. *)
Definition perturb (ideal nadir : Q) : Q :=
if Qeq_bool nadir ideal then ideal * lit_1_1 + lit_0_1 else nadir.

Definition get_nadir_points : result (Q * Q * Q * Q) :=
r <- get_EC_ideal ;;
let EC_ideal := or_ r 0 in
r <- get_PL_ideal ;;
let PL_ideal := or_ r 0 in
' (model_EC, b_EC) <- EC_Only_model ;;
let sol_EC := solve model_EC in
' (model_PL, b_PL) <- PL_Only_model ;;
let sol_PL := solve model_PL in
' (EC_nadir, PL_nadir) <-
    estimate_nadir EC_ideal PL_ideal model_EC sol_EC b_EC
      model_PL sol_PL b_PL ;;
let EC_nadir := perturb EC_ideal EC_nadir in
let PL_nadir := perturb PL_ideal PL_nadir in
Return (EC_ideal, PL_ideal, EC_nadir, PL_nadir).

Definition get_normalization_factors : result (Q * Q * Q * Q) :=
' (EC_ideal, PL_ideal, EC_nadir, PL_nadir) <- get_nadir_points ;;
EC_norm <- Py.div 1 (EC_nadir - EC_ideal) ;;
PL_norm <- Py.div 1 (PL_nadir - PL_ideal) ;;
Return (EC_ideal, PL_ideal, EC_norm, PL_norm).

End WithSolver.

End ObjectiveManager.

(* ================================================================== *)
(** ** [results_manager.py]: [ResultExtractor] *)

Module ResultExtractor.

Import ModelBuilder.

Record schedule_row : Type := {
SystemID : Z;
MachineID : Z;
TimeSlot : Z;
Status : Z;
Power : Q
}.

(** The dictionary [extract_results] returns. *)
Record results : Type := {
EC : Q;
PL : Q;
Schedule : list schedule_row;
LoadProfile : dict Z Q
}.

Section WithData.

Variable data_manager : DataManager.

(** The variables carry the values of the solve [sol].  The variables
    [x], [y] and [e] that are read are those of the incentive and
    consumption constraints of the solved model, so each has a value and
    the [is not None] tests of the source hold. *)
Definition _calculate_EC_value (sol : Solved) (x y : triple_dict)
  : result Q :=
let R := DataManager.R data_manager in
let c := DataManager.c data_manager in
let o := DataManager.o data_manager in
let alpha := DataManager.alpha data_manager in
let S := DataManager.S data_manager in
let T := DataManager.T data_manager in
let I := DataManager.I data_manager in
for_ (range 1 (S + 1)) (fun s =>
  for_ (range 1 (I + 1)) (fun i =>
    for_ (range 1 (T + 1)) (fun t cost =>
      if contains R (i, s) then
        xv <- item x (i, t, s) ;;
        yv <- item y (i, t, s) ;;
        let x_val := var_value sol xv in
        let y_val := var_value sol yv in
        Return (cost + get_default R (i, s) 0
                       * (get_default c t 0 * x_val
                          - get_default o t 0 * y_val) * alpha)
      else Return cost)))
  0.

Definition _extract_schedule (sol : Solved) (x : triple_dict)
  : result (list schedule_row) :=
let S := DataManager.S data_manager in
let I := DataManager.I data_manager in
let T := DataManager.T data_manager in
let R := DataManager.R data_manager in
for_ (range 1 (S + 1)) (fun s =>
  for_ (range 1 (I + 1)) (fun i =>
    for_ (range 1 (T + 1)) (fun t schedule =>
      if contains R (i, s) then
        xv <- item x (i, t, s) ;;
        let status := var_value sol xv in
        if negb (Qle_bool status lit_0_5) then
          Return (schedule ++
                  [{| SystemID := s; MachineID := i; TimeSlot := t;
                      Status := 1; Power := get_default R (i, s) 0 |}])
        else
          Return (schedule ++
                  [{| SystemID := s; MachineID := i; TimeSlot := t;
                      Status := 0; Power := 0 |}])
      else Return schedule)))
  [].

Definition _calculate_load_profile (sol : Solved) (e : dict Z LpVariable)
  : result (dict Z Q) :=
let T := DataManager.T data_manager in
for_ (range 1 (T + 1)) (fun t load_profile =>
  et <- item e t ;;
  Return (set_item load_profile t (var_value sol et)))
  [].

(** [None] is the failure value.  [PL] holds the value of the peak-load
    variable when it has one; when it has none, the entry of the
    dictionary is [None], which the callers fail to format (see [report]
    below). *)
Definition extract_results (sol : Solved) (x y : triple_dict)
  (e : dict Z LpVariable) (PL : LpVariable) : result (option results) :=
if negb (is_optimal (status sol)) then Return None
else
  EC <- _calculate_EC_value sol x y ;;
  let peak_load := var_value sol PL in
  schedule <- _extract_schedule sol x ;;
  load_profile <- _calculate_load_profile sol e ;;
  Return (Some {| EC := EC; PL := peak_load; Schedule := schedule;
                  LoadProfile := load_profile |}).

End WithData.

End ResultExtractor.

(* ================================================================== *)
(** ** [optimization_approaches.py] *)

Module OptimizationApproaches.

Import ModelBuilder ObjectiveManager.

Section WithSolver.

Variable solve : LpProblem -> Solved.
Variable data_manager : DataManager.

Let extract_results := ResultExtractor.extract_results data_manager.
Let calculate_EC_expression := calculate_EC_expression data_manager.

(** [if results: print(f"... EC: {results['EC']:.2f}, PL:
    {results['PL']:.2f}")], then [return results]: [results['PL']] is
    what [pl.value(PL)] gave after the solve of [model]. *)
Definition report (model : LpProblem) (PL : LpVariable)
  (results : option ResultExtractor.results)
  : result (option ResultExtractor.results) :=
match results with
| Some r =>
    _ <- format_2f (Some (ResultExtractor.EC r)) ;;
    _ <- format_2f (if has_value model PL
                    then Some (ResultExtractor.PL r) else None) ;;
    Return results
| None => Return results
end.

(** The model of step 1 of the EC-first approach. *)
Definition EC_first_model1 : result LpProblem :=
b1 <- build_base_model data_manager PR_EC_First_Step1 ;;
electricity_cost <- calculate_EC_expression (x b1) (y b1) ;;
Return (set_objective (model b1) electricity_cost).

(** The model of step 2 of the EC-first approach. *)
Definition EC_first_model2 (optimal_EC : Q) : result (LpProblem * base) :=
b2 <- build_base_model data_manager PR_EC_First_Step2 ;;
ec <- calculate_EC_expression (x b2) (y b2) ;;
let model2 := add_constraint (model b2)
  (constr ec LE (of_num (optimal_EC * lit_1_001)) Maintain_Optimal_EC) in
Return (set_objective model2 (of_var (PL b2)), b2).

Definition solve_preemptive_EC_first
  : result (option ResultExtractor.results) :=
(* Step 1: Optimize EC alone *)
model1 <- EC_first_model1 ;;
let sol1 := solve model1 in
if negb (is_optimal (status sol1)) then Return None
else
  let optimal_EC := value_of_objective model1 sol1 in
  _ <- format_2f optimal_EC ;;
  match optimal_EC with
  | None => Raise TypeError
  | Some optimal_EC =>
      (* Step 2: Optimize PL while maintaining optimal EC *)
      ' (model2, b2) <- EC_first_model2 optimal_EC ;;
      let sol2 := solve model2 in
      results <- extract_results sol2 (x b2) (y b2) (e b2) (PL b2) ;;
      report model2 (PL b2) results
  end.

(** The model of step 1 of the PL-first approach. *)
Definition PL_first_model1 : result (LpProblem * base) :=
b1 <- build_base_model data_manager PR_PL_First_Step1 ;;
Return (set_objective (model b1) (of_var (PL b1)), b1).

(** The model of step 2 of the PL-first approach. *)
Definition PL_first_model2 (optimal_PL : Q) : result (LpProblem * base) :=
b2 <- build_base_model data_manager PR_PL_First_Step2 ;;
let model2 := add_constraint (model b2)
  (constr (of_var (PL b2)) LE (of_num (optimal_PL * lit_1_001))
     Maintain_Optimal_PL) in
electricity_cost <- calculate_EC_expression (x b2) (y b2) ;;
Return (set_objective model2 electricity_cost, b2).

Definition solve_preemptive_PL_first
  : result (option ResultExtractor.results) :=
' (model1, b1) <- PL_first_model1 ;;
let sol1 := solve model1 in
if negb (is_optimal (status sol1)) then Return None
else
  let optimal_PL := value_of model1 sol1 (PL b1) in
  _ <- format_2f optimal_PL ;;
  match optimal_PL with
  | None => Raise TypeError
  | Some optimal_PL =>
      ' (model2, b2) <- PL_first_model2 optimal_PL ;;
      let sol2 := solve model2 in
      results <- extract_results sol2 (x b2) (y b2) (e b2) (PL b2) ;;
      report model2 (PL b2) results
  end.

(** The model the weighted-sum approach solves. *)
Definition weighted_sum_model (w_EC w_PL EC_ideal PL_ideal EC_norm PL_norm : Q)
  : result (LpProblem * base) :=
b <- build_base_model data_manager Weighted_Sum ;;
electricity_cost <- calculate_EC_expression (x b) (y b) ;;
let EC_normalized := scale EC_norm (sub electricity_cost (of_num EC_ideal)) in
let PL_normalized := scale PL_norm (sub (of_var (PL b)) (of_num PL_ideal)) in
let weighted_objective :=
  add (scale w_EC EC_normalized) (scale w_PL PL_normalized) in
Return (set_objective (model b) weighted_objective, b).

Definition solve_weighted_sum (w_EC w_PL : Q)
  : result (option ResultExtractor.results) :=
' (EC_ideal, PL_ideal, EC_norm, PL_norm) <-
    get_normalization_factors solve data_manager ;;
' (model, b) <- weighted_sum_model w_EC w_PL EC_ideal PL_ideal
                  EC_norm PL_norm ;;
let sol := solve model in
results <- extract_results sol (x b) (y b) (e b) (PL b) ;;
report model (PL b) results.

Definition max_dev : LpVariable :=
{| name := Maximum_Deviation; lowBound := Some 0; cat := LpContinuous |}.

(** The model the compromise-programming approach solves. *)
Definition compromise_model (w_EC w_PL EC_ideal PL_ideal : Q)
  : result (LpProblem * base) :=
b <- build_base_model data_manager Compromise_Programming ;;
electricity_cost <- calculate_EC_expression (x b) (y b) ;;
dEC <- divide (sub electricity_cost (of_num EC_ideal))
         (Py.max EC_ideal lit_0_001) ;;
let model := add_constraint (model b)
  (constr (scale w_EC dEC) LE (of_var max_dev) EC_Deviation_Constraint) in
dPL <- divide (sub (of_var (PL b)) (of_num PL_ideal))
         (Py.max PL_ideal lit_0_001) ;;
let model := add_constraint model
  (constr (scale w_PL dPL) LE (of_var max_dev) PL_Deviation_Constraint) in
Return (set_objective model (of_var max_dev), b).

Definition solve_compromise_programming (w_EC w_PL : Q)
  : result (option ResultExtractor.results) :=
r <- get_EC_ideal solve data_manager ;;
let EC_ideal := or_ r lit_0_1 in
r <- get_PL_ideal solve data_manager ;;
let PL_ideal := or_ r lit_0_1 in
' (model, b) <- compromise_model w_EC w_PL EC_ideal PL_ideal ;;
let sol := solve model in
results <- extract_results sol (x b) (y b) (e b) (PL b) ;;
report model (PL b) results.

End WithSolver.

End OptimizationApproaches.

(* ================================================================== *)
(** ** [utils.py] *)

Module Utils.

Import String Ascii.
#[local] Open Scope string_scope.

(** [int(x)] on a number: truncation toward zero. *)
Definition int (q : Q) : Z := Z.quot (Qnum q) (Z.pos (Qden q)).

(** [str(n)]: the decimal digits of an integer, after its sign. *)
Definition str (n : Z) : string :=
DecimalString.NilZero.string_of_int (Z.to_int n).

(** [f"{n:02d}"]: the decimal presentation, zero-padded to two
    characters. *)
Definition format_02d (n : Z) : string :=
if (0 <=? n)%Z && (n <? 10)%Z then ("0" ++ str n)%string else str n.

Definition convert_time_slot_to_time (time_slot slot_duration_minutes : Q)
  : string :=
let time_slot := int time_slot in
let slot_duration_minutes := int slot_duration_minutes in
let minutes_since_midnight := ((time_slot - 1) * slot_duration_minutes)%Z in
let hours := (minutes_since_midnight / 60)%Z in
let minutes := (minutes_since_midnight mod 60)%Z in
let hours := (hours mod 24)%Z in
(format_02d hours ++ ":" ++ format_02d minutes)%string.

End Utils.

(* ================================================================== *)
(** ** [schedule_formatter.py]

  The data frames are lists of rows; the sheet round trip between
  [save_results_to_sheets] and [load_data] is the identity on them.
  [sort_values('TimeSlot')] is a parameter: pandas does not say how rows
  of equal [TimeSlot] are ordered.  [None] stands for a raised
  [KeyError], [IndexError] or [ValueError]. *)

Module ScheduleFormatter.

Import String Ascii Utils.
#[local] Open Scope string_scope.
#[local] Open Scope list_scope.

(** [range(a, b, step)] for a positive step. *)
Definition range3 (a b step : Z) : list Z :=
map (fun k => (a + Z.of_nat k * step)%Z)
    (seq 0 (Z.to_nat ((b - a + step - 1) / step))).

(** [df[columns].drop_duplicates()]: the first occurrence of each row is
    kept. *)
Fixpoint drop_duplicates_from {A} (eqb : A -> A -> bool) (seen l : list A)
  : list A :=
match l with
| [] => []
| a :: l' =>
    if existsb (eqb a) seen then drop_duplicates_from eqb seen l'
    else a :: drop_duplicates_from eqb (a :: seen) l'
end.

Definition drop_duplicates {A} (eqb : A -> A -> bool) (l : list A) : list A :=
drop_duplicates_from eqb [] l.

(** A row of the [Machines] frame as [iterrows] yields it: [SystemID]
    and [MachineID] are [int(row['SystemID'])] and [int(row['MachineID'])],
    [MachineID_text] is the text of [row['MachineID']] in an f-string, and
    [MachineName] is [None] when the sheet has no such column.  [iterrows]
    gives the cells of a row one common type, so the text of machine 1 is
    [1] in a row of integers and [1.0] in a row that pandas has turned
    into floats (a frame of numbers with a float column, such as a rated
    power of 37.5). *)
Record machine_row : Type := {
SystemID : Z;
MachineID : Z;
MachineID_text : string;
MachineName : option string
}.

(** An entry of [operation_periods]. *)
Record period : Type := {
p_SystemID : Z;
p_MachineID : Z;
p_MachineName : string;
StartSlot : Z;
EndSlot : Z;
StartTime : string;
EndTime : string;
DurationSlots : Z;
DurationMinutes : Q;
Power : Q;
EnergyConsumption : Q
}.

Section Formatter.

Variable sort_values :
  list ResultExtractor.schedule_row -> list ResultExtractor.schedule_row.
Variable schedule_df : list ResultExtractor.schedule_row.
Variable machines_df : list machine_row.
Variable slot_duration_minutes : Q.

(** Lines 71-75: [row.get('MachineName', f"Machine {row['MachineID']}")]. *)
Definition machine_names : dict (Z * Z) string :=
fold_left (fun machine_names row =>
    let key := (SystemID row, MachineID row) in
    let name := match MachineName row with
                | Some n => n
                | None => ("Machine " ++ MachineID_text row)%string
                end in
    set_item machine_names key name)
  machines_df [].

(** Lines 98-107: the slots at which the status differs from the
    previous one, with the new status. *)
Definition status_changes
  (machine_schedule : list ResultExtractor.schedule_row) : list (Z * Z) :=
fst (fold_left (fun '(status_changes, prev_status) row =>
       let time_slot := ResultExtractor.TimeSlot row in
       let status := ResultExtractor.Status row in
       if negb (status =? prev_status)%Z
       then (status_changes ++ [(time_slot, status)], status)
       else (status_changes, prev_status))
     machine_schedule ([], 0%Z)).

(** Lines 119-123. *)
Definition power_of
  (machine_schedule : list ResultExtractor.schedule_row) : Q :=
match filter (fun row => (ResultExtractor.Status row =? 1)%Z)
             machine_schedule with
| power_row :: _ => ResultExtractor.Power power_row
| [] => 0
end.

(** Lines 109-142: the periods of one machine. *)
Definition machine_periods (system_id machine_id : Z) (machine_name : string)
  (machine_schedule : list ResultExtractor.schedule_row)
  : option (list period) :=
let status_changes := status_changes machine_schedule in
let len := Z.of_nat (List.length status_changes) in
fold_left (fun acc i =>
    match acc with
    | None => None
    | Some operation_periods =>
        if (i + 1 <? len)%Z then
          match nth_error status_changes (Z.to_nat i),
                nth_error status_changes (Z.to_nat (i + 1)) with
          | Some first, Some second =>
              let start_slot := fst first in
              let end_slot := (fst second - 1)%Z in
              let start_time :=
                convert_time_slot_to_time (inject_Z start_slot)
                  slot_duration_minutes in
              let end_time :=
                convert_time_slot_to_time (inject_Z (end_slot + 1))
                  slot_duration_minutes in
              let power := power_of machine_schedule in
              let duration_slots := (end_slot - start_slot + 1)%Z in
              let duration_minutes :=
                inject_Z duration_slots * slot_duration_minutes in
              Some (operation_periods ++
                [{| p_SystemID := system_id;
                    p_MachineID := machine_id;
                    p_MachineName := machine_name;
                    StartSlot := start_slot;
                    EndSlot := end_slot;
                    StartTime := start_time;
                    EndTime := end_time;
                    DurationSlots := duration_slots;
                    DurationMinutes := duration_minutes;
                    Power := power;
                    EnergyConsumption :=
                      power * (inject_Z duration_slots
                               * slot_duration_minutes / 60) |}])
          | _, _ => None
          end
        else Some operation_periods
    end)
  (range3 0 (len - 1) 2) (Some []).

(** Lines 61-154.  The frame of an [OptimizedSchedule] sheet without
    records has no columns, and line 81 raises [KeyError] on it. *)
Definition format_schedule : option (list period) :=
let machine_names := machine_names in
match schedule_df with
| [] => None
| _ :: _ =>
let system_machines :=
  drop_duplicates (fun a b : Z * Z => keqb a b)
    (map (fun row => (ResultExtractor.SystemID row,
                      ResultExtractor.MachineID row)) schedule_df) in
fold_left (fun acc '(system_id, machine_id) =>
    match acc with
    | None => None
    | Some operation_periods =>
        let machine_schedule :=
          sort_values
            (filter (fun row =>
               (ResultExtractor.SystemID row =? system_id)%Z
               && (ResultExtractor.MachineID row =? machine_id)%Z)
             schedule_df) in
        let machine_name :=
          get_default machine_names (system_id, machine_id)
            ("Machine " ++ str machine_id)%string in
        match machine_periods system_id machine_id machine_name
                machine_schedule with
        | Some ps => Some (operation_periods ++ ps)
        | None => None
        end
    end)
  system_machines (Some [])
end.

End Formatter.

(** [s.split(sep)] for a separator of one character. *)
Fixpoint split (sep : ascii) (s : string) : list string :=
match s with
| EmptyString => [EmptyString]
| String c s' =>
    if Ascii.eqb c sep then EmptyString :: split sep s'
    else match split sep s' with
         | w :: ws => String c w :: ws
         | [] => [String c EmptyString]
         end
end.

Definition digit_of (c : ascii) : option Z :=
let n := Z.of_nat (nat_of_ascii c) in
if (48 <=? n)%Z && (n <=? 57)%Z then Some (n - 48)%Z else None.

Fixpoint digits_value (acc : Z) (s : string) : option Z :=
match s with
| EmptyString => Some acc
| String c s' =>
    match digit_of c with
    | Some d => digits_value (10 * acc + d)%Z s'
    | None => None
    end
end.

(** [int(s)] on a string, for the plain form: an optional sign and
    decimal digits.  (Python also accepts surrounding blanks and
    underscores between digits; these give [None] here, as the strings
    it rejects do.) *)
Definition int_of_str (s : string) : option Z :=
match s with
| EmptyString => None
| String c s' =>
    if Ascii.eqb c "-" then
      match s' with
      | EmptyString => None
      | _ => option_map Z.opp (digits_value 0 s')
      end
    else if Ascii.eqb c "+" then
      match s' with
      | EmptyString => None
      | _ => digits_value 0 s'
      end
    else digits_value 0 s
end.

(** Lines 268-271: [int(t.split(':')[0])] and [int(t.split(':')[1])]. *)
Definition hour_and_minute (t : string) : option (Z * Z) :=
let parts := split ":" t in
match nth_error parts 0, nth_error parts 1 with
| Some h, Some m =>
    match int_of_str h, int_of_str m with
    | Some hour, Some minute => Some (hour, minute)
    | _, _ => None
    end
| _, _ => None
end.

(** [row[k] = v] within bounds. *)
Fixpoint set_nth {A} (l : list A) (k : nat) (a : A) : option (list A) :=
match l, k with
| [], _ => None
| _ :: l', O => Some (a :: l')
| b :: l', S k' => option_map (cons b) (set_nth l' k' a)
end.

(** Lines 233-238. *)
Definition header : list string :=
"Machine/Time" ::
flat_map (fun hour =>
   map (fun minute => (format_02d hour ++ ":" ++ format_02d minute)%string)
       (range3 0 60 10))
  (range 0 24).

(** Lines 263-284: the cells one period marks in the row of its
    machine. *)
Definition mark_period (row : list string) (p : period)
  : option (list string) :=
match hour_and_minute (StartTime p), hour_and_minute (EndTime p) with
| Some (start_hour, start_minute), Some (end_hour, end_minute) =>
    let start_index := (start_hour * 6 + start_minute / 10)%Z in
    let end_index := (end_hour * 6 + end_minute / 10)%Z in
    let end_index :=
      if (0 <? end_minute mod 10)%Z then (end_index + 1)%Z else end_index in
    fold_left (fun acc interval =>
        match acc with
        | None => None
        | Some row =>
            if (0 <=? interval)%Z && (interval <? 144)%Z
            then set_nth row (Z.to_nat (interval + 1)) "ON"
            else Some row
        end)
      (range start_index end_index) (Some row)
| _, _ => None
end.

(** Line 241: [periods_df[[...]].drop_duplicates()]. *)
Definition machines (periods_df : list period) : list (Z * Z * string) :=
drop_duplicates
  (fun a b : Z * Z * string =>
     keqb (fst a) (fst b) && String.eqb (snd a) (snd b))
  (map (fun p => (p_SystemID p, p_MachineID p, p_MachineName p))
       periods_df).

(** Lines 240-289: the rows written to the [DailyScheduleView] sheet. *)
Definition daily_schedule_view (periods_df : list period)
  : option (list (list string)) :=
let machines := machines periods_df in
option_map (cons header)
  (fold_left (fun acc '(system_id, machine_id, machine_name) =>
      match acc with
      | None => None
      | Some data_rows =>
          let row :=
            ("System " ++ str system_id ++ " - " ++ machine_name)%string
            :: repeat EmptyString 144 in
          let machine_periods :=
            filter (fun p => (p_SystemID p =? system_id)%Z
                             && (p_MachineID p =? machine_id)%Z)
                   periods_df in
          match fold_left (fun acc p =>
                   match acc with
                   | None => None
                   | Some row => mark_period row p
                   end) machine_periods (Some row) with
          | Some row => Some (data_rows ++ [row])
          | None => None
          end
      end)
    machines (Some [])).

End ScheduleFormatter.

(* ================================================================== *)
(** ** [data_manager.py]: from the sheets to the parameters

  A sheet is the list of its rows, and a cell holds the number the code
  converts it to with [int] or [float]; a [PredecessorMachine] cell may
  be missing or NaN ([None]). *)

Module DataLoading.

Import String Utils Py.
#[local] Open Scope string_scope.
#[local] Open Scope list_scope.

#[export] Instance Key_string : Key string := {| keqb := String.eqb |}.

(** A row of the [Machines] sheet. *)
Record machine : Type := {
MachineID : Z;
SystemID : Z;
RatedPower : Q;
OperationSlots : Z;
EarlyTimeSlot : Z;
LateTimeSlot : Z;
PredecessorMachine : option Z
}.

(** A row of the [ToUPrices] sheet. *)
Record tou : Type := {
TimeSlot : Z;
Price : Q
}.

(** A row of the [Incentives] sheet. *)
Record incentive : Type := {
i_TimeSlot : Z;
Incentive : Q
}.

(** [{key(row): value(row) for _, row in df.iterrows()}] *)
Definition dict_of {A K V} `{Key K} (key : A -> K) (value : A -> V)
  (df : list A) : dict K V :=
fold_left (fun d row => set_item d (key row) (value row)) df [].

Definition lit_0_25 : Q := 1 # 4.
Definition lit_5000 : Q := 5000.

Section Loaded.

Variable machines_df : list machine.
Variable tou_df : list tou.
Variable incentive_df : list incentive.
Variable system_params : dict string Q.

Definition get_machine_dependencies : dict (Z * Z) Z :=
fold_left (fun machine_dependencies row =>
    match PredecessorMachine row with
    | Some predecessor_i =>
        let machine_i := MachineID row in
        let system_s := SystemID row in
        set_item machine_dependencies (machine_i, system_s) predecessor_i
    | None => machine_dependencies
    end)
  machines_df [].

(** The attributes [parse_parameters] sets, with what
    [get_machine_dependencies] returns on the same sheets, for a
    [Machines] sheet that has a record (the frame of a sheet without
    records has no [SystemID] column to count). *)
Definition parse_parameters : DataManager :=
let T := Z.of_nat (List.length tou_df) in
let I := Z.of_nat (List.length machines_df) in
let S :=
  Z.of_nat (List.length
    (ScheduleFormatter.drop_duplicates Z.eqb (map SystemID machines_df))) in
let key := fun row => (MachineID row, SystemID row) in
let R := dict_of key RatedPower machines_df in
let N := dict_of key OperationSlots machines_df in
let E := dict_of key EarlyTimeSlot machines_df in
let L := dict_of key LateTimeSlot machines_df in
let c := dict_of TimeSlot Price tou_df in
let o := dict_of i_TimeSlot Incentive incentive_df in
let alpha := get_default system_params "alpha" lit_0_25 in
let A :=
  fold_left (fun A s =>
      let budget_key := ("A_" ++ str s)%string in
      match get system_params budget_key with
      | Some budget => set_item A s budget
      | None => set_item A s lit_5000
      end)
    (range 1 (S + 1)) [] in
{| DataManager.I := I;
   DataManager.T := T;
   DataManager.S := S;
   DataManager.R := R;
   DataManager.N := N;
   DataManager.E := E;
   DataManager.L := L;
   DataManager.c := c;
   DataManager.o := o;
   DataManager.alpha := alpha;
   DataManager.A := A;
   DataManager.machine_dependencies := get_machine_dependencies |}.

End Loaded.

End DataLoading.

(* ================================================================== *)
(** ** [results_manager.py]: comparing and saving the results

  What [save_results_to_sheets] does is what it writes to the
  [OptimizedSchedule] sheet; the sheet operations themselves are taken to
  succeed. *)

Module ResultsManager.

Import String DataLoading Py.
#[local] Open Scope string_scope.
#[local] Open Scope list_scope.

(** A call that may fail on [None['EC']]. *)
Inductive outcome (A : Type) : Type :=
| Done (a : A)
| TypeError.
Arguments Done {A} a.
Arguments TypeError {A}.

(** The columns of the comparison table. *)
Record comparison : Type := {
Approach : list string;
c_EC : list Q;
c_PL : list Q
}.

Definition results_dict := dict string (option ResultExtractor.results).

(** The truth value of the results of an approach: [None] is false, the
    dictionary of [extract_results] is true. *)
Definition truth (results : option ResultExtractor.results) : bool :=
match results with
| Some _ => true
| None => false
end.

(** Lines 151-154 and 241-244. *)
Definition comparison_columns (results_dict : results_dict)
  : outcome comparison :=
fold_left (fun acc '(approach, results) =>
    match acc, results with
    | Done comparison, Some results =>
        Done {| Approach := Approach comparison ++ [approach];
                c_EC := c_EC comparison ++ [ResultExtractor.EC results];
                c_PL := c_PL comparison ++ [ResultExtractor.PL results] |}
    | _, _ => TypeError
    end)
  (items results_dict)
  (Done {| Approach := []; c_EC := []; c_PL := [] |}).

Definition compare_approaches (results_dict : results_dict)
  : outcome (option comparison) :=
if negb (forallb truth (map snd (items results_dict))) then Done None
else
  match comparison_columns results_dict with
  | Done comparison => Done (Some comparison)
  | TypeError => TypeError
  end.

(** The schedule written to the [OptimizedSchedule] sheet; [None] when
    the function returns [False] before writing it. *)
Definition save_results_to_sheets (results_dict : results_dict)
  : option (list ResultExtractor.schedule_row) :=
if negb (forallb truth (map snd (items results_dict))) then None
else
  match comparison_columns results_dict with
  | TypeError => None
  | Done comparison_df =>
      let selected_approach :=
        if contains results_dict "WS" then Some "WS"
        else option_map fst (nth_error (items results_dict) 0) in
      match selected_approach with
      | None => None
      | Some selected_approach =>
          match get results_dict selected_approach with
          | Some (Some results) => Some (ResultExtractor.Schedule results)
          | _ => None
          end
      end
  end.

End ResultsManager.

(* ================================================================== *)
(** ** [main.py] *)

Module Main.

Import String DataLoading ResultsManager OptimizationApproaches Py.
#[local] Open Scope string_scope.
#[local] Open Scope list_scope.

Definition lit_0_7 : Q := 7 # 10.
Definition lit_0_3 : Q := 3 # 10.

Section Main.

Variable solve : LpProblem -> Solved.
Variable machines_df : list machine.
Variable tou_df : list tou.
Variable incentive_df : list incentive.
Variable system_params : dict string Q.

(** The comparison table [main] prints and the schedule it has written,
    between loading the data and formatting the schedule. *)
Definition main
  : result (outcome (option comparison)
            * option (list ResultExtractor.schedule_row)) :=
let data_manager :=
  parse_parameters machines_df tou_df incentive_df system_params in
ec_first_results <- solve_preemptive_EC_first solve data_manager ;;
pl_first_results <- solve_preemptive_PL_first solve data_manager ;;
ws_results <- solve_weighted_sum solve data_manager lit_0_7 lit_0_3 ;;
cp_results <- solve_compromise_programming solve data_manager
                lit_0_5 lit_0_5 ;;
let all_results :=
  [("PR_EC_first", ec_first_results);
   ("PR_PL_first", pl_first_results);
   ("WS", ws_results);
   ("CP", cp_results)] in
let comparison_df := compare_approaches all_results in
Return (comparison_df, save_results_to_sheets all_results).

End Main.

End Main.

(* ================================================================== *)
(** ** Vocabulary of the properties *)

Module Spec.

Import ModelBuilder.

(** Decidable counterparts of [holds] and [in_domain], to check a
    concrete assignment by evaluation. *)
Definition holdsb (v : valuation) (c : LpConstraint) : bool :=
match c_sense c with
| LE => Qle_bool (value v (c_expr c)) 0
| EQ => Qeq_bool (value v (c_expr c)) 0
| GE => Qle_bool 0 (value v (c_expr c))
end.

Definition in_domainb (v : valuation) (x : LpVariable) : bool :=
match lowBound x with Some lb => Qle_bool lb (v (name x)) | None => true end
&& match cat x with
   | LpBinary => Qeq_bool (v (name x)) 0 || Qeq_bool (v (name x)) 1
   | LpContinuous => true
   end.

Definition feasibleb (m : LpProblem) (v : valuation) : bool :=
forallb (holdsb v) (constraints m) && forallb (in_domainb v) (variables m).

(** Later statements only add to a model. *)
Definition ext (m m' : LpProblem) : Prop :=
incl (constraints m) (constraints m') /\ objective m = objective m'
/\ p_name m = p_name m'.

(** The same model under another name. *)
Definition rename (nm : model_name) (m : LpProblem) : LpProblem :=
{| p_name := nm; objective := objective m; constraints := constraints m |}.

Definition rename_base (nm : model_name) (b : base) : base :=
{| model := rename nm (model b); x := x b; y := y b; u := u b; e := e b;
   PL := PL b |}.

Definition fmap {A B} (f : A -> B) (r : result A) : result B :=
match r with Raise e => Raise e | Return a => Return (f a) end.

(** The variable objects of the three per-slot families. *)
Definition xvar (i t s : Z) : LpVariable :=
{| name := x_ (i, t, s); lowBound := None; cat := LpBinary |}.
Definition yvar (i t s : Z) : LpVariable :=
{| name := y_ (i, t, s); lowBound := None; cat := LpBinary |}.
Definition uvar (i t s : Z) : LpVariable :=
{| name := u_ (i, t, s); lowBound := None; cat := LpBinary |}.

Definition plvar : LpVariable :=
{| name := PL_; lowBound := Some 0; cat := LpContinuous |}.

(** Machine [i] of system [s] is on at slot [t]. *)
Definition on (v : valuation) (i s t : Z) : Prop := v (x_ (i, t, s)) == 1.
Definition off (v : valuation) (i s t : Z) : Prop := v (x_ (i, t, s)) == 0.

(** The on-slots within [1..T] have no gap. *)
Definition contiguous (T : Z) (P : Z -> Prop) : Prop :=
forall t1 t2 t3 : Z,
  (1 <= t1 <= t2)%Z -> (t2 <= t3 <= T)%Z -> P t1 -> P t3 -> P t2.

(** [a..b] is an actual run of the machine: a maximal block of on-slots
    of the horizon [1..T]. *)
Definition run (T : Z) (v : valuation) (i s a b : Z) : Prop :=
(1 <= a <= b)%Z /\ (b <= T)%Z /\
(forall k, (a <= k <= b)%Z -> on v i s k) /\
(a = 1%Z \/ off v i s (a - 1)) /\
(b = T \/ off v i s (b + 1)).

(** The machine has completed a run ending at or before slot [t]. *)
Definition completed_by (T : Z) (v : valuation) (i s t : Z) : Prop :=
exists a b, run T v i s a b /\ (b <= t)%Z.

(** An assignment given by the per-slot variables that are 1, the load
    of each slot, the peak load and the maximum deviation. *)
Definition assignment (xs ys us : list (Z * Z * Z)) (es : dict Z Q)
  (pl md : Q) : valuation :=
fun n =>
  match n with
  | x_ k => if existsb (keqb k) xs then 1 else 0
  | y_ k => if existsb (keqb k) ys then 1 else 0
  | u_ k => if existsb (keqb k) us then 1 else 0
  | e_ t => get_default es t 0
  | PL_ => pl
  | Maximum_Deviation => md
  end.

(** The precedence property in its strong reading: a dependent machine
    is on only when its predecessor has completed an actual run. *)
Definition runs_after_completed_run (dm : DataManager) (v : valuation)
  : Prop :=
forall i s i_star t,
  get (DataManager.get_machine_dependencies dm) (i, s) = Some i_star ->
  (1 <= t <= DataManager.T dm)%Z ->
  on v i s t -> completed_by (DataManager.T dm) v i_star s t.

(** Per-slot variables exist only for rated (machine, system) pairs. *)
Definition only_rated_pairs (dm : DataManager) (b : base) : Prop :=
forall i t s,
  (contains (x b) (i, t, s) = true \/ contains (y b) (i, t, s) = true
   \/ contains (u b) (i, t, s) = true) ->
  contains (DataManager.R dm) (i, s) = true.

(** [dm] with another rated-power mapping. *)
Definition with_R (dm : DataManager) (R' : dict (Z * Z) Q) : DataManager :=
{| DataManager.I := DataManager.I dm;
   DataManager.T := DataManager.T dm;
   DataManager.S := DataManager.S dm;
   DataManager.R := R';
   DataManager.N := DataManager.N dm;
   DataManager.E := DataManager.E dm;
   DataManager.L := DataManager.L dm;
   DataManager.c := DataManager.c dm;
   DataManager.o := DataManager.o dm;
   DataManager.alpha := DataManager.alpha dm;
   DataManager.A := DataManager.A dm;
   DataManager.machine_dependencies := DataManager.machine_dependencies dm |}.

(** *** Sample inputs *)

(** Four slots, one system, two machines of 2 and 3 kW, the second
    depending on the first. *)
Definition dm_two_machines : DataManager :=
{| DataManager.I := 2;
   DataManager.T := 4;
   DataManager.S := 1;
   DataManager.R := [((1, 1)%Z, 2); ((2, 1)%Z, 3)];
   DataManager.N := [((1, 1), 2); ((2, 1), 1)]%Z;
   DataManager.E := [((1, 1), 1); ((2, 1), 1)]%Z;
   DataManager.L := [((1, 1), 4); ((2, 1), 4)]%Z;
   DataManager.c := [(1%Z, 1 # 10); (2%Z, 2 # 10); (3%Z, 3 # 10);
                     (4%Z, 4 # 10)];
   DataManager.o := [(1%Z, 0); (2%Z, 0); (3%Z, 0); (4%Z, 0)];
   DataManager.alpha := 1;
   DataManager.A := [(1%Z, 100)];
   DataManager.machine_dependencies := [((2, 1), 1)]%Z |}.

(** Machine 1 runs in slots 1-2, machine 2 in slot 3. *)
Definition v_two_machines : valuation :=
assignment [(1, 1, 1); (1, 2, 1); (2, 3, 1)]%Z []
           [(1, 3, 1); (1, 4, 1); (2, 4, 1)]%Z
           [(1%Z, 2); (2%Z, 2); (3%Z, 3); (4%Z, 0)] 3 0.

(** One slot, one system, two machines; machine 2 depends on machine 1,
    which has no slot to run ([OperationSlots] 0). *)
Definition dm_idle_predecessor : DataManager :=
{| DataManager.I := 2;
   DataManager.T := 1;
   DataManager.S := 1;
   DataManager.R := [((1, 1)%Z, 1); ((2, 1)%Z, 1)];
   DataManager.N := [((1, 1), 0); ((2, 1), 1)]%Z;
   DataManager.E := [((1, 1), 1); ((2, 1), 1)]%Z;
   DataManager.L := [((1, 1), 1); ((2, 1), 1)]%Z;
   DataManager.c := [(1%Z, 1)];
   DataManager.o := [(1%Z, 0)];
   DataManager.alpha := 1;
   DataManager.A := [(1%Z, 100)];
   DataManager.machine_dependencies := [((2, 1), 1)]%Z |}.

(** Machine 2 runs in slot 1; machine 1 never runs but its completed
    flag is set. *)
Definition v_idle_predecessor : valuation :=
assignment [(2, 1, 1)]%Z [] [(1, 1, 1)]%Z [(1%Z, 1)] 1 0.

(** Two systems with one machine each: the pairs (1,2) and (2,1) have no
    rated power. *)
Definition dm_two_systems : DataManager :=
{| DataManager.I := 2;
   DataManager.T := 1;
   DataManager.S := 2;
   DataManager.R := [((1, 1)%Z, 2); ((2, 2)%Z, 3)];
   DataManager.N := [((1, 1), 1); ((2, 2), 1)]%Z;
   DataManager.E := [((1, 1), 1); ((2, 2), 1)]%Z;
   DataManager.L := [((1, 1), 1); ((2, 2), 1)]%Z;
   DataManager.c := [(1%Z, 1)];
   DataManager.o := [(1%Z, 0)];
   DataManager.alpha := 1;
   DataManager.A := [(1%Z, 100); (2%Z, 100)];
   DataManager.machine_dependencies := [] |}.

(** A solver run that reports the assignment [v] as optimal. *)
Definition answers (v : valuation) : LpProblem -> Solved :=
fun _ => {| status := LpStatusOptimal; varValue := v |}.

(** A solver run that reports no solution. *)
Definition gives_up : LpProblem -> Solved :=
fun _ => {| status := LpStatusNotSolved; varValue := fun _ => 0 |}.

(** A solver run that fails on the EC ideal-point model and reports [v]
    as optimal everywhere else. *)
Definition answers_but_EC_ideal (v : valuation) : LpProblem -> Solved :=
fun m => match p_name m with EC_Ideal => gives_up m | _ => answers v m end.

(** A solver run that fails on the four calibration models and reports
    [v] as optimal everywhere else. *)
Definition answers_but_calibration (v : valuation) : LpProblem -> Solved :=
fun m =>
  match p_name m with
  | EC_Ideal | PL_Ideal | EC_Only | PL_Only => gives_up m
  | _ => answers v m
  end.

(** One machine that must run in the single slot, at price 3 and with
    an incentive [o1]; the budget 0 can only be met by claiming the
    incentive. *)
Definition dm_incentive (o1 : Q) : DataManager :=
{| DataManager.I := 1;
   DataManager.T := 1;
   DataManager.S := 1;
   DataManager.R := [((1, 1)%Z, 1)];
   DataManager.N := [((1, 1), 1)]%Z;
   DataManager.E := [((1, 1), 1)]%Z;
   DataManager.L := [((1, 1), 1)]%Z;
   DataManager.c := [(1%Z, 3)];
   DataManager.o := [(1%Z, o1)];
   DataManager.alpha := 1;
   DataManager.A := [(1%Z, 0)];
   DataManager.machine_dependencies := [] |}.

(** The machine runs and claims the incentive. *)
Definition v_incentive : valuation :=
assignment [(1, 1, 1)]%Z [(1, 1, 1)]%Z [] [(1%Z, 1)] 1 0.

(** Two slots, one system, three machines of 1 kW.  Machine 1 must run
    in slot 1 and machine 3 in slot 2; machines 2 and 3 depend on
    machine 1; machine 2 need not run.  Slot 1 is free and pays an
    incentive of 3, slot 2 costs 1.  The budget 0 can only be met by
    claiming the incentive of slot 1. *)
Definition dm_three_machines : DataManager :=
{| DataManager.I := 3;
   DataManager.T := 2;
   DataManager.S := 1;
   DataManager.R := [((1, 1)%Z, 1); ((2, 1)%Z, 1); ((3, 1)%Z, 1)];
   DataManager.N := [((1, 1), 1); ((2, 1), 0); ((3, 1), 1)]%Z;
   DataManager.E := [((1, 1), 1); ((2, 1), 1); ((3, 1), 2)]%Z;
   DataManager.L := [((1, 1), 1); ((2, 1), 2); ((3, 1), 2)]%Z;
   DataManager.c := [(1%Z, 0); (2%Z, 1)];
   DataManager.o := [(1%Z, 3); (2%Z, 0)];
   DataManager.alpha := 1;
   DataManager.A := [(1%Z, 0)];
   DataManager.machine_dependencies := [((2, 1), 1); ((3, 1), 1)]%Z |}.

(** Machine 1 in slot 1 with the incentive, machine 3 in slot 2,
    machine 2 idle: cost -2, peak load 1. *)
Definition v_machine2_idle : valuation :=
assignment [(1, 1, 1); (3, 2, 1)]%Z [(1, 1, 1)]%Z [(1, 2, 1)]%Z
           [(1%Z, 1); (2%Z, 1)] 1 0.

(** The same with machine 2 running in slot 2: cost -1, peak load 2. *)
Definition v_machine2_runs : valuation :=
assignment [(1, 1, 1); (3, 2, 1); (2, 2, 1)]%Z [(1, 1, 1)]%Z [(1, 2, 1)]%Z
           [(1%Z, 1); (2%Z, 2)] 2 0.

(** A solver run that reports [v_machine2_runs] for the weighted-sum
    model and [v_machine2_idle] for every other model. *)
Definition solver_three_machines : LpProblem -> Solved :=
fun m =>
  match p_name m with
  | Weighted_Sum => answers v_machine2_runs m
  | _ => answers v_machine2_idle m
  end.

(** What the constraints of [dm_three_machines] force: machine 1 runs in
    slot 1 only and claims the incentive, machine 3 runs in slot 2 only,
    machine 2 is off in slot 1 and free in slot 2, where it adds to the
    load. *)
Definition forced_three_machines (v : valuation) : Prop :=
v (x_ (1, 1, 1)%Z) == 1 /\ v (y_ (1, 1, 1)%Z) == 1 /\
v (x_ (2, 1, 1)%Z) == 0 /\ v (y_ (2, 1, 1)%Z) == 0 /\
v (x_ (3, 1, 1)%Z) == 0 /\ v (y_ (3, 1, 1)%Z) == 0 /\
v (x_ (1, 2, 1)%Z) == 0 /\ v (x_ (3, 2, 1)%Z) == 1 /\
(v (x_ (2, 2, 1)%Z) == 0 \/ v (x_ (2, 2, 1)%Z) == 1) /\
1 + v (x_ (2, 2, 1)%Z) <= v PL_.

(** One machine that must run in the single slot, at price zero. *)
Definition dm_free_power : DataManager :=
{| DataManager.I := 1;
   DataManager.T := 1;
   DataManager.S := 1;
   DataManager.R := [((1, 1)%Z, 1)];
   DataManager.N := [((1, 1), 1)]%Z;
   DataManager.E := [((1, 1), 1)]%Z;
   DataManager.L := [((1, 1), 1)]%Z;
   DataManager.c := [(1%Z, 0)];
   DataManager.o := [(1%Z, 0)];
   DataManager.alpha := 1;
   DataManager.A := [(1%Z, 100)];
   DataManager.machine_dependencies := [] |}.

Definition v_free_power : valuation :=
assignment [(1, 1, 1)]%Z [] [] [(1%Z, 1)] 1 0.

(** A horizon without slots: one system with the default budget and one
    machine whose operation window is empty. *)
Definition dm_no_slots : DataManager :=
{| DataManager.I := 1;
   DataManager.T := 0;
   DataManager.S := 1;
   DataManager.R := [((1, 1)%Z, 1)];
   DataManager.N := [((1, 1), 0)]%Z;
   DataManager.E := [((1, 1), 1)]%Z;
   DataManager.L := [((1, 1), 0)]%Z;
   DataManager.c := [];
   DataManager.o := [];
   DataManager.alpha := 1 # 4;
   DataManager.A := [(1%Z, 5000)];
   DataManager.machine_dependencies := [] |}.

(** What a correct solver guarantees for a model it reports optimal: the
    values are feasible and no feasible assignment has a smaller
    objective. *)
Definition optimum (m : LpProblem) (v : valuation) : Prop :=
feasible m v /\
forall v', feasible m v' -> objective_value m v <= objective_value m v'.

(** The solve of [m] ended optimal, with a true optimum. *)
Definition solved_optimally (solve : LpProblem -> Solved) (m : LpProblem)
  : Prop :=
status (solve m) = LpStatusOptimal /\ optimum m (varValue (solve m)).

(** The four calibration solves of [dm] (the two ideal points and the two
    single-objective solves of the nadir estimate) are solved correctly. *)
Definition calibration_solved (solve : LpProblem -> Solved)
  (dm : DataManager) : Prop :=
forall m_EC b_EC m_PL b_PL,
  ObjectiveManager.EC_Only_model dm = Return (m_EC, b_EC) ->
  ObjectiveManager.PL_Only_model dm = Return (m_PL, b_PL) ->
  solved_optimally solve m_EC /\
  solved_optimally solve (rename EC_Ideal m_EC) /\
  solved_optimally solve m_PL /\
  solved_optimally solve (rename PL_Ideal m_PL).

(** The scalarised solve of the weighted sum is solved correctly. *)
Definition weighted_sum_solved (solve : LpProblem -> Solved)
  (dm : DataManager) (w_EC w_PL : Q) : Prop :=
forall EC_ideal PL_ideal EC_norm PL_norm m b,
  ObjectiveManager.get_normalization_factors solve dm
  = Return (EC_ideal, PL_ideal, EC_norm, PL_norm) ->
  OptimizationApproaches.weighted_sum_model dm w_EC w_PL
    EC_ideal PL_ideal EC_norm PL_norm = Return (m, b) ->
  solved_optimally solve m.

(** A solver that may fail, but whose optimal answers are true optima. *)
Definition sound (solve : LpProblem -> Solved) (m : LpProblem) : Prop :=
status (solve m) = LpStatusOptimal -> optimum m (varValue (solve m)).

Definition calibration_sound (solve : LpProblem -> Solved)
  (dm : DataManager) : Prop :=
forall m_EC b_EC m_PL b_PL,
  ObjectiveManager.EC_Only_model dm = Return (m_EC, b_EC) ->
  ObjectiveManager.PL_Only_model dm = Return (m_PL, b_PL) ->
  sound solve m_EC /\ sound solve (rename EC_Ideal m_EC) /\
  sound solve m_PL /\ sound solve (rename PL_Ideal m_PL).

(** No feasible schedule has a negative cost (no incentive outweighs the
    price paid). *)
Definition nonnegative_costs (dm : DataManager) : Prop :=
forall m_EC b_EC v,
  ObjectiveManager.EC_Only_model dm = Return (m_EC, b_EC) ->
  feasible m_EC v -> 0 <= objective_value m_EC v.

(** An ideal that is [None] or zero: what [or] replaces by its default. *)
Definition unavailable (r : option Q) : Prop :=
match r with None => True | Some q => q == 0 end.

(** On the model [m], [solve'] answers as [solve] does, or fails where
    [solve] finds an optimum of value zero. *)
Definition same_or_fails_at_zero (solve solve' : LpProblem -> Solved)
  (m : LpProblem) : Prop :=
solve' m = solve m \/
(status (solve m) = LpStatusOptimal /\
 objective_value m (varValue (solve m)) == 0 /\
 is_optimal (status (solve' m)) = false).

(** [solve'] differs from [solve] only by failing on ideal-point models
    of [dm] whose optimum [solve] finds to be zero. *)
Definition fails_where_zero (solve solve' : LpProblem -> Solved)
  (dm : DataManager) : Prop :=
(forall m, p_name m <> EC_Ideal -> p_name m <> PL_Ideal ->
           solve' m = solve m) /\
(forall m b, ObjectiveManager.EC_Only_model dm = Return (m, b) ->
             same_or_fails_at_zero solve solve' (rename EC_Ideal m)) /\
(forall m b, ObjectiveManager.PL_Only_model dm = Return (m, b) ->
             same_or_fails_at_zero solve solve' (rename PL_Ideal m)).

(** The calibration solves of [get_nadir_points] did not both reach an
    optimal status. *)
Definition calibration_failed (solve : LpProblem -> Solved)
  (dm : DataManager) : Prop :=
exists m_EC b_EC m_PL b_PL,
  ObjectiveManager.EC_Only_model dm = Return (m_EC, b_EC) /\
  ObjectiveManager.PL_Only_model dm = Return (m_PL, b_PL) /\
  is_optimal (status (solve m_EC)) && is_optimal (status (solve m_PL))
  = false.

(** The strong reading of the failure rule for the weighted sum: a
    calibration solve that is not optimal makes the strategy fail. *)
Definition fails_with_calibration (solve : LpProblem -> Solved)
  (dm : DataManager) (w_EC w_PL : Q) : Prop :=
calibration_failed solve dm ->
OptimizationApproaches.solve_weighted_sum solve dm w_EC w_PL = Return None.

(** The sum of a list of numbers. *)
Definition total (l : list Q) : Q := fold_right Qplus 0 l.

(** The load of slot [t]: the rated power of the machines that are on. *)
Definition slot_load (dm : DataManager) (v : valuation) (t : Z) : Q :=
total (map (fun '(s, i) =>
              get_default (DataManager.R dm) (i, s) 0 * v (x_ (i, t, s)))
           (pairs (DataManager.S dm) (DataManager.I dm))).

(** What machine [i] of system [s] costs in slot [t]: the price of its
    energy less the incentive claimed. *)
Definition slot_cost (dm : DataManager) (v : valuation) (i t s : Z) : Q :=
get_default (DataManager.R dm) (i, s) 0
* (get_default (DataManager.c dm) t 0 * v (x_ (i, t, s))
   - get_default (DataManager.o dm) t 0 * v (y_ (i, t, s)))
* DataManager.alpha dm.

Definition system_cost (dm : DataManager) (v : valuation) (s : Z) : Q :=
total (map (fun '(t, i) => slot_cost dm v i t s)
           (pairs (DataManager.T dm) (DataManager.I dm))).

Definition total_cost (dm : DataManager) (v : valuation) : Q :=
total (map (fun '(s, t, i) => slot_cost dm v i t s)
           (triples (DataManager.S dm) (DataManager.T dm) (DataManager.I dm))).

(** The number of slots of [a..b] in which the machine is on. *)
Definition on_slots (v : valuation) (i s a b : Z) : Q :=
total (map (fun t => v (x_ (i, t, s))) (range a (b + 1))).

(** The inputs on which the region can be built: a budget for every
    system, operation windows inside the horizon, and dependencies
    between machines of the index ranges. *)
Definition buildable (dm : DataManager) : Prop :=
(forall s, (1 <= s <= DataManager.S dm)%Z ->
           contains (DataManager.A dm) s = true) /\
(forall i s a b,
   (1 <= i <= DataManager.I dm)%Z -> (1 <= s <= DataManager.S dm)%Z ->
   get (DataManager.E dm) (i, s) = Some a ->
   get (DataManager.L dm) (i, s) = Some b ->
   forall t, (a <= t <= b)%Z -> (1 <= t <= DataManager.T dm)%Z) /\
((1 <= DataManager.T dm)%Z ->
 forall i s i_star,
   In ((i, s), i_star) (DataManager.get_machine_dependencies dm) ->
   (1 <= i <= DataManager.I dm)%Z /\ (1 <= s <= DataManager.S dm)%Z /\
   (1 <= i_star <= DataManager.I dm)%Z).

Definition evar (t : Z) : LpVariable :=
{| name := e_ t; lowBound := Some 0; cat := LpContinuous |}.

(** The schedule row of machine [i] of system [s] in slot [t]: status 1
    with the rated power when the value of [x] exceeds one half, status 0
    with power 0 otherwise. *)
Definition row_of (dm : DataManager) (v : valuation) (s i t : Z)
  : ResultExtractor.schedule_row :=
if negb (Qle_bool (v (x_ (i, t, s))) lit_0_5) then
  {| ResultExtractor.SystemID := s; ResultExtractor.MachineID := i;
     ResultExtractor.TimeSlot := t; ResultExtractor.Status := 1;
     ResultExtractor.Power := get_default (DataManager.R dm) (i, s) 0 |}
else
  {| ResultExtractor.SystemID := s; ResultExtractor.MachineID := i;
     ResultExtractor.TimeSlot := t; ResultExtractor.Status := 0;
     ResultExtractor.Power := 0 |}.

(** The (system, machine) pairs of the index ranges that have a rated
    power, system by system. *)
Definition rated_pairs (dm : DataManager) : list (Z * Z) :=
filter (fun '(s, i) => contains (DataManager.R dm) (i, s))
       (pairs (DataManager.S dm) (DataManager.I dm)).

(** In every slot the price is not negative and is at least the
    incentive; rated powers and the slot duration are not negative. *)
Definition prices_cover_incentives (dm : DataManager) : Prop :=
0 <= DataManager.alpha dm /\
(forall i s, 0 <= get_default (DataManager.R dm) (i, s) 0) /\
(forall t, 0 <= get_default (DataManager.c dm) t 0 /\
           get_default (DataManager.o dm) t 0
           <= get_default (DataManager.c dm) t 0).

(** One machine that must run in the single slot, at price 3 and with an
    incentive of 1, within a budget of 100. *)
Definition dm_priced : DataManager :=
{| DataManager.I := 1;
   DataManager.T := 1;
   DataManager.S := 1;
   DataManager.R := [((1, 1)%Z, 1)];
   DataManager.N := [((1, 1), 1)]%Z;
   DataManager.E := [((1, 1), 1)]%Z;
   DataManager.L := [((1, 1), 1)]%Z;
   DataManager.c := [(1%Z, 3)];
   DataManager.o := [(1%Z, 1)];
   DataManager.alpha := 1;
   DataManager.A := [(1%Z, 100)];
   DataManager.machine_dependencies := [] |}.

(** The second solve of the EC-first approach is answered soundly. *)
Definition EC_first_sound (solve : LpProblem -> Solved) (dm : DataManager)
  : Prop :=
forall m1 m2 b2,
  OptimizationApproaches.EC_first_model1 dm = Return m1 ->
  OptimizationApproaches.EC_first_model2 dm
    (objective_value m1 (varValue (solve m1))) = Return (m2, b2) ->
  sound solve m1 /\ sound solve m2.

(** The two solves of the PL-first approach are answered soundly. *)
Definition PL_first_sound (solve : LpProblem -> Solved) (dm : DataManager)
  : Prop :=
forall m1 b1 m2 b2,
  OptimizationApproaches.PL_first_model1 dm = Return (m1, b1) ->
  OptimizationApproaches.PL_first_model2 dm
    (var_value (solve m1) (PL b1)) = Return (m2, b2) ->
  sound solve m1 /\ sound solve m2.

(** A solver run that fails on the second model of the EC-first approach
    and reports [v] as optimal everywhere else. *)
Definition answers_but_EC_first_step2 (v : valuation) : LpProblem -> Solved :=
fun m =>
  match p_name m with
  | PR_EC_First_Step2 => gives_up m
  | _ => answers v m
  end.

(** The scalarised solve of the weighted sum is answered soundly. *)
Definition weighted_sum_sound (solve : LpProblem -> Solved)
  (dm : DataManager) (w_EC w_PL : Q) : Prop :=
forall EC_ideal PL_ideal EC_norm PL_norm m b,
  ObjectiveManager.get_normalization_factors solve dm
  = Return (EC_ideal, PL_ideal, EC_norm, PL_norm) ->
  OptimizationApproaches.weighted_sum_model dm w_EC w_PL
    EC_ideal PL_ideal EC_norm PL_norm = Return (m, b) ->
  sound solve m.

(** The minutes after midnight, within one day, at which slot
    [time_slot] starts. *)
Definition minute_of_day (time_slot slot_duration_minutes : Q) : Z :=
(((Utils.int time_slot - 1) * Utils.int slot_duration_minutes) mod 1440)%Z.

(** The character of a decimal digit. *)
Definition digit_char (k : nat) : Ascii.ascii := Ascii.ascii_of_nat (48 + k).

(** The two characters of a number below 100. *)
Definition two_digits (n : Z) : String.string :=
String.String (digit_char (Z.to_nat (n / 10)))
  (String.String (digit_char (Z.to_nat (n mod 10))) String.EmptyString).

(** A function that sorts rows by time slot. *)
Definition sorts_by_time_slot
  (sort_values : list ResultExtractor.schedule_row
                 -> list ResultExtractor.schedule_row) : Prop :=
forall l,
  Permutation.Permutation (sort_values l) l /\
  Sorted.StronglySorted
    (fun a b => (ResultExtractor.TimeSlot a <= ResultExtractor.TimeSlot b)%Z)
    (sort_values l).

(** Insertion sort by time slot. *)
Fixpoint insert_by_time_slot (row : ResultExtractor.schedule_row)
  (l : list ResultExtractor.schedule_row) : list ResultExtractor.schedule_row :=
match l with
| [] => [row]
| r :: l' =>
    if (ResultExtractor.TimeSlot row <=? ResultExtractor.TimeSlot r)%Z
    then row :: l
    else r :: insert_by_time_slot row l'
end.

Definition insertion_sort (l : list ResultExtractor.schedule_row)
  : list ResultExtractor.schedule_row :=
fold_right insert_by_time_slot [] l.

(** The rows of machine [i] of system [s] in the extracted schedule. *)
Definition machine_schedule_of (dm : DataManager) (v : valuation) (s i : Z)
  : list ResultExtractor.schedule_row :=
map (row_of dm v s i) (range 1 (DataManager.T dm + 1)).

(** In the horizon, the machine is on exactly in the slots [a..b], and
    its [x] values are 0 or 1. *)
Definition runs_exactly (dm : DataManager) (v : valuation) (i s a b : Z)
  : Prop :=
forall t, (1 <= t <= DataManager.T dm)%Z ->
  (on v i s t <-> (a <= t <= b)%Z) /\
  (v (x_ (i, t, s)) == 0 \/ v (x_ (i, t, s)) == 1).

(** The period that reports a run over the slots [a..b]. *)
Definition period_of (dm : DataManager) (slot_duration_minutes : Q)
  (s i : Z) (machine_name : String.string) (a b : Z)
  : ScheduleFormatter.period :=
{| ScheduleFormatter.p_SystemID := s;
   ScheduleFormatter.p_MachineID := i;
   ScheduleFormatter.p_MachineName := machine_name;
   ScheduleFormatter.StartSlot := a;
   ScheduleFormatter.EndSlot := b;
   ScheduleFormatter.StartTime :=
     Utils.convert_time_slot_to_time (inject_Z a) slot_duration_minutes;
   ScheduleFormatter.EndTime :=
     Utils.convert_time_slot_to_time (inject_Z (b + 1)) slot_duration_minutes;
   ScheduleFormatter.DurationSlots := (b - a + 1)%Z;
   ScheduleFormatter.DurationMinutes :=
     inject_Z (b - a + 1) * slot_duration_minutes;
   ScheduleFormatter.Power := get_default (DataManager.R dm) (i, s) 0;
   ScheduleFormatter.EnergyConsumption :=
     get_default (DataManager.R dm) (i, s) 0
     * (inject_Z (b - a + 1) * slot_duration_minutes / 60) |}.

(** The time strings of a period are those of its slots. *)
Definition timed (slot_duration_minutes : Q) (p : ScheduleFormatter.period)
  : Prop :=
ScheduleFormatter.StartTime p
= Utils.convert_time_slot_to_time
    (inject_Z (ScheduleFormatter.StartSlot p)) slot_duration_minutes /\
ScheduleFormatter.EndTime p
= Utils.convert_time_slot_to_time
    (inject_Z (ScheduleFormatter.EndSlot p + 1)) slot_duration_minutes.

(** The first ten-minute interval of the day in which a period runs,
    and the first one after it. *)
Definition start_cell (slot_duration_minutes : Q)
  (p : ScheduleFormatter.period) : Z :=
(minute_of_day (inject_Z (ScheduleFormatter.StartSlot p))
   slot_duration_minutes / 10)%Z.

Definition end_cell (slot_duration_minutes : Q)
  (p : ScheduleFormatter.period) : Z :=
((minute_of_day (inject_Z (ScheduleFormatter.EndSlot p + 1))
    slot_duration_minutes + 9) / 10)%Z.

(** Interval [k] lies in a period of machine [i] of system [s]. *)
Definition covered (slot_duration_minutes : Q)
  (periods : list ScheduleFormatter.period) (s i k : Z) : bool :=
existsb (fun p =>
    ((ScheduleFormatter.p_SystemID p =? s)%Z
     && (ScheduleFormatter.p_MachineID p =? i)%Z)
    && ((start_cell slot_duration_minutes p <=? k)%Z
        && (k <? end_cell slot_duration_minutes p)%Z))
  periods.

(** A dictionary of results in which every approach has one. *)
Definition solved_results
  (rs : list (String.string * ResultExtractor.results))
  : ResultsManager.results_dict :=
map (fun '(approach, results) => (approach, Some results)) rs.

End Spec.

(* ================================================================== *)
(** * Properties *)

(** ** Python primitives *)

Module PyFacts.

Lemma In_range (a b k : Z) : In k (range a b) <-> (a <= k < b)%Z.
Proof.
  unfold range. rewrite in_map_iff. split.
  - intros [n [<- Hn]]. apply in_seq in Hn. lia.
  - intros Hk. exists (Z.to_nat (k - a)). split; [lia|].
    apply in_seq. lia.
Qed.

Lemma bind_Return {A B} (m : result A) (k : A -> result B) (b : B) :
  Py.bind m k = Return b -> exists a, m = Return a /\ k a = Return b.
Proof.
  destruct m as [e0|a]; simpl; [discriminate|]. intros Hk. now exists a.
Qed.

Lemma keqb_Z (a b : Z) : keqb a b = true <-> a = b.
Proof. apply Z.eqb_eq. Qed.

Lemma keqb_ZZ (a b : Z * Z) : keqb a b = true <-> a = b.
Proof.
  destruct a as [a1 a2], b as [b1 b2]. simpl.
  rewrite andb_true_iff, !Z.eqb_eq. split.
  - intros [-> ->]. reflexivity.
  - intros E0. inversion E0. auto.
Qed.

Lemma keqb_ZZZ (a b : Z * Z * Z) : keqb a b = true <-> a = b.
Proof.
  destruct a as [[a1 a2] a3], b as [[b1 b2] b3]. simpl.
  rewrite !andb_true_iff, !Z.eqb_eq. split.
  - intros [[-> ->] ->]. reflexivity.
  - intros E0. inversion E0. auto.
Qed.

Section FromKeys.

Context {K V : Type} `{Key K}.
Hypothesis keqb_ok : forall a b : K, keqb a b = true <-> a = b.

Lemma get_from_keys_Some (f : K -> V) (ks : list K) (k : K) (v : V) :
  get (from_keys f ks) k = Some v -> In k ks /\ v = f k.
Proof.
  induction ks as [|k0 ks IH]; simpl; [discriminate|].
  destruct (keqb k0 k) eqn:Hk.
  - apply keqb_ok in Hk. subst k0. intros [= <-]. auto.
  - intros Hg. destruct (IH Hg). auto.
Qed.

Lemma get_from_keys_In (f : K -> V) (ks : list K) (k : K) :
  In k ks -> get (from_keys f ks) k = Some (f k).
Proof.
  induction ks as [|k0 ks IH]; simpl; [tauto|].
  intros Hin. destruct (keqb k0 k) eqn:Hk.
  - apply keqb_ok in Hk. now subst k0.
  - destruct Hin as [->|Hin]; [|auto].
    assert (keqb k k = true) as Hkk by now apply keqb_ok.
    congruence.
Qed.

Lemma item_from_keys (f : K -> V) (ks : list K) (k : K) (v : V) :
  item (from_keys f ks) k = Return v <-> In k ks /\ v = f k.
Proof.
  unfold item. split.
  - destruct (get (from_keys f ks) k) eqn:Hg; [|discriminate].
    intros [= <-]. now apply get_from_keys_Some.
  - intros [Hin ->]. now rewrite get_from_keys_In.
Qed.

End FromKeys.

(** A loop whose body only moves the state forward along a preorder
    moves it forward, and every iteration has been run. *)
Section Loops.

Context {A St : Type} (ext : St -> St -> Prop).
Hypothesis ext_refl : forall s, ext s s.
Hypothesis ext_trans : forall s1 s2 s3, ext s1 s2 -> ext s2 s3 -> ext s1 s3.

Variable body : A -> St -> result St.

Lemma for_ext (l : list A) :
  (forall a s s', In a l -> body a s = Return s' -> ext s s') ->
  forall st st', for_ l body st = Return st' -> ext st st'.
Proof.
  induction l as [|a l IH]; simpl; intros Hb st st' Hfor.
  - injection Hfor as <-. apply ext_refl.
  - apply bind_Return in Hfor. destruct Hfor as [s1 [H1 H2]].
    apply ext_trans with s1.
    + apply (Hb a); auto.
    + apply IH; auto. intros a0 s s' Hin. apply Hb. auto.
Qed.

Lemma for_In (l : list A) :
  (forall a s s', In a l -> body a s = Return s' -> ext s s') ->
  forall st st', for_ l body st = Return st' ->
  forall a, In a l ->
  exists s1 s2, ext st s1 /\ body a s1 = Return s2 /\ ext s2 st'.
Proof.
  induction l as [|a0 l IH]; simpl; intros Hb st st' Hfor a Hin; [tauto|].
  apply bind_Return in Hfor. destruct Hfor as [s1 [H1 H2]].
  destruct Hin as [->|Hin].
  - exists st, s1. repeat split; auto.
    apply for_ext with l; auto. intros a0 s s' Hin. apply Hb. auto.
  - destruct (IH (fun a1 s s' Hi => Hb a1 s s' (or_intror Hi)) s1 st' H2 a Hin)
      as [t1 [t2 [Ht1 [Ht2 Ht3]]]].
    exists t1, t2. repeat split; auto.
    apply ext_trans with s1; auto. apply (Hb a0); auto.
Qed.

End Loops.

End PyFacts.

(** ** Affine expressions and constraints *)

Module PulpFacts.

Import PyFacts Spec.

Lemma value_terms (v : valuation) (ts : list (LpVariable * Q)) (k : Q) :
  value v {| terms := ts; constant := k |}
  == value v {| terms := ts; constant := 0 |} + k.
Proof.
  unfold value. simpl. induction ts as [|[x q] ts IH]; simpl.
  - ring.
  - rewrite IH. ring.
Qed.

Lemma value_of_var (v : valuation) (x : LpVariable) :
  value v (of_var x) == v (name x).
Proof. unfold value. simpl. ring. Qed.

Lemma value_of_num (v : valuation) (q : Q) : value v (of_num q) = q.
Proof. reflexivity. Qed.

Lemma value_scale (v : valuation) (q : Q) (a : LpAffineExpression) :
  value v (scale q a) == q * value v a.
Proof.
  destruct a as [ts k]. unfold scale, value. simpl.
  induction ts as [|[x q0] ts IH]; simpl.
  - reflexivity.
  - rewrite IH. ring.
Qed.

Lemma value_add (v : valuation) (a b : LpAffineExpression) :
  value v (add a b) == value v a + value v b.
Proof.
  destruct a as [ta ka], b as [tb kb]. unfold add. simpl.
  rewrite (value_terms v (ta ++ tb)), (value_terms v ta), (value_terms v tb).
  unfold value. simpl. induction ta as [|[x q] ta IH]; simpl.
  - ring.
  - rewrite <- Qplus_assoc, IH. ring.
Qed.

Lemma value_sub (v : valuation) (a b : LpAffineExpression) :
  value v (sub a b) == value v a - value v b.
Proof. unfold sub. rewrite value_add, value_scale. ring. Qed.

Lemma value_lpSum_cons (v : valuation) (a : LpAffineExpression)
      (l : list LpAffineExpression) :
  value v (lpSum (a :: l)) == value v a + value v (lpSum l).
Proof. simpl. apply value_add. Qed.

Lemma holds_LE v a b lb :
  holds v (constr a LE b lb) <-> value v a <= value v b.
Proof. unfold holds, constr. simpl. rewrite value_sub. split; intro; lra. Qed.

Lemma holds_GE v a b lb :
  holds v (constr a GE b lb) <-> value v b <= value v a.
Proof. unfold holds, constr. simpl. rewrite value_sub. split; intro; lra. Qed.

Lemma holds_EQ v a b lb :
  holds v (constr a EQ b lb) <-> value v a == value v b.
Proof. unfold holds, constr. simpl. rewrite value_sub. split; intro; lra. Qed.

Lemma ext_refl m : ext m m.
Proof. repeat split. apply incl_refl. Qed.

Lemma ext_trans m1 m2 m3 : ext m1 m2 -> ext m2 m3 -> ext m1 m3.
Proof.
  intros [H1 [H2 H3]] [H4 [H5 H6]]. repeat split; try congruence.
  eapply incl_tran; eauto.
Qed.

Lemma ext_add_constraint m c : ext m (add_constraint m c).
Proof. repeat split. simpl. apply incl_appl, incl_refl. Qed.

Lemma In_add_constraint m c : In c (constraints (add_constraint m c)).
Proof. simpl. apply in_or_app. right. now left. Qed.

End PulpFacts.

(** ** The base region *)

Module ModelBuilderFacts.

Import PyFacts PulpFacts Spec ModelBuilder.

Lemma In_triples (I T S i t s : Z) :
  In (i, t, s) (triples I T S)
  <-> (1 <= i <= I)%Z /\ (1 <= t <= T)%Z /\ (1 <= s <= S)%Z.
Proof.
  unfold triples. rewrite in_flat_map. split.
  - intros [i' [Hi Hin]]. apply in_flat_map in Hin.
    destruct Hin as [t' [Ht Hin]]. apply in_map_iff in Hin.
    destruct Hin as [s' [[= -> -> ->] Hs]].
    apply In_range in Hi, Ht, Hs. lia.
  - intros [Hi [Ht Hs]]. exists i. split; [apply In_range; lia|].
    apply in_flat_map. exists t. split; [apply In_range; lia|].
    apply in_map_iff. exists s. split; [reflexivity|apply In_range; lia].
Qed.

Section Dicts.

Variables I T S : Z.

Let xd := LpVariable_dicts x_ (triples I T S) None LpBinary.
Let yd := LpVariable_dicts y_ (triples I T S) None LpBinary.
Let ud := LpVariable_dicts u_ (triples I T S) None LpBinary.

Lemma item_x (i t s : Z) (w : LpVariable) :
  item xd (i, t, s) = Return w
  <-> ((1 <= i <= I)%Z /\ (1 <= t <= T)%Z /\ (1 <= s <= S)%Z) /\ w = xvar i t s.
Proof.
  unfold xd, LpVariable_dicts. rewrite (item_from_keys keqb_ZZZ).
  rewrite In_triples. reflexivity.
Qed.

Lemma item_y (i t s : Z) (w : LpVariable) :
  item yd (i, t, s) = Return w
  <-> ((1 <= i <= I)%Z /\ (1 <= t <= T)%Z /\ (1 <= s <= S)%Z) /\ w = yvar i t s.
Proof.
  unfold yd, LpVariable_dicts. rewrite (item_from_keys keqb_ZZZ).
  rewrite In_triples. reflexivity.
Qed.

Lemma item_u (i t s : Z) (w : LpVariable) :
  item ud (i, t, s) = Return w
  <-> ((1 <= i <= I)%Z /\ (1 <= t <= T)%Z /\ (1 <= s <= S)%Z) /\ w = uvar i t s.
Proof.
  unfold ud, LpVariable_dicts. rewrite (item_from_keys keqb_ZZZ).
  rewrite In_triples. reflexivity.
Qed.

End Dicts.

Ltac inv_run :=
  repeat match goal with
  | H : Py.bind _ _ = Return _ |- _ =>
      let a := fresh "a" in let Ha := fresh "Ha" in
      apply bind_Return in H; destruct H as [a [Ha H]]
  | H : Return _ = Return _ |- _ => inversion H; subst; clear H
  | H : Raise _ = Return _ |- _ => discriminate H
  | H : _ = Return _ |- _ => progress cbv beta iota zeta in H
  end.

Ltac inv_items :=
  repeat match goal with
  | H : item _ (_, _, _) = Return ?w |- _ =>
      first [apply item_x in H | apply item_u in H | apply item_y in H];
      destruct H as [? ?]; subst w
  end.

Ltac ext_step :=
  match goal with
  | |- ext ?m ?m => apply ext_refl
  | |- ext ?m (add_constraint ?m' _) =>
      apply ext_trans with m'; [|apply ext_add_constraint]
  end.

Lemma loop_ext {A} (body : A -> LpProblem -> result LpProblem) (l : list A) :
  (forall a s s', In a l -> body a s = Return s' -> ext s s') ->
  forall st st', for_ l body st = Return st' -> ext st st'.
Proof. apply (@for_ext _ _ ext ext_refl ext_trans). Qed.

Lemma loop_In {A} (body : A -> LpProblem -> result LpProblem) (l : list A) :
  (forall a s s', In a l -> body a s = Return s' -> ext s s') ->
  forall st st', for_ l body st = Return st' ->
  forall a, In a l ->
  exists s1 s2, ext st s1 /\ body a s1 = Return s2 /\ ext s2 st'.
Proof. apply (@for_In _ _ ext ext_refl ext_trans). Qed.

Lemma ext_uninterruptible_t xd ud s i t m m' :
  (fun t model =>
      xv <- item xd (i, t, s) ;;
      uv <- item ud (i, t, s) ;;
      let model := add_constraint model
        (constr (of_var xv) LE (sub (of_num 1) (of_var uv))
           (Uninterruptible_1 i t s)) in
      model <- (if (2 <=? t)%Z then
                  xp <- item xd (i, t - 1, s)%Z ;;
                  Return (add_constraint model
                    (constr (sub (of_var xp) (of_var xv)) LE (of_var uv)
                       (Uninterruptible_2 i t s)))
                else Return model) ;;
      if (2 <=? t)%Z then
        up <- item ud (i, t - 1, s)%Z ;;
        Return (add_constraint model
          (constr (of_var up) LE (of_var uv) (Uninterruptible_3 i t s)))
      else Return model) t m = Return m' -> ext m m'.
Proof.
  intros Hb. inv_run. destruct (2 <=? t)%Z; inv_run; repeat ext_step.
Qed.

Lemma ext_uninterruptible m xd ud S I T m' :
  _add_uninterruptible_operation_constraints m xd ud S I T = Return m' ->
  ext m m'.
Proof.
  unfold _add_uninterruptible_operation_constraints.
  apply loop_ext. intros s m1 m2 _.
  apply loop_ext. intros i m3 m4 _.
  apply loop_ext. intros t m5 m6 _. apply ext_uninterruptible_t.
Qed.

Lemma In_uninterruptible {I T S m m' i t s} :
  let xd := LpVariable_dicts x_ (triples I T S) None LpBinary in
  let ud := LpVariable_dicts u_ (triples I T S) None LpBinary in
  _add_uninterruptible_operation_constraints m xd ud S I T = Return m' ->
  (1 <= i <= I)%Z -> (1 <= t <= T)%Z -> (1 <= s <= S)%Z ->
  In (constr (of_var (xvar i t s)) LE (sub (of_num 1) (of_var (uvar i t s)))
        (Uninterruptible_1 i t s)) (constraints m') /\
  ((2 <= t)%Z ->
   In (constr (sub (of_var (xvar i (t - 1) s)) (of_var (xvar i t s))) LE
         (of_var (uvar i t s)) (Uninterruptible_2 i t s)) (constraints m') /\
   In (constr (of_var (uvar i (t - 1) s)) LE (of_var (uvar i t s))
         (Uninterruptible_3 i t s)) (constraints m')).
Proof.
  intros xd ud Hadd Hi Ht Hs.
  unfold _add_uninterruptible_operation_constraints in Hadd.
  eapply loop_In with (a := s) in Hadd; [| |apply In_range; lia].
  2:{ intros s0 m1 m2 _. apply loop_ext. intros i0 m3 m4 _.
      apply loop_ext. intros t0 m5 m6 _. apply ext_uninterruptible_t. }
  destruct Hadd as [m1 [m2 [_ [Hadd Hext1]]]].
  eapply loop_In with (a := i) in Hadd; [| |apply In_range; lia].
  2:{ intros i0 m3 m4 _.
      apply loop_ext. intros t0 m5 m6 _. apply ext_uninterruptible_t. }
  destruct Hadd as [m3 [m4 [_ [Hadd Hext2]]]].
  eapply loop_In with (a := t) in Hadd; [| |apply In_range; lia].
  2:{ intros t0 m5 m6 _. apply ext_uninterruptible_t. }
  destruct Hadd as [m5 [m6 [_ [Hadd Hext3]]]].
  assert (ext m6 m') as [Hincl _].
  { eapply ext_trans; [exact Hext3|]. eapply ext_trans; eauto. }
  clear Hext1 Hext2 Hext3.
  inv_run. inv_items.
  destruct (2 <=? t)%Z eqn:Ht2.
  - inv_run. inv_items.
    split; [|intros _; split]; apply Hincl; simpl;
      rewrite ?in_app_iff; simpl; tauto.
  - inv_run. split.
    + apply Hincl, In_add_constraint.
    + apply Z.leb_gt in Ht2. lia.
Qed.

Lemma ext_electricity m ed xd R T S I m' :
  _add_electricity_consumption_constraints m ed xd R T S I = Return m' ->
  ext m m'.
Proof.
  apply loop_ext. intros t m1 m2 _ Hb. inv_run. repeat ext_step.
Qed.

Lemma ext_peak_load m pl ed T m' :
  _add_peak_load_constraints m pl ed T = Return m' -> ext m m'.
Proof.
  apply loop_ext. intros t m1 m2 _ Hb. inv_run. repeat ext_step.
Qed.

Lemma ext_budget m xd yd R c o alpha A T I S m' :
  _add_budget_constraints m xd yd R c o alpha A T I S = Return m' -> ext m m'.
Proof.
  apply loop_ext. intros s m1 m2 _ Hb. inv_run. repeat ext_step.
Qed.

Lemma ext_duration m xd E L N S I m' :
  _add_operation_duration_constraints m xd E L N S I = Return m' -> ext m m'.
Proof.
  apply loop_ext. intros s m1 m2 _.
  apply loop_ext. intros i m3 m4 _ Hb.
  destruct (get E (i, s)); [destruct (get L (i, s))|];
    inv_run; repeat ext_step.
Qed.

Lemma ext_dependency m xd ud deps T m' :
  _add_machine_dependency_constraints m xd ud deps T = Return m' -> ext m m'.
Proof.
  apply loop_ext. intros [[i s] i_star] m1 m2 _.
  apply loop_ext. intros t m3 m4 _ Hb. inv_run. repeat ext_step.
Qed.

Lemma ext_incentive m xd yd S I T m' :
  _add_incentive_constraints m xd yd S I T = Return m' -> ext m m'.
Proof.
  apply loop_ext. intros s m1 m2 _.
  apply loop_ext. intros i m3 m4 _.
  apply loop_ext. intros t m5 m6 _ Hb. inv_run. repeat ext_step.
Qed.

Lemma In_dependency {I T S m m' deps i s i_star t} :
  let xd := LpVariable_dicts x_ (triples I T S) None LpBinary in
  let ud := LpVariable_dicts u_ (triples I T S) None LpBinary in
  _add_machine_dependency_constraints m xd ud deps T = Return m' ->
  In ((i, s), i_star) deps -> (1 <= t <= T)%Z ->
  In (constr (of_var (xvar i t s)) LE (of_var (uvar i_star t s))
        (Precedence_Constraint i i_star t s)) (constraints m') /\
  (1 <= i <= I)%Z /\ (1 <= s <= S)%Z /\ (1 <= i_star <= I)%Z.
Proof.
  intros xd ud Hadd Hin Ht.
  unfold _add_machine_dependency_constraints in Hadd.
  eapply loop_In with (a := ((i, s), i_star)) in Hadd; [| |exact Hin].
  2:{ intros [[i0 s0] j0] m1 m2 _. apply loop_ext.
      intros t0 m3 m4 _ Hb. inv_run. repeat ext_step. }
  destruct Hadd as [m1 [m2 [_ [Hadd Hext1]]]].
  eapply loop_In with (a := t) in Hadd; [| |apply In_range; lia].
  2:{ intros t0 m3 m4 _ Hb. inv_run. repeat ext_step. }
  destruct Hadd as [m3 [m4 [_ [Hadd Hext2]]]].
  assert (ext m4 m') as [Hincl _] by (eapply ext_trans; eauto).
  inv_run. inv_items. split; [apply Hincl, In_add_constraint|lia].
Qed.

Lemma build_base_model_inv {dm nm b} :
  build_base_model dm nm = Return b ->
  let I := DataManager.I dm in
  let T := DataManager.T dm in
  let S := DataManager.S dm in
  x b = LpVariable_dicts x_ (triples I T S) None LpBinary /\
  y b = LpVariable_dicts y_ (triples I T S) None LpBinary /\
  u b = LpVariable_dicts u_ (triples I T S) None LpBinary /\
  e b = LpVariable_dicts e_ (range 1 (T + 1)) (Some 0) LpContinuous /\
  PL b = plvar /\
  exists m1 m2 m3 m4 m5 m6,
    _add_electricity_consumption_constraints (new_problem nm) (e b) (x b)
      (DataManager.R dm) T S I = Return m1 /\
    _add_peak_load_constraints m1 (PL b) (e b) T = Return m2 /\
    _add_budget_constraints m2 (x b) (y b) (DataManager.R dm)
      (DataManager.c dm) (DataManager.o dm) (DataManager.alpha dm)
      (DataManager.A dm) T I S = Return m3 /\
    _add_operation_duration_constraints m3 (x b) (DataManager.E dm)
      (DataManager.L dm) (DataManager.N dm) S I = Return m4 /\
    _add_uninterruptible_operation_constraints m4 (x b) (u b) S I T
      = Return m5 /\
    _add_machine_dependency_constraints m5 (x b) (u b)
      (DataManager.get_machine_dependencies dm) T = Return m6 /\
    _add_incentive_constraints m6 (x b) (y b) S I T = Return (model b).
Proof.
  unfold build_base_model. intros H. inv_run. simpl.
  repeat split; try reflexivity.
  exists a, a0, a1, a2, a3, a4. repeat split; assumption.
Qed.

Lemma base_objective {dm nm b} :
  build_base_model dm nm = Return b ->
  objective (model b) = None /\ p_name (model b) = nm.
Proof.
  intros H. destruct (build_base_model_inv H)
    as (_ & _ & _ & _ & _ & m1 & m2 & m3 & m4 & m5 & m6
        & H1 & H2 & H3 & H4 & H5 & H6 & H7).
  apply ext_electricity in H1. apply ext_peak_load in H2.
  apply ext_budget in H3. apply ext_duration in H4.
  apply ext_uninterruptible in H5. apply ext_dependency in H6.
  apply ext_incentive in H7.
  assert (ext (new_problem nm) (model b)) as [_ [Ho Hn]].
  { repeat (eapply ext_trans; [eassumption|]). apply ext_refl. }
  simpl in Ho, Hn. auto.
Qed.

Section Base.

Variables (dm : DataManager) (nm : model_name) (b : base).
Hypothesis Hbuild : build_base_model dm nm = Return b.

Let I := DataManager.I dm.
Let T := DataManager.T dm.
Let S := DataManager.S dm.

Lemma base_uninterruptible i t s :
  (1 <= i <= I)%Z -> (1 <= t <= T)%Z -> (1 <= s <= S)%Z ->
  In (constr (of_var (xvar i t s)) LE (sub (of_num 1) (of_var (uvar i t s)))
        (Uninterruptible_1 i t s)) (constraints (model b)) /\
  ((2 <= t)%Z ->
   In (constr (sub (of_var (xvar i (t - 1) s)) (of_var (xvar i t s))) LE
         (of_var (uvar i t s)) (Uninterruptible_2 i t s))
      (constraints (model b)) /\
   In (constr (of_var (uvar i (t - 1) s)) LE (of_var (uvar i t s))
         (Uninterruptible_3 i t s)) (constraints (model b))).
Proof.
  intros Hi Ht Hs.
  destruct (build_base_model_inv Hbuild)
    as (Hx & _ & Hu & _ & _ & m1 & m2 & m3 & m4 & m5 & m6
        & _ & _ & _ & _ & H5 & H6 & H7).
  rewrite Hx, Hu in H5.
  destruct (In_uninterruptible H5 Hi Ht Hs) as [U1 U23].
  apply ext_dependency in H6. apply ext_incentive in H7.
  destruct (ext_trans H6 H7) as [Hincl _].
  split; [auto|]. intros Ht2. destruct (U23 Ht2). auto.
Qed.

Lemma base_precedence i s i_star t :
  In ((i, s), i_star) (DataManager.get_machine_dependencies dm) ->
  (1 <= t <= T)%Z ->
  In (constr (of_var (xvar i t s)) LE (of_var (uvar i_star t s))
        (Precedence_Constraint i i_star t s)) (constraints (model b)) /\
  (1 <= i <= I)%Z /\ (1 <= s <= S)%Z /\ (1 <= i_star <= I)%Z.
Proof.
  intros Hin Ht.
  destruct (build_base_model_inv Hbuild)
    as (Hx & _ & Hu & _ & _ & m1 & m2 & m3 & m4 & m5 & m6
        & _ & _ & _ & _ & _ & H6 & H7).
  rewrite Hx, Hu in H6.
  destruct (In_dependency H6 Hin Ht) as [P Hr].
  apply ext_incentive in H7. destruct H7 as [Hincl _]. auto.
Qed.

End Base.

End ModelBuilderFacts.

(** ** Uninterruptible single-run semantics *)

Module SingleRun.

Import PyFacts PulpFacts Spec ModelBuilder ModelBuilderFacts.

Lemma feasible_holds {m v c} :
  feasible m v -> In c (constraints m) -> holds v c.
Proof. intros [Hc _] Hin. rewrite Forall_forall in Hc. auto. Qed.

Lemma feasible_domain {m v c w} :
  feasible m v -> In c (constraints m) -> In w (expr_vars (c_expr c)) ->
  in_domain v w.
Proof.
  intros [_ Hd] Hin Hw. rewrite Forall_forall in Hd. apply Hd.
  unfold variables. apply in_or_app. right. apply in_flat_map. eauto.
Qed.

Section Region.

Variables (dm : DataManager) (nm : model_name) (b : base) (v : valuation).
Hypothesis Hbuild : build_base_model dm nm = Return b.
Hypothesis Hfeas : feasible (model b) v.

Let NI := DataManager.I dm.
Let NT := DataManager.T dm.
Let NS := DataManager.S dm.

Section Machine.

Variables i s : Z.
Hypothesis Hi : (1 <= i <= NI)%Z.
Hypothesis Hs : (1 <= s <= NS)%Z.

Let xv (t : Z) : Q := v (x_ (i, t, s)).
Let uv (t : Z) : Q := v (u_ (i, t, s)).

Lemma x_binary t : (1 <= t <= NT)%Z -> xv t == 0 \/ xv t == 1.
Proof.
  intros Ht. destruct (@base_uninterruptible dm nm b Hbuild i t s Hi Ht Hs) as [U1 _].
  assert (in_domain v (xvar i t s)) as [_ Hb].
  { apply (feasible_domain Hfeas U1). simpl. auto. }
  exact Hb.
Qed.

Lemma u_binary t : (1 <= t <= NT)%Z -> uv t == 0 \/ uv t == 1.
Proof.
  intros Ht. destruct (@base_uninterruptible dm nm b Hbuild i t s Hi Ht Hs) as [U1 _].
  assert (in_domain v (uvar i t s)) as [_ Hb].
  { apply (feasible_domain Hfeas U1). simpl. auto. }
  exact Hb.
Qed.

(** Constraint (7). *)
Lemma locked_off t : (1 <= t <= NT)%Z -> xv t <= 1 - uv t.
Proof.
  intros Ht. destruct (@base_uninterruptible dm nm b Hbuild i t s Hi Ht Hs) as [U1 _].
  apply (feasible_holds Hfeas), holds_LE in U1.
  rewrite value_sub, !value_of_var, value_of_num in U1. exact U1.
Qed.

(** Constraint (8). *)
Lemma shutdown_detected t :
  (2 <= t <= NT)%Z -> xv (t - 1) - xv t <= uv t.
Proof.
  intros Ht.
  destruct (@base_uninterruptible dm nm b Hbuild i t s Hi) as [_ U23];
    [lia|exact Hs|].
  destruct U23 as [U2 _]; [lia|].
  apply (feasible_holds Hfeas), holds_LE in U2.
  rewrite value_sub, !value_of_var in U2. exact U2.
Qed.

(** Constraint (9). *)
Lemma u_step t : (2 <= t <= NT)%Z -> uv (t - 1) <= uv t.
Proof.
  intros Ht.
  destruct (@base_uninterruptible dm nm b Hbuild i t s Hi) as [_ U23];
    [lia|exact Hs|].
  destruct U23 as [_ U3]; [lia|].
  apply (feasible_holds Hfeas), holds_LE in U3.
  rewrite !value_of_var in U3. exact U3.
Qed.

(** [u] is monotone along the horizon. *)
Lemma u_monotone t t' : (1 <= t <= t')%Z -> (t' <= NT)%Z -> uv t <= uv t'.
Proof.
  intros Ht Ht'.
  replace t' with (t + Z.of_nat (Z.to_nat (t' - t)))%Z by lia.
  assert (t + Z.of_nat (Z.to_nat (t' - t)) <= NT)%Z as Hb by lia.
  revert Hb. generalize (Z.to_nat (t' - t)) as n.
  induction n as [|n IH]; intros Hb.
  - rewrite Z.add_0_r. apply Qle_refl.
  - eapply Qle_trans; [apply IH; lia|].
    pose proof (@u_step (t + Z.of_nat (S n))%Z) as Hstep.
    replace (t + Z.of_nat (S n) - 1)%Z with (t + Z.of_nat n)%Z in Hstep
      by lia.
    apply Hstep. lia.
Qed.

(** Once the machine has been on and is off, it is marked completed. *)
Lemma completed_after_stop t t' :
  (1 <= t < t')%Z -> (t' <= NT)%Z -> xv t == 1 -> xv t' == 0 -> uv t' == 1.
Proof.
  intros Ht Ht' Hon.
  replace t' with (t + 1 + Z.of_nat (Z.to_nat (t' - t - 1)))%Z by lia.
  assert (t + 1 + Z.of_nat (Z.to_nat (t' - t - 1)) <= NT)%Z as Hb by lia.
  revert Hb. generalize (Z.to_nat (t' - t - 1)) as n.
  induction n as [|n IH]; intros Hb Hoff.
  - rewrite Z.add_0_r in *.
    pose proof (@shutdown_detected (t + 1)%Z) as H8.
    replace (t + 1 - 1)%Z with t in H8 by lia.
    pose proof (@locked_off (t + 1)%Z) as H7.
    destruct (@u_binary (t + 1)%Z) as [Hu|Hu]; [lia| |exact Hu].
    assert (xv t - xv (t + 1)%Z <= uv (t + 1)%Z) by (apply H8; lia).
    lra.
  - set (k := (t + 1 + Z.of_nat (S n))%Z) in *.
    assert (k - 1 = t + 1 + Z.of_nat n)%Z as Hk by (unfold k; lia).
    destruct (@u_binary k) as [Hu|Hu]; [unfold k; lia| |exact Hu].
    exfalso.
    pose proof (@shutdown_detected k) as H8.
    pose proof (@u_step k) as H9.
    assert (xv (k - 1) - xv k <= uv k) as H8' by (apply H8; unfold k; lia).
    assert (uv (k - 1) <= uv k) as H9' by (apply H9; unfold k; lia).
    destruct (@x_binary (k - 1)%Z) as [Hx|Hx]; [unfold k; lia| |lra].
    rewrite Hk in Hx, H9'. specialize (IH ltac:(lia) Hx). lra.
Qed.

(** C2. *)
Lemma on_slots_contiguous : contiguous NT (on v i s).
Proof.
  intros t1 t2 t3 H12 H23 Hon1 Hon3. unfold on in *. fold (xv t1) in Hon1.
  fold (xv t3) in Hon3. fold (xv t2).
  destruct (@x_binary t2) as [Hoff|Hon2]; [lia| |exact Hon2].
  exfalso.
  assert (t1 < t2)%Z as Hlt.
  { destruct (Z.eq_dec t1 t2) as [->|]; [rewrite Hon1 in Hoff; discriminate|lia]. }
  assert (uv t2 == 1) as Hu2
    by (apply completed_after_stop with t1; auto; lia).
  pose proof (@u_monotone t2 t3 ltac:(lia) ltac:(lia)) as Hmono.
  pose proof (@locked_off t3 ltac:(lia)) as H7. lra.
Qed.

End Machine.

End Region.

Lemma holdsb_true v c : holdsb v c = true -> holds v c.
Proof.
  unfold holdsb, holds. destruct (c_sense c); intros Hb.
  - now apply Qle_bool_iff.
  - now apply Qeq_bool_iff.
  - now apply Qle_bool_iff.
Qed.

Lemma in_domainb_true v w : in_domainb v w = true -> in_domain v w.
Proof.
  unfold in_domainb, in_domain. rewrite andb_true_iff. intros [Hl Hc]. split.
  - destruct (lowBound w); [now apply Qle_bool_iff|exact Logic.I].
  - destruct (cat w); [exact Logic.I|].
    apply orb_true_iff in Hc. destruct Hc as [Hc|Hc];
      apply Qeq_bool_iff in Hc; auto.
Qed.

(** A concrete assignment is checked by evaluation. *)
Lemma feasibleb_true m v : feasibleb m v = true -> feasible m v.
Proof.
  unfold feasibleb, feasible. rewrite andb_true_iff, !forallb_forall.
  intros [Hc Hd]. split; apply Forall_forall; intros a Ha.
  - apply holdsb_true. auto.
  - apply in_domainb_true. auto.
Qed.

(** C2: in every feasible assignment of the base region the on-slots of
    each machine of each system form at most one contiguous block: no
    on-then-off-then-on pattern within the horizon. *)
Theorem single_contiguous_run
  (dm : DataManager) (nm : model_name) (b : base) (v : valuation) (i s : Z) :
  build_base_model dm nm = Return b ->
  feasible (model b) v ->
  (1 <= i <= DataManager.I dm)%Z ->
  (1 <= s <= DataManager.S dm)%Z ->
  contiguous (DataManager.T dm) (on v i s).
Proof.
  intros Hbuild Hfeas Hi Hs.
  exact (@on_slots_contiguous dm nm b v Hbuild Hfeas i s Hi Hs).
Qed.

Lemma single_contiguous_run_witness :
  contiguous (DataManager.T dm_two_machines) (on v_two_machines 1 1).
Proof.
  eapply (@single_contiguous_run dm_two_machines Base_Model _
            v_two_machines 1 1).
  - vm_compute. reflexivity.
  - apply feasibleb_true. vm_compute. reflexivity.
  - simpl. lia.
  - simpl. lia.
Defined.

End SingleRun.

(** ** Precedence *)

Module Precedence.

Import PyFacts PulpFacts Spec ModelBuilder ModelBuilderFacts SingleRun.

Lemma get_In {V} (d : dict (Z * Z) V) (k : Z * Z) (w : V) :
  get d k = Some w -> In (k, w) d.
Proof.
  induction d as [|[k0 w0] d IH]; cbn [get In]; [discriminate|].
  destruct (keqb k0 k) eqn:Hk.
  - apply keqb_ZZ in Hk. subst k0. intros [= ->]. now left.
  - intros Hg. right. exact (IH Hg).
Qed.

(** A decidable property that holds somewhere in [lo..hi] has a last and
    a first slot there. *)
Section Extremes.

Variable P : Z -> Prop.
Hypothesis P_dec : forall k, P k \/ ~ P k.

Lemma last_slot (lo hi : Z) :
  (lo <= hi)%Z -> P lo ->
  exists b, (lo <= b <= hi)%Z /\ P b /\ forall k, (b < k <= hi)%Z -> ~ P k.
Proof.
  intros Hle Hlo.
  replace hi with (lo + Z.of_nat (Z.to_nat (hi - lo)))%Z by lia.
  generalize (Z.to_nat (hi - lo)) as n. induction n as [|n IH].
  - exists lo. repeat split; try lia; auto; intros k Hk; lia.
  - destruct IH as [b [Hb [HPb Hmax]]].
    destruct (P_dec (lo + Z.of_nat (S n))%Z) as [HP|HP].
    + exists (lo + Z.of_nat (S n))%Z. repeat split; try lia; auto; intros k Hk; lia.
    + exists b. repeat split; try lia; auto; intros k Hk.
      destruct (Z.eq_dec k (lo + Z.of_nat (S n))%Z) as [->|Hne]; [exact HP|].
      apply Hmax. lia.
Qed.

Lemma first_slot (lo hi : Z) :
  (lo <= hi)%Z -> P hi ->
  exists a, (lo <= a <= hi)%Z /\ P a /\ forall k, (lo <= k < a)%Z -> ~ P k.
Proof.
  intros Hle Hhi.
  replace lo with (hi - Z.of_nat (Z.to_nat (hi - lo)))%Z by lia.
  generalize (Z.to_nat (hi - lo)) as n. induction n as [|n IH].
  - exists hi. repeat split; try lia; auto; intros k Hk; lia.
  - destruct IH as [a [Ha [HPa Hmin]]].
    destruct (P_dec (hi - Z.of_nat (S n))%Z) as [HP|HP].
    + exists (hi - Z.of_nat (S n))%Z. repeat split; try lia; auto; intros k Hk; lia.
    + exists a. repeat split; try lia; auto; intros k Hk.
      destruct (Z.eq_dec k (hi - Z.of_nat (S n))%Z) as [->|Hne]; [exact HP|].
      apply Hmin. lia.
Qed.

End Extremes.

Lemma on_dec v i s k : on v i s k \/ ~ on v i s k.
Proof. unfold on. destruct (Qeq_dec (v (x_ (i, k, s))) 1); auto. Qed.

Section Region.

Variables (dm : DataManager) (nm : model_name) (b : base) (v : valuation).
Hypothesis Hbuild : build_base_model dm nm = Return b.
Hypothesis Hfeas : feasible (model b) v.

Let NI := DataManager.I dm.
Let NT := DataManager.T dm.
Let NS := DataManager.S dm.

(** A machine that is on somewhere in the horizon has an actual run
    around that slot. *)
Lemma run_around i s t0 :
  (1 <= i <= NI)%Z -> (1 <= s <= NS)%Z -> (1 <= t0 <= NT)%Z ->
  on v i s t0 ->
  exists a b0, run NT v i s a b0 /\ (a <= t0 <= b0)%Z.
Proof.
  intros Hi Hs Ht0 Hon.
  destruct (@last_slot (on v i s) (on_dec v i s) t0 NT ltac:(lia) Hon)
    as [b0 [Hb0 [Honb Hmax]]].
  destruct (@first_slot (on v i s) (on_dec v i s) 1 t0 ltac:(lia) Hon)
    as [a [Ha [Hona Hmin]]].
  pose proof (@on_slots_contiguous dm nm b v Hbuild Hfeas i s Hi Hs) as Hc.
  exists a, b0. split; [|lia]. repeat split; try lia.
  - intros k Hk. apply (Hc a k b0); auto; lia.
  - destruct (Z.eq_dec a 1) as [->|Hne]; [now left|right].
    assert (1 <= a - 1 <= NT)%Z as Hr by lia.
    destruct (@x_binary dm nm b v Hbuild Hfeas i s Hi Hs (a - 1)%Z Hr)
      as [H0|H1]; [exact H0|].
    exfalso. apply (Hmin (a - 1)%Z); [lia|exact H1].
  - destruct (Z.eq_dec b0 NT) as [->|Hne]; [now left|right].
    assert (1 <= b0 + 1 <= NT)%Z as Hr by lia.
    destruct (@x_binary dm nm b v Hbuild Hfeas i s Hi Hs (b0 + 1)%Z Hr)
      as [H0|H1]; [exact H0|].
    exfalso. apply (Hmax (b0 + 1)%Z); [lia|exact H1].
Qed.

Section Dependency.

Variables i s i_star : Z.
Hypothesis Hdep :
  get (DataManager.get_machine_dependencies dm) (i, s) = Some i_star.

Lemma predecessor_flag t :
  (1 <= t <= NT)%Z -> on v i s t ->
  ((1 <= s <= NS)%Z /\ (1 <= i_star <= NI)%Z) /\ v (u_ (i_star, t, s)) == 1.
Proof.
  intros Ht Hon. apply get_In in Hdep.
  destruct (@base_precedence dm nm b Hbuild i s i_star t Hdep Ht)
    as [Hc [Hi [Hs Hst]]].
  split; [auto|].
  apply (feasible_holds Hfeas), holds_LE in Hc.
  rewrite !value_of_var in Hc. simpl in Hc. unfold on in Hon.
  destruct (@u_binary dm nm b v Hbuild Hfeas i_star s Hst Hs t Ht) as [H0|H1];
    [lra|exact H1].
Qed.

Lemma predecessor_locked_off t t' :
  (1 <= t <= t')%Z -> (t' <= NT)%Z -> on v i s t -> off v i_star s t'.
Proof.
  intros Ht Ht' Hon.
  assert (1 <= t <= NT)%Z as Hr by lia.
  assert (1 <= t' <= NT)%Z as Hr' by lia.
  destruct (@predecessor_flag t Hr Hon) as [[Hs Hst] Hu].
  pose proof (@u_monotone dm nm b v Hbuild Hfeas i_star s Hst Hs t t'
                Ht Ht') as Hm.
  pose proof (@locked_off dm nm b v Hbuild Hfeas i_star s Hst Hs t' Hr')
    as H7.
  unfold off.
  destruct (@x_binary dm nm b v Hbuild Hfeas i_star s Hst Hs t' Hr')
    as [H0|H1]; [exact H0|cbv beta in *; lra].
Qed.

Lemma predecessor_run_over t :
  (1 <= t <= NT)%Z -> on v i s t ->
  (exists t0, (1 <= t0 <= NT)%Z /\ on v i_star s t0) ->
  completed_by NT v i_star s (t - 1).
Proof.
  intros Ht Hon [t0 [Ht0 Hon0]].
  destruct (@predecessor_flag t Ht Hon) as [[Hs Hst] Hu].
  destruct (@run_around i_star s t0 Hst Hs Ht0 Hon0) as [a [b0 [Hrun Hab]]].
  exists a, b0. split; [exact Hrun|].
  destruct (Z_lt_le_dec b0 t) as [Hlt|Hge]; [lia|exfalso].
  destruct Hrun as (Hab' & HbT & Hall & _).
  assert (on v i_star s b0) as Honb by (apply Hall; lia).
  pose proof (@predecessor_locked_off t b0 ltac:(lia) HbT Hon) as Hoff.
  unfold on, off in *. rewrite Honb in Hoff. discriminate.
Qed.

End Dependency.

End Region.

(** C1, as the code has it: when a dependent machine is on at slot [t],
    its predecessor is flagged completed at [t] and is off at [t] and at
    every later slot; if the predecessor is on at any slot of the horizon,
    it has completed an actual run that ended before [t].  The predecessor
    need not have run at all. *)
Theorem dependent_runs_once_predecessor_is_locked_off
  (dm : DataManager) (nm : model_name) (b : base) (v : valuation)
  (i s i_star t : Z) :
  build_base_model dm nm = Return b ->
  feasible (model b) v ->
  get (DataManager.get_machine_dependencies dm) (i, s) = Some i_star ->
  (1 <= t <= DataManager.T dm)%Z ->
  on v i s t ->
  v (u_ (i_star, t, s)) == 1 /\
  (forall t', (t <= t' <= DataManager.T dm)%Z -> off v i_star s t') /\
  ((exists t0, (1 <= t0 <= DataManager.T dm)%Z /\ on v i_star s t0) ->
   completed_by (DataManager.T dm) v i_star s (t - 1)).
Proof.
  intros Hbuild Hfeas Hdep Ht Hon. repeat split.
  - apply (@predecessor_flag dm nm b v Hbuild Hfeas i s i_star Hdep t Ht Hon).
  - intros t' Ht'.
    apply (@predecessor_locked_off dm nm b v Hbuild Hfeas i s i_star Hdep
             t t'); auto; lia.
  - apply (@predecessor_run_over dm nm b v Hbuild Hfeas i s i_star Hdep
             t Ht Hon).
Qed.

Lemma dependent_runs_once_predecessor_is_locked_off_witness :
  v_two_machines (u_ (1, 3, 1)%Z) == 1 /\
  (forall t', (3 <= t' <= 4)%Z -> off v_two_machines 1 1 t') /\
  ((exists t0, (1 <= t0 <= 4)%Z /\ on v_two_machines 1 1 t0) ->
   completed_by 4 v_two_machines 1 1 (3 - 1)).
Proof.
  eapply (@dependent_runs_once_predecessor_is_locked_off
            dm_two_machines Base_Model _ v_two_machines 2 1 1 3).
  - vm_compute. reflexivity.
  - apply feasibleb_true. vm_compute. reflexivity.
  - reflexivity.
  - simpl. lia.
  - reflexivity.
Defined.

(** C1 as stated fails: with a predecessor that never runs, the dependent
    machine is on in a feasible assignment although the predecessor has
    completed no run. *)
Lemma precedence_without_run_counterexample :
  exists b,
    build_base_model dm_idle_predecessor Base_Model = Return b /\
    feasible (model b) v_idle_predecessor /\
    ~ runs_after_completed_run dm_idle_predecessor v_idle_predecessor.
Proof.
  eexists. split; [vm_compute; reflexivity|]. split.
  - apply feasibleb_true. vm_compute. reflexivity.
  - intros Hclaim.
    destruct (Hclaim 2 1 1 1)%Z as [a [b0 [Hrun Hle]]].
    + reflexivity.
    + simpl. lia.
    + reflexivity.
    + destruct Hrun as (Hab & HbT & Hall & _). simpl in HbT.
      assert (a = 1)%Z as -> by lia.
      specialize (Hall 1%Z ltac:(lia)). unfold on in Hall.
      vm_compute in Hall. discriminate.
Qed.

End Precedence.

(** ** Decision variables *)

Module DecisionVariables.

Import PyFacts PulpFacts Spec ModelBuilder ModelBuilderFacts.

Lemma comprehension_eq {A B} (f g : A -> result B) (l : list A) :
  (forall a, f a = g a) -> comprehension f l = comprehension g l.
Proof.
  intros Hfg. induction l as [|a l IH]; simpl; [reflexivity|].
  rewrite Hfg, IH. reflexivity.
Qed.

Lemma for_eq {A St} (body body' : A -> St -> result St) (l : list A) :
  (forall a st, body a st = body' a st) ->
  forall st, for_ l body st = for_ l body' st.
Proof.
  intros Hb. induction l as [|a l IH]; intros st; simpl; [reflexivity|].
  rewrite Hb. destruct (body' a st); simpl; auto.
Qed.

Lemma contains_from_keys {V} (f : Z * Z * Z -> V) (ks : list (Z * Z * Z)) k :
  contains (from_keys f ks) k = true <-> In k ks.
Proof.
  unfold contains. split.
  - destruct (get (from_keys f ks) k) eqn:Hg; [|discriminate]. intros _.
    apply (get_from_keys_Some keqb_ZZZ) in Hg. tauto.
  - intros Hin. now rewrite (get_from_keys_In keqb_ZZZ).
Qed.

(** The rated-power mapping is read only through [R.get(key, 0)]. *)
Lemma build_base_model_R (dm : DataManager) (R' : dict (Z * Z) Q) nm :
  (forall k, get_default R' k 0 = get_default (DataManager.R dm) k 0) ->
  build_base_model (with_R dm R') nm = build_base_model dm nm.
Proof.
  intros HR. unfold build_base_model. cbn [with_R DataManager.I DataManager.T
    DataManager.S DataManager.R DataManager.N DataManager.E DataManager.L
    DataManager.c DataManager.o DataManager.alpha DataManager.A
    DataManager.get_machine_dependencies DataManager.machine_dependencies].
  assert (forall m ed xd T S I,
    _add_electricity_consumption_constraints m ed xd R' T S I =
    _add_electricity_consumption_constraints m ed xd (DataManager.R dm) T S I)
    as H1.
  { intros. unfold _add_electricity_consumption_constraints.
    apply for_eq. intros t st. destruct (item ed t); simpl; [reflexivity|].
    erewrite comprehension_eq; [reflexivity|].
    intros [s i]. now rewrite HR. }
  assert (forall m xd yd c o alpha A T I S,
    _add_budget_constraints m xd yd R' c o alpha A T I S =
    _add_budget_constraints m xd yd (DataManager.R dm) c o alpha A T I S)
    as H3.
  { intros. unfold _add_budget_constraints.
    apply for_eq. intros s st.
    erewrite comprehension_eq; [reflexivity|].
    intros [t i]. unfold cost_term. now rewrite HR. }
  rewrite H1. destruct (_add_electricity_consumption_constraints _ _ _ _ _ _ _);
    simpl; [reflexivity|].
  destruct (_add_peak_load_constraints _ _ _ _); simpl; [reflexivity|].
  rewrite H3. reflexivity.
Qed.

(** C4, as the code has it: [build_base_model] creates the per-slot
    variables [x], [y], [u] for every triple of [1..I] x [1..T] x [1..S],
    whether or not the pair (i, s) has a rated power; a pair missing from
    [R] raises no error and is built exactly as a pair of rated power 0. *)
Theorem variables_for_every_triple
  (dm : DataManager) (nm : model_name) (b : base) :
  build_base_model dm nm = Return b ->
  (forall i t s,
     (contains (x b) (i, t, s) = true <->
      (1 <= i <= DataManager.I dm)%Z /\ (1 <= t <= DataManager.T dm)%Z /\
      (1 <= s <= DataManager.S dm)%Z) /\
     contains (y b) (i, t, s) = contains (x b) (i, t, s) /\
     contains (u b) (i, t, s) = contains (x b) (i, t, s)) /\
  (forall R',
     (forall k, get_default R' k 0 = get_default (DataManager.R dm) k 0) ->
     build_base_model (with_R dm R') nm = Return b).
Proof.
  intros Hbuild. split.
  - destruct (build_base_model_inv Hbuild) as (Hx & Hy & Hu & _).
    intros i t s. rewrite Hx, Hy, Hu. unfold LpVariable_dicts.
    split; [|split].
    + rewrite contains_from_keys. apply In_triples.
    + apply eq_true_iff_eq. rewrite !contains_from_keys. reflexivity.
    + apply eq_true_iff_eq. rewrite !contains_from_keys. reflexivity.
  - intros R' HR. rewrite build_base_model_R; assumption.
Qed.

Lemma variables_for_every_triple_witness :
  exists b,
    build_base_model dm_two_systems Base_Model = Return b /\
    contains (x b) (1, 1, 2)%Z = true /\
    build_base_model
      (with_R dm_two_systems
         (DataManager.R dm_two_systems ++ [((1, 2)%Z, 0); ((2, 1)%Z, 0)]))
      Base_Model = Return b.
Proof.
  eexists. split; [vm_compute; reflexivity|].
  match goal with
  | |- contains (x ?b) _ = _ /\ _ =>
      destruct (@variables_for_every_triple dm_two_systems Base_Model b)
        as [Hkeys HR]
  end.
  - vm_compute. reflexivity.
  - split.
    + apply (Hkeys 1 1 2)%Z; simpl; lia.
    + apply HR. intros [i s]. unfold get_default. cbn [DataManager.R dm_two_systems].
      cbn [get app]. destruct (keqb (1, 1)%Z (i, s)); [reflexivity|].
      destruct (keqb (2, 2)%Z (i, s)); [reflexivity|].
      destruct (keqb (1, 2)%Z (i, s)); [reflexivity|].
      destruct (keqb (2, 1)%Z (i, s)); reflexivity.
Defined.

(** C4 as stated fails: the pair (machine 1, system 2) has no rated power
    and yet [x[(1, 1, 2)]] is created. *)
Lemma unrated_pair_counterexample :
  exists b,
    build_base_model dm_two_systems Base_Model = Return b /\
    ~ only_rated_pairs dm_two_systems b.
Proof.
  eexists. split; [vm_compute; reflexivity|].
  intros Hclaim. specialize (Hclaim 1 1 2)%Z.
  assert (contains (DataManager.R dm_two_systems) (1, 2)%Z = true) as Hc.
  { apply Hclaim. left. vm_compute. reflexivity. }
  vm_compute in Hc. discriminate.
Qed.

End DecisionVariables.

(** ** The region is the same for every solve *)

Module Regions.

Import PyFacts PulpFacts Spec ModelBuilder ModelBuilderFacts.

Lemma for_fmap {A St} (f : St -> St) (body : A -> St -> result St)
      (l : list A) :
  (forall a st, body a (f st) = fmap f (body a st)) ->
  forall st, for_ l body (f st) = fmap f (for_ l body st).
Proof.
  intros Hb. induction l as [|a l IH]; intros st; simpl; [reflexivity|].
  rewrite Hb. destruct (body a st); simpl; auto.
Qed.

Ltac commute :=
  repeat match goal with
  | a : (_ * _)%type |- _ => destruct a
  | |- for_ _ _ (_ _) = fmap _ (for_ _ _ _) => apply for_fmap; intros
  | |- context [if ?c then _ else _] => destruct c; cbn [Py.bind fmap]
  | |- context [item ?d ?k] =>
      destruct (item d k); cbn [Py.bind fmap]; [reflexivity|]
  | |- match ?o with _ => _ end = _ => destruct o
  | |- Py.bind ?r _ = _ =>
      destruct r; cbn [Py.bind fmap]; [reflexivity|]
  | |- Return _ = _ => reflexivity
  end.

Lemma rename_electricity nm m ed xd R T S I :
  _add_electricity_consumption_constraints (rename nm m) ed xd R T S I
  = fmap (rename nm) (_add_electricity_consumption_constraints m ed xd R T S I).
Proof. unfold _add_electricity_consumption_constraints. commute. Qed.

Lemma rename_peak_load nm m pl ed T :
  _add_peak_load_constraints (rename nm m) pl ed T
  = fmap (rename nm) (_add_peak_load_constraints m pl ed T).
Proof. unfold _add_peak_load_constraints. commute. Qed.

Lemma rename_budget nm m xd yd R c o alpha A T I S :
  _add_budget_constraints (rename nm m) xd yd R c o alpha A T I S
  = fmap (rename nm) (_add_budget_constraints m xd yd R c o alpha A T I S).
Proof. unfold _add_budget_constraints. commute. Qed.

Lemma rename_duration nm m xd E L N S I :
  _add_operation_duration_constraints (rename nm m) xd E L N S I
  = fmap (rename nm) (_add_operation_duration_constraints m xd E L N S I).
Proof. unfold _add_operation_duration_constraints. commute. Qed.

Lemma rename_uninterruptible nm m xd ud S I T :
  _add_uninterruptible_operation_constraints (rename nm m) xd ud S I T
  = fmap (rename nm) (_add_uninterruptible_operation_constraints m xd ud S I T).
Proof.
  unfold _add_uninterruptible_operation_constraints. commute.
Qed.

Lemma rename_dependency nm m xd ud deps T :
  _add_machine_dependency_constraints (rename nm m) xd ud deps T
  = fmap (rename nm) (_add_machine_dependency_constraints m xd ud deps T).
Proof. unfold _add_machine_dependency_constraints. commute. Qed.

Lemma rename_incentive nm m xd yd S I T :
  _add_incentive_constraints (rename nm m) xd yd S I T
  = fmap (rename nm) (_add_incentive_constraints m xd yd S I T).
Proof. unfold _add_incentive_constraints. commute. Qed.

(** The region does not depend on the name it is built under. *)
Lemma build_base_model_name dm nm nm' :
  build_base_model dm nm' = fmap (rename_base nm') (build_base_model dm nm).
Proof.
  unfold build_base_model.
  change (new_problem nm') with (rename nm' (new_problem nm)).
  rewrite rename_electricity.
  destruct (_add_electricity_consumption_constraints _ _ _ _ _ _ _);
    cbn [Py.bind fmap]; [reflexivity|].
  rewrite rename_peak_load.
  destruct (_add_peak_load_constraints _ _ _ _);
    cbn [Py.bind fmap]; [reflexivity|].
  rewrite rename_budget.
  destruct (_add_budget_constraints _ _ _ _ _ _ _ _ _ _ _);
    cbn [Py.bind fmap]; [reflexivity|].
  rewrite rename_duration.
  destruct (_add_operation_duration_constraints _ _ _ _ _ _ _);
    cbn [Py.bind fmap]; [reflexivity|].
  rewrite rename_uninterruptible.
  destruct (_add_uninterruptible_operation_constraints _ _ _ _ _ _);
    cbn [Py.bind fmap]; [reflexivity|].
  rewrite rename_dependency.
  destruct (_add_machine_dependency_constraints _ _ _ _ _);
    cbn [Py.bind fmap]; [reflexivity|].
  rewrite rename_incentive.
  destruct (_add_incentive_constraints _ _ _ _ _ _);
    cbn [Py.bind fmap]; reflexivity.
Qed.

Lemma build_base_model_rename {dm nm} nm' {b} :
  build_base_model dm nm = Return b ->
  build_base_model dm nm' = Return (rename_base nm' b).
Proof. intros H. rewrite (build_base_model_name dm nm nm'), H. reflexivity. Qed.

End Regions.

(** ** The values a solve leaves *)

Module ValueFacts.

Import PyFacts PulpFacts Spec ModelBuilder ModelBuilderFacts.
Import ObjectiveManager.

Lemma var_name_eqb_refl (n : var_name) : var_name_eqb n n = true.
Proof.
  destruct n; cbn [var_name_eqb]; try reflexivity;
    first [now apply keqb_ZZZ | now apply keqb_Z].
Qed.

Lemma has_value_constraint (m : LpProblem) (c : LpConstraint)
      (x y : LpVariable) :
  In c (constraints m) -> In y (keys (c_expr c)) -> name y = name x ->
  has_value m x = true.
Proof.
  intros Hc Hy Hn. unfold has_value. apply existsb_exists. exists y.
  split; [|rewrite Hn; apply var_name_eqb_refl].
  apply in_or_app. right. apply in_flat_map. exists c. auto.
Qed.

Lemma has_value_objective (m : LpProblem) (a : LpAffineExpression)
      (x y : LpVariable) :
  objective m = Some a -> In y (keys a) -> name y = name x ->
  has_value m x = true.
Proof.
  intros Ho Hy Hn. unfold has_value. apply existsb_exists. exists y.
  split; [|rewrite Hn; apply var_name_eqb_refl].
  apply in_or_app. left. now rewrite Ho.
Qed.

(** The variable a problem minimises has a value. *)
Lemma has_value_minimised (m : LpProblem) (x : LpVariable) :
  has_value (set_objective m (of_var x)) x = true.
Proof.
  apply has_value_objective with (a := of_var x) (y := x);
    [reflexivity|now left|reflexivity].
Qed.

(** With a slot in the horizon, the peak-load variable is in a constraint
    of the region, and of every problem that has the region's
    constraints. *)
Lemma has_value_PL {dm nm b} (m : LpProblem) :
  build_base_model dm nm = Return b ->
  (1 <= DataManager.T dm)%Z ->
  incl (constraints (model b)) (constraints m) ->
  has_value m (PL b) = true.
Proof.
  intros Hb HT Hm.
  destruct (build_base_model_inv Hb)
    as (Hx & Hy & Hu & He & HPL & m1 & m2 & m3 & m4 & m5 & m6
        & H1 & H2 & H3 & H4 & H5 & H6 & H7).
  assert (ext m2 (model b)) as [Hincl _].
  { apply ext_budget in H3.
    apply ext_duration in H4. apply ext_uninterruptible in H5.
    apply ext_dependency in H6. apply ext_incentive in H7.
    repeat (eapply ext_trans; [eassumption|]). apply ext_refl. }
  unfold _add_peak_load_constraints in H2.
  eapply loop_In with (a := 1%Z) in H2; [| |apply In_range; lia].
  2:{ intros t0 s1 s2 _ Hb0. inv_run. repeat ext_step. }
  destruct H2 as (s1 & s2 & _ & Hb0 & [Hincl2 _]).
  inv_run.
  apply has_value_constraint
    with (c := constr (of_var (PL b)) GE (of_var a) (Peak_Load 1))
         (y := PL b).
  - apply Hm, Hincl, Hincl2, In_add_constraint.
  - now left.
  - reflexivity.
Qed.

(** The value of an expression without variables is its constant. *)
Lemma value_constant (v : valuation) (a : LpAffineExpression) :
  isNumericalConstant a = true -> value v a == constant a.
Proof.
  unfold isNumericalConstant, keys, value.
  generalize (constant a) as c. generalize (terms a) as ts.
  induction ts as [|[x k] ts IH]; intros c H; cbn [fold_right];
    [reflexivity|].
  cbn [filter] in H. destruct (Qeq_bool k 0) eqn:E; cbn [negb] in H.
  - assert (k == 0) as Hk by (apply Qeq_bool_iff; exact E).
    rewrite (IH c H), Hk. ring.
  - cbn [map] in H. discriminate H.
Qed.

Lemma value_of_objective_Some (m : LpProblem) (sol : Solved) (q : Q) :
  value_of_objective m sol = Some q ->
  q = objective_value m (varValue sol).
Proof.
  unfold value_of_objective, objective_value.
  destruct (objective m) as [a|]; [|discriminate].
  destruct (isNumericalConstant a); [discriminate|congruence].
Qed.

Lemma value_of_objective_variable (m : LpProblem) (sol : Solved)
      (a : LpAffineExpression) :
  objective m = Some a -> isNumericalConstant a = false ->
  value_of_objective m sol = Some (objective_value m (varValue sol)).
Proof.
  intros Ho Hv. unfold value_of_objective, objective_value.
  now rewrite Ho, Hv.
Qed.

(** [or] does not tell the [None] of a constant objective of value zero
    from the number zero. *)
Lemma or_value_of_objective (m : LpProblem) (sol : Solved)
      (a : LpAffineExpression) (d : Q) :
  objective m = Some a -> constant a == 0 ->
  or_ (value_of_objective m sol) d
  = or_ (Some (objective_value m (varValue sol))) d.
Proof.
  intros Ho Hc. unfold value_of_objective, objective_value. rewrite Ho.
  destruct (isNumericalConstant a) eqn:E; [|reflexivity].
  cbn [or_].
  assert (Qeq_bool (value (varValue sol) a) 0 = true) as ->;
    [|reflexivity].
  apply Qeq_bool_iff. rewrite (value_constant _ _ E). exact Hc.
Qed.

Lemma comprehension_all {A B} (P : B -> Prop) (f : A -> result B)
      (l : list A) :
  (forall a b, In a l -> f a = Return b -> P b) ->
  forall bs, comprehension f l = Return bs -> Forall P bs.
Proof.
  induction l as [|a l IH]; intros Hf bs H; cbn [comprehension] in H.
  - inv_run. constructor.
  - inv_run. constructor.
    + eapply Hf; [now left|eassumption].
    + apply IH; [|assumption]. intros x y Hin. apply Hf. now right.
Qed.

Lemma constant_lpSum (ts : list LpAffineExpression) :
  Forall (fun a => constant a == 0) ts -> constant (lpSum ts) == 0.
Proof.
  induction 1 as [|a ts Ha _ IH]; cbn [lpSum fold_right add constant of_num];
    [reflexivity|].
  fold (lpSum ts). rewrite Ha, IH. ring.
Qed.

(** The cost expression has no constant part. *)
Lemma constant_EC_expression (dm : DataManager) (xd yd : triple_dict)
      (ec : LpAffineExpression) :
  calculate_EC_expression dm xd yd = Return ec -> constant ec == 0.
Proof.
  unfold calculate_EC_expression. intros H. inv_run.
  apply constant_lpSum.
  eapply comprehension_all; [|eassumption].
  intros [[s t] i] b _ Hb. unfold cost_term in Hb. inv_run.
  cbn [scale sub add of_var constant]. ring.
Qed.

(** The ideal values as [or] sees them. *)
Lemma or_ideal (m : LpProblem) (sol : Solved) (a : LpAffineExpression)
      (d : Q) :
  objective m = Some a -> constant a == 0 ->
  or_ (if is_optimal (status sol) then value_of_objective m sol else None) d
  = or_ (if is_optimal (status sol)
         then Some (objective_value m (varValue sol)) else None) d.
Proof.
  intros Ho Hc. destruct (is_optimal (status sol)); [|reflexivity].
  exact (or_value_of_objective m sol d Ho Hc).
Qed.

End ValueFacts.

(** ** Calibration: ideal and nadir points *)

Module Calibration.

Import PyFacts PulpFacts Spec ModelBuilder ModelBuilderFacts Regions.
Import ObjectiveManager ValueFacts.

Section Solves.

Variable solve : LpProblem -> Solved.
Variable dm : DataManager.

Lemma EC_Only_model_inv m b :
  EC_Only_model dm = Return (m, b) ->
  build_base_model dm EC_Only = Return b /\
  exists ec, calculate_EC_expression dm (x b) (y b) = Return ec /\
             m = set_objective (model b) ec.
Proof.
  unfold EC_Only_model. intros H. inv_run. split; [assumption|].
  exists a0. auto.
Qed.

Lemma PL_Only_model_inv m b :
  PL_Only_model dm = Return (m, b) ->
  build_base_model dm PL_Only = Return b /\
  m = set_objective (model b) (of_var (PL b)).
Proof. unfold PL_Only_model. intros H. inv_run. auto. Qed.

Lemma get_EC_ideal_eq m b :
  EC_Only_model dm = Return (m, b) ->
  get_EC_ideal solve dm =
  Return (let sol := solve (rename EC_Ideal m) in
          if is_optimal (status sol)
          then value_of_objective m sol else None).
Proof.
  intros H. apply EC_Only_model_inv in H. destruct H as [Hb [ec [Hec ->]]].
  unfold get_EC_ideal.
  rewrite (build_base_model_rename EC_Ideal Hb). cbn [Py.bind rename_base x y].
  rewrite Hec. cbn [Py.bind].
  change (set_objective (model (rename_base EC_Ideal b)) ec)
    with (rename EC_Ideal (set_objective (model b) ec)).
  cbv zeta. destruct (is_optimal _); reflexivity.
Qed.

(** What [or] makes of the ideal cost. *)
Lemma EC_ideal_or m b (sol : Solved) (d : Q) :
  EC_Only_model dm = Return (m, b) ->
  or_ (if is_optimal (status sol) then value_of_objective m sol else None) d
  = or_ (if is_optimal (status sol)
         then Some (objective_value m (varValue sol)) else None) d.
Proof.
  intros H. apply EC_Only_model_inv in H. destruct H as [Hb [ec [Hec ->]]].
  apply or_ideal with (a := ec); [reflexivity|].
  exact (constant_EC_expression _ _ _ Hec).
Qed.

Lemma get_PL_ideal_eq m b :
  PL_Only_model dm = Return (m, b) ->
  get_PL_ideal solve dm =
  Return (let sol := solve (rename PL_Ideal m) in
          if is_optimal (status sol)
          then Some (objective_value m (varValue sol)) else None).
Proof.
  intros H. apply PL_Only_model_inv in H. destruct H as [Hb ->].
  unfold get_PL_ideal.
  rewrite (build_base_model_rename PL_Ideal Hb). cbn [Py.bind rename_base PL].
  change (set_objective (model (rename_base PL_Ideal b)) (of_var (PL b)))
    with (rename PL_Ideal (set_objective (model b) (of_var (PL b)))).
  cbv zeta. destruct (is_optimal _); reflexivity.
Qed.

(** The two calibration models are built over the same variables. *)
Lemma calibration_models_agree m_EC b_EC m_PL b_PL :
  EC_Only_model dm = Return (m_EC, b_EC) ->
  PL_Only_model dm = Return (m_PL, b_PL) ->
  b_PL = rename_base PL_Only b_EC /\
  exists ec, calculate_EC_expression dm (x b_EC) (y b_EC) = Return ec /\
             m_EC = set_objective (model b_EC) ec /\
             m_PL = rename PL_Only (set_objective (model b_EC) (of_var (PL b_EC))).
Proof.
  intros HEC HPL. apply EC_Only_model_inv in HEC. apply PL_Only_model_inv in HPL.
  destruct HEC as [Hb [ec [Hec ->]]]. destruct HPL as [Hb' ->].
  rewrite (build_base_model_rename PL_Only Hb) in Hb'. injection Hb' as <-.
  split; [reflexivity|]. exists ec. auto.
Qed.

(** The peak-load variable has a value after the PL-only solve, which
    minimises it. *)
Lemma has_value_PL_Only m_PL b_PL :
  PL_Only_model dm = Return (m_PL, b_PL) ->
  has_value m_PL (PL b_PL) = true.
Proof.
  intros HPL. apply PL_Only_model_inv in HPL. destruct HPL as [_ ->].
  apply has_value_minimised.
Qed.

(** With a slot in the horizon it has one after the EC-only solve too. *)
Lemma has_value_EC_Only m_EC b_EC :
  EC_Only_model dm = Return (m_EC, b_EC) ->
  (1 <= DataManager.T dm)%Z ->
  has_value m_EC (PL b_EC) = true.
Proof.
  intros HEC HT. apply EC_Only_model_inv in HEC.
  destruct HEC as [Hb [ec [_ ->]]].
  apply (has_value_PL _ Hb HT). intros c Hc. exact Hc.
Qed.

(** [get_nadir_points] when both calibration solves are optimal: what is
    left to do depends on the value of the peak load after the EC-only
    solve. *)
Lemma get_nadir_points_both_optimal
  (m_EC m_PL : LpProblem) (b_EC b_PL : base) :
  EC_Only_model dm = Return (m_EC, b_EC) ->
  PL_Only_model dm = Return (m_PL, b_PL) ->
  status (solve m_EC) = LpStatusOptimal ->
  status (solve m_PL) = LpStatusOptimal ->
  let at_EC_opt := varValue (solve m_EC) in
  let at_PL_opt := varValue (solve m_PL) in
  let EC_ideal :=
    or_ (let sol := solve (rename EC_Ideal m_EC) in
         if is_optimal (status sol)
         then Some (objective_value m_EC (varValue sol)) else None) 0 in
  let PL_ideal :=
    or_ (let sol := solve (rename PL_Ideal m_PL) in
         if is_optimal (status sol)
         then Some (objective_value m_PL (varValue sol)) else None) 0 in
  get_nadir_points solve dm =
  if has_value m_EC (PL b_EC) then
    Return (EC_ideal, PL_ideal,
            perturb EC_ideal
              (Py.max (objective_value m_EC at_PL_opt)
                      (objective_value m_EC at_EC_opt * lit_1_5)),
            perturb PL_ideal
              (Py.max (at_EC_opt PL_) (at_PL_opt PL_ * lit_1_5)))
  else Raise TypeError.
Proof.
  intros HEC HPL HsE HsP at_EC_opt at_PL_opt EC_ideal PL_ideal.
  unfold get_nadir_points.
  rewrite (get_EC_ideal_eq HEC), (get_PL_ideal_eq HPL). cbn [Py.bind].
  cbv zeta. rewrite (EC_ideal_or _ 0 HEC).
  rewrite HEC. cbn [Py.bind]. rewrite HPL. cbn [Py.bind].
  destruct (calibration_models_agree HEC HPL) as [Hb [ec [Hec [HmE HmP]]]].
  unfold estimate_nadir. rewrite HsE, HsP. cbn [is_optimal andb].
  rewrite Hec. cbn [Py.bind].
  replace (calculate_EC_expression dm (x b_PL) (y b_PL)) with (Return ec)
    by (rewrite Hb; symmetry; exact Hec).
  cbn [Py.bind]. unfold value_of.
  rewrite (has_value_PL_Only HPL).
  destruct (has_value m_EC (PL b_EC)); [|reflexivity].
  cbn [Py.bind].
  destruct (build_base_model_inv (proj1 (EC_Only_model_inv HEC)))
    as (_ & _ & _ & _ & HPLv & _).
  fold EC_ideal PL_ideal. repeat f_equal.
  - subst m_EC. reflexivity.
  - subst m_EC. reflexivity.
  - rewrite HPLv. reflexivity.
  - rewrite Hb. cbn [rename_base PL]. rewrite HPLv. reflexivity.
Qed.

(** [get_nadir_points] when both calibration solves are optimal, with a
    slot in the horizon. *)
Lemma get_nadir_points_optimal
  (m_EC m_PL : LpProblem) (b_EC b_PL : base) :
  EC_Only_model dm = Return (m_EC, b_EC) ->
  PL_Only_model dm = Return (m_PL, b_PL) ->
  status (solve m_EC) = LpStatusOptimal ->
  status (solve m_PL) = LpStatusOptimal ->
  (1 <= DataManager.T dm)%Z ->
  let at_EC_opt := varValue (solve m_EC) in
  let at_PL_opt := varValue (solve m_PL) in
  let EC_ideal :=
    or_ (let sol := solve (rename EC_Ideal m_EC) in
         if is_optimal (status sol)
         then Some (objective_value m_EC (varValue sol)) else None) 0 in
  let PL_ideal :=
    or_ (let sol := solve (rename PL_Ideal m_PL) in
         if is_optimal (status sol)
         then Some (objective_value m_PL (varValue sol)) else None) 0 in
  get_nadir_points solve dm =
  Return (EC_ideal, PL_ideal,
          perturb EC_ideal
            (Py.max (objective_value m_EC at_PL_opt)
                    (objective_value m_EC at_EC_opt * lit_1_5)),
          perturb PL_ideal
            (Py.max (at_EC_opt PL_) (at_PL_opt PL_ * lit_1_5))).
Proof.
  intros HEC HPL HsE HsP HT.
  pose proof (get_nadir_points_both_optimal HEC HPL HsE HsP) as H.
  cbv zeta in H. rewrite (has_value_EC_Only HEC HT) in H. exact H.
Qed.

(** When both calibration solves are optimal and the horizon has a slot,
    the nadir estimates that enter the equal-case perturbation are
    [max (EC at the PL-optimum, EC at the EC-optimum * 1.5)] and
    [max (PL at the EC-optimum, PL at the PL-optimum * 1.5)]. *)
Lemma nadir_is_max_of_cross_value_and_inflated_ideal
  (m_EC m_PL : LpProblem) (b_EC b_PL : base) :
  EC_Only_model dm = Return (m_EC, b_EC) ->
  PL_Only_model dm = Return (m_PL, b_PL) ->
  status (solve m_EC) = LpStatusOptimal ->
  status (solve m_PL) = LpStatusOptimal ->
  (1 <= DataManager.T dm)%Z ->
  let at_EC_opt := varValue (solve m_EC) in
  let at_PL_opt := varValue (solve m_PL) in
  exists EC_ideal PL_ideal,
    get_nadir_points solve dm =
    Return (EC_ideal, PL_ideal,
            perturb EC_ideal
              (Py.max (objective_value m_EC at_PL_opt)
                      (objective_value m_EC at_EC_opt * lit_1_5)),
            perturb PL_ideal
              (Py.max (at_EC_opt PL_) (at_PL_opt PL_ * lit_1_5))).
Proof.
  intros HEC HPL HsE HsP HT at_EC_opt at_PL_opt.
  do 2 eexists. exact (get_nadir_points_optimal HEC HPL HsE HsP HT).
Qed.

End Solves.

(** C7 fails on the code: in a horizon without slots the peak-load
    variable is in no constraint of the EC-only model, so it has no value
    after that solve; when both calibration solves are optimal,
    [max(PL_from_EC_opt, ...)] is then evaluated on [None] and
    [get_nadir_points] raises [TypeError] instead of setting the nadir
    estimates. *)
Theorem nadir_estimate_fails_without_slots (solve : LpProblem -> Solved) :
  (forall m_EC b_EC m_PL b_PL,
     EC_Only_model dm_no_slots = Return (m_EC, b_EC) ->
     PL_Only_model dm_no_slots = Return (m_PL, b_PL) ->
     status (solve m_EC) = LpStatusOptimal /\
     status (solve m_PL) = LpStatusOptimal) ->
  get_nadir_points solve dm_no_slots = Raise TypeError.
Proof.
  intros Hopt.
  destruct (EC_Only_model dm_no_slots) as [|[m_EC b_EC]] eqn:HEC;
    [vm_compute in HEC; discriminate|].
  destruct (PL_Only_model dm_no_slots) as [|[m_PL b_PL]] eqn:HPL;
    [vm_compute in HPL; discriminate|].
  destruct (Hopt _ _ _ _ eq_refl eq_refl) as [HsE HsP].
  rewrite (@get_nadir_points_both_optimal solve dm_no_slots _ _ _ _
             HEC HPL HsE HsP).
  assert (has_value m_EC (PL b_EC) = false) as ->; [|reflexivity].
  vm_compute in HEC. injection HEC as <- <-. reflexivity.
Qed.

Lemma nadir_estimate_fails_without_slots_witness :
  get_nadir_points (answers (fun _ => 0)) dm_no_slots = Raise TypeError.
Proof.
  apply (nadir_estimate_fails_without_slots (answers (fun _ => 0))).
  intros m_EC b_EC m_PL b_PL _ _. split; reflexivity.
Defined.

End Calibration.

(** ** A zero ideal is an unavailable ideal *)

Module ZeroIdeal.

Import PyFacts PulpFacts Spec ModelBuilder ModelBuilderFacts Regions.
Import ObjectiveManager OptimizationApproaches Calibration.

Lemma or_unavailable {r : option Q} (d : Q) : unavailable r -> or_ r d = d.
Proof.
  destruct r as [q|]; simpl; [|reflexivity]. intros Hq.
  apply Qeq_bool_iff in Hq. now rewrite Hq.
Qed.

Lemma name_EC_Only {dm m b} :
  EC_Only_model dm = Return (m, b) -> p_name m = EC_Only.
Proof.
  intros H. apply EC_Only_model_inv in H. destruct H as [Hb [ec [_ ->]]].
  apply (base_objective Hb).
Qed.

Lemma name_PL_Only {dm m b} :
  PL_Only_model dm = Return (m, b) -> p_name m = PL_Only.
Proof.
  intros H. apply PL_Only_model_inv in H. destruct H as [Hb ->].
  apply (base_objective Hb).
Qed.

Lemma get_EC_ideal_raise solve {dm e0} :
  EC_Only_model dm = Raise e0 -> get_EC_ideal solve dm = Raise e0.
Proof.
  unfold EC_Only_model, get_EC_ideal.
  rewrite (build_base_model_name dm EC_Only EC_Ideal).
  destruct (build_base_model dm EC_Only) as [e1|b]; cbn [Py.bind fmap];
    [intros [= ->]; reflexivity|].
  cbn [rename_base x y].
  destruct (calculate_EC_expression dm (x b) (y b)); cbn [Py.bind];
    [intros [= ->]; reflexivity|discriminate].
Qed.

Lemma get_PL_ideal_raise solve {dm e0} :
  PL_Only_model dm = Raise e0 -> get_PL_ideal solve dm = Raise e0.
Proof.
  unfold PL_Only_model, get_PL_ideal.
  rewrite (build_base_model_name dm PL_Only PL_Ideal).
  destruct (build_base_model dm PL_Only) as [e1|b]; cbn [Py.bind fmap];
    [intros [= ->]; reflexivity|discriminate].
Qed.

Section TwoSolvers.

Variables solve solve' : LpProblem -> Solved.
Variable dm : DataManager.
Hypothesis Hsame : fails_where_zero solve solve' dm.

Lemma or_same_or_fails {m nm} d :
  same_or_fails_at_zero solve solve' (rename nm m) ->
  or_ (let sol := solve (rename nm m) in
       if is_optimal (status sol)
       then Some (objective_value m (varValue sol)) else None) d
  = or_ (let sol := solve' (rename nm m) in
         if is_optimal (status sol)
         then Some (objective_value m (varValue sol)) else None) d.
Proof.
  intros [->|(Hopt & Hzero & Hfail)]; [reflexivity|].
  cbv zeta. rewrite Hopt, Hfail. cbn [is_optimal or_].
  change (objective_value (rename nm m) (varValue (solve (rename nm m))))
    with (objective_value m (varValue (solve (rename nm m)))) in Hzero.
  apply Qeq_bool_iff in Hzero. now rewrite Hzero.
Qed.

Lemma or_same_or_fails_EC {m b} d :
  EC_Only_model dm = Return (m, b) ->
  same_or_fails_at_zero solve solve' (rename EC_Ideal m) ->
  or_ (let sol := solve (rename EC_Ideal m) in
       if is_optimal (status sol)
       then value_of_objective m sol else None) d
  = or_ (let sol := solve' (rename EC_Ideal m) in
         if is_optimal (status sol)
         then value_of_objective m sol else None) d.
Proof.
  intros Hm Hs. cbv zeta. rewrite !(EC_ideal_or _ _ d Hm).
  exact (or_same_or_fails d Hs).
Qed.

Lemma same_nadir_points :
  get_nadir_points solve dm = get_nadir_points solve' dm.
Proof.
  destruct Hsame as (Hother & HEC & HPL).
  unfold get_nadir_points.
  destruct (EC_Only_model dm) as [e0|[m_EC b_EC]] eqn:HmEC.
  { now rewrite !(get_EC_ideal_raise _ HmEC). }
  rewrite !(@get_EC_ideal_eq _ _ _ _ HmEC). cbn [Py.bind].
  destruct (PL_Only_model dm) as [e0|[m_PL b_PL]] eqn:HmPL.
  { now rewrite !(get_PL_ideal_raise _ HmPL). }
  rewrite !(@get_PL_ideal_eq _ _ _ _ HmPL). cbn [Py.bind].
  rewrite (or_same_or_fails_EC _ HmEC (HEC _ _ eq_refl)).
  rewrite (or_same_or_fails _ (HPL _ _ eq_refl)).
  rewrite (Hother m_EC), (Hother m_PL);
    rewrite ?(name_EC_Only HmEC), ?(name_PL_Only HmPL);
    try discriminate.
  reflexivity.
Qed.

Lemma same_compromise w_EC w_PL :
  solve_compromise_programming solve dm w_EC w_PL
  = solve_compromise_programming solve' dm w_EC w_PL.
Proof.
  destruct Hsame as (Hother & HEC & HPL).
  unfold solve_compromise_programming.
  destruct (EC_Only_model dm) as [e0|[m_EC b_EC]] eqn:HmEC.
  { now rewrite !(get_EC_ideal_raise _ HmEC). }
  rewrite !(@get_EC_ideal_eq _ _ _ _ HmEC). cbn [Py.bind].
  destruct (PL_Only_model dm) as [e0|[m_PL b_PL]] eqn:HmPL.
  { now rewrite !(get_PL_ideal_raise _ HmPL). }
  rewrite !(@get_PL_ideal_eq _ _ _ _ HmPL). cbn [Py.bind].
  rewrite (or_same_or_fails_EC _ HmEC (HEC _ _ eq_refl)).
  rewrite (or_same_or_fails _ (HPL _ _ eq_refl)).
  match goal with
  | |- Py.bind ?c _ = _ => destruct c as [e0|[m b]] eqn:Hm
  end; cbn [Py.bind]; [reflexivity|].
  rewrite (Hother m); [reflexivity| |];
    unfold compromise_model in Hm; inv_run;
    cbn [p_name set_objective add_constraint];
    rewrite (proj2 (base_objective Ha)); discriminate.
Qed.

End TwoSolvers.

Lemma nadir_with_unavailable_ideal {solve dm r_EC r_PL EI PI EN PN} :
  get_EC_ideal solve dm = Return r_EC ->
  get_PL_ideal solve dm = Return r_PL ->
  get_nadir_points solve dm = Return (EI, PI, EN, PN) ->
  EI = or_ r_EC 0 /\ PI = or_ r_PL 0 /\
  (calibration_failed solve dm ->
   (unavailable r_EC -> EN = 100) /\ (unavailable r_PL -> PN = 20)).
Proof.
  intros HrEC HrPL Hn. unfold get_nadir_points in Hn.
  rewrite HrEC, HrPL in Hn. cbn [Py.bind] in Hn.
  destruct (EC_Only_model dm) as [e0|[m_EC b_EC]] eqn:HmEC;
    [discriminate|].
  destruct (PL_Only_model dm) as [e0|[m_PL b_PL]] eqn:HmPL;
    [discriminate|].
  cbn [Py.bind] in Hn.
  destruct (estimate_nadir dm (or_ r_EC 0) (or_ r_PL 0) m_EC (solve m_EC) b_EC
              m_PL (solve m_PL) b_PL) as [e0|[EN0 PN0]] eqn:Hest;
    [discriminate|].
  cbn [Py.bind] in Hn. inversion Hn; subst; clear Hn.
  split; [reflexivity|]. split; [reflexivity|].
  intros (m1 & b1 & m2 & b2 & H1 & H2 & Hfail).
  rewrite HmEC in H1. rewrite HmPL in H2.
  inversion H1; subst; clear H1. inversion H2; subst; clear H2.
  unfold estimate_nadir in Hest. rewrite Hfail in Hest.
  inversion Hest; subst; clear Hest. split; intros Hun.
  - rewrite (or_unavailable 0 Hun). reflexivity.
  - rewrite (or_unavailable 0 Hun). reflexivity.
Qed.

Lemma compromise_with_defaults {solve dm} w_EC w_PL {r_EC r_PL} :
  get_EC_ideal solve dm = Return r_EC ->
  get_PL_ideal solve dm = Return r_PL ->
  solve_compromise_programming solve dm w_EC w_PL =
  (' (model, b) <- compromise_model dm w_EC w_PL
                     (or_ r_EC lit_0_1) (or_ r_PL lit_0_1) ;;
   results <- ResultExtractor.extract_results dm (solve model)
                (x b) (y b) (e b) (PL b) ;;
   report model (PL b) results).
Proof.
  intros HrEC HrPL. unfold solve_compromise_programming.
  rewrite HrEC, HrPL. reflexivity.
Qed.



End ZeroIdeal.

(** ** Result extraction *)

Module Extraction.

Import PyFacts PulpFacts Spec ModelBuilder ModelBuilderFacts Regions.

Lemma for_total {A St} (body : A -> St -> result St) (l : list A) :
  (forall a st, In a l -> exists st', body a st = Return st') ->
  forall st, exists st', for_ l body st = Return st'.
Proof.
  induction l as [|a l IH]; intros Hb st; simpl; [eauto|].
  destruct (Hb a st (or_introl eq_refl)) as [st1 ->]. cbn [Py.bind].
  apply IH. intros a0 st0 Hin. apply Hb. now right.
Qed.

Section Base.

Variables (dm : DataManager) (nm : model_name) (b : base).
Hypothesis Hbuild : build_base_model dm nm = Return b.
Variable sol : Solved.

Lemma x_in_range {i t s} :
  In i (range 1 (DataManager.I dm + 1)) ->
  In t (range 1 (DataManager.T dm + 1)) ->
  In s (range 1 (DataManager.S dm + 1)) ->
  item (x b) (i, t, s) = Return (xvar i t s) /\
  item (y b) (i, t, s) = Return (yvar i t s).
Proof.
  intros Hi Ht Hs. apply In_range in Hi, Ht, Hs.
  destruct (build_base_model_inv Hbuild) as (Hx & Hy & _).
  rewrite Hx, Hy. split; [apply item_x|apply item_y]; split; auto; lia.
Qed.

Lemma e_in_range {t} :
  In t (range 1 (DataManager.T dm + 1)) ->
  exists w, item (e b) t = Return w.
Proof.
  intros Ht. destruct (build_base_model_inv Hbuild) as (_ & _ & _ & He & _).
  rewrite He. unfold LpVariable_dicts. eexists.
  apply (item_from_keys keqb_Z). split; [exact Ht|reflexivity].
Qed.

Lemma _calculate_EC_value_total :
  exists q, ResultExtractor._calculate_EC_value dm sol (x b) (y b) = Return q.
Proof.
  unfold ResultExtractor._calculate_EC_value.
  apply for_total. intros s st Hs.
  apply for_total. intros i st0 Hi.
  apply for_total. intros t st1 Ht.
  destruct (contains _ _); [|eauto].
  destruct (x_in_range Hi Ht Hs) as [-> ->]. cbn [Py.bind]. eauto.
Qed.

Lemma _extract_schedule_total :
  exists l, ResultExtractor._extract_schedule dm sol (x b) = Return l.
Proof.
  unfold ResultExtractor._extract_schedule.
  apply for_total. intros s st Hs.
  apply for_total. intros i st0 Hi.
  apply for_total. intros t st1 Ht.
  destruct (contains _ _); [|eauto].
  destruct (x_in_range Hi Ht Hs) as [-> _]. cbn [Py.bind].
  destruct (negb _); eauto.
Qed.

Lemma _calculate_load_profile_total :
  exists d, ResultExtractor._calculate_load_profile dm sol (e b) = Return d.
Proof.
  unfold ResultExtractor._calculate_load_profile.
  apply for_total. intros t st Ht.
  destruct (e_in_range Ht) as [w ->]. cbn [Py.bind]. eauto.
Qed.

(** On the variables of a built region, extraction raises nothing, and
    fails exactly when the solve was not optimal. *)
Lemma extract_results_total :
  exists r, ResultExtractor.extract_results dm sol (x b) (y b) (e b) (PL b) = Return r /\
            (r = None <-> is_optimal (status sol) = false).
Proof.
  unfold ResultExtractor.extract_results. destruct (is_optimal (status sol)); cbn [negb].
  - destruct _calculate_EC_value_total as [q ->].
    destruct _extract_schedule_total as [l ->].
    destruct _calculate_load_profile_total as [d ->]. cbn [Py.bind].
    eexists. split; [reflexivity|]. split; discriminate.
  - exists None. split; [reflexivity|]. split; reflexivity.
Qed.

End Base.

End Extraction.

(** ** The four strategies *)

Module Strategies.

Import PyFacts PulpFacts Spec ModelBuilder ModelBuilderFacts Regions.
Import ObjectiveManager OptimizationApproaches Extraction ValueFacts.

(** The report that ends a strategy goes through when the peak load has
    a value, and fails on a result without one. *)
Lemma report_valued (m : LpProblem) (pl : LpVariable)
      (r : option ResultExtractor.results) :
  has_value m pl = true -> report m pl r = Return r.
Proof.
  intros H. unfold report. destruct r; [|reflexivity].
  cbn [format_2f Py.bind]. rewrite H. reflexivity.
Qed.

Lemma report_unvalued (m : LpProblem) (pl : LpVariable)
      (r : ResultExtractor.results) :
  has_value m pl = false -> report m pl (Some r) = Raise TypeError.
Proof.
  intros H. unfold report. cbn [format_2f Py.bind]. rewrite H. reflexivity.
Qed.

Lemma bind_report {m : LpProblem} {pl : LpVariable}
      (c : result (option ResultExtractor.results)) :
  has_value m pl = true -> (results <- c ;; report m pl results) = c.
Proof.
  intros H. destruct c as [e0|r]; cbn [Py.bind]; [reflexivity|].
  exact (@report_valued m pl r H).
Qed.

(** The guard [max(ideal, 0.001)] is never zero. *)
Lemma max_epsilon_nonzero (a : Q) : Qeq_bool (Py.max a lit_0_001) 0 = false.
Proof.
  unfold Py.max. destruct (Qle_bool lit_0_001 a) eqn:Hle.
  - apply Qle_bool_iff in Hle. destruct (Qeq_bool a 0) eqn:Heq; [|reflexivity].
    apply Qeq_bool_iff in Heq. rewrite Heq in Hle.
    unfold Qle, lit_0_001 in Hle. simpl in Hle. lia.
  - reflexivity.
Qed.

Lemma divide_by_guard (a : LpAffineExpression) (q : Q) :
  divide a (Py.max q lit_0_001) = Return (scale (1 / Py.max q lit_0_001) a).
Proof. unfold divide, Py.div. now rewrite max_epsilon_nonzero. Qed.

Section Strategy.

Variable solve : LpProblem -> Solved.
Variable dm : DataManager.

(** Whenever one region of [dm] can be built with its cost expression,
    every region can. *)
Lemma region_built {nm b ec} nm' :
  build_base_model dm nm = Return b ->
  calculate_EC_expression dm (x b) (y b) = Return ec ->
  build_base_model dm nm' = Return (rename_base nm' b) /\
  calculate_EC_expression dm (x (rename_base nm' b)) (y (rename_base nm' b))
  = Return ec.
Proof.
  intros Hb Hec. split; [exact (build_base_model_rename nm' Hb)|exact Hec].
Qed.

Lemma get_EC_ideal_built {r} :
  get_EC_ideal solve dm = Return r ->
  exists b ec, build_base_model dm EC_Ideal = Return b /\
               calculate_EC_expression dm (x b) (y b) = Return ec.
Proof. unfold get_EC_ideal. intros H. inv_run. eauto. Qed.

Lemma get_nadir_points_built {r} :
  get_nadir_points solve dm = Return r ->
  exists b ec, build_base_model dm EC_Ideal = Return b /\
               calculate_EC_expression dm (x b) (y b) = Return ec.
Proof.
  unfold get_nadir_points. intros H. apply bind_Return in H.
  destruct H as [r0 [H _]]. exact (get_EC_ideal_built H).
Qed.

Lemma get_normalization_factors_built {r} :
  get_normalization_factors solve dm = Return r ->
  exists b ec, build_base_model dm EC_Ideal = Return b /\
               calculate_EC_expression dm (x b) (y b) = Return ec.
Proof.
  unfold get_normalization_factors. intros H. apply bind_Return in H.
  destruct H as [r0 [H _]]. exact (get_nadir_points_built H).
Qed.

Lemma weighted_sum_model_has_value {w_EC w_PL EI PI EN PN m b} :
  weighted_sum_model dm w_EC w_PL EI PI EN PN = Return (m, b) ->
  (1 <= DataManager.T dm)%Z ->
  has_value m (PL b) = true.
Proof.
  unfold weighted_sum_model. intros H HT. inv_run.
  apply (has_value_PL _ Ha HT). intros c Hc. exact Hc.
Qed.

Lemma compromise_model_has_value {w_EC w_PL EI PI m b} :
  compromise_model dm w_EC w_PL EI PI = Return (m, b) ->
  (1 <= DataManager.T dm)%Z ->
  has_value m (PL b) = true.
Proof.
  unfold compromise_model. intros H HT. inv_run.
  apply (has_value_PL _ Ha HT). intros c Hc.
  cbn [constraints set_objective add_constraint].
  apply in_or_app. left. apply in_or_app. left. exact Hc.
Qed.

Lemma EC_first_model1_inv {m1} :
  EC_first_model1 dm = Return m1 ->
  exists b1 ec, build_base_model dm PR_EC_First_Step1 = Return b1 /\
                calculate_EC_expression dm (x b1) (y b1) = Return ec /\
                m1 = set_objective (model b1) ec.
Proof. unfold EC_first_model1. intros H. inv_run. eauto. Qed.

(** When the first solve of the EC-first approach is optimal with
    value [EC_star], a second region is built afresh, the constraint
    [EC <= EC_star * 1.001] is added to it, its objective is the peak
    load, and the approach returns the extraction of that second solve.
    The first model is the same region with the cost expression as
    objective. *)
Lemma EC_first_returns_extraction_of_constrained_PL_solve
  (m1 : LpProblem) (EC_star : Q) :
  EC_first_model1 dm = Return m1 ->
  status (solve m1) = LpStatusOptimal ->
  value_of_objective m1 (solve m1) = Some EC_star ->
  EC_star = objective_value m1 (varValue (solve m1)) /\
  exists b2 ec,
    build_base_model dm PR_EC_First_Step2 = Return b2 /\
    calculate_EC_expression dm (x b2) (y b2) = Return ec /\
    objective m1 = Some ec /\
    constraints m1 = constraints (model b2) /\
    let m2 :=
      {| p_name := PR_EC_First_Step2;
         objective := Some (of_var (PL b2));
         constraints :=
           constraints (model b2)
           ++ [constr ec LE (of_num (EC_star * lit_1_001))
                 Maintain_Optimal_EC] |} in
    solve_preemptive_EC_first solve dm
    = ResultExtractor.extract_results dm (solve m2)
        (x b2) (y b2) (e b2) (PL b2).
Proof.
  intros Hm1 Hopt Hval. split; [exact (value_of_objective_Some _ _ Hval)|].
  destruct (EC_first_model1_inv Hm1) as (b1 & ec & Hb1 & Hec & ->).
  destruct (region_built PR_EC_First_Step2 Hb1 Hec) as [Hb2 Hec2].
  exists (rename_base PR_EC_First_Step2 b1), ec.
  repeat split; try assumption; try reflexivity.
  unfold solve_preemptive_EC_first. rewrite Hm1. cbn [Py.bind].
  rewrite Hopt. cbn [is_optimal negb]. cbv zeta. rewrite Hval.
  cbn [format_2f Py.bind].
  unfold EC_first_model2. rewrite Hb2. cbn [Py.bind]. rewrite Hec2.
  cbn [Py.bind]. apply bind_report. apply has_value_minimised.
Qed.

(** An optimal first solve whose objective has no value stops the
    approach at the report of the optimum. *)
Lemma EC_first_raises (m1 : LpProblem) :
  EC_first_model1 dm = Return m1 ->
  status (solve m1) = LpStatusOptimal ->
  value_of_objective m1 (solve m1) = None ->
  solve_preemptive_EC_first solve dm = Raise TypeError.
Proof.
  intros Hm1 Hopt Hval.
  unfold solve_preemptive_EC_first. rewrite Hm1. cbn [Py.bind].
  rewrite Hopt. cbn [is_optimal negb]. cbv zeta. rewrite Hval.
  reflexivity.
Qed.

Lemma comprehension_total {A B} (f : A -> result B) (l : list A) :
  (forall a, In a l -> exists b, f a = Return b) ->
  exists bs, comprehension f l = Return bs.
Proof.
  induction l as [|a l IH]; intros Hf; simpl; [eauto|].
  destruct (Hf a (or_introl eq_refl)) as [b ->]. cbn [Py.bind].
  destruct IH as [bs ->]; [intros a0 Hin; apply Hf; now right|].
  cbn [Py.bind]. eauto.
Qed.

(** The cost expression of a built region is defined. *)
Lemma calculate_EC_expression_total {nm b} :
  build_base_model dm nm = Return b ->
  exists ec, calculate_EC_expression dm (x b) (y b) = Return ec.
Proof.
  intros Hb. unfold calculate_EC_expression.
  destruct (@comprehension_total _ _
    (fun '(s, t, i) =>
       cost_term (x b) (y b) (DataManager.R dm) (DataManager.c dm)
         (DataManager.o dm) (DataManager.alpha dm) i t s)
    (triples (DataManager.S dm) (DataManager.T dm) (DataManager.I dm)))
    as [ts Hts].
  - intros [[s t] i] Hin. apply In_triples in Hin.
    destruct (@x_in_range dm nm b Hb i t s) as [Hx Hy];
      try (apply In_range; lia).
    unfold cost_term. rewrite Hx, Hy. cbn [Py.bind]. eauto.
  - rewrite Hts. cbn [Py.bind]. eauto.
Qed.

Section Built.

Variables (nm0 : model_name) (b0 : base).
Hypothesis Hbuild : build_base_model dm nm0 = Return b0.

Let extract nm sol :=
  ResultExtractor.extract_results dm sol (x (rename_base nm b0))
    (y (rename_base nm b0)) (e (rename_base nm b0)) (PL (rename_base nm b0)).

Lemma extract_total nm sol :
  exists r, extract nm sol = Return r /\
            (r = None <-> is_optimal (status sol) = false).
Proof.
  exact (@extract_results_total dm nm (rename_base nm b0)
           (build_base_model_rename nm Hbuild) sol).
Qed.

Lemma EC_first_model1_built :
  exists ec,
    calculate_EC_expression dm (x b0) (y b0) = Return ec /\
    EC_first_model1 dm
    = Return (set_objective (model (rename_base PR_EC_First_Step1 b0)) ec).
Proof.
  destruct (calculate_EC_expression_total Hbuild) as [ec Hec].
  destruct (region_built PR_EC_First_Step1 Hbuild Hec) as [Hb1 Hec1].
  exists ec. split; [exact Hec|].
  unfold EC_first_model1. rewrite Hb1. cbn [Py.bind]. rewrite Hec1.
  reflexivity.
Qed.

(** The EC-first approach returns, or its first solve is optimal with an
    objective that has no value, which the report fails to format. *)
Lemma EC_first_returns_or_raises :
  exists m1,
    EC_first_model1 dm = Return m1 /\
    ((exists r,
        solve_preemptive_EC_first solve dm = Return r /\
        (r = None <->
         is_optimal (status (solve m1)) = false \/
         exists m2 b2,
           EC_first_model2 dm (objective_value m1 (varValue (solve m1)))
           = Return (m2, b2) /\ is_optimal (status (solve m2)) = false)) \/
     (solve_preemptive_EC_first solve dm = Raise TypeError /\
      is_optimal (status (solve m1)) = true /\
      value_of_objective m1 (solve m1) = None)).
Proof.
  destruct EC_first_model1_built as (ec & Hec & Hm1).
  destruct (region_built PR_EC_First_Step2 Hbuild Hec) as [Hb2 Hec2].
  eexists. split; [exact Hm1|].
  unfold solve_preemptive_EC_first. rewrite Hm1. cbn [Py.bind].
  destruct (is_optimal (status (solve _))) eqn:Hopt; cbn [negb].
  - cbv zeta.
    destruct (value_of_objective _ _) as [EC_star|] eqn:Hval;
      cbn [format_2f Py.bind]; [left|right; auto].
    rewrite <- (value_of_objective_Some _ _ Hval).
    unfold EC_first_model2. rewrite Hb2. cbn [Py.bind]. rewrite Hec2.
    cbn [Py.bind]. rewrite (bind_report _ (has_value_minimised _ _)).
    match goal with
    | |- context [ResultExtractor.extract_results dm (solve ?m)] =>
        destruct (extract_total PR_EC_First_Step2 (solve m)) as (r & Hr & Hiff)
    end.
    exists r. split; [exact Hr|].
    rewrite Hiff. split.
    + intros Hf. right. eauto.
    + intros [Hf|(m2 & b2 & [= <- <-] & Hf)]; [discriminate Hf|exact Hf].
  - left. exists None. split; [reflexivity|]. split; auto.
Qed.

(** With a cost expression that has a variable, it returns. *)
Lemma EC_first_fails_with_its_solves :
  (forall ec, calculate_EC_expression dm (x b0) (y b0) = Return ec ->
              isNumericalConstant ec = false) ->
  exists m1 r,
    EC_first_model1 dm = Return m1 /\
    solve_preemptive_EC_first solve dm = Return r /\
    (r = None <->
     is_optimal (status (solve m1)) = false \/
     exists m2 b2,
       EC_first_model2 dm (objective_value m1 (varValue (solve m1)))
       = Return (m2, b2) /\ is_optimal (status (solve m2)) = false).
Proof.
  intros Hvar.
  destruct EC_first_model1_built as (ec & Hec & Hm1).
  destruct EC_first_returns_or_raises
    as (m1 & Hm1' & [(r & Hr & Hiff)|(_ & _ & Hnone)]).
  - exists m1, r. auto.
  - exfalso. rewrite Hm1 in Hm1'. injection Hm1' as <-.
    unfold value_of_objective in Hnone. cbn [objective set_objective] in Hnone.
    rewrite (Hvar ec Hec) in Hnone. discriminate Hnone.
Qed.

Lemma PL_first_fails_with_its_solves :
  exists m1 b1 r,
    PL_first_model1 dm = Return (m1, b1) /\
    solve_preemptive_PL_first solve dm = Return r /\
    (r = None <->
     is_optimal (status (solve m1)) = false \/
     exists m2 b2,
       PL_first_model2 dm (var_value (solve m1) (PL b1)) = Return (m2, b2)
       /\ is_optimal (status (solve m2)) = false).
Proof.
  destruct (calculate_EC_expression_total Hbuild) as [ec Hec].
  destruct (region_built PR_PL_First_Step1 Hbuild Hec) as [Hb1 Hec1].
  destruct (region_built PR_PL_First_Step2 Hbuild Hec) as [Hb2 Hec2].
  unfold solve_preemptive_PL_first, PL_first_model1, PL_first_model2.
  rewrite Hb1. cbn [Py.bind].
  do 2 eexists. destruct (is_optimal (status (solve _))) eqn:Hopt; cbn [negb].
  - cbv zeta. unfold value_of. rewrite has_value_minimised.
    cbn [format_2f Py.bind].
    rewrite Hb2. cbn [Py.bind]. rewrite Hec2. cbn [Py.bind].
    rewrite bind_report.
    2:{ eapply has_value_constraint;
          [apply In_add_constraint|now left|reflexivity]. }
    match goal with
    | |- context [ResultExtractor.extract_results dm (solve ?m)] =>
        destruct (extract_total PR_PL_First_Step2 (solve m)) as (r & Hr & Hiff)
    end.
    exists r. split; [reflexivity|]. split; [exact Hr|].
    rewrite Hiff. split.
    + intros Hf. right. eauto.
    + intros [Hf|(m2 & b2 & [= <- <-] & Hf)]; [rewrite Hopt in Hf; discriminate Hf|exact Hf].
  - exists None. split; [reflexivity|]. split; [reflexivity|].
    split; auto.
Qed.

(** In the two scalarised models the peak-load variable has a value
    when the horizon has a slot. *)
Lemma has_value_region nm (m : LpProblem) :
  (1 <= DataManager.T dm)%Z ->
  incl (constraints (model (rename_base nm b0))) (constraints m) ->
  has_value m (PL (rename_base nm b0)) = true.
Proof.
  intros HT. exact (has_value_PL m (build_base_model_rename nm Hbuild) HT).
Qed.

Lemma weighted_sum_fails_with_its_last_solve w_EC w_PL EI PI EN PN :
  (1 <= DataManager.T dm)%Z ->
  get_normalization_factors solve dm = Return (EI, PI, EN, PN) ->
  exists m b r,
    weighted_sum_model dm w_EC w_PL EI PI EN PN = Return (m, b) /\
    solve_weighted_sum solve dm w_EC w_PL = Return r /\
    (r = None <-> is_optimal (status (solve m)) = false).
Proof.
  intros HT Hnorm.
  destruct (calculate_EC_expression_total Hbuild) as [ec Hec].
  destruct (region_built Weighted_Sum Hbuild Hec) as [Hb Hec'].
  unfold solve_weighted_sum, weighted_sum_model. rewrite Hnorm.
  cbn [Py.bind]. rewrite Hb. cbn [Py.bind]. rewrite Hec'. cbn [Py.bind].
  rewrite bind_report
    by (apply (has_value_region Weighted_Sum _ HT); intros c Hc; exact Hc).
  match goal with
  | |- context [ResultExtractor.extract_results dm (solve ?m)] =>
      destruct (extract_total Weighted_Sum (solve m)) as (r & Hr & Hiff)
  end.
  do 2 eexists. exists r. split; [reflexivity|]. split; assumption.
Qed.

Lemma ideals_total :
  exists r_EC r_PL,
    get_EC_ideal solve dm = Return r_EC /\
    get_PL_ideal solve dm = Return r_PL.
Proof.
  destruct (calculate_EC_expression_total Hbuild) as [ec Hec].
  destruct (region_built EC_Ideal Hbuild Hec) as [HbE HecE].
  destruct (region_built PL_Ideal Hbuild Hec) as [HbP _].
  unfold get_EC_ideal, get_PL_ideal.
  rewrite HbE, HbP. cbn [Py.bind]. rewrite HecE. cbn [Py.bind].
  repeat match goal with
         | |- context [if ?c then _ else _] => destruct c
         end; do 2 eexists; split; reflexivity.
Qed.

Lemma compromise_fails_with_its_last_solve w_EC w_PL :
  (1 <= DataManager.T dm)%Z ->
  exists r_EC r_PL m b r,
    get_EC_ideal solve dm = Return r_EC /\
    get_PL_ideal solve dm = Return r_PL /\
    compromise_model dm w_EC w_PL (or_ r_EC lit_0_1) (or_ r_PL lit_0_1)
    = Return (m, b) /\
    solve_compromise_programming solve dm w_EC w_PL = Return r /\
    (r = None <-> is_optimal (status (solve m)) = false).
Proof.
  intros HT.
  destruct ideals_total as (r_EC & r_PL & HrEC & HrPL).
  destruct (calculate_EC_expression_total Hbuild) as [ec Hec].
  destruct (region_built Compromise_Programming Hbuild Hec) as [Hb Hec'].
  exists r_EC, r_PL.
  unfold solve_compromise_programming, compromise_model.
  rewrite HrEC, HrPL. cbn [Py.bind]. rewrite Hb. cbn [Py.bind].
  rewrite Hec'. cbn [Py.bind]. rewrite !divide_by_guard. cbn [Py.bind].
  rewrite bind_report.
  2:{ apply (has_value_region Compromise_Programming _ HT).
      intros c Hc. cbn [constraints set_objective add_constraint].
      apply in_or_app. left. apply in_or_app. left. exact Hc. }
  match goal with
  | |- context [ResultExtractor.extract_results dm (solve ?m)] =>
      destruct (extract_total Compromise_Programming (solve m))
        as (r & Hr & Hiff)
  end.
  do 2 eexists. exists r.
  split; [reflexivity|]. split; [reflexivity|]. split; [reflexivity|].
  split; assumption.
Qed.

End Built.

End Strategy.

(** C6 fails on the code: with a price and an incentive of zero the
    cost expression has no variable; when the first solve is optimal,
    [pl.value(model1.objective)] is [None] and the approach raises
    [TypeError] at the report of the optimum, instead of building the
    second region and returning the extraction of its solve. *)
Theorem EC_first_stops_on_free_power (solve : LpProblem -> Solved) :
  (forall m1, EC_first_model1 dm_free_power = Return m1 ->
              status (solve m1) = LpStatusOptimal) ->
  solve_preemptive_EC_first solve dm_free_power = Raise TypeError.
Proof.
  intros Hopt.
  destruct (EC_first_model1 dm_free_power) as [|m1] eqn:Hm1;
    [vm_compute in Hm1; discriminate|].
  apply (@EC_first_raises solve dm_free_power m1 Hm1 (Hopt m1 eq_refl)).
  vm_compute in Hm1. injection Hm1 as <-. reflexivity.
Qed.

Lemma EC_first_stops_on_free_power_witness :
  solve_preemptive_EC_first (answers v_free_power) dm_free_power
  = Raise TypeError.
Proof.
  apply (EC_first_stops_on_free_power (answers v_free_power)).
  intros m1 _. reflexivity.
Defined.




End Strategies.

(** ** Negative costs *)

Module NegativeCost.

Import PyFacts PulpFacts Spec ModelBuilder ModelBuilderFacts Regions.
Import ObjectiveManager Calibration SingleRun.

Lemma feasible_conj m v :
  feasible m v ->
  fold_right (fun c P => holds v c /\ P) True (constraints m) /\
  fold_right (fun w P => in_domain v w /\ P) True (variables m).
Proof.
  intros [Hc Hd]. split.
  - induction Hc; simpl; auto.
  - induction Hd; simpl; auto.
Qed.

(** Unfold the feasibility of a concrete model into its inequalities. *)
Ltac inequalities H :=
  apply feasible_conj in H;
  cbv -[Qplus Qmult Qle Qeq Qopp Qminus Qdiv Qinv Qlt] in H;
  decompose [and] H; clear H;
  repeat match goal with
  | H : True |- _ => clear H
  | H : ?P, H' : ?P |- _ => clear H'
  end.

Ltac evaluate :=
  cbv -[Qplus Qmult Qle Qeq Qopp Qminus Qdiv Qinv Qlt].

Ltac cases_01 :=
  repeat match goal with
  | H : _ == 0 \/ _ == 1 |- _ => destruct H
  end.

Lemma or_Some_nonzero (a d : Q) : ~ a == 0 -> or_ (Some a) d = a.
Proof.
  intros Ha. simpl. destruct (Qeq_bool a 0) eqn:Hb; [|reflexivity].
  apply Qeq_bool_iff in Hb. contradiction.
Qed.

Lemma max_first (a b : Q) : b <= a -> Py.max a b = a.
Proof. intros H. unfold Py.max. apply Qle_bool_iff in H. now rewrite H. Qed.

Lemma perturb_equal (ideal nadir : Q) :
  nadir == ideal -> perturb ideal nadir = ideal * lit_1_1 + lit_0_1.
Proof. intros H. unfold perturb. apply Qeq_bool_iff in H. now rewrite H. Qed.

Lemma div_by_zero (a b : Q) : b == 0 -> Py.div a b = Raise ZeroDivisionError.
Proof. intros H. unfold Py.div. apply Qeq_bool_iff in H. now rewrite H. Qed.

(** *** One machine with an incentive above the price *)

Section Incentive.

Variable k : Q.
Hypothesis Hk : k = 4 \/ k = 5.

Let dm := dm_incentive k.

Lemma incentive_models :
  exists m_EC b_EC m_PL b_PL,
    EC_Only_model dm = Return (m_EC, b_EC) /\
    PL_Only_model dm = Return (m_PL, b_PL).
Proof.
  unfold dm. destruct Hk as [-> | ->]; do 4 eexists;
    split; vm_compute; reflexivity.
Qed.

(** Every feasible assignment runs the machine with the incentive: the
    cost is [3 - k] and the peak load at least 1. *)
Lemma incentive_forced {m_EC b_EC m_PL b_PL} v :
  EC_Only_model dm = Return (m_EC, b_EC) ->
  PL_Only_model dm = Return (m_PL, b_PL) ->
  feasible m_EC v \/ feasible m_PL v ->
  objective_value m_EC v == 3 - k /\ 1 <= v PL_.
Proof.
  unfold dm. intros HEC HPL Hf.
  destruct Hk as [-> | ->]; vm_compute in HEC, HPL;
    injection HEC as <- <-; injection HPL as <- <-;
    (destruct Hf as [Hf|Hf]; inequalities Hf; evaluate;
     cases_01; split; lra).
Qed.

Lemma incentive_feasible {m_EC b_EC m_PL b_PL} :
  EC_Only_model dm = Return (m_EC, b_EC) ->
  PL_Only_model dm = Return (m_PL, b_PL) ->
  feasible m_EC v_incentive /\ feasible m_PL v_incentive /\
  objective_value m_PL v_incentive == 1.
Proof.
  unfold dm. intros HEC HPL.
  destruct Hk as [-> | ->]; vm_compute in HEC, HPL;
    injection HEC as <- <-; injection HPL as <- <-;
    (split; [|split]); try (apply feasibleb_true); vm_compute; reflexivity.
Qed.

Lemma incentive_PL_objective {m_PL b_PL} v :
  PL_Only_model dm = Return (m_PL, b_PL) ->
  objective_value m_PL v == v PL_.
Proof.
  intros HPL. apply PL_Only_model_inv in HPL. destruct HPL as [Hb ->].
  destruct (build_base_model_inv Hb) as (_ & _ & _ & _ & -> & _).
  unfold objective_value. cbn [objective set_objective].
  apply value_of_var.
Qed.

(** The solver run that answers [v_incentive] is correct. *)
Lemma incentive_solved : calibration_solved (answers v_incentive) dm.
Proof.
  intros m_EC b_EC m_PL b_PL HEC HPL.
  destruct (incentive_feasible HEC HPL) as (HfE & HfP & HvP).
  assert (optimum m_EC v_incentive) as HoE.
  { split; [exact HfE|]. intros v' Hf'.
    destruct (@incentive_forced _ _ _ _ v_incentive HEC HPL (or_introl HfE))
      as [-> _].
    destruct (@incentive_forced _ _ _ _ v' HEC HPL (or_introl Hf')) as [-> _].
    apply Qle_refl. }
  assert (optimum m_PL v_incentive) as HoP.
  { split; [exact HfP|]. intros v' Hf'. rewrite HvP.
    rewrite (@incentive_PL_objective _ _ v' HPL).
    apply (@incentive_forced _ _ _ _ v' HEC HPL (or_intror Hf')). }
  repeat split; try reflexivity; try apply HoE; try apply HoP.
Qed.

Section AnySolver.

Variable solve : LpProblem -> Solved.
Hypothesis Hsolved : calibration_solved solve dm.

(** With any correct solver, the ideal cost is [3 - k] and the nadir
    estimate is the perturbation of the ideal. *)
Lemma incentive_nadir_points :
  exists EI PI EN PN,
    get_nadir_points solve dm = Return (EI, PI, EN, PN) /\
    EI == 3 - k /\ EN == (3 - k) * lit_1_1 + lit_0_1.
Proof.
  destruct incentive_models as (m_EC & b_EC & m_PL & b_PL & HEC & HPL).
  destruct (Hsolved HEC HPL)
    as ((S1 & F1 & _) & (S2 & F2 & _) & (S3 & F3 & _) & (S4 & _)).
  change (feasible (rename EC_Ideal m_EC)
            (varValue (solve (rename EC_Ideal m_EC))))
    with (feasible m_EC (varValue (solve (rename EC_Ideal m_EC)))) in F2.
  destruct (@incentive_forced _ _ _ _ _ HEC HPL (or_introl F1)) as [Hown _].
  destruct (@incentive_forced _ _ _ _ _ HEC HPL (or_introl F2)) as [Hideal _].
  destruct (@incentive_forced _ _ _ _ _ HEC HPL (or_intror F3)) as [Hcross _].
  rewrite (@get_nadir_points_optimal solve dm m_EC m_PL b_EC b_PL
             HEC HPL S1 S3 ltac:(vm_compute; discriminate)).
  cbv zeta. rewrite S2, S4. cbn [is_optimal].
  set (a := objective_value m_EC (varValue (solve (rename EC_Ideal m_EC))))
    in *.
  assert (~ a == 0) as Hnz.
  { rewrite Hideal. destruct Hk as [-> | ->]; discriminate. }
  rewrite (or_Some_nonzero 0 Hnz).
  rewrite max_first.
  2:{ rewrite Hown, Hcross. destruct Hk as [-> | ->]; discriminate. }
  rewrite perturb_equal by (rewrite Hcross, Hideal; reflexivity).
  do 4 eexists. split; [reflexivity|]. split; [exact Hideal|].
  rewrite Hideal. reflexivity.
Qed.

End AnySolver.

End Incentive.

(** C5 fails on the code: with price 3 and incentive 4 the ideal cost is
    -1, the nadir estimate equals the ideal, the perturbation
    [ideal * 1.1 + 0.1] gives -1 again, and [1 / (EC_nadir - EC_ideal)]
    divides by zero, whatever correct solver is used. *)
Theorem normalization_divides_by_zero (solve : LpProblem -> Solved) :
  calibration_solved solve (dm_incentive 4) ->
  get_normalization_factors solve (dm_incentive 4) = Raise ZeroDivisionError.
Proof.
  intros Hsolved.
  destruct (@incentive_nadir_points 4 (or_introl eq_refl) solve Hsolved)
    as (EI & PI & EN & PN & Hn & HEI & HEN).
  unfold get_normalization_factors. rewrite Hn. cbn [Py.bind].
  rewrite div_by_zero; [reflexivity|].
  rewrite HEI, HEN. reflexivity.
Qed.

Lemma normalization_divides_by_zero_witness :
  get_normalization_factors (answers v_incentive) (dm_incentive 4)
  = Raise ZeroDivisionError.
Proof.
  apply (@normalization_divides_by_zero (answers v_incentive)).
  exact (@incentive_solved 4 (or_introl eq_refl)).
Defined.

(** C3 fails on the code: with price 3 and incentive 5 the ideal cost is
    -2 and the nadir estimate returned is -2.1, below the ideal, whatever
    correct solver is used. *)
Theorem nadir_below_ideal (solve : LpProblem -> Solved) :
  calibration_solved solve (dm_incentive 5) ->
  exists EC_ideal PL_ideal EC_nadir PL_nadir,
    get_nadir_points solve (dm_incentive 5)
    = Return (EC_ideal, PL_ideal, EC_nadir, PL_nadir) /\
    EC_ideal == -2 /\ EC_nadir == -(21 # 10) /\ EC_nadir < EC_ideal.
Proof.
  intros Hsolved.
  destruct (@incentive_nadir_points 5 (or_intror eq_refl) solve Hsolved)
    as (EI & PI & EN & PN & Hn & HEI & HEN).
  exists EI, PI, EN, PN. split; [exact Hn|].
  rewrite HEI, HEN. repeat split; reflexivity.
Qed.

Lemma nadir_below_ideal_witness :
  exists EC_ideal PL_ideal EC_nadir PL_nadir,
    get_nadir_points (answers v_incentive) (dm_incentive 5)
    = Return (EC_ideal, PL_ideal, EC_nadir, PL_nadir) /\
    EC_ideal == -2 /\ EC_nadir == -(21 # 10) /\ EC_nadir < EC_ideal.
Proof.
  apply (@nadir_below_ideal (answers v_incentive)).
  exact (@incentive_solved 5 (or_intror eq_refl)).
Defined.

End NegativeCost.

(** ** The weighted sum with a single weight *)

Module WeightedSum.

Import PyFacts PulpFacts Spec ModelBuilder ModelBuilderFacts Regions.
Import ObjectiveManager OptimizationApproaches Calibration SingleRun.
Import Strategies NegativeCost.

Lemma expr_vars_scale q a : expr_vars (scale q a) = expr_vars a.
Proof.
  unfold expr_vars, scale. cbn [terms]. rewrite map_map.
  apply map_ext. intros [w k]. reflexivity.
Qed.

Lemma expr_vars_add a b : expr_vars (add a b) = expr_vars a ++ expr_vars b.
Proof. unfold expr_vars, add. cbn [terms]. apply map_app. Qed.

Lemma binary_bounds (a : Q) : a == 0 \/ a == 1 -> 0 <= a /\ a <= 1.
Proof. intros [H|H]; rewrite H; split; discriminate. Qed.

(** Keep the 0-or-1 alternative of the variables matching [keep]; relax
    the others to their bounds. *)
Ltac relax :=
  repeat match goal with
  | H : ?a == 0 \/ ?a == 1 |- _ => apply binary_bounds in H; destruct H
  end.

Section General.

Variable solve : LpProblem -> Solved.
Variable dm : DataManager.
Variables (m_EC m_PL : LpProblem) (b_EC b_PL : base).
Hypothesis HEC : EC_Only_model dm = Return (m_EC, b_EC).
Hypothesis HPL : PL_Only_model dm = Return (m_PL, b_PL).

(** The weighted-sum model has the region of the calibration models and
    the normalised weighted objective. *)
Lemma weighted_sum_model_spec w_EC w_PL EI PI EN PN m b v :
  weighted_sum_model dm w_EC w_PL EI PI EN PN = Return (m, b) ->
  (feasible m v <-> feasible m_EC v /\ feasible m_PL v) /\
  objective_value m v ==
    w_EC * (EN * (objective_value m_EC v - EI))
    + w_PL * (PN * (v PL_ - PI)) /\
  b = rename_base Weighted_Sum b_EC /\ p_name m = Weighted_Sum.
Proof.
  intros Hm.
  destruct (@calibration_models_agree dm _ _ _ _ HEC HPL) as [Hb [ec [Hec [HmE HmP]]]].
  destruct (@EC_Only_model_inv dm _ _ HEC) as [HbE _].
  destruct (@region_built dm _ _ _ Weighted_Sum HbE Hec) as [HbW HecW].
  unfold weighted_sum_model in Hm. rewrite HbW in Hm. cbn [Py.bind] in Hm.
  rewrite HecW in Hm. cbn [Py.bind] in Hm. injection Hm as <- <-.
  destruct (build_base_model_inv HbE) as (_ & _ & _ & _ & HPLv & _).
  destruct (base_objective HbE) as [Hobj _].
  subst m_EC m_PL. split; [|split; [|split; [reflexivity|]]].
  3:{ cbn [p_name set_objective rename rename_base model]. reflexivity. }
  - unfold feasible, variables.
    cbn [constraints objective set_objective rename rename_base model PL].
    rewrite !expr_vars_add, !expr_vars_scale. unfold sub.
    rewrite !expr_vars_add, !expr_vars_scale.
    cbn [expr_vars of_num of_var terms map app fst].
    rewrite !Forall_app, !Forall_cons_iff, !Forall_nil_iff. tauto.
  - unfold objective_value.
    cbn [constraints objective set_objective rename rename_base model PL].
    rewrite value_add, !value_scale, !value_sub, value_of_var, !value_of_num.
    rewrite HPLv. reflexivity.
Qed.

End General.

Section ThreeMachines.

Let dm := dm_three_machines.

Lemma three_models :
  exists m_EC b_EC m_PL b_PL,
    EC_Only_model dm = Return (m_EC, b_EC) /\
    PL_Only_model dm = Return (m_PL, b_PL).
Proof. do 4 eexists. split; vm_compute; reflexivity. Qed.

Lemma three_forced {m_EC b_EC m_PL b_PL} v :
  EC_Only_model dm = Return (m_EC, b_EC) ->
  PL_Only_model dm = Return (m_PL, b_PL) ->
  feasible m_EC v \/ feasible m_PL v ->
  forced_three_machines v.
Proof.
  unfold dm. intros HEC HPL Hf. vm_compute in HEC, HPL.
  injection HEC as <- <-. injection HPL as <- <-.
  unfold forced_three_machines.
  destruct Hf as [Hf|Hf]; inequalities Hf;
    match goal with
    | H : v (y_ (1, 1, 1)%Z) == 0 \/ _ |- _ => destruct H
    end;
    match goal with
    | H : v (x_ (2, 2, 1)%Z) == 0 \/ _ |- _ => destruct H
    end; relax; repeat split; try lra; auto.
Qed.

Lemma three_feasible {m_EC b_EC m_PL b_PL} :
  EC_Only_model dm = Return (m_EC, b_EC) ->
  PL_Only_model dm = Return (m_PL, b_PL) ->
  (feasible m_EC v_machine2_idle /\ feasible m_PL v_machine2_idle) /\
  (feasible m_EC v_machine2_runs /\ feasible m_PL v_machine2_runs) /\
  v_machine2_idle (x_ (2, 2, 1)%Z) == 0 /\ v_machine2_idle PL_ == 1 /\
  v_machine2_runs (x_ (2, 2, 1)%Z) == 1.
Proof.
  unfold dm. intros HEC HPL. vm_compute in HEC, HPL.
  injection HEC as <- <-. injection HPL as <- <-.
  repeat split; try (apply feasibleb_true); vm_compute; reflexivity.
Qed.

(** The cost of an assignment is -2, plus 1 if machine 2 runs. *)
Lemma three_cost {m_EC b_EC} v :
  EC_Only_model dm = Return (m_EC, b_EC) ->
  forced_three_machines v ->
  objective_value m_EC v == -2 + v (x_ (2, 2, 1)%Z).
Proof.
  unfold dm. intros HEC Hv. vm_compute in HEC. injection HEC as <- <-.
  unfold forced_three_machines in Hv. decompose [and] Hv. clear Hv.
  evaluate. lra.
Qed.

Lemma PL_Only_objective_value {dm0 m_PL b_PL} v :
  PL_Only_model dm0 = Return (m_PL, b_PL) ->
  objective_value m_PL v == v PL_.
Proof.
  intros HPL. apply PL_Only_model_inv in HPL. destruct HPL as [Hb ->].
  destruct (build_base_model_inv Hb) as (_ & _ & _ & _ & -> & _).
  unfold objective_value. cbn [objective set_objective].
  apply value_of_var.
Qed.

(** What extraction recomputes as EC. *)
Lemma three_extracted_cost {nm b} sol :
  build_base_model dm nm = Return b ->
  forced_three_machines (varValue sol) ->
  exists q,
    ResultExtractor._calculate_EC_value dm sol (x b) (y b) = Return q /\
    q == -2 + varValue sol (x_ (2, 2, 1)%Z).
Proof.
  intros Hb Hv. destruct sol as [st vv]. cbn [varValue] in *.
  rewrite (build_base_model_name dm Base_Model nm) in Hb.
  destruct (build_base_model dm Base_Model) as [e0|b0] eqn:Hb0;
    [discriminate|].
  cbn [fmap] in Hb. injection Hb as <-. cbn [rename_base x y].
  unfold dm in Hb0. vm_compute in Hb0. injection Hb0 as <-.
  eexists. split.
  - unfold dm. evaluate. reflexivity.
  - unfold forced_three_machines in Hv. decompose [and] Hv. clear Hv. lra.
Qed.

Lemma max_ge_second (a b : Q) : b <= Py.max a b.
Proof.
  unfold Py.max. destruct (Qle_bool b a) eqn:H.
  - now apply Qle_bool_iff.
  - apply Qle_refl.
Qed.

Lemma perturb_differs (ideal nadir : Q) :
  ~ nadir == ideal -> perturb ideal nadir = nadir.
Proof.
  intros H. unfold perturb. destruct (Qeq_bool nadir ideal) eqn:Hb;
    [|reflexivity].
  apply Qeq_bool_iff in Hb. contradiction.
Qed.

Lemma div_nonzero (a b : Q) : ~ b == 0 -> Py.div a b = Return (a / b).
Proof.
  intros H. unfold Py.div. destruct (Qeq_bool b 0) eqn:Hb; [|reflexivity].
  apply Qeq_bool_iff in Hb. contradiction.
Qed.

Section AnySolver.

Variable solve : LpProblem -> Solved.
Hypothesis Hcal : calibration_solved solve dm.

(** With any correct solver both calibration optima keep machine 2 idle:
    both ideals are attained together, at cost -2 and peak load 1. *)
Lemma three_calibration :
  exists m_EC b_EC m_PL b_PL,
    EC_Only_model dm = Return (m_EC, b_EC) /\
    PL_Only_model dm = Return (m_PL, b_PL) /\
    (status (solve m_EC) = LpStatusOptimal /\
     status (solve (rename EC_Ideal m_EC)) = LpStatusOptimal /\
     status (solve m_PL) = LpStatusOptimal /\
     status (solve (rename PL_Ideal m_PL)) = LpStatusOptimal) /\
    objective_value m_EC (varValue (solve m_EC)) == -2 /\
    objective_value m_EC (varValue (solve (rename EC_Ideal m_EC))) == -2 /\
    objective_value m_EC (varValue (solve m_PL)) == -2 /\
    varValue (solve m_PL) PL_ == 1 /\
    objective_value m_PL (varValue (solve (rename PL_Ideal m_PL))) == 1 /\
    1 <= varValue (solve m_EC) PL_.
Proof.
  destruct three_models as (m_EC & b_EC & m_PL & b_PL & HEC & HPL).
  exists m_EC, b_EC, m_PL, b_PL. split; [exact HEC|]. split; [exact HPL|].
  destruct (Hcal HEC HPL)
    as ((S1 & F1 & O1) & (S2 & F2 & O2) & (S3 & F3 & O3) & (S4 & F4 & O4)).
  split; [auto|].
  destruct (three_feasible HEC HPL) as ((FiE & FiP) & _ & Hi22 & HiPL & _).
  change (feasible m_EC (varValue (solve (rename EC_Ideal m_EC)))) in F2.
  change (feasible m_PL (varValue (solve (rename PL_Ideal m_PL)))) in F4.
  specialize (O1 _ FiE).
  specialize (O2 _ FiE).
  change (objective_value m_EC (varValue (solve (rename EC_Ideal m_EC)))
          <= objective_value m_EC v_machine2_idle) in O2.
  specialize (O3 _ FiP).
  specialize (O4 _ FiP).
  change (objective_value m_PL (varValue (solve (rename PL_Ideal m_PL)))
          <= objective_value m_PL v_machine2_idle) in O4.
  pose proof (@three_forced _ _ _ _ _ HEC HPL (or_introl F1)) as G1.
  pose proof (@three_forced _ _ _ _ _ HEC HPL (or_introl F2)) as G2.
  pose proof (@three_forced _ _ _ _ _ HEC HPL (or_intror F3)) as G3.
  pose proof (@three_forced _ _ _ _ _ HEC HPL (or_intror F4)) as G4.
  pose proof (@three_forced _ _ _ _ _ HEC HPL (or_introl FiE)) as Gi.
  rewrite (@three_cost _ _ _ HEC G1), (@three_cost _ _ _ HEC Gi) in O1.
  rewrite (@three_cost _ _ _ HEC G2), (@three_cost _ _ _ HEC Gi) in O2.
  pose proof (fun v => @PL_Only_objective_value _ _ _ v HPL) as HPLv.
  rewrite !HPLv in O3, O4.
  rewrite (@three_cost _ _ _ HEC G1), (@three_cost _ _ _ HEC G2),
    (@three_cost _ _ _ HEC G3).
  rewrite HPLv.
  unfold forced_three_machines in G1, G2, G3, G4.
  destruct G1 as (_ & _ & _ & _ & _ & _ & _ & _ & B1 & P1).
  destruct G2 as (_ & _ & _ & _ & _ & _ & _ & _ & B2 & P2).
  destruct G3 as (_ & _ & _ & _ & _ & _ & _ & _ & B3 & P3).
  destruct G4 as (_ & _ & _ & _ & _ & _ & _ & _ & B4 & P4).
  apply binary_bounds in B1, B2, B3, B4.
  repeat split; lra.
Qed.

(** The normalisation factor of the cost is negative. *)
Lemma three_normalization :
  exists EI PI EN PN,
    get_normalization_factors solve dm = Return (EI, PI, EN, PN) /\
    EI == -2 /\ EN == -10.
Proof.
  destruct three_calibration
    as (m_EC & b_EC & m_PL & b_PL & HEC & HPL & (S1 & S2 & S3 & S4)
        & Hown & Hideal & Hcross & HPLopt & HPLideal & HPLcross).
  unfold get_normalization_factors.
  rewrite (@get_nadir_points_optimal solve dm m_EC m_PL b_EC b_PL
             HEC HPL S1 S3 ltac:(vm_compute; discriminate)).
  cbv zeta. rewrite S2, S4. cbn [is_optimal].
  set (a := objective_value m_EC (varValue (solve (rename EC_Ideal m_EC))))
    in *.
  set (p := objective_value m_PL (varValue (solve (rename PL_Ideal m_PL))))
    in *.
  rewrite (@or_Some_nonzero a 0) by (rewrite Hideal; discriminate).
  rewrite (@or_Some_nonzero p 0) by (rewrite HPLideal; discriminate).
  rewrite max_first by (rewrite Hown, Hcross; discriminate).
  rewrite perturb_equal by (rewrite Hcross, Hideal; reflexivity).
  set (M := Py.max (varValue (solve m_EC) PL_)
                   (varValue (solve m_PL) PL_ * lit_1_5)).
  assert (3 # 2 <= M) as HM.
  { eapply Qle_trans; [|apply max_ge_second]. rewrite HPLopt. discriminate. }
  rewrite perturb_differs by (intros Heq; rewrite Heq, HPLideal in HM; lra).
  cbn [Py.bind].
  rewrite div_nonzero by (rewrite Hideal; discriminate).
  cbn [Py.bind].
  rewrite div_nonzero
    by (intros Heq; rewrite HPLideal in Heq;
        lra).
  cbn [Py.bind]. do 4 eexists. split; [reflexivity|].
  split; [exact Hideal|]. rewrite Hideal. reflexivity.
Qed.

Hypothesis Hws : weighted_sum_solved solve dm 1 0.

(** The scalarised solve then maximises the cost: machine 2 runs. *)
Lemma three_weighted_optimum :
  exists EI PI EN PN m b,
    get_normalization_factors solve dm = Return (EI, PI, EN, PN) /\
    weighted_sum_model dm 1 0 EI PI EN PN = Return (m, b) /\
    build_base_model dm Weighted_Sum = Return b /\
    status (solve m) = LpStatusOptimal /\
    forced_three_machines (varValue (solve m)) /\
    varValue (solve m) (x_ (2, 2, 1)%Z) == 1.
Proof.
  destruct three_calibration
    as (m_EC & b_EC & m_PL & b_PL & HEC & HPL & _).
  destruct three_normalization as (EI & PI & EN & PN & Hnorm & HEI & HEN).
  destruct (@EC_Only_model_inv dm _ _ HEC) as [HbE [ec [Hec _]]].
  destruct (@region_built dm _ _ _ Weighted_Sum HbE Hec) as [HbW HecW].
  assert (exists m b, weighted_sum_model dm 1 0 EI PI EN PN = Return (m, b))
    as (m & b & Hm).
  { unfold weighted_sum_model. rewrite HbW. cbn [Py.bind]. rewrite HecW.
    cbn [Py.bind]. eauto. }
  destruct (Hws Hnorm Hm) as (Sw & Fw & Ow).
  pose proof (fun v => @weighted_sum_model_spec dm m_EC m_PL b_EC b_PL
                         HEC HPL 1 0 EI PI EN PN m b v Hm) as Hspec.
  destruct (three_feasible HEC HPL) as (_ & (FrE & FrP) & _ & _ & Hr22).
  assert (feasible m v_machine2_runs) as Fr
    by (apply (proj1 (Hspec _)); auto).
  specialize (Ow _ Fr).
  rewrite (proj1 (proj2 (Hspec _))) in Ow.
  rewrite (proj1 (proj2 (Hspec v_machine2_runs))) in Ow.
  apply (proj1 (Hspec _)) in Fw. destruct Fw as [FwE FwP].
  pose proof (@three_forced _ _ _ _ _ HEC HPL (or_introl FwE)) as Gw.
  pose proof (@three_forced _ _ _ _ _ HEC HPL (or_introl FrE)) as Gr.
  rewrite (@three_cost _ _ _ HEC Gw), (@three_cost _ _ _ HEC Gr) in Ow.
  rewrite !Qmult_0_l, HEN, HEI, Hr22 in Ow.
  exists EI, PI, EN, PN, m, b. split; [exact Hnorm|]. split; [exact Hm|].
  split; [destruct (Hspec v_machine2_runs) as (_ & _ & -> & _); exact HbW|].
  split; [exact Sw|]. split; [exact Gw|].
  unfold forced_three_machines in Gw.
  destruct Gw as (_ & _ & _ & _ & _ & _ & _ & _ & Bw & _).
  apply binary_bounds in Bw. lra.
Qed.

End AnySolver.

(** The solver run [solver_three_machines] is correct on every model the
    weighted sum builds for this input. *)
Lemma solver_three_calibration :
  calibration_solved solver_three_machines dm.
Proof.
  intros m_EC b_EC m_PL b_PL HEC HPL.
  destruct (three_feasible HEC HPL) as ((FiE & FiP) & _ & Hi22 & HiPL & _).
  assert (optimum m_EC v_machine2_idle) as HoE.
  { split; [exact FiE|]. intros v' Hf'.
    pose proof (@three_forced _ _ _ _ _ HEC HPL (or_introl Hf')) as G'.
    pose proof (@three_forced _ _ _ _ _ HEC HPL (or_introl FiE)) as Gi.
    rewrite (@three_cost _ _ _ HEC G'), (@three_cost _ _ _ HEC Gi), Hi22.
    unfold forced_three_machines in G'.
    destruct G' as (_ & _ & _ & _ & _ & _ & _ & _ & B' & _).
    apply binary_bounds in B'. lra. }
  assert (optimum m_PL v_machine2_idle) as HoP.
  { split; [exact FiP|]. intros v' Hf'.
    rewrite !(fun v => @PL_Only_objective_value _ _ _ v HPL), HiPL.
    pose proof (@three_forced _ _ _ _ _ HEC HPL (or_intror Hf')) as G'.
    unfold forced_three_machines in G'.
    destruct G' as (_ & _ & _ & _ & _ & _ & _ & _ & B' & P').
    apply binary_bounds in B'. lra. }
  unfold solved_optimally, solver_three_machines.
  cbn [rename p_name].
  rewrite (ZeroIdeal.name_EC_Only HEC), (ZeroIdeal.name_PL_Only HPL).
  cbn [answers status varValue]. repeat split; try apply HoE; try apply HoP.
Qed.

Lemma solver_three_weighted_sum :
  weighted_sum_solved solver_three_machines dm 1 0.
Proof.
  intros EI PI EN PN m b Hnorm Hm.
  destruct (three_normalization solver_three_calibration)
    as (EI' & PI' & EN' & PN' & Hnorm' & HEI & HEN).
  rewrite Hnorm in Hnorm'. inversion Hnorm'; subst; clear Hnorm'.
  destruct three_models as (m_EC & b_EC & m_PL & b_PL & HEC & HPL).
  pose proof (fun v => @weighted_sum_model_spec dm m_EC m_PL b_EC b_PL
                         HEC HPL 1 0 EI' PI' EN' PN' m b v Hm) as Hspec.
  destruct (three_feasible HEC HPL) as (_ & (FrE & FrP) & _ & _ & Hr22).
  unfold solved_optimally, solver_three_machines.
  rewrite (proj2 (proj2 (proj2 (Hspec v_machine2_runs)))).
  cbn [answers status varValue]. split; [reflexivity|]. split.
  - apply (proj1 (Hspec _)). auto.
  - intros v' Hf'. apply (proj1 (Hspec _)) in Hf'. destruct Hf' as [FE' _].
    rewrite (proj1 (proj2 (Hspec _))).
    rewrite (proj1 (proj2 (Hspec v'))).
    pose proof (@three_forced _ _ _ _ _ HEC HPL (or_introl FE')) as G'.
    pose proof (@three_forced _ _ _ _ _ HEC HPL (or_introl FrE)) as Gr.
    rewrite (@three_cost _ _ _ HEC G'), (@three_cost _ _ _ HEC Gr).
    rewrite !Qmult_0_l, HEN, HEI, Hr22.
    unfold forced_three_machines in G'.
    destruct G' as (_ & _ & _ & _ & _ & _ & _ & _ & B' & _).
    apply binary_bounds in B'. lra.
Qed.

End ThreeMachines.

(** C8 fails on the code: for [dm_three_machines] the EC-only ideal is
    -2, and the weighted sum with weights (1, 0) returns a schedule of
    cost -1, whatever correct solver is used: the nadir estimate lies
    below the ideal, the normalisation factor is negative, and
    minimising the normalised objective maximises the cost. *)
Theorem weighted_sum_misses_EC_ideal (solve : LpProblem -> Solved) :
  calibration_solved solve dm_three_machines ->
  weighted_sum_solved solve dm_three_machines 1 0 ->
  exists ideal res,
    get_EC_ideal solve dm_three_machines = Return (Some ideal) /\
    ideal == -2 /\
    solve_weighted_sum solve dm_three_machines 1 0 = Return (Some res) /\
    ResultExtractor.EC res == -1.
Proof.
  intros Hcal Hws.
  destruct (three_calibration Hcal)
    as (m_EC & b_EC & m_PL & b_PL & HEC & _ & (_ & S2 & _) & _ & Hideal & _).
  destruct (three_weighted_optimum Hcal Hws)
    as (EI & PI & EN & PN & m & b & Hnorm & Hm & Hb & Sw & Gw & Hruns).
  destruct (@three_extracted_cost _ _ (solve m) Hb Gw) as (q & Hq & Hqv).
  destruct (@Extraction._extract_schedule_total _ _ _ Hb (solve m))
    as [l Hl].
  destruct (@Extraction._calculate_load_profile_total _ _ _ Hb (solve m))
    as [d Hd].
  exists (objective_value m_EC (varValue (solve (rename EC_Ideal m_EC)))).
  eexists. split; [|split; [exact Hideal|split]].
  - rewrite (@get_EC_ideal_eq solve _ _ _ HEC). cbv zeta. rewrite S2.
    cbn [is_optimal]. f_equal.
    generalize (solve (rename EC_Ideal m_EC)). intros sol.
    vm_compute in HEC. injection HEC as <- <-. reflexivity.
  - unfold solve_weighted_sum. rewrite Hnorm. cbn [Py.bind]. rewrite Hm.
    cbn [Py.bind].
    rewrite (@Strategies.bind_report m (PL b) _
               (@Strategies.weighted_sum_model_has_value dm_three_machines
                  _ _ _ _ _ _ _ _ Hm ltac:(vm_compute; discriminate))).
    unfold ResultExtractor.extract_results.
    rewrite Sw. cbn [is_optimal negb]. rewrite Hq. cbn [Py.bind].
    rewrite Hl. cbn [Py.bind]. rewrite Hd. cbn [Py.bind]. reflexivity.
  - cbn [ResultExtractor.EC]. rewrite Hqv, Hruns. reflexivity.
Qed.

Lemma weighted_sum_misses_EC_ideal_witness :
  exists ideal res,
    get_EC_ideal solver_three_machines dm_three_machines
    = Return (Some ideal) /\
    ideal == -2 /\
    solve_weighted_sum solver_three_machines dm_three_machines 1 0
    = Return (Some res) /\
    ResultExtractor.EC res == -1.
Proof.
  apply (@weighted_sum_misses_EC_ideal solver_three_machines).
  - exact solver_three_calibration.
  - exact solver_three_weighted_sum.
Defined.

End WeightedSum.

(** ** The constraints of the region *)

Module RegionSemantics.

Import PyFacts PulpFacts Spec ModelBuilder ModelBuilderFacts SingleRun.

Lemma In_pairs (n m a b : Z) :
  In (a, b) (pairs n m) <-> (1 <= a <= n)%Z /\ (1 <= b <= m)%Z.
Proof.
  unfold pairs. rewrite in_flat_map. split.
  - intros [a' [Ha Hin]]. apply in_map_iff in Hin.
    destruct Hin as [b' [[= -> ->] Hb]]. apply In_range in Ha, Hb. lia.
  - intros [Ha Hb]. exists a. split; [apply In_range; lia|].
    apply in_map_iff. exists b. split; [reflexivity|apply In_range; lia].
Qed.

Lemma item_e (T t : Z) (w : LpVariable) :
  item (LpVariable_dicts e_ (range 1 (T + 1)) (Some 0) LpContinuous) t
  = Return w <-> (1 <= t <= T)%Z /\ w = evar t.
Proof.
  unfold LpVariable_dicts. rewrite (item_from_keys keqb_Z), In_range.
  unfold evar. intuition lia.
Qed.

(** The value of the sum of a comprehension. *)
Lemma value_lpSum_comprehension {A} (f : A -> result LpAffineExpression)
      (g : A -> Q) (v : valuation) (l : list A) :
  (forall a ex, In a l -> f a = Return ex -> value v ex == g a) ->
  forall ts, comprehension f l = Return ts ->
  value v (lpSum ts) == total (map g l).
Proof.
  induction l as [|a l IH]; simpl; intros Hf ts Hc.
  - injection Hc as <-. reflexivity.
  - inv_run. rewrite value_lpSum_cons.
    rewrite (Hf a a0 (or_introl eq_refl) Ha), IH; auto.
    reflexivity.
Qed.

Lemma comprehension_In {A B} (f : A -> result B) (l : list A) bs :
  comprehension f l = Return bs ->
  forall a, In a l -> exists b, f a = Return b.
Proof.
  revert bs. induction l as [|a0 l IH]; simpl; intros bs Hc a Hin; [tauto|].
  inv_run. destruct Hin as [->|Hin]; eauto.
Qed.

Lemma value_cost_term dm I T S v i t s ex :
  cost_term (LpVariable_dicts x_ (triples I T S) None LpBinary)
    (LpVariable_dicts y_ (triples I T S) None LpBinary)
    (DataManager.R dm) (DataManager.c dm) (DataManager.o dm)
    (DataManager.alpha dm) i t s = Return ex ->
  value v ex == slot_cost dm v i t s.
Proof.
  unfold cost_term. intros H. inv_run. inv_items.
  rewrite !value_scale, value_sub, !value_scale, !value_of_var.
  unfold slot_cost. cbn [name xvar yvar]. ring.
Qed.

Section Region.

Variables (dm : DataManager) (nm : model_name) (b : base) (v : valuation).
Hypothesis Hbuild : build_base_model dm nm = Return b.
Hypothesis Hfeas : feasible (model b) v.

Let NI := DataManager.I dm.
Let NT := DataManager.T dm.
Let NS := DataManager.S dm.

Lemma region_electricity t :
  (1 <= t <= NT)%Z -> v (e_ t) == slot_load dm v t.
Proof.
  intros Ht.
  destruct (build_base_model_inv Hbuild)
    as (Hx & Hy & Hu & He & HPL & m1 & m2 & m3 & m4 & m5 & m6
        & H1 & H2 & H3 & H4 & H5 & H6 & H7).
  assert (ext m1 (model b)) as [Hincl _].
  { apply ext_peak_load in H2. apply ext_budget in H3.
    apply ext_duration in H4. apply ext_uninterruptible in H5.
    apply ext_dependency in H6. apply ext_incentive in H7.
    repeat (eapply ext_trans; [eassumption|]). apply ext_refl. }
  unfold _add_electricity_consumption_constraints in H1.
  eapply loop_In with (a := t) in H1; [| |apply In_range; lia].
  2:{ intros t0 s1 s2 _ Hb. inv_run. repeat ext_step. }
  destruct H1 as (s1 & s2 & _ & Hb & [Hincl2 _]).
  inv_run. rewrite He in Ha. apply item_e in Ha. destruct Ha as [_ ->].
  assert (holds v (constr (of_var (evar t)) EQ (lpSum a0)
                     (Electricity_Consumption t))) as Hh.
  { apply (feasible_holds Hfeas). apply Hincl, Hincl2, In_add_constraint. }
  apply holds_EQ in Hh. rewrite value_of_var in Hh. cbn [name evar] in Hh.
  rewrite Hh. unfold slot_load.
  apply value_lpSum_comprehension with (2 := Ha0).
  intros [s i] ex _ Hex. inv_run. rewrite Hx in Ha. inv_items.
  rewrite value_scale, value_of_var. reflexivity.
Qed.

Lemma region_peak_load t : (1 <= t <= NT)%Z -> v (e_ t) <= v PL_.
Proof.
  intros Ht.
  destruct (build_base_model_inv Hbuild)
    as (Hx & Hy & Hu & He & HPL & m1 & m2 & m3 & m4 & m5 & m6
        & H1 & H2 & H3 & H4 & H5 & H6 & H7).
  assert (ext m2 (model b)) as [Hincl _].
  { apply ext_budget in H3.
    apply ext_duration in H4. apply ext_uninterruptible in H5.
    apply ext_dependency in H6. apply ext_incentive in H7.
    repeat (eapply ext_trans; [eassumption|]). apply ext_refl. }
  unfold _add_peak_load_constraints in H2.
  eapply loop_In with (a := t) in H2; [| |apply In_range; lia].
  2:{ intros t0 s1 s2 _ Hb. inv_run. repeat ext_step. }
  destruct H2 as (s1 & s2 & _ & Hb & [Hincl2 _]).
  inv_run. rewrite He in Ha. apply item_e in Ha. destruct Ha as [_ ->].
  assert (holds v (constr (of_var (PL b)) GE (of_var (evar t))
                     (Peak_Load t))) as Hh.
  { apply (feasible_holds Hfeas). apply Hincl, Hincl2, In_add_constraint. }
  apply holds_GE in Hh. rewrite !value_of_var, HPL in Hh. exact Hh.
Qed.

(** With a slot in the horizon, the peak load cannot be negative. *)
Lemma region_peak_nonnegative : (1 <= NT)%Z -> 0 <= v PL_.
Proof.
  intros HT.
  destruct (build_base_model_inv Hbuild)
    as (Hx & Hy & Hu & He & HPL & m1 & m2 & m3 & m4 & m5 & m6
        & H1 & H2 & H3 & H4 & H5 & H6 & H7).
  assert (ext m2 (model b)) as [Hincl _].
  { apply ext_budget in H3.
    apply ext_duration in H4. apply ext_uninterruptible in H5.
    apply ext_dependency in H6. apply ext_incentive in H7.
    repeat (eapply ext_trans; [eassumption|]). apply ext_refl. }
  unfold _add_peak_load_constraints in H2.
  eapply loop_In with (a := 1%Z) in H2; [| |apply In_range; lia].
  2:{ intros t0 s1 s2 _ Hb. inv_run. repeat ext_step. }
  destruct H2 as (s1 & s2 & _ & Hb & [Hincl2 _]).
  inv_run. rewrite He in Ha. apply item_e in Ha. destruct Ha as [_ ->].
  assert (In (constr (of_var (PL b)) GE (of_var (evar 1)) (Peak_Load 1))
             (constraints (model b))) as Hin
    by (apply Hincl, Hincl2, In_add_constraint).
  assert (in_domain v (PL b)) as [Hlow _].
  { apply (feasible_domain Hfeas Hin). rewrite HPL. simpl. auto. }
  rewrite HPL in Hlow. exact Hlow.
Qed.

Lemma region_budget s :
  (1 <= s <= NS)%Z ->
  exists As, get (DataManager.A dm) s = Some As /\ system_cost dm v s <= As.
Proof.
  intros Hs.
  destruct (build_base_model_inv Hbuild)
    as (Hx & Hy & Hu & He & HPL & m1 & m2 & m3 & m4 & m5 & m6
        & H1 & H2 & H3 & H4 & H5 & H6 & H7).
  assert (ext m3 (model b)) as [Hincl _].
  { apply ext_duration in H4. apply ext_uninterruptible in H5.
    apply ext_dependency in H6. apply ext_incentive in H7.
    repeat (eapply ext_trans; [eassumption|]). apply ext_refl. }
  unfold _add_budget_constraints in H3.
  eapply loop_In with (a := s) in H3; [| |apply In_range; lia].
  2:{ intros t0 s1 s2 _ Hb. inv_run. repeat ext_step. }
  destruct H3 as (s1 & s2 & _ & Hb & [Hincl2 _]).
  inv_run. unfold item in Ha0.
  destruct (get (DataManager.A dm) s) as [As|] eqn:HA; [|discriminate].
  injection Ha0 as <-. exists As. split; [reflexivity|].
  assert (holds v (constr (lpSum a) LE (of_num As) (Budget_Constraint s)))
    as Hh.
  { apply (feasible_holds Hfeas). apply Hincl, Hincl2, In_add_constraint. }
  apply holds_LE in Hh. rewrite value_of_num in Hh.
  eapply Qle_trans; [|exact Hh]. apply Qle_lteq. right. symmetry.
  unfold system_cost.
  apply value_lpSum_comprehension with (2 := Ha).
  intros [t i] ex _ Hex. rewrite Hx, Hy in Hex.
  exact (value_cost_term dm _ _ _ v _ _ _ Hex).
Qed.

Lemma region_duration i s a c :
  (1 <= i <= NI)%Z -> (1 <= s <= NS)%Z ->
  get (DataManager.E dm) (i, s) = Some a ->
  get (DataManager.L dm) (i, s) = Some c ->
  inject_Z (get_default (DataManager.N dm) (i, s) 0%Z) <= on_slots v i s a c
  /\ forall t, (a <= t <= c)%Z -> (1 <= t <= NT)%Z.
Proof.
  intros Hi Hs HE HL.
  destruct (build_base_model_inv Hbuild)
    as (Hx & Hy & Hu & He & HPL & m1 & m2 & m3 & m4 & m5 & m6
        & H1 & H2 & H3 & H4 & H5 & H6 & H7).
  assert (ext m4 (model b)) as [Hincl _].
  { apply ext_uninterruptible in H5.
    apply ext_dependency in H6. apply ext_incentive in H7.
    repeat (eapply ext_trans; [eassumption|]). apply ext_refl. }
  unfold _add_operation_duration_constraints in H4.
  assert (forall (s0 i0 : Z) m m',
    match get (DataManager.E dm) (i0, s0), get (DataManager.L dm) (i0, s0) with
    | Some Eis, Some Lis =>
        ts <- comprehension (fun t =>
                xv <- item (x b) (i0, t, s0) ;; Return (of_var xv))
              (range Eis (Lis + 1)) ;;
        Return (add_constraint m
                  (constr (lpSum ts) GE
                     (of_num (inject_Z (get_default (DataManager.N dm) (i0, s0) 0%Z)))
                     (Operation_Duration i0 s0)))
    | _, _ => Return m
    end = Return m' -> ext m m') as Hstep.
  { intros s0 i0 m m' Hb.
    destruct (get (DataManager.E dm) (i0, s0));
      [destruct (get (DataManager.L dm) (i0, s0))|];
      inv_run; repeat ext_step. }
  eapply loop_In with (a := s) in H4; [| |apply In_range; lia].
  2:{ intros s0 s1 s2 _. apply loop_ext. intros i0 s3 s4 _. apply Hstep. }
  destruct H4 as (s1 & s2 & _ & H4 & Hext1).
  eapply loop_In with (a := i) in H4; [| |apply In_range; lia].
  2:{ intros i0 s3 s4 _. apply Hstep. }
  destruct H4 as (s3 & s4 & _ & Hb & Hext2).
  destruct (ext_trans Hext2 Hext1) as [Hincl2 _].
  rewrite HE, HL in Hb. inv_run.
  assert (holds v (constr (lpSum a0) GE
            (of_num (inject_Z (get_default (DataManager.N dm) (i, s) 0%Z)))
            (Operation_Duration i s))) as Hh.
  { apply (feasible_holds Hfeas). apply Hincl, Hincl2, In_add_constraint. }
  apply holds_GE in Hh. rewrite value_of_num in Hh. split.
  - eapply Qle_trans; [exact Hh|]. apply Qle_lteq. right.
    unfold on_slots.
    apply value_lpSum_comprehension with (2 := Ha).
    intros t ex _ Hex. inv_run. rewrite Hx in Ha0. inv_items.
    apply value_of_var.
  - intros t Ht.
    destruct (comprehension_In _ _ Ha t) as [w Hw]; [apply In_range; lia|].
    inv_run. rewrite Hx in Ha0. inv_items. fold NT. lia.
Qed.

Lemma region_incentive i t s :
  (1 <= i <= NI)%Z -> (1 <= t <= NT)%Z -> (1 <= s <= NS)%Z ->
  v (y_ (i, t, s)) <= v (x_ (i, t, s)) /\
  (v (y_ (i, t, s)) == 0 \/ v (y_ (i, t, s)) == 1).
Proof.
  intros Hi Ht Hs.
  destruct (build_base_model_inv Hbuild)
    as (Hx & Hy & Hu & He & HPL & m1 & m2 & m3 & m4 & m5 & m6
        & H1 & H2 & H3 & H4 & H5 & H6 & H7).
  unfold _add_incentive_constraints in H7.
  assert (forall (s0 i0 t0 : Z) m m',
    (yv <- item (y b) (i0, t0, s0) ;;
     xv <- item (x b) (i0, t0, s0) ;;
     Return (add_constraint m
       (constr (of_var yv) LE (of_var xv) (Incentive_Constraint i0 t0 s0))))
    = Return m' -> ext m m') as Hstep.
  { intros s0 i0 t0 m m' Hb. inv_run. repeat ext_step. }
  eapply loop_In with (a := s) in H7; [| |apply In_range; lia].
  2:{ intros s0 s1 s2 _. apply loop_ext. intros i0 s3 s4 _.
      apply loop_ext. intros t0 s5 s6 _. apply Hstep. }
  destruct H7 as (s1 & s2 & _ & H7 & Hext1).
  eapply loop_In with (a := i) in H7; [| |apply In_range; lia].
  2:{ intros i0 s3 s4 _. apply loop_ext. intros t0 s5 s6 _. apply Hstep. }
  destruct H7 as (s3 & s4 & _ & H7 & Hext2).
  eapply loop_In with (a := t) in H7; [| |apply In_range; lia].
  2:{ intros t0 s5 s6 _. apply Hstep. }
  destruct H7 as (s5 & s6 & _ & Hb & Hext3).
  destruct (ext_trans Hext3 (ext_trans Hext2 Hext1)) as [Hincl _].
  inv_run. rewrite Hy in Ha. rewrite Hx in Ha0. inv_items.
  assert (In (constr (of_var (yvar i t s)) LE (of_var (xvar i t s))
                (Incentive_Constraint i t s)) (constraints (model b))) as Hin.
  { apply Hincl, In_add_constraint. }
  split.
  - apply (feasible_holds Hfeas), holds_LE in Hin.
    rewrite !value_of_var in Hin. exact Hin.
  - assert (in_domain v (yvar i t s)) as [_ Hd].
    { apply (feasible_domain Hfeas Hin). simpl. auto. }
    exact Hd.
Qed.

End Region.

Lemma total_binary_positive {A} (g : A -> Q) (l : list A) :
  (forall a, In a l -> g a == 0 \/ g a == 1) ->
  0 < total (map g l) -> exists a, In a l /\ g a == 1.
Proof.
  induction l as [|a l IH]; simpl; intros Hb Hpos.
  - exfalso. revert Hpos. apply Qlt_irrefl.
  - destruct (Hb a (or_introl eq_refl)) as [H0|H1].
    + destruct IH as [a' [Hin Ha']]; [auto| |eauto].
      rewrite H0 in Hpos. now rewrite Qplus_0_l in Hpos.
    + eauto.
Qed.

(** X1: in every feasible assignment of the region, the energy variable
    [e[t]] of each slot of the horizon equals the sum, over all machines
    and systems, of the rated power ([R.get((i, s), 0)]) of those that
    are on in that slot. *)
Theorem slot_energy_is_power_of_running_machines
  (dm : DataManager) (nm : model_name) (b : base) (v : valuation) (t : Z) :
  build_base_model dm nm = Return b ->
  feasible (model b) v ->
  (1 <= t <= DataManager.T dm)%Z ->
  v (e_ t) == slot_load dm v t.
Proof.
  intros Hbuild Hfeas Ht. exact (@region_electricity dm nm b v Hbuild Hfeas t Ht).
Qed.

Lemma slot_energy_is_power_of_running_machines_witness :
  v_two_machines (e_ 3) == slot_load dm_two_machines v_two_machines 3.
Proof.
  eapply (@slot_energy_is_power_of_running_machines dm_two_machines
            Base_Model _ v_two_machines 3).
  - vm_compute. reflexivity.
  - apply feasibleb_true. vm_compute. reflexivity.
  - simpl. lia.
Defined.

(** X2: in every feasible assignment of the region, the peak-load
    variable [PL] is at least the load of every slot of the horizon. *)
Theorem peak_load_dominates_every_slot
  (dm : DataManager) (nm : model_name) (b : base) (v : valuation) (t : Z) :
  build_base_model dm nm = Return b ->
  feasible (model b) v ->
  (1 <= t <= DataManager.T dm)%Z ->
  slot_load dm v t <= v PL_.
Proof.
  intros Hbuild Hfeas Ht.
  rewrite <- (@region_electricity dm nm b v Hbuild Hfeas t Ht).
  exact (@region_peak_load dm nm b v Hbuild Hfeas t Ht).
Qed.

Lemma peak_load_dominates_every_slot_witness :
  slot_load dm_two_machines v_two_machines 3 <= v_two_machines PL_.
Proof.
  eapply (@peak_load_dominates_every_slot dm_two_machines
            Base_Model _ v_two_machines 3).
  - vm_compute. reflexivity.
  - apply feasibleb_true. vm_compute. reflexivity.
  - simpl. lia.
Defined.

(** X3: in every feasible assignment of the region, the cost of each
    system (price paid less incentives claimed, over all slots and
    machines) is at most that system's budget [A[s]]. *)
Theorem system_cost_within_budget
  (dm : DataManager) (nm : model_name) (b : base) (v : valuation) (s : Z) :
  build_base_model dm nm = Return b ->
  feasible (model b) v ->
  (1 <= s <= DataManager.S dm)%Z ->
  exists As, get (DataManager.A dm) s = Some As /\ system_cost dm v s <= As.
Proof.
  intros Hbuild Hfeas Hs. exact (@region_budget dm nm b v Hbuild Hfeas s Hs).
Qed.

Lemma system_cost_within_budget_witness :
  exists As, get (DataManager.A dm_two_machines) 1%Z = Some As /\
             system_cost dm_two_machines v_two_machines 1 <= As.
Proof.
  eapply (@system_cost_within_budget dm_two_machines
            Base_Model _ v_two_machines 1).
  - vm_compute. reflexivity.
  - apply feasibleb_true. vm_compute. reflexivity.
  - simpl. lia.
Defined.

(** X4: for a machine of the index ranges that has both an early and a
    late slot, the operation window [E..L] lies inside the horizon, every
    feasible assignment has the machine on in at least [N.get((i, s), 0)]
    slots of the window, and, if that number is positive, on in some slot
    of the window. *)
Theorem machine_runs_its_slots_within_window
  (dm : DataManager) (nm : model_name) (b : base) (v : valuation)
  (i s a c : Z) :
  build_base_model dm nm = Return b ->
  feasible (model b) v ->
  (1 <= i <= DataManager.I dm)%Z ->
  (1 <= s <= DataManager.S dm)%Z ->
  get (DataManager.E dm) (i, s) = Some a ->
  get (DataManager.L dm) (i, s) = Some c ->
  (forall t, (a <= t <= c)%Z -> (1 <= t <= DataManager.T dm)%Z) /\
  inject_Z (get_default (DataManager.N dm) (i, s) 0%Z) <= on_slots v i s a c /\
  ((0 < get_default (DataManager.N dm) (i, s) 0)%Z ->
   exists t, (a <= t <= c)%Z /\ on v i s t).
Proof.
  intros Hbuild Hfeas Hi Hs HE HL.
  destruct (@region_duration dm nm b v Hbuild Hfeas i s a c Hi Hs HE HL)
    as [Hsum Hwin].
  split; [exact Hwin|]. split; [exact Hsum|]. intros HN.
  destruct (@total_binary_positive _ (fun t => v (x_ (i, t, s)))
              (range a (c + 1))) as [t [Hin Hon]].
  - intros t Hin. apply In_range in Hin.
    apply (@x_binary dm nm b v Hbuild Hfeas i s Hi Hs t). apply Hwin. lia.
  - eapply Qlt_le_trans; [|exact Hsum].
    change 0 with (inject_Z 0). rewrite <- Zlt_Qlt. exact HN.
  - exists t. apply In_range in Hin. split; [lia|exact Hon].
Qed.

Lemma machine_runs_its_slots_within_window_witness :
  (forall t, (1 <= t <= 4)%Z -> (1 <= t <= DataManager.T dm_two_machines)%Z) /\
  inject_Z (get_default (DataManager.N dm_two_machines) (1, 1)%Z 0%Z)
  <= on_slots v_two_machines 1 1 1 4 /\
  ((0 < get_default (DataManager.N dm_two_machines) (1, 1)%Z 0)%Z ->
   exists t, (1 <= t <= 4)%Z /\ on v_two_machines 1 1 t).
Proof.
  eapply (@machine_runs_its_slots_within_window dm_two_machines
            Base_Model _ v_two_machines 1 1 1 4).
  - vm_compute. reflexivity.
  - apply feasibleb_true. vm_compute. reflexivity.
  - simpl. lia.
  - simpl. lia.
  - reflexivity.
  - reflexivity.
Defined.

(** X5: in every feasible assignment of the region, the incentive of a
    machine in a slot is claimed only while the machine is on in that
    slot. *)
Theorem incentive_only_while_running
  (dm : DataManager) (nm : model_name) (b : base) (v : valuation)
  (i t s : Z) :
  build_base_model dm nm = Return b ->
  feasible (model b) v ->
  (1 <= i <= DataManager.I dm)%Z ->
  (1 <= t <= DataManager.T dm)%Z ->
  (1 <= s <= DataManager.S dm)%Z ->
  v (y_ (i, t, s)) <= v (x_ (i, t, s)) /\
  (v (y_ (i, t, s)) == 1 -> on v i s t).
Proof.
  intros Hbuild Hfeas Hi Ht Hs.
  destruct (@region_incentive dm nm b v Hbuild Hfeas i t s Hi Ht Hs) as [Hle _].
  split; [exact Hle|]. intros Hy. unfold on.
  destruct (@x_binary dm nm b v Hbuild Hfeas i s Hi Hs t Ht) as [H0|H1];
    [|exact H1].
  exfalso. rewrite Hy, H0 in Hle. revert Hle. unfold Qle. simpl. lia.
Qed.

Lemma incentive_only_while_running_witness :
  v_incentive (y_ (1, 1, 1)%Z) <= v_incentive (x_ (1, 1, 1)%Z) /\
  (v_incentive (y_ (1, 1, 1)%Z) == 1 -> on v_incentive 1 1 1).
Proof.
  eapply (@incentive_only_while_running (dm_incentive 5)
            Base_Model _ v_incentive 1 1 1).
  - vm_compute. reflexivity.
  - apply feasibleb_true. vm_compute. reflexivity.
  - simpl. lia.
  - simpl. lia.
  - simpl. lia.
Defined.

End RegionSemantics.

(** ** When the region can be built *)

Module BuildErrors.

Import PyFacts PulpFacts Spec ModelBuilder ModelBuilderFacts.
Import Extraction Strategies RegionSemantics.

(** A computation whose only exception is [KeyError]. *)
Definition only_KeyError {A} (r : result A) : Prop :=
  forall e0, r = Raise e0 -> e0 = KeyError.

Lemma only_KeyError_Return {A} (a : A) : only_KeyError (Return a).
Proof. intros e0 H. discriminate H. Qed.

Lemma only_KeyError_item {K V} `{Key K} (d : dict K V) (k : K) :
  only_KeyError (item d k).
Proof.
  intros e0. unfold item. destruct (get d k); [discriminate|].
  intros [= <-]. reflexivity.
Qed.

Lemma only_KeyError_bind {A B} (m : result A) (k : A -> result B) :
  only_KeyError m -> (forall a, only_KeyError (k a)) ->
  only_KeyError (Py.bind m k).
Proof.
  intros Hm Hk e0. destruct m as [e1|a]; cbn [Py.bind].
  - intros [= ->]. now apply Hm.
  - apply Hk.
Qed.

Lemma only_KeyError_for {A St} (body : A -> St -> result St) (l : list A) :
  (forall a st, only_KeyError (body a st)) ->
  forall st, only_KeyError (for_ l body st).
Proof.
  intros Hb. induction l as [|a l IH]; intros st; simpl.
  - apply only_KeyError_Return.
  - apply only_KeyError_bind; auto.
Qed.

Lemma only_KeyError_comprehension {A B} (f : A -> result B) (l : list A) :
  (forall a, only_KeyError (f a)) -> only_KeyError (comprehension f l).
Proof.
  intros Hf. induction l as [|a l IH]; simpl.
  - apply only_KeyError_Return.
  - apply only_KeyError_bind; [apply Hf|]. intros b.
    apply only_KeyError_bind; [exact IH|]. intros bs.
    apply only_KeyError_Return.
Qed.

Ltac only_key :=
  repeat first
    [ apply only_KeyError_Return
    | apply only_KeyError_item
    | apply only_KeyError_for; intros
    | apply only_KeyError_comprehension; intros
    | apply only_KeyError_bind; [|intros]
    | match goal with
      | a : (_ * _)%type |- _ => destruct a
      | |- only_KeyError (if ?c then _ else _) => destruct c
      | |- only_KeyError (match ?o with _ => _ end) => destruct o
      end ].

Lemma only_KeyError_build dm nm : only_KeyError (build_base_model dm nm).
Proof.
  unfold build_base_model, _add_electricity_consumption_constraints,
    _add_peak_load_constraints, _add_budget_constraints,
    _add_operation_duration_constraints,
    _add_uninterruptible_operation_constraints,
    _add_machine_dependency_constraints, _add_incentive_constraints,
    cost_term.
  cbv zeta. only_key.
Qed.

Section Steps.

Variable dm : DataManager.

Let NI := DataManager.I dm.
Let NT := DataManager.T dm.
Let NS := DataManager.S dm.
Let xd := LpVariable_dicts x_ (triples NI NT NS) None LpBinary.
Let yd := LpVariable_dicts y_ (triples NI NT NS) None LpBinary.
Let ud := LpVariable_dicts u_ (triples NI NT NS) None LpBinary.
Let ed := LpVariable_dicts e_ (range 1 (NT + 1)) (Some 0) LpContinuous.

Lemma x_defined i t s :
  (1 <= i <= NI)%Z -> (1 <= t <= NT)%Z -> (1 <= s <= NS)%Z ->
  item xd (i, t, s) = Return (xvar i t s).
Proof. intros. apply item_x. auto. Qed.

Lemma y_defined i t s :
  (1 <= i <= NI)%Z -> (1 <= t <= NT)%Z -> (1 <= s <= NS)%Z ->
  item yd (i, t, s) = Return (yvar i t s).
Proof. intros. apply item_y. auto. Qed.

Lemma u_defined i t s :
  (1 <= i <= NI)%Z -> (1 <= t <= NT)%Z -> (1 <= s <= NS)%Z ->
  item ud (i, t, s) = Return (uvar i t s).
Proof. intros. apply item_u. auto. Qed.

Lemma e_defined t : (1 <= t <= NT)%Z -> item ed t = Return (evar t).
Proof. intros. apply item_e. auto. Qed.

Lemma cost_term_total i t s :
  (1 <= i <= NI)%Z -> (1 <= t <= NT)%Z -> (1 <= s <= NS)%Z ->
  exists ex, cost_term xd yd (DataManager.R dm) (DataManager.c dm)
               (DataManager.o dm) (DataManager.alpha dm) i t s = Return ex.
Proof.
  intros Hi Ht Hs. unfold cost_term.
  rewrite (x_defined Hi Ht Hs), (y_defined Hi Ht Hs). cbn [Py.bind]. eauto.
Qed.

Lemma electricity_total m :
  exists m', _add_electricity_consumption_constraints m ed xd
               (DataManager.R dm) NT NS NI = Return m'.
Proof.
  apply for_total. intros t st Ht. apply In_range in Ht.
  rewrite e_defined by lia. cbn [Py.bind].
  match goal with
  | |- context [comprehension ?f ?l] =>
      destruct (@comprehension_total _ _ f l) as [ts ->]
  end.
  - intros [s i] Hin. apply In_pairs in Hin.
    rewrite x_defined by lia. cbn [Py.bind]. eauto.
  - cbn [Py.bind]. eauto.
Qed.

Lemma peak_load_total m pl :
  exists m', _add_peak_load_constraints m pl ed NT = Return m'.
Proof.
  apply for_total. intros t st Ht. apply In_range in Ht.
  rewrite e_defined by lia. cbn [Py.bind]. eauto.
Qed.

Lemma budget_total m :
  (forall s, (1 <= s <= NS)%Z -> contains (DataManager.A dm) s = true) ->
  exists m', _add_budget_constraints m xd yd (DataManager.R dm)
               (DataManager.c dm) (DataManager.o dm) (DataManager.alpha dm)
               (DataManager.A dm) NT NI NS = Return m'.
Proof.
  intros HA. apply for_total. intros s st Hs. apply In_range in Hs.
  match goal with
  | |- context [comprehension ?f ?l] =>
      destruct (@comprehension_total _ _ f l) as [ts ->]
  end.
  - intros [t i] Hin. apply In_pairs in Hin. apply cost_term_total; lia.
  - cbn [Py.bind]. specialize (HA s ltac:(lia)). unfold contains in HA.
    unfold item. destruct (get (DataManager.A dm) s); [|discriminate].
    cbn [Py.bind]. eauto.
Qed.

Lemma duration_total m :
  (forall i s a b,
     (1 <= i <= NI)%Z -> (1 <= s <= NS)%Z ->
     get (DataManager.E dm) (i, s) = Some a ->
     get (DataManager.L dm) (i, s) = Some b ->
     forall t, (a <= t <= b)%Z -> (1 <= t <= NT)%Z) ->
  exists m', _add_operation_duration_constraints m xd (DataManager.E dm)
               (DataManager.L dm) (DataManager.N dm) NS NI = Return m'.
Proof.
  intros HW. apply for_total. intros s st Hs. apply In_range in Hs.
  apply for_total. intros i st0 Hi. apply In_range in Hi.
  destruct (get (DataManager.E dm) (i, s)) as [a|] eqn:HE; [|eauto].
  destruct (get (DataManager.L dm) (i, s)) as [b|] eqn:HL; [|eauto].
  match goal with
  | |- context [comprehension ?f ?l] =>
      destruct (@comprehension_total _ _ f l) as [ts ->]
  end.
  - intros t Hin. apply In_range in Hin.
    rewrite x_defined; [cbn [Py.bind]; eauto|lia| |lia].
    apply (HW i s a b); auto; lia.
  - cbn [Py.bind]. eauto.
Qed.

Lemma uninterruptible_total m :
  exists m', _add_uninterruptible_operation_constraints m xd ud NS NI NT
             = Return m'.
Proof.
  apply for_total. intros s st Hs. apply In_range in Hs.
  apply for_total. intros i st0 Hi. apply In_range in Hi.
  apply for_total. intros t st1 Ht. apply In_range in Ht.
  rewrite x_defined, u_defined by lia. cbn [Py.bind].
  destruct (2 <=? t)%Z eqn:Ht2.
  - apply Z.leb_le in Ht2.
    rewrite x_defined, u_defined by lia. cbn [Py.bind]. eauto.
  - cbn [Py.bind]. eauto.
Qed.

Lemma dependency_total m :
  ((1 <= NT)%Z ->
   forall i s i_star,
     In ((i, s), i_star) (DataManager.get_machine_dependencies dm) ->
     (1 <= i <= NI)%Z /\ (1 <= s <= NS)%Z /\ (1 <= i_star <= NI)%Z) ->
  exists m', _add_machine_dependency_constraints m xd ud
               (DataManager.get_machine_dependencies dm) NT = Return m'.
Proof.
  intros HD. apply for_total. intros [[i s] i_star] st Hin.
  apply for_total. intros t st0 Ht. apply In_range in Ht.
  destruct (HD ltac:(lia) i s i_star Hin) as (Hi & Hs & Hj).
  rewrite x_defined, u_defined by lia. cbn [Py.bind]. eauto.
Qed.

Lemma incentive_total m :
  exists m', _add_incentive_constraints m xd yd NS NI NT = Return m'.
Proof.
  apply for_total. intros s st Hs. apply In_range in Hs.
  apply for_total. intros i st0 Hi. apply In_range in Hi.
  apply for_total. intros t st1 Ht. apply In_range in Ht.
  rewrite x_defined, y_defined by lia. cbn [Py.bind]. eauto.
Qed.

Lemma buildable_built nm :
  buildable dm -> exists b, build_base_model dm nm = Return b.
Proof.
  intros (HA & HW & HD). unfold build_base_model. cbv zeta.
  fold NI NT NS. fold xd yd ud ed.
  destruct (electricity_total (new_problem nm)) as [m1 ->]. cbn [Py.bind].
  destruct (peak_load_total m1
              {| name := PL_; lowBound := Some 0; cat := LpContinuous |})
    as [m2 ->]. cbn [Py.bind].
  destruct (budget_total m2 HA) as [m3 ->]. cbn [Py.bind].
  destruct (duration_total m3 HW) as [m4 ->]. cbn [Py.bind].
  destruct (uninterruptible_total m4) as [m5 ->]. cbn [Py.bind].
  destruct (dependency_total m5 HD) as [m6 ->]. cbn [Py.bind].
  destruct (incentive_total m6) as [m7 ->]. cbn [Py.bind].
  eauto.
Qed.

Lemma built_buildable nm b :
  build_base_model dm nm = Return b -> buildable dm.
Proof.
  intros Hbuild.
  destruct (build_base_model_inv Hbuild)
    as (Hx & Hy & Hu & He & HPL & m1 & m2 & m3 & m4 & m5 & m6
        & H1 & H2 & H3 & H4 & H5 & H6 & H7).
  split; [|split].
  - intros s Hs. unfold _add_budget_constraints in H3.
    eapply loop_In with (a := s) in H3; [| |apply In_range; lia].
    2:{ intros t0 s1 s2 _ Hb. inv_run. repeat ext_step. }
    destruct H3 as (s1 & s2 & _ & Hb & _). inv_run.
    unfold item in Ha0. unfold contains.
    destruct (get (DataManager.A dm) s); [reflexivity|discriminate].
  - intros i s a c Hi Hs HE HL t Ht.
    unfold _add_operation_duration_constraints in H4.
    assert (forall (s0 i0 : Z) m m',
      match get (DataManager.E dm) (i0, s0), get (DataManager.L dm) (i0, s0) with
      | Some Eis, Some Lis =>
          ts <- comprehension (fun t =>
                  xv <- item (x b) (i0, t, s0) ;; Return (of_var xv))
                (range Eis (Lis + 1)) ;;
          Return (add_constraint m
                    (constr (lpSum ts) GE
                       (of_num (inject_Z (get_default (DataManager.N dm) (i0, s0) 0%Z)))
                       (Operation_Duration i0 s0)))
      | _, _ => Return m
      end = Return m' -> ext m m') as Hstep.
    { intros s0 i0 m m' Hb.
      destruct (get (DataManager.E dm) (i0, s0));
        [destruct (get (DataManager.L dm) (i0, s0))|];
        inv_run; repeat ext_step. }
    eapply loop_In with (a := s) in H4; [| |apply In_range; lia].
    2:{ intros s0 s1 s2 _. apply loop_ext. intros i0 s3 s4 _. apply Hstep. }
    destruct H4 as (s1 & s2 & _ & H4 & _).
    eapply loop_In with (a := i) in H4; [| |apply In_range; lia].
    2:{ intros i0 s3 s4 _. apply Hstep. }
    destruct H4 as (s3 & s4 & _ & Hb & _).
    rewrite HE, HL in Hb. inv_run.
    destruct (comprehension_In _ _ Ha t) as [w Hw]; [apply In_range; lia|].
    inv_run. rewrite Hx in Ha0. inv_items. lia.
  - intros HT i s i_star Hin. rewrite Hx, Hu in H6.
    exact (proj2 (In_dependency (t := 1%Z) H6 Hin ltac:(lia))).
Qed.

End Steps.

Lemma not_buildable_raises dm nm :
  ~ buildable dm -> build_base_model dm nm = Raise KeyError.
Proof.
  intros Hn. destruct (build_base_model dm nm) as [e0|b] eqn:Hb.
  - now rewrite (@only_KeyError_build dm nm e0 Hb).
  - elim Hn. exact (@built_buildable dm nm b Hb).
Qed.

(** X6: [build_base_model] returns exactly on the inputs that give a
    budget [A[s]] to every system of the index range, whose operation
    windows [E..L] (of the machines that have both) lie inside the
    horizon, and whose dependencies relate machines and systems of the
    index ranges (when the horizon is not empty); on every other input
    it raises [KeyError], and it raises nothing else. *)
Theorem build_base_model_returns_iff_buildable
  (dm : DataManager) (nm : model_name) :
  ((exists b, build_base_model dm nm = Return b) <-> buildable dm) /\
  (~ buildable dm <-> build_base_model dm nm = Raise KeyError).
Proof.
  split; [split|split].
  - intros [b Hb]. exact (@built_buildable dm nm b Hb).
  - apply (@buildable_built dm nm).
  - apply not_buildable_raises.
  - intros Hr Hb. destruct (@buildable_built dm nm Hb) as [b Hb'].
    rewrite Hr in Hb'. discriminate Hb'.
Qed.

End BuildErrors.

(** ** What extraction reports *)

Module ExtractedValues.

Import PyFacts PulpFacts Spec ModelBuilder ModelBuilderFacts SingleRun.
Import Extraction Strategies RegionSemantics.

Lemma total_app (l l' : list Q) : total (l ++ l') == total l + total l'.
Proof.
  induction l as [|a l IH]; simpl.
  - now rewrite Qplus_0_l.
  - rewrite IH. ring.
Qed.

Lemma total_flat_map {A B} (g : B -> Q) (f : A -> list B) (l : list A) :
  total (map g (flat_map f l)) == total (map (fun a => total (map g (f a))) l).
Proof.
  induction l as [|a l IH]; simpl; [reflexivity|].
  rewrite map_app, total_app, IH. reflexivity.
Qed.

Lemma total_ext {A} (g h : A -> Q) (l : list A) :
  (forall a, In a l -> g a == h a) -> total (map g l) == total (map h l).
Proof.
  induction l as [|a l IH]; simpl; intros Hgh; [reflexivity|].
  rewrite (Hgh a (or_introl eq_refl)), IH; [reflexivity|auto].
Qed.

Lemma total_plus {A} (g h : A -> Q) (l : list A) :
  total (map (fun a => g a + h a) l) == total (map g l) + total (map h l).
Proof.
  induction l as [|a l IH]; simpl; [ring|]. rewrite IH. ring.
Qed.

Lemma total_zero {A} (l : list A) : total (map (fun _ => 0) l) == 0.
Proof. induction l as [|a l IH]; simpl; [reflexivity|]. rewrite IH. ring. Qed.

(** Two nested sums can be exchanged. *)
Lemma total_swap {A B} (g : A -> B -> Q) (la : list A) (lb : list B) :
  total (map (fun a => total (map (fun b => g a b) lb)) la)
  == total (map (fun b => total (map (fun a => g a b) la)) lb).
Proof.
  induction la as [|a la IH]; simpl.
  - now rewrite total_zero.
  - rewrite IH, <- total_plus. reflexivity.
Qed.

(** A loop that adds a number at each iteration computes a sum. *)
Lemma for_sum {A} (g : A -> Q) (body : A -> Q -> result Q) (l : list A) :
  (forall a acc, In a l -> exists r, body a acc = Return r /\ r == acc + g a) ->
  forall acc, exists r,
    for_ l body acc = Return r /\ r == acc + total (map g l).
Proof.
  induction l as [|a l IH]; simpl; intros Hb acc.
  - exists acc. split; [reflexivity|ring].
  - destruct (Hb a acc (or_introl eq_refl)) as [r1 [-> Hr1]]. cbn [Py.bind].
    destruct (IH (fun a0 acc0 Hin => Hb a0 acc0 (or_intror Hin)) r1)
      as [r [Hr Hr']].
    exists r. split; [exact Hr|]. rewrite Hr', Hr1. ring.
Qed.

(** A loop that appends at each iteration computes a concatenation. *)
Lemma for_append {A B} (f : A -> list B) (body : A -> list B -> result (list B))
      (l : list A) :
  (forall a acc, In a l -> body a acc = Return (acc ++ f a)) ->
  forall acc, for_ l body acc = Return (acc ++ flat_map f l).
Proof.
  induction l as [|a l IH]; simpl; intros Hb acc.
  - now rewrite app_nil_r.
  - rewrite (Hb a acc (or_introl eq_refl)). cbn [Py.bind].
    rewrite IH by auto. now rewrite app_assoc.
Qed.

Lemma flat_map_single {A B} (f : A -> B) (l : list A) :
  flat_map (fun a => [f a]) l = map f l.
Proof. induction l as [|a l IH]; simpl; [reflexivity|]. now rewrite IH. Qed.

Lemma flat_map_nil {A B} (l : list A) :
  flat_map (fun _ => @nil B) l = [].
Proof. induction l as [|a l IH]; simpl; auto. Qed.

Lemma total_pairs (g : Z -> Z -> Q) (n m : Z) :
  total (map (fun '(a, b) => g a b) (pairs n m))
  == total (map (fun a => total (map (fun b => g a b) (range 1 (m + 1))))
                (range 1 (n + 1))).
Proof.
  unfold pairs. rewrite total_flat_map. apply total_ext. intros a _.
  rewrite map_map. reflexivity.
Qed.

Lemma total_triples (g : Z -> Z -> Z -> Q) (n m k : Z) :
  total (map (fun '(a, b, c) => g a b c) (triples n m k))
  == total (map (fun a =>
       total (map (fun b =>
         total (map (fun c => g a b c) (range 1 (k + 1))))
         (range 1 (m + 1))))
       (range 1 (n + 1))).
Proof.
  unfold triples. rewrite total_flat_map. apply total_ext. intros a _.
  rewrite total_flat_map. apply total_ext. intros b _.
  rewrite map_map. reflexivity.
Qed.

Lemma get_app_new {V} (d : dict Z V) (k k' : Z) (w : V) :
  get d k = None -> k' <> k -> get (d ++ [(k', w)]) k = None.
Proof.
  induction d as [|[k0 w0] d IH]; simpl; intros Hg Hk.
  - destruct (Z.eqb k' k) eqn:Heq; [apply Z.eqb_eq in Heq; lia|reflexivity].
  - destruct (Z.eqb k0 k); [discriminate|auto].
Qed.

Lemma set_item_new {V} (d : dict Z V) (k : Z) (w : V) :
  get d k = None -> set_item d k w = d ++ [(k, w)].
Proof.
  induction d as [|[k0 w0] d IH]; simpl; intros Hg; [reflexivity|].
  destruct (Z.eqb k0 k); [discriminate|]. now rewrite IH.
Qed.

(** A loop that stores one entry per key, over distinct keys, lists the
    entries in the order of the keys. *)
Lemma for_set_item {V} (g : Z -> V) (body : Z -> dict Z V -> result (dict Z V))
      (l : list Z) :
  NoDup l ->
  (forall t acc, In t l -> body t acc = Return (set_item acc t (g t))) ->
  forall acc, (forall t, In t l -> get acc t = None) ->
  for_ l body acc = Return (acc ++ map (fun t => (t, g t)) l).
Proof.
  induction l as [|a l IH]; simpl; intros Hnd Hb acc Hnew.
  - now rewrite app_nil_r.
  - inversion Hnd as [|a0 l0 Hnotin Hnd']. subst.
    rewrite (Hb a acc (or_introl eq_refl)). cbn [Py.bind].
    rewrite set_item_new by auto.
    rewrite IH; auto.
    + now rewrite <- app_assoc.
    + intros t Hin. apply get_app_new; [auto|].
      intros ->. contradiction.
Qed.

Lemma NoDup_range (a c : Z) : NoDup (range a c).
Proof.
  unfold range. generalize (seq_NoDup (Z.to_nat (c - a)) 0).
  generalize (seq 0 (Z.to_nat (c - a))) as l.
  induction l as [|n l IH]; simpl; intros Hnd; [constructor|].
  inversion Hnd as [|n0 l0 Hnotin Hnd']. subst. constructor; [|auto].
  rewrite in_map_iff. intros [n' [Heq Hin]].
  assert (n' = n) by lia. subst. contradiction.
Qed.

Section Base.

Variables (dm : DataManager) (nm : model_name) (b : base).
Hypothesis Hbuild : build_base_model dm nm = Return b.

Lemma _calculate_load_profile_spec sol :
  ResultExtractor._calculate_load_profile dm sol (e b)
  = Return (map (fun t => (t, varValue sol (e_ t)))
                (range 1 (DataManager.T dm + 1))).
Proof.
  unfold ResultExtractor._calculate_load_profile. cbv zeta.
  rewrite for_set_item with (g := fun t => varValue sol (e_ t)).
  - reflexivity.
  - apply NoDup_range.
  - intros t acc Ht. apply In_range in Ht.
    destruct (build_base_model_inv Hbuild) as (_ & _ & _ & -> & _).
    rewrite (proj2 (item_e (DataManager.T dm) t (evar t)))
      by (split; [lia|reflexivity]).
    reflexivity.
  - reflexivity.
Qed.

(** The cost expression evaluates to the total cost. *)
Lemma value_EC_expression v ec :
  ObjectiveManager.calculate_EC_expression dm (x b) (y b) = Return ec ->
  value v ec == total_cost dm v.
Proof.
  unfold ObjectiveManager.calculate_EC_expression. intros H. inv_run.
  unfold total_cost.
  apply value_lpSum_comprehension with (2 := Ha).
  intros [[s t] i] ex _ Hex.
  destruct (build_base_model_inv Hbuild) as (Hx & Hy & _).
  rewrite Hx, Hy in Hex. exact (value_cost_term dm _ _ _ v _ _ _ Hex).
Qed.

Lemma slot_cost_unrated v i t s :
  contains (DataManager.R dm) (i, s) = false -> slot_cost dm v i t s == 0.
Proof.
  unfold contains, slot_cost, get_default.
  destruct (get (DataManager.R dm) (i, s)); [discriminate|]. intros _. ring.
Qed.

Lemma _calculate_EC_value_spec sol :
  exists q,
    ResultExtractor._calculate_EC_value dm sol (x b) (y b) = Return q /\
    q == total_cost dm (varValue sol).
Proof.
  unfold ResultExtractor._calculate_EC_value. cbv zeta.
  match goal with
  | |- exists q, for_ ?l ?body 0 = _ /\ _ =>
      destruct (@for_sum _
        (fun s => total (map (fun i =>
           total (map (fun t => slot_cost dm (varValue sol) i t s)
                      (range 1 (DataManager.T dm + 1))))
           (range 1 (DataManager.I dm + 1))))
        body l) with (acc := 0) as [q [Hq Hq']]
  end.
  - intros s acc Hs. apply for_sum. intros i acc0 Hi.
    apply for_sum. intros t acc1 Ht.
    destruct (contains (DataManager.R dm) (i, s)) eqn:HR.
    + destruct (@x_in_range dm nm b Hbuild i t s Hi Ht Hs) as [-> ->]. cbn [Py.bind].
      eexists. split; [reflexivity|]. unfold slot_cost, var_value.
      cbn [name xvar yvar]. reflexivity.
    + exists acc1. split; [reflexivity|].
      rewrite (slot_cost_unrated _ _ t _ HR). ring.
  - exists q. split; [exact Hq|]. rewrite Hq', Qplus_0_l.
    unfold total_cost.
    rewrite (total_triples (fun s t i => slot_cost dm (varValue sol) i t s)).
    apply total_ext. intros s _. apply total_swap.
Qed.

Lemma _extract_schedule_spec sol :
  ResultExtractor._extract_schedule dm sol (x b)
  = Return (flat_map (fun '(s, i) =>
              map (row_of dm (varValue sol) s i)
                  (range 1 (DataManager.T dm + 1)))
            (rated_pairs dm)).
Proof.
  unfold ResultExtractor._extract_schedule. cbv zeta.
  rewrite for_append with
    (f := fun s => flat_map (fun i =>
            if contains (DataManager.R dm) (i, s)
            then map (row_of dm (varValue sol) s i)
                     (range 1 (DataManager.T dm + 1))
            else []) (range 1 (DataManager.I dm + 1))).
  - cbn [app]. f_equal. unfold rated_pairs, pairs.
    generalize (range 1 (DataManager.S dm + 1)) as ls.
    induction ls as [|s ls IH]; simpl; [reflexivity|].
    rewrite filter_app, flat_map_app, IH. f_equal.
    generalize (range 1 (DataManager.I dm + 1)) as li.
    induction li as [|i li IHi]; simpl; [reflexivity|].
    destruct (contains (DataManager.R dm) (i, s)); simpl;
      rewrite IHi; reflexivity.
  - intros s acc Hs. apply for_append. intros i acc0 Hi.
    destruct (contains (DataManager.R dm) (i, s)) eqn:HR.
    + rewrite for_append with (f := fun t => [row_of dm (varValue sol) s i t]).
      * now rewrite flat_map_single.
      * intros t acc1 Ht. 
        destruct (@x_in_range dm nm b Hbuild i t s Hi Ht Hs) as [-> _]. cbn [Py.bind].
        unfold row_of, var_value. cbn [name xvar].
        destruct (negb _); reflexivity.
    + rewrite for_append with (f := fun t => @nil ResultExtractor.schedule_row).
      * now rewrite flat_map_nil.
      * intros t acc1 _. now rewrite app_nil_r.
Qed.

End Base.

Lemma get_map_range {V} (g : Z -> V) (l : list Z) (t : Z) :
  In t l -> get (map (fun t => (t, g t)) l) t = Some (g t).
Proof.
  induction l as [|a l IH]; simpl; [tauto|]. intros Hin.
  destruct (Z.eqb a t) eqn:Heq.
  - apply Z.eqb_eq in Heq. now subst.
  - destruct Hin as [->|Hin]; [rewrite Z.eqb_refl in Heq; discriminate|auto].
Qed.

(** X7: the electricity cost that extraction recomputes from the values
    of [x] and [y] (skipping the pairs without rated power) is the value
    of the cost expression the models optimise, taken at the same
    solution. *)
Theorem extracted_cost_is_value_of_cost_expression
  (dm : DataManager) (nm : model_name) (b : base) (sol : Solved)
  (ec : LpAffineExpression) (q : Q) :
  build_base_model dm nm = Return b ->
  ObjectiveManager.calculate_EC_expression dm (x b) (y b) = Return ec ->
  ResultExtractor._calculate_EC_value dm sol (x b) (y b) = Return q ->
  q == value (varValue sol) ec.
Proof.
  intros Hbuild Hec Hq.
  destruct (@_calculate_EC_value_spec dm nm b Hbuild sol) as [q' [Hq' Heq]].
  rewrite Hq in Hq'. injection Hq' as <-.
  rewrite Heq. symmetry.
  exact (@value_EC_expression dm nm b Hbuild (varValue sol) ec Hec).
Qed.

Lemma extracted_cost_is_value_of_cost_expression_witness :
  let sol := answers v_two_machines (new_problem Base_Model) in
  exists b ec q,
    build_base_model dm_two_machines Base_Model = Return b /\
    ObjectiveManager.calculate_EC_expression dm_two_machines (x b) (y b)
    = Return ec /\
    ResultExtractor._calculate_EC_value dm_two_machines sol (x b) (y b)
    = Return q /\
    q == value (varValue sol) ec.
Proof.
  intros sol.
  assert (exists b, build_base_model dm_two_machines Base_Model = Return b)
    as [b Hb] by (eexists; vm_compute; reflexivity).
  destruct (@calculate_EC_expression_total dm_two_machines Base_Model b Hb)
    as [ec Hec].
  destruct (@_calculate_EC_value_total dm_two_machines Base_Model b Hb sol)
    as [q Hq].
  exists b, ec, q. repeat split; try assumption.
  exact (@extracted_cost_is_value_of_cost_expression
           dm_two_machines Base_Model b sol ec q Hb Hec Hq).
Defined.

(** X8: the extracted schedule lists, system by system and machine by
    machine, one row per slot of the horizon for exactly the pairs of the
    index ranges that have a rated power; a row has status 1 and the
    rated power when the value of [x] exceeds one half, status 0 and
    power 0 otherwise. *)
Theorem schedule_has_a_row_per_slot_of_each_rated_pair
  (dm : DataManager) (nm : model_name) (b : base) (sol : Solved) :
  build_base_model dm nm = Return b ->
  ResultExtractor._extract_schedule dm sol (x b)
  = Return (flat_map (fun '(s, i) =>
              map (row_of dm (varValue sol) s i)
                  (range 1 (DataManager.T dm + 1)))
            (rated_pairs dm)).
Proof.
  intros Hbuild. exact (@_extract_schedule_spec dm nm b Hbuild sol).
Qed.

Lemma schedule_has_a_row_per_slot_of_each_rated_pair_witness :
  let sol := answers v_two_machines (new_problem Base_Model) in
  exists b,
    build_base_model dm_two_systems Base_Model = Return b /\
    ResultExtractor._extract_schedule dm_two_systems sol (x b)
    = Return (flat_map (fun '(s, i) =>
                map (row_of dm_two_systems (varValue sol) s i)
                    (range 1 (DataManager.T dm_two_systems + 1)))
              (rated_pairs dm_two_systems)).
Proof.
  intros sol.
  assert (exists b, build_base_model dm_two_systems Base_Model = Return b)
    as [b Hb] by (eexists; vm_compute; reflexivity).
  exists b. split; [exact Hb|].
  exact (@schedule_has_a_row_per_slot_of_each_rated_pair
           dm_two_systems Base_Model b sol Hb).
Defined.

(** X9: the load profile has exactly the slots [1..T] as keys, in
    increasing order and each once, and maps slot [t] to the value of
    [e[t]]. *)
Theorem load_profile_lists_every_slot_in_order
  (dm : DataManager) (nm : model_name) (b : base) (sol : Solved) :
  build_base_model dm nm = Return b ->
  ResultExtractor._calculate_load_profile dm sol (e b)
  = Return (map (fun t => (t, varValue sol (e_ t)))
                (range 1 (DataManager.T dm + 1))).
Proof.
  intros Hbuild. exact (@_calculate_load_profile_spec dm nm b Hbuild sol).
Qed.

Lemma load_profile_lists_every_slot_in_order_witness :
  let sol := answers v_two_machines (new_problem Base_Model) in
  exists b,
    build_base_model dm_two_machines Base_Model = Return b /\
    ResultExtractor._calculate_load_profile dm_two_machines sol (e b)
    = Return (map (fun t => (t, varValue sol (e_ t)))
                  (range 1 (DataManager.T dm_two_machines + 1))).
Proof.
  intros sol.
  assert (exists b, build_base_model dm_two_machines Base_Model = Return b)
    as [b Hb] by (eexists; vm_compute; reflexivity).
  exists b. split; [exact Hb|].
  exact (@load_profile_lists_every_slot_in_order
           dm_two_machines Base_Model b sol Hb).
Defined.

(** X10: when the solution handed to [extract_results] is feasible for
    the region, the reported numbers agree with one another: the reported
    cost is the total cost of the solution, the reported peak load is the
    value of [PL], and for every slot of the horizon the load profile
    holds the summed rated power of the machines that are on, which is at
    most the reported peak load. *)
Theorem reported_peak_dominates_reported_profile
  (dm : DataManager) (nm : model_name) (b : base) (sol : Solved)
  (r : ResultExtractor.results) :
  build_base_model dm nm = Return b ->
  feasible (model b) (varValue sol) ->
  ResultExtractor.extract_results dm sol (x b) (y b) (e b) (PL b)
  = Return (Some r) ->
  ResultExtractor.EC r == total_cost dm (varValue sol) /\
  ResultExtractor.PL r = varValue sol PL_ /\
  forall t, (1 <= t <= DataManager.T dm)%Z ->
    exists q, get (ResultExtractor.LoadProfile r) t = Some q /\
              q == slot_load dm (varValue sol) t /\
              q <= ResultExtractor.PL r.
Proof.
  intros Hbuild Hfeas Hr. unfold ResultExtractor.extract_results in Hr.
  destruct (negb (is_optimal (status sol))); [discriminate|].
  destruct (@_calculate_EC_value_spec dm nm b Hbuild sol) as [q [Hq Heq]].
  rewrite Hq, (@_extract_schedule_spec dm nm b Hbuild sol),
    (@_calculate_load_profile_spec dm nm b Hbuild sol) in Hr.
  cbn [Py.bind] in Hr. injection Hr as <-.
  cbn [ResultExtractor.EC ResultExtractor.PL ResultExtractor.LoadProfile].
  destruct (build_base_model_inv Hbuild) as (_ & _ & _ & _ & HPL & _).
  split; [exact Heq|]. split; [unfold var_value; now rewrite HPL|].
  intros t Ht. exists (varValue sol (e_ t)). split; [|split].
  - apply get_map_range with (g := fun t => varValue sol (e_ t)).
    apply In_range. lia.
  - exact (@region_electricity dm nm b _ Hbuild Hfeas t Ht).
  - unfold var_value. rewrite HPL.
    exact (@region_peak_load dm nm b _ Hbuild Hfeas t Ht).
Qed.

Lemma reported_peak_dominates_reported_profile_witness :
  let sol := answers v_two_machines (new_problem Base_Model) in
  exists b r,
    ResultExtractor.extract_results dm_two_machines sol (x b) (y b) (e b)
      (PL b) = Return (Some r) /\
    ResultExtractor.EC r == total_cost dm_two_machines (varValue sol) /\
    ResultExtractor.PL r = varValue sol PL_ /\
    forall t, (1 <= t <= DataManager.T dm_two_machines)%Z ->
      exists q, get (ResultExtractor.LoadProfile r) t = Some q /\
                q == slot_load dm_two_machines (varValue sol) t /\
                q <= ResultExtractor.PL r.
Proof.
  intros sol.
  assert (exists b, build_base_model dm_two_machines Base_Model = Return b
                    /\ feasible (model b) (varValue sol))
    as [b [Hb Hf]].
  { eexists. split; [vm_compute; reflexivity|].
    apply feasibleb_true. vm_compute. reflexivity. }
  destruct (@extract_results_total dm_two_machines Base_Model b Hb sol)
    as [[r|] [Hr Hiff]].
  - exists b, r. split; [exact Hr|].
    exact (@reported_peak_dominates_reported_profile
             dm_two_machines Base_Model b sol r Hb Hf Hr).
  - exfalso. destruct Hiff as [Hiff _]. specialize (Hiff eq_refl).
    discriminate Hiff.
Defined.

End ExtractedValues.

(** ** The range between ideal and nadir *)

Module NadirRange.

Import PyFacts PulpFacts Spec ModelBuilder ModelBuilderFacts Regions.
Import ObjectiveManager Calibration SingleRun Strategies NegativeCost.
Import WeightedSum RegionSemantics BuildErrors ExtractedValues.

(** *** The arithmetic of the estimate *)

Lemma perturb_above (i n : Q) : -1 < i -> i <= n -> i < perturb i n.
Proof.
  intros Hi Hn. unfold perturb. destruct (Qeq_bool n i) eqn:Hb.
  - unfold lit_1_1, lit_0_1. lra.
  - apply Qeq_bool_neq in Hb. apply Qle_lteq in Hn.
    destruct Hn as [Hn|Hn]; [exact Hn|]. elim Hb. now symmetry.
Qed.

Lemma or_cases (r : option Q) :
  or_ r 0 = 0 \/ exists a, r = Some a /\ or_ r 0 = a.
Proof.
  destruct r as [a|]; simpl; [|now left].
  destruct (Qeq_bool a 0); [now left|right; eauto].
Qed.

Lemma or_nonnegative (r : option Q) :
  (forall a, r = Some a -> 0 <= a) -> 0 <= or_ r 0.
Proof.
  intros Hr. destruct (or_cases r) as [->|(a & Ha & ->)];
    [apply Qle_refl|auto].
Qed.

Lemma raw_nadir_optimal (r : option Q) (own cross : Q) :
  (forall a, r = Some a -> a == own) -> 0 <= own ->
  or_ r 0 <= Py.max cross (own * lit_1_5).
Proof.
  intros Hr Hown. apply Qle_trans with (own * lit_1_5);
    [|apply max_ge_second].
  destruct (or_cases r) as [->|(a & Ha & ->)].
  - unfold lit_1_5. lra.
  - rewrite (Hr a Ha). unfold lit_1_5. lra.
Qed.

Lemma raw_nadir_fallback (r : option Q) (dflt : Q) :
  (forall a, r = Some a -> 0 <= a) -> 0 <= dflt ->
  or_ r 0 <= (if truthy (or_ r 0) then or_ r 0 * 2 else dflt).
Proof.
  intros Hr Hd. pose proof (@or_nonnegative r Hr) as H0.
  destruct (truthy (or_ r 0)) eqn:Ht; [lra|].
  unfold truthy in Ht. apply negb_false_iff, Qeq_bool_iff in Ht.
  rewrite Ht. exact Hd.
Qed.

Lemma optimum_value m v v' :
  optimum m v -> optimum m v' -> objective_value m v == objective_value m v'.
Proof.
  intros [F O] [F' O']. apply Qle_antisym; auto.
Qed.

Lemma optimum_rename nm m v : optimum (rename nm m) v -> optimum m v.
Proof. intros H. exact H. Qed.

Lemma is_optimal_true st : is_optimal st = true -> st = LpStatusOptimal.
Proof. destruct st; simpl; intros H; try discriminate; reflexivity. Qed.

Section Calibrated.

Variable solve : LpProblem -> Solved.
Variable dm : DataManager.

Lemma get_nadir_points_models r :
  get_nadir_points solve dm = Return r ->
  exists m_EC b_EC m_PL b_PL,
    EC_Only_model dm = Return (m_EC, b_EC) /\
    PL_Only_model dm = Return (m_PL, b_PL).
Proof.
  unfold get_nadir_points. intros H.
  destruct (EC_Only_model dm) as [e0|[m_EC b_EC]] eqn:HEC.
  { rewrite (ZeroIdeal.get_EC_ideal_raise solve HEC) in H. discriminate H. }
  destruct (PL_Only_model dm) as [e0|[m_PL b_PL]] eqn:HPL.
  { rewrite (@get_EC_ideal_eq solve dm _ _ HEC) in H. cbn [Py.bind] in H.
    rewrite (ZeroIdeal.get_PL_ideal_raise solve HPL) in H. discriminate H. }
  eauto 6.
Qed.

(** The peak load of a feasible assignment is not negative. *)
Lemma peak_load_nonnegative m_PL b_PL v :
  PL_Only_model dm = Return (m_PL, b_PL) -> feasible m_PL v -> 0 <= v PL_.
Proof.
  intros HPL [_ Hd]. apply PL_Only_model_inv in HPL. destruct HPL as [Hb ->].
  destruct (build_base_model_inv Hb) as (_ & _ & _ & _ & HPLv & _).
  unfold variables in Hd. cbn [objective set_objective] in Hd.
  rewrite HPLv in Hd. cbn [expr_vars of_var terms map fst app] in Hd.
  apply Forall_inv in Hd. destruct Hd as [Hlow _]. exact Hlow.
Qed.

Variables (m_EC m_PL : LpProblem) (b_EC b_PL : base).
Hypothesis HEC : EC_Only_model dm = Return (m_EC, b_EC).
Hypothesis HPL : PL_Only_model dm = Return (m_PL, b_PL).

Let r_EC :=
  let sol := solve (rename EC_Ideal m_EC) in
  if is_optimal (status sol)
  then Some (objective_value m_EC (varValue sol)) else None.
Let r_PL :=
  let sol := solve (rename PL_Ideal m_PL) in
  if is_optimal (status sol)
  then Some (objective_value m_PL (varValue sol)) else None.

(** [get_nadir_points], whatever the statuses of the solves. *)
Lemma get_nadir_points_eq :
  get_nadir_points solve dm =
  (' (EC_nadir, PL_nadir) <-
     estimate_nadir dm (or_ r_EC 0) (or_ r_PL 0)
       m_EC (solve m_EC) b_EC m_PL (solve m_PL) b_PL ;;
   Return (or_ r_EC 0, or_ r_PL 0,
           perturb (or_ r_EC 0) EC_nadir, perturb (or_ r_PL 0) PL_nadir)).
Proof.
  unfold get_nadir_points.
  rewrite (@get_EC_ideal_eq solve dm _ _ HEC), (@get_PL_ideal_eq solve dm _ _ HPL).
  cbn [Py.bind]. cbv zeta. rewrite !(@EC_ideal_or dm m_EC b_EC _ 0 HEC).
  rewrite HEC. cbn [Py.bind]. rewrite HPL. cbn [Py.bind].
  reflexivity.
Qed.

Lemma get_nadir_points_fallback :
  is_optimal (status (solve m_EC)) && is_optimal (status (solve m_PL)) = false ->
  get_nadir_points solve dm =
  Return (or_ r_EC 0, or_ r_PL 0,
          perturb (or_ r_EC 0)
            (if truthy (or_ r_EC 0) then or_ r_EC 0 * 2 else 100),
          perturb (or_ r_PL 0)
            (if truthy (or_ r_PL 0) then or_ r_PL 0 * 2 else 20)).
Proof.
  intros Hf. rewrite get_nadir_points_eq. unfold estimate_nadir.
  rewrite Hf. reflexivity.
Qed.

Hypothesis Hsound_EC : sound solve m_EC.
Hypothesis Hsound_EI : sound solve (rename EC_Ideal m_EC).
Hypothesis Hsound_PL : sound solve m_PL.
Hypothesis Hsound_PI : sound solve (rename PL_Ideal m_PL).

Lemma ideal_PL_nonnegative a : r_PL = Some a -> 0 <= a.
Proof.
  unfold r_PL. cbv zeta.
  destruct (is_optimal (status (solve (rename PL_Ideal m_PL)))) eqn:Ho;
    [|discriminate].
  intros [= <-]. apply is_optimal_true in Ho.
  destruct (optimum_rename (Hsound_PI Ho)) as [F _].
  rewrite (@PL_Only_objective_value _ _ _ _ HPL).
  exact (@peak_load_nonnegative _ _ _ HPL F).
Qed.

Lemma ideal_PL_is_own a :
  status (solve m_PL) = LpStatusOptimal ->
  r_PL = Some a -> a == varValue (solve m_PL) PL_.
Proof.
  intros Hs. unfold r_PL. cbv zeta.
  destruct (is_optimal (status (solve (rename PL_Ideal m_PL)))) eqn:Ho;
    [|discriminate].
  intros [= <-]. apply is_optimal_true in Ho.
  rewrite <- (@PL_Only_objective_value _ _ _ (varValue (solve m_PL)) HPL).
  apply optimum_value;
    [exact (optimum_rename (Hsound_PI Ho))|exact (Hsound_PL Hs)].
Qed.

Lemma PL_nadir_above EI PI EN PN :
  get_nadir_points solve dm = Return (EI, PI, EN, PN) -> PI < PN.
Proof.
  destruct (is_optimal (status (solve m_EC)) && is_optimal (status (solve m_PL)))
    eqn:Hb.
  - apply andb_true_iff in Hb. destruct Hb as [HsE HsP].
    apply is_optimal_true in HsE, HsP.
    rewrite (@get_nadir_points_both_optimal solve dm _ _ _ _
               HEC HPL HsE HsP).
    cbv zeta. destruct (has_value m_EC (PL b_EC)); [|discriminate].
    fold r_PL. intros [= _ <- _ <-].
    pose proof (@or_nonnegative r_PL ideal_PL_nonnegative) as H0.
    apply perturb_above; [lra|].
    apply raw_nadir_optimal; [intros a Ha; exact (ideal_PL_is_own HsP Ha)|].
    destruct (Hsound_PL HsP) as [F _].
    exact (@peak_load_nonnegative _ _ _ HPL F).
  - rewrite (get_nadir_points_fallback Hb). intros [= _ <- _ <-].
    pose proof (@or_nonnegative r_PL ideal_PL_nonnegative) as H0.
    apply perturb_above; [lra|].
    apply raw_nadir_fallback; [exact ideal_PL_nonnegative|discriminate].
Qed.

Hypothesis Hcosts : nonnegative_costs dm.

Lemma ideal_EC_nonnegative a : r_EC = Some a -> 0 <= a.
Proof.
  unfold r_EC. cbv zeta.
  destruct (is_optimal (status (solve (rename EC_Ideal m_EC)))) eqn:Ho;
    [|discriminate].
  intros [= <-]. apply is_optimal_true in Ho.
  destruct (optimum_rename (Hsound_EI Ho)) as [F _].
  exact (@Hcosts _ _ _ HEC F).
Qed.

Lemma ideal_EC_is_own a :
  status (solve m_EC) = LpStatusOptimal ->
  r_EC = Some a -> a == objective_value m_EC (varValue (solve m_EC)).
Proof.
  intros Hs. unfold r_EC. cbv zeta.
  destruct (is_optimal (status (solve (rename EC_Ideal m_EC)))) eqn:Ho;
    [|discriminate].
  intros [= <-]. apply is_optimal_true in Ho.
  apply optimum_value;
    [exact (optimum_rename (Hsound_EI Ho))|exact (Hsound_EC Hs)].
Qed.

Lemma EC_nadir_above EI PI EN PN :
  get_nadir_points solve dm = Return (EI, PI, EN, PN) -> EI < EN.
Proof.
  destruct (is_optimal (status (solve m_EC)) && is_optimal (status (solve m_PL)))
    eqn:Hb.
  - apply andb_true_iff in Hb. destruct Hb as [HsE HsP].
    apply is_optimal_true in HsE, HsP.
    rewrite (@get_nadir_points_both_optimal solve dm _ _ _ _
               HEC HPL HsE HsP).
    cbv zeta. destruct (has_value m_EC (PL b_EC)); [|discriminate].
    fold r_EC. intros [= <- _ <- _].
    pose proof (@or_nonnegative r_EC ideal_EC_nonnegative) as H0.
    apply perturb_above; [lra|].
    apply raw_nadir_optimal; [intros a Ha; exact (ideal_EC_is_own HsE Ha)|].
    destruct (Hsound_EC HsE) as [F _]. exact (@Hcosts _ _ _ HEC F).
  - rewrite (get_nadir_points_fallback Hb). intros [= <- _ <- _].
    pose proof (@or_nonnegative r_EC ideal_EC_nonnegative) as H0.
    apply perturb_above; [lra|].
    apply raw_nadir_fallback; [exact ideal_EC_nonnegative|discriminate].
Qed.

End Calibrated.

(** *** Costs that cannot be negative *)

Lemma total_nonnegative {A} (g : A -> Q) (l : list A) :
  (forall a, In a l -> 0 <= g a) -> 0 <= total (map g l).
Proof.
  induction l as [|a l IH]; simpl; intros Hg; [apply Qle_refl|].
  pose proof (Hg a (or_introl eq_refl)).
  pose proof (IH (fun a0 Hin => Hg a0 (or_intror Hin))). lra.
Qed.

Lemma feasible_set_objective m a v :
  feasible (set_objective m a) v -> objective m = None -> feasible m v.
Proof.
  unfold feasible, variables. cbn [constraints objective set_objective].
  intros [Hc Hd] ->. apply Forall_app in Hd. cbn [app]. tauto.
Qed.

Lemma net_price_nonnegative (c o xv yv : Q) :
  0 <= c -> o <= c -> (xv == 0 \/ xv == 1) -> (yv == 0 \/ yv == 1) ->
  yv <= xv -> 0 <= c * xv - o * yv.
Proof.
  intros Hc Ho [Hx|Hx] [Hy|Hy] Hle; rewrite Hx, Hy in *; lra.
Qed.

Lemma cost_nonnegative dm nm b v :
  prices_cover_incentives dm ->
  build_base_model dm nm = Return b ->
  feasible (model b) v ->
  0 <= total_cost dm v.
Proof.
  intros (Halpha & HR & Hco) Hbuild Hfeas. unfold total_cost.
  apply total_nonnegative. intros [[s t] i] Hin. apply In_triples in Hin.
  destruct Hin as (Hs & Ht & Hi).
  destruct (@region_incentive dm nm b v Hbuild Hfeas i t s Hi Ht Hs)
    as [Hle Hy].
  pose proof (@x_binary dm nm b v Hbuild Hfeas i s Hi Hs t Ht) as Hx.
  cbv beta in Hx. destruct (Hco t) as [Hc Ho]. unfold slot_cost.
  apply Qmult_le_0_compat; [|exact Halpha].
  apply Qmult_le_0_compat; [apply HR|].
  now apply net_price_nonnegative.
Qed.

Lemma prices_nonnegative_costs dm :
  prices_cover_incentives dm -> nonnegative_costs dm.
Proof.
  intros Hp m_EC b_EC v HEC Hf.
  destruct (@EC_Only_model_inv dm _ _ HEC) as [Hb [ec [Hec ->]]].
  destruct (base_objective Hb) as [Hobj _].
  apply feasible_set_objective in Hf; [|exact Hobj].
  unfold objective_value. cbn [objective set_objective].
  rewrite (@value_EC_expression dm EC_Only b_EC Hb v ec Hec).
  exact (@cost_nonnegative dm EC_Only b_EC v Hp Hb Hf).
Qed.

(** *** One priced machine *)

Section Priced.

Let dm := dm_priced.

Lemma priced_models :
  exists m_EC b_EC m_PL b_PL,
    EC_Only_model dm = Return (m_EC, b_EC) /\
    PL_Only_model dm = Return (m_PL, b_PL).
Proof. unfold dm. do 4 eexists. split; vm_compute; reflexivity. Qed.

Lemma priced_prices : prices_cover_incentives dm.
Proof.
  unfold dm, prices_cover_incentives, dm_priced, get_default.
  cbn [DataManager.alpha DataManager.R DataManager.c DataManager.o get].
  split; [discriminate|]. split; intros;
    repeat match goal with
           | |- context [if ?c then _ else _] => destruct c
           end; try split; lra.
Qed.

(** Every feasible assignment runs the machine: the cost is 3 less the
    incentive if claimed, and the peak load at least 1. *)
Lemma priced_forced {m_EC b_EC m_PL b_PL} v :
  EC_Only_model dm = Return (m_EC, b_EC) ->
  PL_Only_model dm = Return (m_PL, b_PL) ->
  feasible m_EC v \/ feasible m_PL v ->
  2 <= objective_value m_EC v /\ 1 <= v PL_.
Proof.
  unfold dm. intros HEC HPL Hf.
  vm_compute in HEC, HPL. injection HEC as <- <-. injection HPL as <- <-.
  destruct Hf as [Hf|Hf]; inequalities Hf; evaluate; cases_01; split; lra.
Qed.

Lemma priced_feasible {m_EC b_EC m_PL b_PL} :
  EC_Only_model dm = Return (m_EC, b_EC) ->
  PL_Only_model dm = Return (m_PL, b_PL) ->
  feasible m_EC v_incentive /\ feasible m_PL v_incentive /\
  objective_value m_EC v_incentive == 2 /\
  objective_value m_PL v_incentive == 1.
Proof.
  unfold dm. intros HEC HPL.
  vm_compute in HEC, HPL. injection HEC as <- <-. injection HPL as <- <-.
  repeat split; try (apply feasibleb_true); vm_compute; reflexivity.
Qed.

(** The solver run that answers [v_incentive] is correct. *)
Lemma priced_solved : calibration_solved (answers v_incentive) dm.
Proof.
  intros m_EC b_EC m_PL b_PL HEC HPL.
  destruct (priced_feasible HEC HPL) as (HfE & HfP & HvE & HvP).
  assert (optimum m_EC v_incentive) as HoE.
  { split; [exact HfE|]. intros v' Hf'. rewrite HvE.
    apply (@priced_forced _ _ _ _ v' HEC HPL (or_introl Hf')). }
  assert (optimum m_PL v_incentive) as HoP.
  { split; [exact HfP|]. intros v' Hf'. rewrite HvP.
    rewrite (@PL_Only_objective_value _ _ _ v' HPL).
    apply (@priced_forced _ _ _ _ v' HEC HPL (or_intror Hf')). }
  repeat split; try reflexivity; try apply HoE; try apply HoP.
Qed.

Lemma priced_sound : calibration_sound (answers v_incentive) dm.
Proof.
  intros m_EC b_EC m_PL b_PL HEC HPL.
  destruct (priced_solved HEC HPL) as ((_ & O1) & (_ & O2) & (_ & O3) & (_ & O4)).
  split; [|split; [|split]]; intros _; assumption.
Qed.

Lemma priced_nadir_points :
  exists r, get_nadir_points (answers v_incentive) dm = Return r.
Proof. unfold dm. eexists. vm_compute. reflexivity. Qed.

End Priced.

(** X11: with a solver whose optimal answers are true optima, the
    peak-load nadir that [get_nadir_points] returns is strictly above the
    peak-load ideal it returns, on every input and in both branches of
    the estimate. *)
Theorem PL_nadir_exceeds_PL_ideal
  (solve : LpProblem -> Solved) (dm : DataManager) (EI PI EN PN : Q) :
  calibration_sound solve dm ->
  get_nadir_points solve dm = Return (EI, PI, EN, PN) ->
  PI < PN.
Proof.
  intros Hsound Hn.
  destruct (@get_nadir_points_models solve dm _ Hn) as (m_EC & b_EC & m_PL & b_PL & HEC & HPL).
  destruct (@Hsound _ _ _ _ HEC HPL) as (_ & _ & S3 & S4).
  exact (@PL_nadir_above solve dm _ _ _ _ HEC HPL S3 S4 EI PI EN PN Hn).
Qed.

Lemma PL_nadir_exceeds_PL_ideal_witness :
  exists EI PI EN PN,
    get_nadir_points (answers v_incentive) dm_priced
    = Return (EI, PI, EN, PN) /\ PI < PN.
Proof.
  destruct priced_nadir_points as [[[[EI PI] EN] PN] Hn].
  exists EI, PI, EN, PN. split; [exact Hn|].
  exact (@PL_nadir_exceeds_PL_ideal (answers v_incentive) dm_priced
           EI PI EN PN priced_sound Hn).
Defined.

(** X12: with a solver whose optimal answers are true optima, and on an
    input none of whose feasible schedules has a negative cost, the cost
    nadir that [get_nadir_points] returns is strictly above the cost
    ideal it returns. *)
Theorem EC_nadir_exceeds_EC_ideal_for_nonnegative_costs
  (solve : LpProblem -> Solved) (dm : DataManager) (EI PI EN PN : Q) :
  calibration_sound solve dm ->
  nonnegative_costs dm ->
  get_nadir_points solve dm = Return (EI, PI, EN, PN) ->
  EI < EN.
Proof.
  intros Hsound Hcosts Hn.
  destruct (@get_nadir_points_models solve dm _ Hn) as (m_EC & b_EC & m_PL & b_PL & HEC & HPL).
  destruct (@Hsound _ _ _ _ HEC HPL) as (S1 & S2 & _ & _).
  exact (@EC_nadir_above solve dm _ _ _ _ HEC HPL S1 S2 Hcosts EI PI EN PN Hn).
Qed.

Lemma EC_nadir_exceeds_EC_ideal_for_nonnegative_costs_witness :
  exists EI PI EN PN,
    get_nadir_points (answers v_incentive) dm_priced
    = Return (EI, PI, EN, PN) /\ EI < EN.
Proof.
  destruct priced_nadir_points as [[[[EI PI] EN] PN] Hn].
  exists EI, PI, EN, PN. split; [exact Hn|].
  exact (@EC_nadir_exceeds_EC_ideal_for_nonnegative_costs
           (answers v_incentive) dm_priced EI PI EN PN priced_sound
           (prices_nonnegative_costs priced_prices) Hn).
Defined.

(** X13: if in every slot the price is not negative and is at least the
    incentive, and rated powers and the slot duration are not negative,
    then the cost expression is not negative at any feasible assignment
    of the region. *)
Theorem cost_is_nonnegative_when_prices_cover_incentives
  (dm : DataManager) (nm : model_name) (b : base) (v : valuation)
  (ec : LpAffineExpression) :
  prices_cover_incentives dm ->
  build_base_model dm nm = Return b ->
  calculate_EC_expression dm (x b) (y b) = Return ec ->
  feasible (model b) v ->
  0 <= value v ec.
Proof.
  intros Hp Hbuild Hec Hfeas.
  rewrite (@value_EC_expression dm nm b Hbuild v ec Hec).
  exact (@cost_nonnegative dm nm b v Hp Hbuild Hfeas).
Qed.

Lemma cost_is_nonnegative_when_prices_cover_incentives_witness :
  exists b ec,
    build_base_model dm_priced Base_Model = Return b /\
    calculate_EC_expression dm_priced (x b) (y b) = Return ec /\
    0 <= value v_incentive ec.
Proof.
  assert (exists b, build_base_model dm_priced Base_Model = Return b
                    /\ feasible (model b) v_incentive)
    as [b [Hb Hf]].
  { eexists. split; [vm_compute; reflexivity|].
    apply feasibleb_true. vm_compute. reflexivity. }
  destruct (@calculate_EC_expression_total dm_priced Base_Model b Hb)
    as [ec Hec].
  exists b, ec. split; [exact Hb|]. split; [exact Hec|].
  exact (@cost_is_nonnegative_when_prices_cover_incentives
           dm_priced Base_Model b v_incentive ec priced_prices Hb Hec Hf).
Defined.

End NadirRange.

(** ** The strategies under a sound solver *)

Module SoundStrategies.

Import PyFacts PulpFacts Spec ModelBuilder ModelBuilderFacts Regions.
Import ObjectiveManager OptimizationApproaches Calibration SingleRun.
Import Extraction Strategies NegativeCost WeightedSum.
Import RegionSemantics BuildErrors ExtractedValues NadirRange.

Lemma calibration_models_total dm nm b :
  build_base_model dm nm = Return b ->
  exists m_EC b_EC m_PL b_PL,
    EC_Only_model dm = Return (m_EC, b_EC) /\
    PL_Only_model dm = Return (m_PL, b_PL).
Proof.
  intros Hb.
  destruct (@calculate_EC_expression_total dm nm b Hb) as [ec Hec].
  destruct (@region_built dm nm b ec EC_Only Hb Hec) as [HbE HecE].
  destruct (@region_built dm nm b ec PL_Only Hb Hec) as [HbP _].
  unfold EC_Only_model, PL_Only_model. rewrite HbE, HbP. cbn [Py.bind].
  rewrite HecE. cbn [Py.bind]. eauto 6.
Qed.

Lemma get_nadir_points_total solve dm nm b :
  build_base_model dm nm = Return b ->
  (1 <= DataManager.T dm)%Z ->
  exists EI PI EN PN, get_nadir_points solve dm = Return (EI, PI, EN, PN).
Proof.
  intros Hb HT.
  destruct (@calibration_models_total dm nm b Hb) as (m_EC & b_EC & m_PL & b_PL & HEC & HPL).
  rewrite (@get_nadir_points_eq solve dm _ _ _ _ HEC HPL).
  destruct (@calibration_models_agree dm _ _ _ _ HEC HPL)
    as [Hbb [ec [Hec _]]].
  unfold estimate_nadir. destruct (_ && _); cbn [Py.bind]; [|eauto 6].
  rewrite Hec. cbn [Py.bind].
  replace (calculate_EC_expression dm (x b_PL) (y b_PL)) with (Return ec)
    by (rewrite Hbb; symmetry; exact Hec).
  cbn [Py.bind]. unfold value_of.
  rewrite (@has_value_PL_Only dm _ _ HPL), (@has_value_EC_Only dm _ _ HEC HT).
  cbn [Py.bind]. eauto 6.
Qed.

(** X14: on an input whose region can be built over a horizon of at
    least one slot and none of whose feasible schedules has a negative
    cost, and with a solver whose optimal answers are true optima,
    [get_normalization_factors] raises nothing (no division by zero, no
    missing value) and both factors are positive. *)
Theorem normalization_factors_are_positive
  (solve : LpProblem -> Solved) (dm : DataManager) (nm : model_name)
  (b : base) :
  build_base_model dm nm = Return b ->
  (1 <= DataManager.T dm)%Z ->
  calibration_sound solve dm ->
  nonnegative_costs dm ->
  exists EC_ideal PL_ideal EC_norm PL_norm,
    get_normalization_factors solve dm
    = Return (EC_ideal, PL_ideal, EC_norm, PL_norm) /\
    0 < EC_norm /\ 0 < PL_norm.
Proof.
  intros Hb HT Hsound Hcosts.
  destruct (@get_nadir_points_total solve dm nm b Hb HT)
    as (EI & PI & EN & PN & Hn).
  destruct (@get_nadir_points_models solve dm _ Hn)
    as (m_EC & b_EC & m_PL & b_PL & HEC & HPL).
  destruct (@Hsound _ _ _ _ HEC HPL) as (S1 & S2 & S3 & S4).
  pose proof (@EC_nadir_above solve dm _ _ _ _ HEC HPL S1 S2 Hcosts
                EI PI EN PN Hn) as HE.
  pose proof (@PL_nadir_above solve dm _ _ _ _ HEC HPL S3 S4
                EI PI EN PN Hn) as HP.
  unfold get_normalization_factors. rewrite Hn. cbn [Py.bind].
  rewrite (@div_nonzero 1 (EN - EI)) by lra. cbn [Py.bind].
  rewrite (@div_nonzero 1 (PN - PI)) by lra. cbn [Py.bind].
  do 4 eexists. split; [reflexivity|].
  split; (unfold Qdiv; rewrite Qmult_1_l; apply Qinv_lt_0_compat; lra).
Qed.

Lemma normalization_factors_are_positive_witness :
  exists EC_ideal PL_ideal EC_norm PL_norm,
    get_normalization_factors (answers v_incentive) dm_priced
    = Return (EC_ideal, PL_ideal, EC_norm, PL_norm) /\
    0 < EC_norm /\ 0 < PL_norm.
Proof.
  assert (exists b, build_base_model dm_priced Base_Model = Return b)
    as [b Hb] by (eexists; vm_compute; reflexivity).
  exact (@normalization_factors_are_positive
           (answers v_incentive) dm_priced Base_Model b Hb
           ltac:(vm_compute; discriminate) priced_sound
           (prices_nonnegative_costs priced_prices)).
Defined.

(** *** The variables of the cost expression *)

Lemma expr_vars_lpSum (ts : list LpAffineExpression) :
  expr_vars (lpSum ts) = flat_map expr_vars ts.
Proof.
  induction ts as [|a ts IH]; simpl; [reflexivity|].
  change (lpSum (a :: ts)) with (add a (lpSum ts)).
  now rewrite expr_vars_add, IH.
Qed.

Lemma comprehension_Forall {A B} (f : A -> result B) (P : B -> Prop)
      (l : list A) :
  (forall a b, In a l -> f a = Return b -> P b) ->
  forall bs, comprehension f l = Return bs -> Forall P bs.
Proof.
  induction l as [|a l IH]; simpl; intros Hf bs Hc.
  - injection Hc as <-. constructor.
  - inv_run. constructor; [apply (Hf a); [now left|assumption]|].
    apply IH; [|assumption]. intros a2 b2 Hin. apply Hf. now right.
Qed.

Section Region.

Variables (dm : DataManager) (nm : model_name) (b : base).
Hypothesis Hbuild : build_base_model dm nm = Return b.
Variable ec : LpAffineExpression.
Hypothesis Hec : calculate_EC_expression dm (x b) (y b) = Return ec.

(** The variables of the cost expression are in their domains at every
    feasible assignment of the region. *)
Lemma EC_expression_in_domain v :
  feasible (model b) v -> Forall (in_domain v) (expr_vars ec).
Proof.
  intros Hfeas. unfold calculate_EC_expression in Hec.
  apply bind_Return in Hec. destruct Hec as [ts [Hts [= <-]]].
  rewrite expr_vars_lpSum. apply Forall_flat_map.
  eapply comprehension_Forall; [|exact Hts].
  intros [[s t] i] ex Hin Hex. apply In_triples in Hin.
  destruct Hin as (Hs & Ht & Hi).
  destruct (build_base_model_inv Hbuild) as (Hx & Hy & _).
  unfold cost_term in Hex. rewrite Hx, Hy in Hex. inv_run. inv_items.
  rewrite !expr_vars_scale. unfold sub.
  rewrite expr_vars_add, !expr_vars_scale.
  cbn [expr_vars of_var terms map fst app].
  destruct (@region_incentive dm nm b v Hbuild Hfeas i t s Hi Ht Hs)
    as [_ Hyb].
  pose proof (@x_binary dm nm b v Hbuild Hfeas i s Hi Hs t Ht) as Hxb.
  cbv beta in Hxb.
  apply Forall_cons; [split; [exact Logic.I|exact Hxb]|].
  apply Forall_cons; [split; [exact Logic.I|exact Hyb]|].
  apply Forall_nil.
Qed.

(** The region with the cost as objective. *)
Lemma feasible_cost_model v :
  feasible (set_objective (model b) ec) v <-> feasible (model b) v.
Proof.
  destruct (base_objective Hbuild) as [Hobj _]. split.
  - intros Hf. exact (feasible_set_objective Hf Hobj).
  - intros Hf. pose proof (EC_expression_in_domain Hf) as Hd.
    destruct Hf as [Hc Hv]. unfold feasible, variables in *.
    rewrite Hobj in Hv. cbn [constraints objective set_objective app] in *.
    split; [exact Hc|]. apply Forall_app. auto.
Qed.

(** The region with the peak load as objective. *)
Lemma feasible_peak_model v :
  feasible (set_objective (model b) (of_var (PL b))) v
  <-> feasible (model b) v /\ 0 <= v PL_.
Proof.
  destruct (base_objective Hbuild) as [Hobj _].
  destruct (build_base_model_inv Hbuild) as (_ & _ & _ & _ & HPL & _).
  unfold feasible, variables. rewrite Hobj, HPL.
  cbn [constraints objective set_objective app expr_vars of_var terms map fst].
  rewrite Forall_cons_iff. unfold in_domain at 1. cbn [plvar lowBound cat name].
  tauto.
Qed.

(** The second model of the EC-first approach: the region, the bound on
    the cost, and the peak load as objective. *)
Lemma feasible_EC_bounded v (q : Q) :
  feasible (set_objective
              (add_constraint (model b)
                 (constr ec LE (of_num q) Maintain_Optimal_EC))
              (of_var (PL b))) v
  <-> feasible (model b) v /\ 0 <= v PL_ /\ value v ec <= q.
Proof.
  destruct (base_objective Hbuild) as [Hobj _].
  destruct (build_base_model_inv Hbuild) as (_ & _ & _ & _ & HPL & _).
  split.
  - intros [Hc Hv]. unfold variables in Hv.
    cbn [constraints objective set_objective add_constraint] in Hc, Hv.
    rewrite HPL in Hv.
    cbn [app expr_vars of_var terms map fst] in Hv.
    rewrite flat_map_app, Forall_cons_iff, Forall_app in Hv.
    apply Forall_app in Hc. destruct Hc as [Hc Hq].
    apply Forall_inv, holds_LE in Hq. rewrite value_of_num in Hq.
    destruct Hv as [[Hlow _] [Hv _]]. cbn [plvar lowBound name] in Hlow.
    repeat split; try assumption.
    unfold variables. rewrite Hobj. exact Hv.
  - intros (Hf & Hlow & Hq). pose proof (EC_expression_in_domain Hf) as Hd.
    destruct Hf as [Hc Hv]. unfold variables in Hv. rewrite Hobj in Hv.
    cbn [app] in Hv. split.
    + cbn [constraints set_objective add_constraint].
      apply Forall_app. split; [exact Hc|]. repeat constructor.
      apply holds_LE. now rewrite value_of_num.
    + unfold variables.
      cbn [constraints objective set_objective add_constraint].
      rewrite HPL. cbn [app expr_vars of_var terms map fst].
      rewrite flat_map_app, Forall_cons_iff, Forall_app.
      split; [split; [exact Hlow|exact Logic.I]|]. split; [exact Hv|].
      cbn [flat_map constr c_expr]. rewrite app_nil_r. unfold sub.
      rewrite expr_vars_add, expr_vars_scale.
      cbn [expr_vars of_num terms map]. rewrite app_nil_r. exact Hd.
Qed.

(** The second model of the PL-first approach: the region, the bound on
    the peak load, and the cost as objective. *)
Lemma feasible_PL_bounded v (q : Q) :
  feasible (set_objective
              (add_constraint (model b)
                 (constr (of_var (PL b)) LE (of_num q) Maintain_Optimal_PL))
              ec) v
  <-> feasible (model b) v /\ 0 <= v PL_ /\ v PL_ <= q.
Proof.
  destruct (base_objective Hbuild) as [Hobj _].
  destruct (build_base_model_inv Hbuild) as (_ & _ & _ & _ & HPL & _).
  split.
  - intros [Hc Hv]. unfold variables in Hv.
    cbn [constraints objective set_objective add_constraint] in Hc, Hv.
    rewrite HPL in Hv, Hc.
    rewrite flat_map_app, !Forall_app in Hv.
    apply Forall_app in Hc. destruct Hc as [Hc Hq].
    apply Forall_inv, holds_LE in Hq.
    rewrite value_of_num, value_of_var in Hq.
    destruct Hv as (_ & Hv & Hp).
    cbn [flat_map constr c_expr] in Hp. unfold sub in Hp.
    rewrite app_nil_r, expr_vars_add in Hp.
    cbn [expr_vars of_var terms map fst app] in Hp.
    apply Forall_inv in Hp. destruct Hp as [Hlow _].
    repeat split; try assumption.
    unfold variables. rewrite Hobj. exact Hv.
  - intros (Hf & Hlow & Hq). pose proof (EC_expression_in_domain Hf) as Hd.
    destruct Hf as [Hc Hv]. unfold variables in Hv. rewrite Hobj in Hv.
    cbn [app] in Hv. split.
    + cbn [constraints set_objective add_constraint].
      apply Forall_app. split; [exact Hc|]. repeat constructor.
      apply holds_LE. rewrite value_of_num, value_of_var, HPL. exact Hq.
    + unfold variables.
      cbn [constraints objective set_objective add_constraint].
      rewrite HPL, flat_map_app, !Forall_app.
      split; [exact Hd|]. split; [exact Hv|].
      cbn [flat_map constr c_expr]. rewrite app_nil_r. unfold sub.
      rewrite expr_vars_add, expr_vars_scale.
      cbn [expr_vars of_var of_num terms map fst app].
      repeat constructor. exact Hlow.
Qed.

End Region.

Lemma feasible_rename nm m v : feasible (rename nm m) v <-> feasible m v.
Proof. reflexivity. Qed.

(** What a successful extraction holds. *)
Lemma extract_results_Some dm nm b sol r :
  build_base_model dm nm = Return b ->
  ResultExtractor.extract_results dm sol (x b) (y b) (e b) (PL b)
  = Return (Some r) ->
  status sol = LpStatusOptimal /\
  ResultExtractor.EC r == total_cost dm (varValue sol) /\
  ResultExtractor.PL r = varValue sol PL_.
Proof.
  intros Hb Hr. unfold ResultExtractor.extract_results in Hr.
  destruct (is_optimal (status sol)) eqn:Ho; cbn [negb] in Hr;
    [|discriminate].
  destruct (@_calculate_EC_value_spec dm nm b Hb sol) as [q [Hq Heq]].
  rewrite Hq, (@_extract_schedule_spec dm nm b Hb sol),
    (@_calculate_load_profile_spec dm nm b Hb sol) in Hr.
  cbn [Py.bind] in Hr. injection Hr as <-.
  cbn [ResultExtractor.EC ResultExtractor.PL].
  destruct (build_base_model_inv Hb) as (_ & _ & _ & _ & HPL & _).
  split; [now apply is_optimal_true|]. split; [exact Heq|].
  unfold var_value. now rewrite HPL.
Qed.

Section Preemptive.

Variable solve : LpProblem -> Solved.
Variable dm : DataManager.

(** What a result of the EC-first approach comes from. *)
Lemma EC_first_Some m1 r :
  EC_first_model1 dm = Return m1 ->
  solve_preemptive_EC_first solve dm = Return (Some r) ->
  exists b ec m2,
    build_base_model dm PR_EC_First_Step1 = Return b /\
    calculate_EC_expression dm (x b) (y b) = Return ec /\
    m1 = set_objective (model b) ec /\
    EC_first_model2 dm (objective_value m1 (varValue (solve m1)))
    = Return (m2, rename_base PR_EC_First_Step2 b) /\
    m2 = set_objective
           (add_constraint (model (rename_base PR_EC_First_Step2 b))
              (constr ec LE
                 (of_num (objective_value m1 (varValue (solve m1)) * lit_1_001))
                 Maintain_Optimal_EC))
           (of_var (PL (rename_base PR_EC_First_Step2 b))) /\
    status (solve m1) = LpStatusOptimal /\
    status (solve m2) = LpStatusOptimal /\
    ResultExtractor.EC r == value (varValue (solve m2)) ec /\
    ResultExtractor.PL r = varValue (solve m2) PL_.
Proof.
  intros Hm1 Hres.
  destruct (@EC_first_model1_inv dm m1 Hm1) as (b & ec & Hb & Hec & ->).
  destruct (@region_built dm _ _ _ PR_EC_First_Step2 Hb Hec) as [Hb2 Hec2].
  unfold solve_preemptive_EC_first in Hres. rewrite Hm1 in Hres.
  cbn [Py.bind] in Hres.
  destruct (is_optimal (status (solve (set_objective (model b) ec)))) eqn:Ho;
    cbn [negb] in Hres; [|discriminate].
  cbv zeta in Hres.
  destruct (value_of_objective (set_objective (model b) ec)
              (solve (set_objective (model b) ec))) as [q|] eqn:Hval;
    cbn [format_2f Py.bind] in Hres; [|discriminate].
  apply ValueFacts.value_of_objective_Some in Hval. subst q.
  assert (EC_first_model2 dm
            (objective_value (set_objective (model b) ec)
               (varValue (solve (set_objective (model b) ec))))
          = Return
              (set_objective
                 (add_constraint (model (rename_base PR_EC_First_Step2 b))
                    (constr ec LE
                       (of_num (objective_value (set_objective (model b) ec)
                                  (varValue (solve (set_objective (model b) ec)))
                                * lit_1_001))
                       Maintain_Optimal_EC))
                 (of_var (PL (rename_base PR_EC_First_Step2 b))),
               rename_base PR_EC_First_Step2 b)) as Hm2.
  { unfold EC_first_model2. rewrite Hb2. cbn [Py.bind]. rewrite Hec2.
    reflexivity. }
  rewrite Hm2 in Hres. cbn [Py.bind] in Hres.
  rewrite bind_report in Hres by apply ValueFacts.has_value_minimised.
  destruct (@extract_results_Some dm _ _ _ r Hb2 Hres) as (Hs2 & HEC & HPL).
  exists b, ec. eexists. split; [exact Hb|]. split; [exact Hec|].
  split; [reflexivity|]. split; [exact Hm2|]. split; [reflexivity|].
  split; [now apply is_optimal_true|]. split; [exact Hs2|].
  split; [|exact HPL].
  rewrite HEC. symmetry.
  exact (@value_EC_expression dm _ _ Hb _ ec Hec).
Qed.

End Preemptive.

Lemma EC_first_within
  (solve : LpProblem -> Solved) (dm : DataManager) (m1 : LpProblem)
  (r : ResultExtractor.results) :
  EC_first_sound solve dm ->
  EC_first_model1 dm = Return m1 ->
  solve_preemptive_EC_first solve dm = Return (Some r) ->
  let EC_star := objective_value m1 (varValue (solve m1)) in
  (forall v, feasible m1 v -> EC_star <= objective_value m1 v) /\
  EC_star <= ResultExtractor.EC r /\
  ResultExtractor.EC r <= EC_star * lit_1_001 /\
  (forall v, feasible m1 v -> 0 <= v PL_ ->
             objective_value m1 v <= EC_star * lit_1_001 ->
             ResultExtractor.PL r <= v PL_).
Proof.
  intros Hsound Hm1 Hres EC_star.
  destruct (@EC_first_Some solve dm m1 r Hm1 Hres)
    as (b & ec & m2 & Hb & Hec & Em1 & Hm2 & Em2 & Hs1 & Hs2 & HEC & HPL).
  destruct (@Hsound m1 m2 _ Hm1 Hm2) as [So1 So2].
  destruct (So1 Hs1) as [F1 O1]. destruct (So2 Hs2) as [F2 O2].
  pose proof (build_base_model_rename PR_EC_First_Step2 Hb) as Hb2.
  assert (calculate_EC_expression dm (x (rename_base PR_EC_First_Step2 b))
            (y (rename_base PR_EC_First_Step2 b)) = Return ec) as Hec2
    by exact Hec.
  fold EC_star in Em2, O1. subst m2.
  pose proof (proj1 (@feasible_EC_bounded dm _ _ Hb2 ec Hec2 _ _) F2)
    as (G & G0 & Gq).
  apply feasible_rename in G.
  assert (feasible m1 (varValue (solve
            (set_objective
               (add_constraint (model (rename_base PR_EC_First_Step2 b))
                  (constr ec LE (of_num (EC_star * lit_1_001))
                     Maintain_Optimal_EC))
               (of_var (PL (rename_base PR_EC_First_Step2 b))))))) as G1.
  { rewrite Em1. apply (@feasible_cost_model dm _ _ Hb ec Hec). exact G. }
  assert (forall v, objective_value m1 v = value v ec) as Hobj
    by (intros v; rewrite Em1; reflexivity).
  split; [exact O1|]. split; [|split].
  - rewrite HEC, <- Hobj. exact (O1 _ G1).
  - rewrite HEC. exact Gq.
  - intros v Fv Hv0 Hvq. rewrite HPL.
    assert (feasible (set_objective
               (add_constraint (model (rename_base PR_EC_First_Step2 b))
                  (constr ec LE (of_num (EC_star * lit_1_001))
                     Maintain_Optimal_EC))
               (of_var (PL (rename_base PR_EC_First_Step2 b)))) v) as Fv2.
    { apply (@feasible_EC_bounded dm _ _ Hb2 ec Hec2). split; [|split].
      - apply feasible_rename. rewrite Em1 in Fv.
        exact (proj1 (@feasible_cost_model dm _ _ Hb ec Hec v) Fv).
      - exact Hv0.
      - rewrite <- Hobj. exact Hvq. }
    specialize (O2 _ Fv2).
    destruct (build_base_model_inv Hb2) as (_ & _ & _ & _ & HPLv & _).
    unfold objective_value in O2. cbn [objective set_objective] in O2.
    rewrite !value_of_var in O2. rewrite HPLv in O2 |- *.
    cbn [name plvar] in O2. exact O2.
Qed.


(** What a result of the PL-first approach comes from. *)
Lemma PL_first_Some solve dm m1 b1 r :
  PL_first_model1 dm = Return (m1, b1) ->
  solve_preemptive_PL_first solve dm = Return (Some r) ->
  exists ec m2,
    build_base_model dm PR_PL_First_Step1 = Return b1 /\
    calculate_EC_expression dm (x b1) (y b1) = Return ec /\
    m1 = set_objective (model b1) (of_var (PL b1)) /\
    PL_first_model2 dm (var_value (solve m1) (PL b1))
    = Return (m2, rename_base PR_PL_First_Step2 b1) /\
    m2 = set_objective
           (add_constraint (model (rename_base PR_PL_First_Step2 b1))
              (constr (of_var (PL (rename_base PR_PL_First_Step2 b1))) LE
                 (of_num (var_value (solve m1) (PL b1) * lit_1_001))
                 Maintain_Optimal_PL))
           ec /\
    status (solve m1) = LpStatusOptimal /\
    status (solve m2) = LpStatusOptimal /\
    ResultExtractor.EC r == value (varValue (solve m2)) ec /\
    ResultExtractor.PL r = varValue (solve m2) PL_.
Proof.
  intros Hm1 Hres. unfold PL_first_model1 in Hm1.
  apply bind_Return in Hm1. destruct Hm1 as [b [Hb [= <- <-]]].
  destruct (@calculate_EC_expression_total dm _ _ Hb) as [ec Hec].
  destruct (@region_built dm _ _ _ PR_PL_First_Step2 Hb Hec) as [Hb2 Hec2].
  unfold solve_preemptive_PL_first, PL_first_model1 in Hres.
  rewrite Hb in Hres. cbn [Py.bind] in Hres.
  destruct (is_optimal (status (solve (set_objective (model b) (of_var (PL b))))))
    eqn:Ho; cbn [negb] in Hres; [|discriminate].
  cbv zeta in Hres. unfold value_of in Hres.
  rewrite ValueFacts.has_value_minimised in Hres.
  cbn [format_2f Py.bind] in Hres.
  unfold PL_first_model2 in Hres |- *. rewrite Hb2 in Hres |- *.
  cbn [Py.bind] in Hres |- *. rewrite Hec2 in Hres |- *.
  cbn [Py.bind] in Hres |- *.
  rewrite bind_report in Hres
    by (eapply ValueFacts.has_value_constraint;
        [apply In_add_constraint|now left|reflexivity]).
  destruct (@extract_results_Some dm _ _ _ r Hb2 Hres) as (Hs2 & HEC & HPL).
  exists ec. eexists. split; [exact Hb|]. split; [exact Hec|].
  split; [reflexivity|]. split; [reflexivity|]. split; [reflexivity|].
  split; [now apply is_optimal_true|]. split; [exact Hs2|].
  split; [|exact HPL].
  rewrite HEC. symmetry.
  exact (@value_EC_expression dm _ _ Hb _ ec Hec).
Qed.

Lemma PL_first_within solve dm m1 b1 r :
  PL_first_sound solve dm ->
  PL_first_model1 dm = Return (m1, b1) ->
  solve_preemptive_PL_first solve dm = Return (Some r) ->
  let PL_star := varValue (solve m1) PL_ in
  (forall v, feasible m1 v -> PL_star <= v PL_) /\
  PL_star <= ResultExtractor.PL r /\
  ResultExtractor.PL r <= PL_star * lit_1_001 /\
  (forall v, feasible m1 v -> v PL_ <= PL_star * lit_1_001 ->
             ResultExtractor.EC r <= total_cost dm v).
Proof.
  intros Hsound Hm1 Hres PL_star.
  destruct (@PL_first_Some solve dm m1 b1 r Hm1 Hres)
    as (ec & m2 & Hb & Hec & Em1 & Hm2 & Em2 & Hs1 & Hs2 & HEC & HPL).
  destruct (@Hsound m1 b1 m2 _ Hm1 Hm2) as [So1 So2].
  destruct (So1 Hs1) as [F1 O1]. destruct (So2 Hs2) as [F2 O2].
  pose proof (build_base_model_rename PR_PL_First_Step2 Hb) as Hb2.
  assert (calculate_EC_expression dm (x (rename_base PR_PL_First_Step2 b1))
            (y (rename_base PR_PL_First_Step2 b1)) = Return ec) as Hec2
    by exact Hec.
  destruct (build_base_model_inv Hb) as (_ & _ & _ & _ & HPLv & _).
  assert (var_value (solve m1) (PL b1) = PL_star) as Hstar
    by (unfold var_value; now rewrite HPLv).
  rewrite Hstar in Em2.
  assert (forall v, objective_value m1 v == v PL_) as Hobj.
  { intros v. rewrite Em1. unfold objective_value.
    cbn [objective set_objective]. rewrite value_of_var. now rewrite HPLv. }
  assert (forall v, feasible m1 v <-> feasible (model b1) v /\ 0 <= v PL_)
    as Hf1.
  { intros v. rewrite Em1. apply (@feasible_peak_model dm _ _ Hb). }
  assert (forall v, feasible m2 v <->
                    feasible (model b1) v /\ 0 <= v PL_ /\
                    v PL_ <= PL_star * lit_1_001) as Hf2.
  { intros v. rewrite Em2.
    rewrite (@feasible_PL_bounded dm _ _ Hb2 ec Hec2). reflexivity. }
  assert (forall v, objective_value m2 v == total_cost dm v) as Hobj2.
  { intros v. rewrite Em2. unfold objective_value.
    cbn [objective set_objective].
    exact (@value_EC_expression dm _ _ Hb v ec Hec). }
  assert (forall v, feasible m1 v -> PL_star <= v PL_) as Hmin.
  { intros v Fv. specialize (O1 v Fv). rewrite !Hobj in O1. exact O1. }
  apply Hf2 in F2. destruct F2 as (G & G0 & Gq).
  split; [exact Hmin|]. split; [|split].
  - rewrite HPL. apply Hmin. apply Hf1. auto.
  - rewrite HPL. exact Gq.
  - intros v Fv Hvq. apply Hf1 in Fv. destruct Fv as [Fv Fv0].
    assert (feasible m2 v) as Fv2 by (apply Hf2; auto).
    pose proof (O2 v Fv2) as H. rewrite !Hobj2 in H.
    pose proof (@value_EC_expression dm _ _ Hb (varValue (solve m2)) ec Hec)
      as Hv2.
    rewrite HEC, Hv2. exact H.
Qed.

(** X15: with a sound solver, a result of the EC-first approach has a
    cost between the optimum cost [EC_star] of the first solve and
    [EC_star * 1.001], and its peak load is the least among the feasible
    schedules (with a non-negative peak-load variable) whose cost is at
    most [EC_star * 1.001]. *)
Theorem EC_first_result_within_tolerance
  (solve : LpProblem -> Solved) (dm : DataManager) (m1 : LpProblem)
  (r : ResultExtractor.results) :
  EC_first_sound solve dm ->
  EC_first_model1 dm = Return m1 ->
  solve_preemptive_EC_first solve dm = Return (Some r) ->
  let EC_star := objective_value m1 (varValue (solve m1)) in
  (forall v, feasible m1 v -> EC_star <= objective_value m1 v) /\
  EC_star <= ResultExtractor.EC r /\
  ResultExtractor.EC r <= EC_star * lit_1_001 /\
  (forall v, feasible m1 v -> 0 <= v PL_ ->
             objective_value m1 v <= EC_star * lit_1_001 ->
             ResultExtractor.PL r <= v PL_).
Proof.
  intros Hsound Hm1 Hres.
  exact (@EC_first_within solve dm m1 r Hsound Hm1 Hres).
Qed.

(** X16: with a sound solver, the EC-first approach returns no result
    whenever the optimum cost of its first solve is negative: the bound
    [EC <= EC_star * 1.001] of the second model then lies below the
    optimum, so the second model is infeasible. *)
Theorem EC_first_fails_on_negative_optimum
  (solve : LpProblem -> Solved) (dm : DataManager) (m1 : LpProblem) :
  EC_first_sound solve dm ->
  EC_first_model1 dm = Return m1 ->
  objective_value m1 (varValue (solve m1)) < 0 ->
  solve_preemptive_EC_first solve dm = Return None.
Proof.
  intros Hsound Hm1 Hneg.
  destruct (@EC_first_model1_inv dm m1 Hm1) as (b & ec & Hb & Hec & Em1).
  destruct (@EC_first_returns_or_raises solve dm _ _ Hb)
    as (m1' & Hm1' & [([r|] & Hres & _)|(_ & _ & Hnone)]);
    [|exact Hres|]; exfalso.
  - destruct (@EC_first_within solve dm m1 r Hsound Hm1 Hres)
      as (_ & Hlo & Hhi & _).
    unfold lit_1_001 in Hhi. lra.
  - rewrite Hm1 in Hm1'. injection Hm1' as <-.
    revert Hneg Hnone. rewrite Em1.
    unfold value_of_objective, objective_value.
    cbn [objective set_objective].
    destruct (isNumericalConstant ec) eqn:E; [|discriminate].
    intros Hneg _. rewrite (ValueFacts.value_constant _ _ E) in Hneg.
    rewrite (ValueFacts.constant_EC_expression _ _ _ Hec) in Hneg. lra.
Qed.

(** X17: with a sound solver, a result of the PL-first approach has a
    peak load between the optimum peak load [PL_star] of the first solve
    and [PL_star * 1.001], and its cost is the least among the feasible
    schedules whose peak load is at most [PL_star * 1.001]. *)
Theorem PL_first_result_within_tolerance
  (solve : LpProblem -> Solved) (dm : DataManager) (m1 : LpProblem)
  (b1 : base) (r : ResultExtractor.results) :
  PL_first_sound solve dm ->
  PL_first_model1 dm = Return (m1, b1) ->
  solve_preemptive_PL_first solve dm = Return (Some r) ->
  let PL_star := varValue (solve m1) PL_ in
  (forall v, feasible m1 v -> PL_star <= v PL_) /\
  PL_star <= ResultExtractor.PL r /\
  ResultExtractor.PL r <= PL_star * lit_1_001 /\
  (forall v, feasible m1 v -> v PL_ <= PL_star * lit_1_001 ->
             ResultExtractor.EC r <= total_cost dm v).
Proof.
  intros Hsound Hm1 Hres.
  exact (@PL_first_within solve dm m1 b1 r Hsound Hm1 Hres).
Qed.

(** *** Sound answers on the samples *)

Lemma priced_EC_first_sound : EC_first_sound (answers v_incentive) dm_priced.
Proof.
  intros m1 m2 b2 Hm1 Hm2. vm_compute in Hm1. injection Hm1 as <-.
  vm_compute in Hm2. injection Hm2 as <- <-.
  split; intros _; (split; [apply feasibleb_true; vm_compute; reflexivity|]);
    intros v' Hf; inequalities Hf; evaluate; cases_01; lra.
Qed.

Lemma priced_PL_first_sound : PL_first_sound (answers v_incentive) dm_priced.
Proof.
  intros m1 b1 m2 b2 Hm1 Hm2. vm_compute in Hm1. injection Hm1 as <- <-.
  vm_compute in Hm2. injection Hm2 as <- <-.
  split; intros _; (split; [apply feasibleb_true; vm_compute; reflexivity|]);
    intros v' Hf; inequalities Hf; evaluate; cases_01; lra.
Qed.

Lemma incentive_EC_first_sound :
  EC_first_sound (answers_but_EC_first_step2 v_incentive) (dm_incentive 5).
Proof.
  intros m1 m2 b2 Hm1 Hm2. vm_compute in Hm1. injection Hm1 as <-.
  vm_compute in Hm2. injection Hm2 as <- <-.
  split.
  - intros _. split; [apply feasibleb_true; vm_compute; reflexivity|].
    intros v' Hf; inequalities Hf; evaluate; cases_01; lra.
  - intros Hs. discriminate Hs.
Qed.

Lemma EC_first_result_within_tolerance_witness :
  let solve := answers v_incentive in
  exists m1 r,
    EC_first_model1 dm_priced = Return m1 /\
    solve_preemptive_EC_first solve dm_priced = Return (Some r) /\
    let EC_star := objective_value m1 (varValue (solve m1)) in
    (forall v, feasible m1 v -> EC_star <= objective_value m1 v) /\
    EC_star <= ResultExtractor.EC r /\
    ResultExtractor.EC r <= EC_star * lit_1_001 /\
    (forall v, feasible m1 v -> 0 <= v PL_ ->
               objective_value m1 v <= EC_star * lit_1_001 ->
               ResultExtractor.PL r <= v PL_).
Proof.
  intros solve.
  assert (exists m1, EC_first_model1 dm_priced = Return m1) as [m1 Hm1]
    by (eexists; vm_compute; reflexivity).
  assert (exists r, solve_preemptive_EC_first solve dm_priced
                    = Return (Some r)) as [r Hr]
    by (eexists; vm_compute; reflexivity).
  exists m1, r. split; [exact Hm1|]. split; [exact Hr|].
  exact (@EC_first_result_within_tolerance solve dm_priced m1 r
           priced_EC_first_sound Hm1 Hr).
Defined.

Lemma EC_first_fails_on_negative_optimum_witness :
  solve_preemptive_EC_first (answers_but_EC_first_step2 v_incentive)
    (dm_incentive 5) = Return None.
Proof.
  assert (exists m1, EC_first_model1 (dm_incentive 5) = Return m1
                     /\ objective_value m1 v_incentive < 0) as [m1 [Hm1 Hneg]]
    by (eexists; split; vm_compute; reflexivity).
  apply (@EC_first_fails_on_negative_optimum
           (answers_but_EC_first_step2 v_incentive) (dm_incentive 5) m1
           incentive_EC_first_sound Hm1).
  assert (p_name m1 = PR_EC_First_Step1) as Hname
    by (vm_compute in Hm1; injection Hm1 as <-; reflexivity).
  unfold answers_but_EC_first_step2. rewrite Hname. exact Hneg.
Defined.

Lemma PL_first_result_within_tolerance_witness :
  let solve := answers v_incentive in
  exists m1 b1 r,
    PL_first_model1 dm_priced = Return (m1, b1) /\
    solve_preemptive_PL_first solve dm_priced = Return (Some r) /\
    let PL_star := varValue (solve m1) PL_ in
    (forall v, feasible m1 v -> PL_star <= v PL_) /\
    PL_star <= ResultExtractor.PL r /\
    ResultExtractor.PL r <= PL_star * lit_1_001 /\
    (forall v, feasible m1 v -> v PL_ <= PL_star * lit_1_001 ->
               ResultExtractor.EC r <= total_cost dm_priced v).
Proof.
  intros solve.
  assert (exists m1 b1, PL_first_model1 dm_priced = Return (m1, b1))
    as (m1 & b1 & Hm1) by (do 2 eexists; vm_compute; reflexivity).
  assert (exists r, solve_preemptive_PL_first solve dm_priced
                    = Return (Some r)) as [r Hr]
    by (eexists; vm_compute; reflexivity).
  exists m1, b1, r. split; [exact Hm1|]. split; [exact Hr|].
  exact (@PL_first_result_within_tolerance solve dm_priced m1 b1 r
           priced_PL_first_sound Hm1 Hr).
Defined.

End SoundStrategies.

(** ** The weighted sum under a sound solver *)

Module SoundWeightedSum.

Import PyFacts PulpFacts Spec ModelBuilder ModelBuilderFacts Regions.
Import ObjectiveManager OptimizationApproaches Calibration SingleRun.
Import Extraction Strategies NegativeCost WeightedSum.
Import RegionSemantics BuildErrors ExtractedValues NadirRange.
Import SoundStrategies.

Lemma normalization_positive solve dm EI PI EN PN :
  calibration_sound solve dm ->
  nonnegative_costs dm ->
  get_normalization_factors solve dm = Return (EI, PI, EN, PN) ->
  0 < EN /\ 0 < PN.
Proof.
  intros Hsound Hcosts Hnorm. unfold get_normalization_factors in Hnorm.
  apply bind_Return in Hnorm.
  destruct Hnorm as [[[[EI' PI'] EN'] PN'] [Hn Hnorm]].
  destruct (@get_nadir_points_models solve dm _ Hn)
    as (m_EC & b_EC & m_PL & b_PL & HEC & HPL).
  destruct (@Hsound _ _ _ _ HEC HPL) as (S1 & S2 & S3 & S4).
  pose proof (@EC_nadir_above solve dm _ _ _ _ HEC HPL S1 S2 Hcosts
                _ _ _ _ Hn) as HE.
  pose proof (@PL_nadir_above solve dm _ _ _ _ HEC HPL S3 S4
                _ _ _ _ Hn) as HP.
  rewrite (@div_nonzero 1 (EN' - EI')) in Hnorm by lra.
  cbn [Py.bind] in Hnorm.
  rewrite (@div_nonzero 1 (PN' - PI')) in Hnorm by lra.
  cbn [Py.bind] in Hnorm. injection Hnorm as <- <- <- <-.
  split; (unfold Qdiv; rewrite Qmult_1_l; apply Qinv_lt_0_compat; lra).
Qed.

Section WeightedSum.

Variable solve : LpProblem -> Solved.
Variable dm : DataManager.
Variables w_EC w_PL : Q.
Variables (nm : model_name) (b : base).
Hypothesis Hbuild : build_base_model dm nm = Return b.
Hypothesis Hhorizon : (1 <= DataManager.T dm)%Z.
Hypothesis Hcal : calibration_sound solve dm.
Hypothesis Hcosts : nonnegative_costs dm.
Hypothesis Hws : weighted_sum_sound solve dm w_EC w_PL.

(** What a result of the weighted sum comes from: a feasible assignment
    of the region that minimises the scalarised objective. *)
Lemma weighted_sum_Some r :
  solve_weighted_sum solve dm w_EC w_PL = Return (Some r) ->
  exists EI PI EN PN v,
    get_normalization_factors solve dm = Return (EI, PI, EN, PN) /\
    0 < EN /\ 0 < PN /\
    feasible (model b) v /\
    ResultExtractor.EC r == total_cost dm v /\
    ResultExtractor.PL r = v PL_ /\
    forall v', feasible (model b) v' ->
      w_EC * (EN * (total_cost dm v - EI)) + w_PL * (PN * (v PL_ - PI))
      <= w_EC * (EN * (total_cost dm v' - EI))
         + w_PL * (PN * (v' PL_ - PI)).
Proof.
  intros Hres. unfold solve_weighted_sum in Hres.
  apply bind_Return in Hres.
  destruct Hres as [[[[EI PI] EN] PN] [Hnorm Hres]].
  apply bind_Return in Hres. destruct Hres as [[m bW] [Hm Hres]].
  rewrite (@bind_report m (PL bW) _
             (@weighted_sum_model_has_value dm _ _ _ _ _ _ _ _ Hm Hhorizon))
    in Hres.
  destruct (normalization_positive Hcal Hcosts Hnorm) as [HEN HPN].
  destruct (@calibration_models_total dm nm b Hbuild)
    as (m_EC & b_EC & m_PL & b_PL & HEC & HPL).
  destruct (@weighted_sum_model_spec dm _ _ _ _ HEC HPL
              w_EC w_PL EI PI EN PN m bW (varValue (solve m)) Hm)
    as (_ & _ & HbW & _).
  destruct (@EC_Only_model_inv dm _ _ HEC) as [HbE [ec [Hec Em]]].
  destruct (@PL_Only_model_inv dm _ _ HPL) as [HbP EmP].
  pose proof (build_base_model_rename Weighted_Sum HbE) as HbWs.
  rewrite <- HbW in HbWs.
  destruct (@extract_results_Some dm _ _ _ r HbWs Hres) as (Hs & HrEC & HrPL).
  destruct (Hws Hnorm Hm Hs) as [F O].
  assert (forall v, feasible (model b) v <-> feasible (model b_EC) v) as Hreg.
  { intros v. rewrite (build_base_model_name dm nm EC_Only), Hbuild in HbE.
    injection HbE as <-. reflexivity. }
  assert (forall v, feasible (model b) v <-> feasible (model b_PL) v) as HregP.
  { intros v. rewrite (build_base_model_name dm nm PL_Only), Hbuild in HbP.
    injection HbP as <-. reflexivity. }
  assert (forall v, feasible m v <-> feasible (model b) v) as Hfeas.
  { intros v.
    destruct (@weighted_sum_model_spec dm _ _ _ _ HEC HPL
                w_EC w_PL EI PI EN PN m bW v Hm) as (-> & _).
    rewrite Em, EmP, (@feasible_cost_model dm _ _ HbE ec Hec),
      (@feasible_peak_model dm _ _ HbP), <- Hreg, <- HregP.
    split; [tauto|]. intros Hf. split; [exact Hf|]. split; [exact Hf|].
    exact (@region_peak_nonnegative dm nm b v Hbuild Hf Hhorizon). }
  assert (forall v, objective_value m v ==
            w_EC * (EN * (total_cost dm v - EI))
            + w_PL * (PN * (v PL_ - PI))) as Hobj.
  { intros v.
    destruct (@weighted_sum_model_spec dm _ _ _ _ HEC HPL
                w_EC w_PL EI PI EN PN m bW v Hm) as (_ & -> & _).
    rewrite Em. unfold objective_value at 1. cbn [objective set_objective].
    rewrite (@value_EC_expression dm _ _ HbE v ec Hec). reflexivity. }
  exists EI, PI, EN, PN, (varValue (solve m)).
  split; [exact Hnorm|]. split; [exact HEN|]. split; [exact HPN|].
  split; [now apply Hfeas|]. split; [exact HrEC|]. split; [exact HrPL|].
  intros v' Fv'. rewrite <- !Hobj. apply O. now apply Hfeas.
Qed.

End WeightedSum.

Lemma positive_product_zero (a d : Q) : 0 < a -> 0 <= d -> a * d <= 0 -> d == 0.
Proof.
  intros Ha Hd Hle. apply Qle_antisym; [|exact Hd].
  destruct (Qlt_le_dec 0 d) as [Hpos|Hnp]; [|exact Hnp].
  pose proof (Qmult_lt_0_compat _ _ Ha Hpos). lra.
Qed.

(** The cost ideal, when found, is the least cost of the region. *)
Lemma ideal_cost_is_minimum solve dm nm b q :
  build_base_model dm nm = Return b ->
  calibration_sound solve dm ->
  get_EC_ideal solve dm = Return (Some q) ->
  (exists v, feasible (model b) v /\ total_cost dm v == q) /\
  forall v, feasible (model b) v -> q <= total_cost dm v.
Proof.
  intros Hbuild Hcal Hq.
  destruct (@calibration_models_total dm nm b Hbuild)
    as (m_EC & b_EC & m_PL & b_PL & HEC & HPL).
  destruct (@Hcal _ _ _ _ HEC HPL) as (_ & S2 & _ & _).
  rewrite (@get_EC_ideal_eq solve dm _ _ HEC) in Hq. cbv zeta in Hq.
  destruct (is_optimal (status (solve (rename EC_Ideal m_EC)))) eqn:Ho;
    [|discriminate].
  injection Hq as Hq. apply ValueFacts.value_of_objective_Some in Hq.
  subst q. apply is_optimal_true in Ho.
  destruct (optimum_rename (S2 Ho)) as [F O].
  destruct (@EC_Only_model_inv dm _ _ HEC) as [HbE [ec [Hec Em]]].
  assert (forall v, feasible m_EC v <-> feasible (model b) v) as Hfeas.
  { intros v. rewrite Em, (@feasible_cost_model dm _ _ HbE ec Hec).
    rewrite (build_base_model_name dm nm EC_Only), Hbuild in HbE.
    injection HbE as <-. reflexivity. }
  assert (forall v, objective_value m_EC v == total_cost dm v) as Hobj.
  { intros v. rewrite Em. unfold objective_value.
    cbn [objective set_objective].
    exact (@value_EC_expression dm _ _ HbE v ec Hec). }
  split.
  - exists (varValue (solve (rename EC_Ideal m_EC))).
    split; [now apply Hfeas|]. symmetry. apply Hobj.
  - intros v Fv. rewrite <- !Hobj. apply O. now apply Hfeas.
Qed.

(** X18: on an input with a non-empty horizon and no feasible schedule
    of negative cost, with a sound solver and positive weights, a result
    of the weighted sum is Pareto-optimal: no feasible schedule is at
    least as good in cost and in peak load and better in one of them. *)
Theorem weighted_sum_result_is_Pareto_optimal
  (solve : LpProblem -> Solved) (dm : DataManager) (w_EC w_PL : Q)
  (nm : model_name) (b : base) (r : ResultExtractor.results) :
  build_base_model dm nm = Return b ->
  (1 <= DataManager.T dm)%Z ->
  calibration_sound solve dm ->
  nonnegative_costs dm ->
  weighted_sum_sound solve dm w_EC w_PL ->
  0 < w_EC -> 0 < w_PL ->
  solve_weighted_sum solve dm w_EC w_PL = Return (Some r) ->
  forall v, feasible (model b) v ->
    total_cost dm v <= ResultExtractor.EC r ->
    v PL_ <= ResultExtractor.PL r ->
    total_cost dm v == ResultExtractor.EC r /\ v PL_ == ResultExtractor.PL r.
Proof.
  intros Hbuild HT Hcal Hcosts Hws HwE HwP Hres v Fv HvE HvP.
  destruct (@weighted_sum_Some solve dm w_EC w_PL nm b Hbuild HT Hcal Hcosts
              Hws r Hres)
    as (EI & PI & EN & PN & v0 & _ & HEN & HPN & F0 & HrE & HrP & Hopt).
  specialize (Hopt v Fv). rewrite HrE in HvE |- *. rewrite HrP in HvP |- *.
  pose proof (Qmult_lt_0_compat _ _ HwE HEN) as Ha.
  pose proof (Qmult_lt_0_compat _ _ HwP HPN) as Hb.
  assert (0 <= (w_EC * EN) * (total_cost dm v0 - total_cost dm v)) as H1
    by (apply Qmult_le_0_compat; lra).
  assert (0 <= (w_PL * PN) * (v0 PL_ - v PL_)) as H2
    by (apply Qmult_le_0_compat; lra).
  assert (total_cost dm v0 - total_cost dm v == 0) as E1
    by (apply (positive_product_zero Ha); lra).
  assert (v0 PL_ - v PL_ == 0) as E2
    by (apply (positive_product_zero Hb); lra).
  split; lra.
Qed.

(** X19: on an input with a non-empty horizon and no feasible schedule
    of negative cost, with a sound solver, the weighted sum with all the
    weight on the cost returns a schedule whose cost is the cost ideal. *)
Theorem weighted_sum_on_cost_alone_reaches_the_ideal
  (solve : LpProblem -> Solved) (dm : DataManager)
  (nm : model_name) (b : base) (q : Q) (r : ResultExtractor.results) :
  build_base_model dm nm = Return b ->
  (1 <= DataManager.T dm)%Z ->
  calibration_sound solve dm ->
  nonnegative_costs dm ->
  weighted_sum_sound solve dm 1 0 ->
  get_EC_ideal solve dm = Return (Some q) ->
  solve_weighted_sum solve dm 1 0 = Return (Some r) ->
  ResultExtractor.EC r == q.
Proof.
  intros Hbuild HT Hcal Hcosts Hws Hq Hres.
  destruct (@weighted_sum_Some solve dm 1 0 nm b Hbuild HT Hcal Hcosts
              Hws r Hres)
    as (EI & PI & EN & PN & v0 & _ & HEN & HPN & F0 & HrE & HrP & Hopt).
  destruct (@ideal_cost_is_minimum solve dm nm b q Hbuild Hcal Hq)
    as [[vI [FI HI]] Hmin].
  specialize (Hopt vI FI). specialize (Hmin v0 F0). rewrite HI in Hopt.
  rewrite HrE.
  assert (total_cost dm v0 - q == 0) as E
    by (apply (positive_product_zero HEN); lra).
  lra.
Qed.

(** *** Sound answers on the samples *)

Lemma priced_weighted_sum_sound w_EC w_PL :
  (w_EC = 1 /\ w_PL = 0) \/ (w_EC = 1 # 2 /\ w_PL = 1 # 2) ->
  weighted_sum_sound (answers v_incentive) dm_priced w_EC w_PL.
Proof.
  intros Hw EI PI EN PN m b Hnorm Hm.
  vm_compute in Hnorm. injection Hnorm as <- <- <- <-.
  destruct Hw as [[-> ->]|[-> ->]];
    (vm_compute in Hm; injection Hm as <- <-; intros _;
     split; [apply feasibleb_true; vm_compute; reflexivity|];
     intros v' Hf; inequalities Hf; evaluate; cases_01; lra).
Qed.

Lemma weighted_sum_result_is_Pareto_optimal_witness :
  exists b r,
    solve_weighted_sum (answers v_incentive) dm_priced (1 # 2) (1 # 2)
    = Return (Some r) /\
    forall v, feasible (model b) v ->
      total_cost dm_priced v <= ResultExtractor.EC r ->
      v PL_ <= ResultExtractor.PL r ->
      total_cost dm_priced v == ResultExtractor.EC r /\
      v PL_ == ResultExtractor.PL r.
Proof.
  assert (exists b, build_base_model dm_priced Base_Model = Return b)
    as [b Hb] by (eexists; vm_compute; reflexivity).
  assert (exists r, solve_weighted_sum (answers v_incentive) dm_priced
                      (1 # 2) (1 # 2) = Return (Some r)) as [r Hr]
    by (eexists; vm_compute; reflexivity).
  exists b, r. split; [exact Hr|].
  apply (@weighted_sum_result_is_Pareto_optimal
           (answers v_incentive) dm_priced (1 # 2) (1 # 2) Base_Model b r Hb).
  - simpl. lia.
  - exact priced_sound.
  - exact (prices_nonnegative_costs priced_prices).
  - apply priced_weighted_sum_sound. right. split; reflexivity.
  - reflexivity.
  - reflexivity.
  - exact Hr.
Defined.

Lemma weighted_sum_on_cost_alone_reaches_the_ideal_witness :
  exists q r,
    get_EC_ideal (answers v_incentive) dm_priced = Return (Some q) /\
    solve_weighted_sum (answers v_incentive) dm_priced 1 0
    = Return (Some r) /\
    ResultExtractor.EC r == q.
Proof.
  assert (exists b, build_base_model dm_priced Base_Model = Return b)
    as [b Hb] by (eexists; vm_compute; reflexivity).
  assert (exists q, get_EC_ideal (answers v_incentive) dm_priced
                    = Return (Some q)) as [q Hq]
    by (eexists; vm_compute; reflexivity).
  assert (exists r, solve_weighted_sum (answers v_incentive) dm_priced 1 0
                    = Return (Some r)) as [r Hr]
    by (eexists; vm_compute; reflexivity).
  exists q, r. split; [exact Hq|]. split; [exact Hr|].
  apply (@weighted_sum_on_cost_alone_reaches_the_ideal
           (answers v_incentive) dm_priced Base_Model b q r Hb).
  - simpl. lia.
  - exact priced_sound.
  - exact (prices_nonnegative_costs priced_prices).
  - apply priced_weighted_sum_sound. left. split; reflexivity.
  - exact Hq.
  - exact Hr.
Defined.

End SoundWeightedSum.

(** ** When the strategies raise *)

Module StrategyErrors.

Import PyFacts PulpFacts Spec ModelBuilder ModelBuilderFacts Regions.
Import ObjectiveManager OptimizationApproaches Calibration.
Import Extraction Strategies BuildErrors.


End StrategyErrors.

(** ** Time strings ([utils.py]) *)

Module TimeStrings.

Import PyFacts Spec Utils.
Import String Ascii.

Lemma int_inject_Z (z : Z) : int (inject_Z z) = z.
Proof. unfold int, inject_Z. cbn [Qnum Qden]. apply Z.quot_1_r. Qed.

Lemma below_100 (n : Z) :
  (0 <= n < 100)%Z -> exists k : nat, (k < 100)%nat /\ n = Z.of_nat k.
Proof. intros H. exists (Z.to_nat n). split; lia. Qed.

Lemma format_02d_two_digits (n : Z) :
  (0 <= n < 100)%Z -> format_02d n = two_digits n.
Proof.
  intros H. destruct (below_100 H) as [k [Hk ->]]. clear H.
  do 100 (destruct k as [|k]; [vm_compute; reflexivity|]). lia.
Qed.

Lemma length_two_digits (n : Z) : String.length (two_digits n) = 2%nat.
Proof. reflexivity. Qed.

(** The slot's time string, from its minute of the day. *)
Lemma convert_time_slot_to_time_eq (t d : Q) :
  convert_time_slot_to_time t d
  = (two_digits (minute_of_day t d / 60) ++ ":"
     ++ two_digits (minute_of_day t d mod 60))%string.
Proof.
  unfold convert_time_slot_to_time, minute_of_day. cbv zeta.
  set (M := ((int t - 1) * int d)%Z).
  assert ((M mod 1440) / 60 = (M / 60) mod 24)%Z as Hh.
  { change 1440%Z with (60 * 24)%Z. rewrite Z.rem_mul_r by lia.
    rewrite (Z.mul_comm 60), Z.div_add by lia.
    rewrite Z.div_small; [lia|]. apply Z.mod_pos_bound. lia. }
  assert ((M mod 1440) mod 60 = M mod 60)%Z as Hm.
  { change 1440%Z with (60 * 24)%Z. rewrite Z.rem_mul_r by lia.
    rewrite (Z.mul_comm 60), Z.mod_add by lia. apply Z.mod_mod. lia. }
  rewrite Hh, Hm.
  rewrite !format_02d_two_digits; [reflexivity| |].
  - pose proof (Z.mod_pos_bound M 60). lia.
  - pose proof (Z.mod_pos_bound (M / 60) 24). lia.
Qed.

(** X21: the time string of a slot has five characters and depends only
    on the slot's minute of the day: slots that lie a whole number of
    days apart print the same. *)
Theorem time_string_wraps_at_midnight (t k : Z) (d : Q) :
  ((k * int d) mod 1440 = 0)%Z ->
  convert_time_slot_to_time (inject_Z (t + k)) d
  = convert_time_slot_to_time (inject_Z t) d /\
  String.length (convert_time_slot_to_time (inject_Z t) d) = 5%nat.
Proof.
  intros Hk. rewrite !convert_time_slot_to_time_eq. split; [|reflexivity].
  assert (minute_of_day (inject_Z (t + k)) d = minute_of_day (inject_Z t) d)
    as ->; [|reflexivity].
  unfold minute_of_day. rewrite !int_inject_Z.
  replace ((t + k - 1) * int d)%Z with ((t - 1) * int d + k * int d)%Z
    by ring.
  rewrite Z.add_mod, Hk, Z.add_0_r, Z.mod_mod by lia. reflexivity.
Qed.

Lemma time_string_wraps_at_midnight_witness :
  convert_time_slot_to_time (inject_Z (1 + 96)) 15
  = convert_time_slot_to_time (inject_Z 1) 15 /\
  String.length (convert_time_slot_to_time (inject_Z 1) 15) = 5%nat.
Proof.
  apply (@time_string_wraps_at_midnight 1 96 15). reflexivity.
Defined.

End TimeStrings.

(** ** Operation periods ([schedule_formatter.py]) *)

Module OperationPeriods.

Import PyFacts Spec ModelBuilder ExtractedValues.
Import ScheduleFormatter Utils.
Import String.

Lemma map_seq_shift {A} (f : nat -> A) (n m : nat) :
  map f (seq n m) = map (fun k => f (n + k)%nat) (seq 0 m).
Proof.
  revert n f. induction m as [|m IH]; intros n f; simpl; [reflexivity|].
  f_equal; [f_equal; lia|].
  rewrite (IH (S n)), (IH 1%nat). apply map_ext.
  intros k. f_equal. lia.
Qed.

Lemma range_split (a b c : Z) :
  (a <= b <= c)%Z -> range a c = range a b ++ range b c.
Proof.
  intros H. unfold range.
  replace (Z.to_nat (c - a)) with (Z.to_nat (b - a) + Z.to_nat (c - b))%nat
    by lia.
  rewrite seq_app, map_app. f_equal. cbn [plus].
  rewrite map_seq_shift. apply map_ext. intros k. lia.
Qed.

Lemma range_cons (a b : Z) : (a < b)%Z -> range a b = a :: range (a + 1) b.
Proof.
  intros H. rewrite (@range_split a (a + 1) b) by lia.
  unfold range at 1. replace (a + 1 - a)%Z with 1%Z by lia.
  change (Z.to_nat 1) with 1%nat. cbn [seq map app]. f_equal.
  change (Z.of_nat 0) with 0%Z. lia.
Qed.

Lemma range_empty (a b : Z) : (b <= a)%Z -> range a b = [].
Proof.
  intros H. unfold range. replace (Z.to_nat (b - a)) with 0%nat by lia.
  reflexivity.
Qed.

(** One step of the loop of lines 101-107. *)
Definition step
  : list (Z * Z) * Z -> ResultExtractor.schedule_row -> list (Z * Z) * Z :=
  fun '(status_changes, prev_status) row =>
    let time_slot := ResultExtractor.TimeSlot row in
    let status := ResultExtractor.Status row in
    if negb (status =? prev_status)%Z
    then (status_changes ++ [(time_slot, status)], status)
    else (status_changes, prev_status).

Lemma status_changes_eq rows :
  status_changes rows = fst (fold_left step rows ([], 0%Z)).
Proof. reflexivity. Qed.

(** Rows of one status change the state at most once, at the first. *)
Lemma fold_constant_status (c : Z) rows :
  (forall r, In r rows -> ResultExtractor.Status r = c) ->
  forall acc prev,
    fold_left step rows (acc, prev) =
    match rows with
    | [] => (acc, prev)
    | r0 :: _ =>
        if (c =? prev)%Z then (acc, prev)
        else (acc ++ [(ResultExtractor.TimeSlot r0, c)], c)
    end.
Proof.
  induction rows as [|r rows IH]; intros Hc acc prev; [reflexivity|].
  cbn [fold_left]. unfold step at 2. cbv zeta.
  rewrite (Hc r (or_introl eq_refl)).
  assert (forall r', In r' rows -> ResultExtractor.Status r' = c) as Hc'
    by (intros r' Hin; apply Hc; now right).
  destruct (c =? prev)%Z eqn:Heq; cbn [negb]; rewrite (IH Hc').
  - destruct rows; [reflexivity|]. now rewrite Heq.
  - destruct rows; [reflexivity|]. now rewrite Z.eqb_refl.
Qed.

Lemma fold_unchanged (c : Z) rows acc :
  (forall r, In r rows -> ResultExtractor.Status r = c) ->
  fold_left step rows (acc, c) = (acc, c).
Proof.
  intros Hc. rewrite (@fold_constant_status c rows Hc).
  destruct rows; [reflexivity|]. now rewrite Z.eqb_refl.
Qed.

Lemma fold_changed (c : Z) r0 rows acc prev :
  c <> prev ->
  (forall r, In r (r0 :: rows) -> ResultExtractor.Status r = c) ->
  fold_left step (r0 :: rows) (acc, prev)
  = (acc ++ [(ResultExtractor.TimeSlot r0, c)], c).
Proof.
  intros Hne Hc. rewrite (@fold_constant_status c (r0 :: rows) Hc).
  apply Z.eqb_neq in Hne. now rewrite Hne.
Qed.

Section Machine.

Variables (dm : DataManager) (v : valuation) (s i a b : Z).
Hypothesis Hrun : runs_exactly dm v i s a b.
Hypothesis Hab : (1 <= a <= b)%Z.
Hypothesis HbT : (b <= DataManager.T dm)%Z.

Let NT := DataManager.T dm.

Lemma TimeSlot_row_of t : ResultExtractor.TimeSlot (row_of dm v s i t) = t.
Proof. unfold row_of. destruct (negb _); reflexivity. Qed.

Lemma Status_row_of t :
  (1 <= t <= NT)%Z ->
  ResultExtractor.Status (row_of dm v s i t)
  = if ((a <=? t) && (t <=? b))%Z then 1%Z else 0%Z.
Proof.
  intros Ht. destruct (Hrun Ht) as [Hon Hbin]. unfold on in Hon.
  unfold row_of.
  destruct (Qle_bool (v (x_ (i, t, s))) lit_0_5) eqn:Hle; cbn [negb].
  - apply Qle_bool_iff in Hle. unfold lit_0_5 in Hle.
    destruct ((a <=? t) && (t <=? b))%Z eqn:Hin; [|reflexivity].
    exfalso. apply andb_true_iff in Hin. rewrite !Z.leb_le in Hin.
    apply Hon in Hin. rewrite Hin in Hle. revert Hle. unfold Qle. simpl. lia.
  - destruct ((a <=? t) && (t <=? b))%Z eqn:Hin; [reflexivity|].
    exfalso. destruct Hbin as [H0|H1].
    + rewrite H0 in Hle. discriminate Hle.
    + apply Hon in H1. apply andb_false_iff in Hin.
      rewrite !Z.leb_gt in Hin. lia.
Qed.

Lemma Power_row_of t :
  (a <= t <= b)%Z ->
  ResultExtractor.Power (row_of dm v s i t)
  = get_default (DataManager.R dm) (i, s) 0.
Proof.
  intros Ht. assert (1 <= t <= NT)%Z as Ht' by (unfold NT; lia).
  pose proof (Status_row_of Ht') as Hs.
  replace ((a <=? t) && (t <=? b))%Z with true in Hs
    by (symmetry; apply andb_true_iff; rewrite !Z.leb_le; lia).
  unfold row_of in *. destruct (negb _); [reflexivity|discriminate Hs].
Qed.

(** The three stretches of the machine's rows. *)
Lemma schedule_stretches :
  machine_schedule_of dm v s i
  = map (row_of dm v s i) (range 1 a)
    ++ map (row_of dm v s i) (range a (b + 1))
    ++ map (row_of dm v s i) (range (b + 1) (NT + 1)).
Proof.
  unfold machine_schedule_of. fold NT.
  rewrite (@range_split 1 a (NT + 1)) by (unfold NT; lia).
  rewrite (@range_split a (b + 1) (NT + 1)) by (unfold NT; lia).
  now rewrite !map_app.
Qed.

Lemma stretch_status lo hi c :
  (1 <= lo)%Z -> (hi <= NT + 1)%Z ->
  (forall t, (lo <= t < hi)%Z ->
             (if ((a <=? t) && (t <=? b))%Z then 1%Z else 0%Z) = c) ->
  forall r, In r (map (row_of dm v s i) (range lo hi)) ->
            ResultExtractor.Status r = c.
Proof.
  intros Hlo Hhi Hc r Hin. apply in_map_iff in Hin.
  destruct Hin as [t [<- Ht]]. apply In_range in Ht.
  rewrite Status_row_of by lia. apply Hc. lia.
Qed.

Lemma status_changes_of_run :
  status_changes (machine_schedule_of dm v s i)
  = (a, 1%Z) :: (if (b <? NT)%Z then [((b + 1)%Z, 0%Z)] else []).
Proof.
  rewrite status_changes_eq, schedule_stretches, !fold_left_app.
  rewrite (@fold_unchanged 0).
  2:{ apply stretch_status; try lia.
      intros t Ht.
      replace (a <=? t)%Z with false by (symmetry; apply Z.leb_gt; lia).
      reflexivity. }
  rewrite (@range_cons a (b + 1)) by lia. cbn [map].
  rewrite (@fold_changed 1); [|discriminate|].
  2:{ change (row_of dm v s i a :: map (row_of dm v s i) (range (a + 1) (b + 1)))
        with (map (row_of dm v s i) (a :: range (a + 1) (b + 1))).
      rewrite <- (@range_cons a (b + 1)) by lia.
      apply stretch_status; try lia.
      intros t Ht.
      replace ((a <=? t) && (t <=? b))%Z with true; [reflexivity|].
      symmetry. apply andb_true_iff. rewrite !Z.leb_le. lia. }
  rewrite TimeSlot_row_of. cbn [app].
  destruct (b <? NT)%Z eqn:Hlt.
  - apply Z.ltb_lt in Hlt. rewrite (@range_cons (b + 1) (NT + 1)) by lia.
    cbn [map]. rewrite (@fold_changed 0); [|discriminate|].
    + rewrite TimeSlot_row_of. reflexivity.
    + change (row_of dm v s i (b + 1)
              :: map (row_of dm v s i) (range (b + 1 + 1) (NT + 1)))
        with (map (row_of dm v s i) ((b + 1)%Z :: range (b + 1 + 1) (NT + 1))).
      rewrite <- (@range_cons (b + 1) (NT + 1)) by lia.
      apply stretch_status; try lia.
      intros t Ht.
      replace (t <=? b)%Z with false by (symmetry; apply Z.leb_gt; lia).
      now rewrite andb_false_r.
  - apply Z.ltb_ge in Hlt. rewrite range_empty by lia. reflexivity.
Qed.

Lemma power_of_run :
  power_of (machine_schedule_of dm v s i)
  = get_default (DataManager.R dm) (i, s) 0.
Proof.
  unfold power_of. rewrite schedule_stretches, !filter_app.
  assert (filter (fun row => (ResultExtractor.Status row =? 1)%Z)
            (map (row_of dm v s i) (range 1 a)) = []) as ->.
  { assert (forall r, In r (map (row_of dm v s i) (range 1 a)) ->
                      ResultExtractor.Status r = 0%Z) as H0.
    { apply stretch_status; try lia.
      intros t Ht. replace (a <=? t)%Z with false by (symmetry; apply Z.leb_gt; lia).
      reflexivity. }
    induction (map (row_of dm v s i) (range 1 a)) as [|r l IH];
      [reflexivity|].
    cbn [filter]. rewrite (H0 r (or_introl eq_refl)). cbn.
    apply IH. intros r' Hin. apply H0. now right. }
  rewrite range_cons by lia. cbn [map filter app].
  rewrite Status_row_of by (unfold NT; lia).
  replace ((a <=? a) && (a <=? b))%Z with true
    by (symmetry; apply andb_true_iff; rewrite !Z.leb_le; lia).
  cbn [Z.eqb Pos.eqb app]. apply Power_row_of. lia.
Qed.

Lemma machine_periods_of_run d name :
  machine_periods d s i name (machine_schedule_of dm v s i)
  = Some (if (b <? NT)%Z then [period_of dm d s i name a b] else []).
Proof.
  unfold machine_periods. rewrite status_changes_of_run, power_of_run.
  destruct (b <? NT)%Z; [|reflexivity].
  cbv zeta.
  change (Z.of_nat (List.length [(a, 1%Z); ((b + 1)%Z, 0%Z)])) with 2%Z.
  change (range3 0 (2 - 1) 2) with [0%Z].
  cbn [fold_left]. change (0 + 1 <? 2)%Z with true.
  change (Z.to_nat (0 + 1)) with 1%nat. change (Z.to_nat 0) with 0%nat.
  cbn [nth_error fst app].
  replace (b + 1 - 1)%Z with b by lia. reflexivity.
Qed.

End Machine.

(** A machine that is never on has no period. *)
Lemma machine_periods_idle dm v s i d name :
  (forall t, (1 <= t <= DataManager.T dm)%Z -> v (x_ (i, t, s)) == 0) ->
  machine_periods d s i name (machine_schedule_of dm v s i) = Some [].
Proof.
  intros Hoff. unfold machine_periods.
  assert (status_changes (machine_schedule_of dm v s i) = []) as ->;
    [|reflexivity].
  rewrite status_changes_eq, (@fold_unchanged 0); [reflexivity|].
  intros r Hin. apply in_map_iff in Hin. destruct Hin as [t [<- Ht]].
  apply In_range in Ht. unfold row_of.
  destruct (Qle_bool (v (x_ (i, t, s))) lit_0_5) eqn:Hle; [reflexivity|].
  rewrite (Hoff t) in Hle by lia. discriminate Hle.
Qed.

(** *** Sorting rows whose slots already increase *)

Definition slot_le (r r' : ResultExtractor.schedule_row) : Prop :=
  (ResultExtractor.TimeSlot r <= ResultExtractor.TimeSlot r')%Z.
Definition slot_lt (r r' : ResultExtractor.schedule_row) : Prop :=
  (ResultExtractor.TimeSlot r < ResultExtractor.TimeSlot r')%Z.

Lemma sorted_permutation_unique l :
  Sorted.StronglySorted slot_lt l ->
  forall l', Permutation.Permutation l' l ->
             Sorted.StronglySorted slot_le l' -> l' = l.
Proof.
  induction 1 as [|a l Hs IH Ha]; intros l' Hp Hs'.
  - apply Permutation.Permutation_sym in Hp.
    now apply Permutation.Permutation_nil.
  - destruct l' as [|b l'].
    + apply Permutation.Permutation_nil in Hp. discriminate Hp.
    + inversion Hs' as [|b0 l0 Hs0 Hb]. subst.
      assert (b = a) as ->.
      { assert (In b (a :: l)) as Hb_in
          by (apply (Permutation.Permutation_in _ Hp); now left).
        assert (In a (b :: l')) as Ha_in
          by (apply (Permutation.Permutation_in _ (Permutation.Permutation_sym Hp));
              now left).
        destruct Hb_in as [->|Hb_in]; [reflexivity|].
        destruct Ha_in as [->|Ha_in]; [reflexivity|].
        rewrite Forall_forall in Ha, Hb.
        specialize (Ha _ Hb_in). specialize (Hb _ Ha_in).
        unfold slot_lt, slot_le in *. lia. }
      f_equal. apply IH; [|exact Hs0].
      exact (Permutation.Permutation_cons_inv Hp).
Qed.

Lemma sort_increasing sort_values l :
  sorts_by_time_slot sort_values ->
  Sorted.StronglySorted slot_lt l -> sort_values l = l.
Proof.
  intros Hsort Hl. destruct (Hsort l) as [Hp Hs].
  exact (sorted_permutation_unique Hl Hp Hs).
Qed.

Lemma range_increasing (f : Z -> ResultExtractor.schedule_row) (a b : Z) :
  (forall t, ResultExtractor.TimeSlot (f t) = t) ->
  Sorted.StronglySorted slot_lt (map f (range a b)).
Proof.
  intros Hf. unfold range.
  generalize (Z.to_nat (b - a)) as n. generalize 0%nat as start.
  intros start n. revert start.
  induction n as [|n IH]; intros start; [constructor|].
  cbn [seq map]. constructor; [apply IH|].
  apply Forall_forall. intros r Hin. apply in_map_iff in Hin.
  destruct Hin as [t [<- Hin]]. apply in_map_iff in Hin.
  destruct Hin as [k [<- Hk]]. apply in_seq in Hk.
  unfold slot_lt. rewrite !Hf. lia.
Qed.

(** Insertion sort is such a function. *)
Lemma insert_permutation r l :
  Permutation.Permutation (insert_by_time_slot r l) (r :: l).
Proof.
  induction l as [|a l IH]; cbn [insert_by_time_slot].
  - apply Permutation.Permutation_refl.
  - destruct (_ <=? _)%Z; [apply Permutation.Permutation_refl|].
    eapply Permutation.perm_trans; [apply Permutation.perm_skip, IH|].
    apply Permutation.perm_swap.
Qed.

Lemma insert_sorted r l :
  Sorted.StronglySorted slot_le l ->
  Sorted.StronglySorted slot_le (insert_by_time_slot r l).
Proof.
  induction 1 as [|a l Hs IH Ha]; cbn [insert_by_time_slot].
  - constructor; constructor.
  - destruct (ResultExtractor.TimeSlot r <=? ResultExtractor.TimeSlot a)%Z
      eqn:Hle.
    + apply Z.leb_le in Hle. constructor; [constructor; assumption|].
      constructor; [exact Hle|].
      rewrite Forall_forall in Ha |- *. intros x Hx.
      specialize (Ha x Hx). unfold slot_le in *. lia.
    + apply Z.leb_gt in Hle. constructor; [exact IH|].
      rewrite Forall_forall in Ha |- *. intros x Hx.
      apply (Permutation.Permutation_in _ (insert_permutation r l)) in Hx.
      destruct Hx as [<-|Hx]; [unfold slot_le; lia|auto].
Qed.

Lemma insertion_sort_sorts : sorts_by_time_slot insertion_sort.
Proof.
  intros l. unfold insertion_sort. induction l as [|a l [IHp IHs]].
  - split; [apply Permutation.Permutation_refl|constructor].
  - cbn [fold_right]. split.
    + eapply Permutation.perm_trans; [apply insert_permutation|].
      now apply Permutation.perm_skip.
    + now apply insert_sorted.
Qed.

(** *** The schedule, machine by machine *)

Section Schedule.

Variables (dm : DataManager) (v : valuation).
Hypothesis Hhorizon : (1 <= DataManager.T dm)%Z.

Let block (p : Z * Z) : list ResultExtractor.schedule_row :=
  machine_schedule_of dm v (fst p) (snd p).

Let key (r : ResultExtractor.schedule_row) : Z * Z :=
  (ResultExtractor.SystemID r, ResultExtractor.MachineID r).

Lemma key_block p r : In r (block p) -> key r = p.
Proof.
  unfold block, machine_schedule_of. intros Hin. apply in_map_iff in Hin.
  destruct Hin as [t [<- _]]. unfold key, row_of.
  destruct (negb _); destruct p; reflexivity.
Qed.

Lemma block_nonempty p : exists r l, block p = r :: l.
Proof.
  unfold block, machine_schedule_of. rewrite range_cons by lia.
  cbn [map]. eauto.
Qed.

Lemma existsb_keqb (p : Z * Z) seen :
  existsb (fun b : Z * Z => keqb p b) seen = true <-> In p seen.
Proof.
  rewrite existsb_exists. split.
  - intros [q [Hin Hq]]. apply keqb_ZZ in Hq. now subst.
  - intros Hin. exists p. split; [exact Hin|]. now apply keqb_ZZ.
Qed.

Lemma drop_duplicates_seen seen l rest :
  (forall q, In q l -> In q seen) ->
  drop_duplicates_from (fun a b : Z * Z => keqb a b) seen (l ++ rest)
  = drop_duplicates_from (fun a b : Z * Z => keqb a b) seen rest.
Proof.
  induction l as [|q l IH]; intros Hin; [reflexivity|].
  cbn [app drop_duplicates_from].
  rewrite (proj2 (existsb_keqb q seen)) by (apply Hin; now left).
  apply IH. intros q' Hq'. apply Hin. now right.
Qed.

Lemma drop_duplicates_blocks ps :
  NoDup ps -> forall seen,
  (forall p, In p ps -> ~ In p seen) ->
  drop_duplicates_from (fun a b : Z * Z => keqb a b) seen
    (map key (flat_map block ps)) = ps.
Proof.
  induction 1 as [|p ps Hnotin Hnd IH]; intros seen Hseen; [reflexivity|].
  cbn [flat_map]. rewrite map_app.
  destruct (block_nonempty p) as (r & l & Hbl). rewrite Hbl.
  cbn [map app drop_duplicates_from].
  assert (key r = p) as -> by (apply key_block; rewrite Hbl; now left).
  destruct (existsb (fun b : Z * Z => keqb p b) seen) eqn:Hex.
  - apply existsb_keqb in Hex. elim (Hseen p (or_introl eq_refl) Hex).
  - f_equal. rewrite drop_duplicates_seen.
    + apply IH. intros q Hq [<-|Hin]; [contradiction|].
      exact (Hseen q (or_intror Hq) Hin).
    + intros q Hq. apply in_map_iff in Hq. destruct Hq as [r' [<- Hr']].
      left. symmetry. apply key_block. rewrite Hbl. now right.
Qed.

Lemma filter_block_same p :
  filter (fun row =>
            (ResultExtractor.SystemID row =? fst p)%Z
            && (ResultExtractor.MachineID row =? snd p)%Z) (block p)
  = block p.
Proof.
  assert (forall r, In r (block p) -> key r = p) as Hk
    by (intros r; apply key_block).
  induction (block p) as [|r l IH]; [reflexivity|].
  cbn [filter]. pose proof (Hk r (or_introl eq_refl)) as Hr.
  unfold key in Hr. destruct p as [s i]. injection Hr as -> ->.
  cbn [fst snd] in *. rewrite !Z.eqb_refl. cbn [andb]. f_equal.
  apply IH. intros r' Hr'. apply Hk. now right.
Qed.

Lemma filter_block_other p q :
  p <> q ->
  filter (fun row =>
            (ResultExtractor.SystemID row =? fst p)%Z
            && (ResultExtractor.MachineID row =? snd p)%Z) (block q)
  = [].
Proof.
  intros Hne.
  assert (forall r, In r (block q) -> key r = q) as Hk
    by (intros r; apply key_block).
  induction (block q) as [|r l IH]; [reflexivity|].
  cbn [filter]. pose proof (Hk r (or_introl eq_refl)) as Hr.
  unfold key in Hr.
  destruct ((ResultExtractor.SystemID r =? fst p)%Z
            && (ResultExtractor.MachineID r =? snd p)%Z) eqn:Heq.
  - apply andb_true_iff in Heq. rewrite !Z.eqb_eq in Heq.
    destruct Heq as [H1 H2]. elim Hne. rewrite <- Hr, H1, H2.
    destruct p; reflexivity.
  - apply IH. intros r' Hr'. apply Hk. now right.
Qed.

Lemma filter_blocks ps p :
  NoDup ps -> In p ps ->
  filter (fun row =>
            (ResultExtractor.SystemID row =? fst p)%Z
            && (ResultExtractor.MachineID row =? snd p)%Z)
         (flat_map block ps)
  = block p.
Proof.
  induction 1 as [|q ps Hnotin Hnd IH]; intros Hin; [contradiction|].
  cbn [flat_map]. rewrite filter_app. destruct Hin as [->|Hin].
  - rewrite filter_block_same.
    assert (filter (fun row =>
              (ResultExtractor.SystemID row =? fst p)%Z
              && (ResultExtractor.MachineID row =? snd p)%Z)
              (flat_map block ps) = []) as ->; [|apply app_nil_r].
    clear IH Hnd. induction ps as [|q ps IH]; [reflexivity|].
    cbn [flat_map]. rewrite filter_app, filter_block_other.
    + apply IH. intros Hin. apply Hnotin. now right.
    + intros ->. apply Hnotin. now left.
  - rewrite filter_block_other by (intros ->; contradiction).
    now apply IH.
Qed.

Lemma block_increasing p : Sorted.StronglySorted slot_lt (block p).
Proof.
  unfold block, machine_schedule_of. apply range_increasing.
  intros t. apply TimeSlot_row_of.
Qed.

Lemma fold_left_ext_in {A B} (f g : A -> B -> A) (l : list B) :
  (forall a b, In b l -> f a b = g a b) ->
  forall a, fold_left f l a = fold_left g l a.
Proof.
  induction l as [|b l IH]; intros Hfg a; [reflexivity|].
  cbn [fold_left]. rewrite (Hfg a b (or_introl eq_refl)).
  apply IH. intros a' b' Hin. apply Hfg. now right.
Qed.

Variable sort_values :
  list ResultExtractor.schedule_row -> list ResultExtractor.schedule_row.
Hypothesis Hsort : sorts_by_time_slot sort_values.
Variables (machines_df : list machine_row) (d : Q).

(** The formatter treats the extracted schedule machine by machine, in
    the order of the schedule. *)
Lemma format_schedule_blocks ps :
  NoDup ps -> ps <> [] ->
  format_schedule sort_values (flat_map block ps) machines_df d
  = fold_left (fun acc '(system_id, machine_id) =>
        match acc with
        | None => None
        | Some operation_periods =>
            match machine_periods d system_id machine_id
                    (get_default (machine_names machines_df)
                       (system_id, machine_id)
                       ("Machine " ++ str machine_id)%string)
                    (machine_schedule_of dm v system_id machine_id) with
            | Some ps => Some (operation_periods ++ ps)
            | None => None
            end
        end) ps (Some []).
Proof.
  intros Hnd Hne. unfold format_schedule. cbv zeta.
  destruct (flat_map block ps) as [|r0 rows] eqn:Hrows.
  { exfalso. destruct ps as [|p ps]; [now apply Hne|].
    cbn [flat_map] in Hrows. destruct (block_nonempty p) as (r & l & Hp).
    rewrite Hp in Hrows. discriminate Hrows. }
  rewrite <- Hrows. clear r0 rows Hrows. unfold drop_duplicates.
  change (map (fun row => (ResultExtractor.SystemID row,
                           ResultExtractor.MachineID row))
              (flat_map block ps))
    with (map key (flat_map block ps)).
  rewrite (drop_duplicates_blocks Hnd) by (intros p _ []).
  apply fold_left_ext_in. intros acc [s i] Hin.
  destruct acc as [ops|]; [|reflexivity].
  pose proof (@filter_blocks ps (s, i) Hnd Hin) as Hf.
  cbn [fst snd] in Hf. rewrite Hf.
  rewrite (sort_increasing Hsort (block_increasing (s, i))).
  reflexivity.
Qed.

End Schedule.

Lemma NoDup_pairs (n m : Z) : NoDup (pairs n m).
Proof.
  unfold pairs. generalize (NoDup_range 1 (n + 1)).
  generalize (range 1 (n + 1)) as la. intros la Hla.
  induction Hla as [|a la Hnotin Hnd IH]; [constructor|].
  cbn [flat_map]. apply NoDup_app.
  - generalize (NoDup_range 1 (m + 1)).
    generalize (range 1 (m + 1)) as lb. intros lb Hlb.
    induction Hlb as [|c lb Hc Hnd' IH']; [constructor|].
    cbn [map]. constructor; [|exact IH'].
    rewrite in_map_iff. intros [c' [[= <-] Hin]]. contradiction.
  - exact IH.
  - intros [a' b'] Hin Hin'. apply in_map_iff in Hin.
    destruct Hin as [c [[= <- <-] _]]. apply in_flat_map in Hin'.
    destruct Hin' as [a'' [Ha'' Hin']]. apply in_map_iff in Hin'.
    destruct Hin' as [c' [[= <- _] _]]. contradiction.
Qed.

Lemma NoDup_rated_pairs dm : NoDup (rated_pairs dm).
Proof. unfold rated_pairs. apply NoDup_filter, NoDup_pairs. Qed.

Lemma fold_periods (g : Z -> Z -> option (list period))
      (h : Z * Z -> list period) (l : list (Z * Z)) :
  (forall s i, In (s, i) l -> g s i = Some (h (s, i))) ->
  forall acc,
    fold_left (fun acc '(system_id, machine_id) =>
        match acc with
        | None => None
        | Some operation_periods =>
            match g system_id machine_id with
            | Some ps => Some (operation_periods ++ ps)
            | None => None
            end
        end) l (Some acc)
    = Some (acc ++ flat_map h l).
Proof.
  induction l as [|[s i] l IH]; intros Hg acc; cbn [fold_left flat_map].
  - now rewrite app_nil_r.
  - rewrite (Hg s i (or_introl eq_refl)).
    rewrite IH by (intros s' i' Hin; apply Hg; now right).
    now rewrite app_assoc.
Qed.

Section Reported.

Variable sort_values :
  list ResultExtractor.schedule_row -> list ResultExtractor.schedule_row.
Variables (dm : DataManager) (v : valuation).
Variables (machines_df : list machine_row) (d : Q).
Variable run : Z * Z -> Z * Z.
Hypothesis Hsort : sorts_by_time_slot sort_values.
Hypothesis Hhorizon : (1 <= DataManager.T dm)%Z.
Hypothesis Hrated : rated_pairs dm <> [].
Hypothesis Hrun :
  forall s i, In (s, i) (rated_pairs dm) ->
    (1 <= fst (run (s, i)))%Z /\
    (snd (run (s, i)) <= DataManager.T dm)%Z /\
    runs_exactly dm v i s (fst (run (s, i))) (snd (run (s, i))).

Let name (s i : Z) : string :=
  get_default (machine_names machines_df) (s, i)
    ("Machine " ++ str i)%string.

Lemma format_schedule_of_runs :
  format_schedule sort_values
    (flat_map (fun '(s, i) => machine_schedule_of dm v s i) (rated_pairs dm))
    machines_df d
  = Some (flat_map (fun '(s, i) =>
            let a := fst (run (s, i)) in
            let b := snd (run (s, i)) in
            if ((a <=? b) && (b <? DataManager.T dm))%Z
            then [period_of dm d s i (name s i) a b] else [])
          (rated_pairs dm)).
Proof.
  replace (flat_map (fun '(s, i) => machine_schedule_of dm v s i)
             (rated_pairs dm))
    with (flat_map (fun p => machine_schedule_of dm v (fst p) (snd p))
            (rated_pairs dm))
    by (apply flat_map_ext; intros [s i]; reflexivity).
  rewrite (@format_schedule_blocks dm v Hhorizon sort_values Hsort
             machines_df d (rated_pairs dm) (NoDup_rated_pairs dm) Hrated).
  apply (@fold_periods
    (fun s i => machine_periods d s i
                  (get_default (machine_names machines_df) (s, i)
                     ("Machine " ++ str i)%string)
                  (machine_schedule_of dm v s i))
    (fun '(s, i) =>
       let a := fst (run (s, i)) in
       let b := snd (run (s, i)) in
       if ((a <=? b) && (b <? DataManager.T dm))%Z
       then [period_of dm d s i (name s i) a b] else [])
    (rated_pairs dm)).
  intros s i Hin.
    destruct (Hrun s i Hin) as (Ha & Hb & Hr). cbv zeta.
    destruct (fst (run (s, i)) <=? snd (run (s, i)))%Z eqn:Hab.
    + apply Z.leb_le in Hab. cbn [andb].
      exact (@machine_periods_of_run dm v s i _ _ Hr (conj Ha Hab) Hb d _).
    + apply Z.leb_gt in Hab. cbn [andb]. apply machine_periods_idle.
      intros t Ht. destruct (Hr t Ht) as [Hon [H0|H1]]; [exact H0|].
      apply Hon in H1. lia.
Qed.

End Reported.

(** X22: for an input with a slot and a rated machine, and a solution
    in which every rated machine of the index ranges is on exactly over
    one stretch of slots (or never), the formatter, applied to the
    extracted schedule, lists the machines in the order of the schedule
    and reports the stretch [a..b] of a machine as one period (its slots,
    time strings, duration and rated power, under the name the
    [Machines] frame gives the machine, or [Machine i] for a machine [i]
    the frame does not have) when it ends before the last slot [T], and
    reports nothing for a machine that never runs or whose stretch
    reaches the last slot. *)
Theorem formatted_schedule_has_a_period_per_finished_run
  (sort_values : list ResultExtractor.schedule_row
                 -> list ResultExtractor.schedule_row)
  (dm : DataManager) (v : valuation) (machines_df : list machine_row)
  (d : Q) (run : Z * Z -> Z * Z) :
  sorts_by_time_slot sort_values ->
  (1 <= DataManager.T dm)%Z ->
  rated_pairs dm <> [] ->
  (forall s i, In (s, i) (rated_pairs dm) ->
     (1 <= fst (run (s, i)))%Z /\
     (snd (run (s, i)) <= DataManager.T dm)%Z /\
     runs_exactly dm v i s (fst (run (s, i))) (snd (run (s, i)))) ->
  format_schedule sort_values
    (flat_map (fun '(s, i) => machine_schedule_of dm v s i) (rated_pairs dm))
    machines_df d
  = Some (flat_map (fun '(s, i) =>
            let a := fst (run (s, i)) in
            let b := snd (run (s, i)) in
            if ((a <=? b) && (b <? DataManager.T dm))%Z
            then [period_of dm d s i
                    (get_default (machine_names machines_df) (s, i)
                       ("Machine " ++ str i)%string) a b]
            else [])
          (rated_pairs dm)).
Proof.
  intros Hsort HT Hrated Hrun.
  exact (@format_schedule_of_runs sort_values dm v machines_df d run
           Hsort HT Hrated Hrun).
Qed.

(** X23: for a solution in which every rated machine of the index
    ranges is on exactly over one stretch of slots (or never), a machine
    that is still on in the last slot of the horizon has no operation
    period at all in the formatted schedule: its run is not reported. *)
Theorem run_through_the_last_slot_is_not_reported
  (sort_values : list ResultExtractor.schedule_row
                 -> list ResultExtractor.schedule_row)
  (dm : DataManager) (v : valuation) (machines_df : list machine_row)
  (d : Q) (run : Z * Z -> Z * Z) (s i : Z) :
  sorts_by_time_slot sort_values ->
  (1 <= DataManager.T dm)%Z ->
  (forall s i, In (s, i) (rated_pairs dm) ->
     (1 <= fst (run (s, i)))%Z /\
     (snd (run (s, i)) <= DataManager.T dm)%Z /\
     runs_exactly dm v i s (fst (run (s, i))) (snd (run (s, i)))) ->
  In (s, i) (rated_pairs dm) ->
  on v i s (DataManager.T dm) ->
  exists periods,
    format_schedule sort_values
      (flat_map (fun '(s, i) => machine_schedule_of dm v s i)
         (rated_pairs dm))
      machines_df d = Some periods /\
    forall p, In p periods -> ~ (p_SystemID p = s /\ p_MachineID p = i).
Proof.
  intros Hsort HT Hrun Hin Hon.
  assert (rated_pairs dm <> []) as Hrated
    by (intros E; rewrite E in Hin; exact Hin).
  rewrite (@format_schedule_of_runs sort_values dm v machines_df d run
             Hsort HT Hrated Hrun).
  eexists. split; [reflexivity|]. intros p Hp [Hs Hi].
  apply in_flat_map in Hp. destruct Hp as [[s' i'] [Hin' Hp]].
  cbv zeta in Hp.
  destruct ((fst (run (s', i')) <=? snd (run (s', i')))
            && (snd (run (s', i')) <? DataManager.T dm))%Z eqn:Hc;
    [|contradiction].
  destruct Hp as [<-|[]]. cbn [period_of p_SystemID p_MachineID] in Hs, Hi.
  subst s' i'. apply andb_true_iff in Hc. destruct Hc as [_ Hc].
  apply Z.ltb_lt in Hc.
  destruct (Hrun s i Hin) as (_ & _ & Hr).
  destruct (Hr (DataManager.T dm) ltac:(lia)) as [Hiff _].
  apply Hiff in Hon. lia.
Qed.

Ltac run_case :=
  split;
  [split;
   [intros H; first [lia | vm_compute in H; discriminate H]
   |intros H; first [vm_compute; reflexivity | lia]]
  |first [left; vm_compute; reflexivity | right; vm_compute; reflexivity]].

Lemma formatted_schedule_has_a_period_per_finished_run_witness :
  format_schedule insertion_sort
    (flat_map (fun '(s, i) =>
                 machine_schedule_of dm_two_machines v_two_machines s i)
       (rated_pairs dm_two_machines))
    [{| SystemID := 1; MachineID := 1; MachineID_text := "1.0"%string;
        MachineName := None |}] 15
  = Some [period_of dm_two_machines 15 1 1 "Machine 1.0"%string 1 2;
          period_of dm_two_machines 15 1 2 "Machine 2"%string 3 3].
Proof.
  apply (@formatted_schedule_has_a_period_per_finished_run
           insertion_sort dm_two_machines v_two_machines
           [{| SystemID := 1; MachineID := 1; MachineID_text := "1.0"%string;
               MachineName := None |}] 15
           (fun p => if (snd p =? 1)%Z then (1, 2)%Z else (3, 3)%Z)).
  - apply insertion_sort_sorts.
  - vm_compute. discriminate.
  - vm_compute. discriminate.
  - intros s i Hin. vm_compute in Hin.
    destruct Hin as [[= <- <-]|[[= <- <-]|[]]];
      (split; [vm_compute; discriminate|]);
      (split; [vm_compute; discriminate|]);
      intros t Ht; change (DataManager.T dm_two_machines) with 4%Z in Ht;
      cbn [fst snd Z.eqb Pos.eqb];
      assert (t = 1 \/ t = 2 \/ t = 3 \/ t = 4)%Z
        as [->|[->|[->| ->]]] by lia;
      run_case.
Defined.

Lemma run_through_the_last_slot_is_not_reported_witness :
  exists periods,
    format_schedule insertion_sort
      (flat_map (fun '(s, i) => machine_schedule_of dm_priced v_incentive s i)
         (rated_pairs dm_priced))
      [] 15 = Some periods /\
    forall p, In p periods -> ~ (p_SystemID p = 1%Z /\ p_MachineID p = 1%Z).
Proof.
  apply (@run_through_the_last_slot_is_not_reported
           insertion_sort dm_priced v_incentive [] 15
           (fun _ => (1, 1)%Z) 1 1).
  - apply insertion_sort_sorts.
  - vm_compute. discriminate.
  - intros s i Hin. vm_compute in Hin.
    destruct Hin as [[= <- <-]|[]].
    split; [vm_compute; discriminate|].
    split; [vm_compute; discriminate|].
    intros t Ht. change (DataManager.T dm_priced) with 1%Z in Ht.
    cbn [fst snd]. assert (t = 1)%Z as -> by lia. run_case.
  - vm_compute. left. reflexivity.
  - vm_compute. reflexivity.
Defined.

End OperationPeriods.

(** ** The daily view ([schedule_formatter.py]) *)

Module DailyView.

Import PyFacts Spec ScheduleFormatter Utils TimeStrings OperationPeriods.
Import String Ascii.
#[local] Open Scope list_scope.

Lemma digit_not_separator (k : nat) :
  (k < 10)%nat -> Ascii.eqb (digit_char k) ":" = false.
Proof.
  intros H. do 10 (destruct k as [|k]; [reflexivity|]). lia.
Qed.

Lemma split_two_digits (h m : Z) :
  (0 <= h < 100)%Z -> (0 <= m < 100)%Z ->
  split ":" (two_digits h ++ ":" ++ two_digits m)%string
  = [two_digits h; two_digits m].
Proof.
  intros Hh Hm. unfold two_digits. cbn [append split].
  rewrite !digit_not_separator.
  - reflexivity.
  - pose proof (Z.mod_pos_bound m 10). lia.
  - assert (0 <= m / 10 < 10)%Z by (split; [apply Z.div_pos|apply Z.div_lt_upper_bound]; lia).
    lia.
  - pose proof (Z.mod_pos_bound h 10). lia.
  - assert (0 <= h / 10 < 10)%Z by (split; [apply Z.div_pos|apply Z.div_lt_upper_bound]; lia).
    lia.
Qed.

Lemma int_of_str_two_digits (n : Z) :
  (0 <= n < 100)%Z -> int_of_str (two_digits n) = Some n.
Proof.
  intros H. destruct (below_100 H) as [k [Hk ->]]. clear H.
  do 100 (destruct k as [|k]; [vm_compute; reflexivity|]). lia.
Qed.

Lemma minute_of_day_bound (t d : Q) : (0 <= minute_of_day t d < 1440)%Z.
Proof. unfold minute_of_day. apply Z.mod_pos_bound. lia. Qed.

Lemma hour_and_minute_convert (t d : Q) :
  hour_and_minute (convert_time_slot_to_time t d)
  = Some ((minute_of_day t d / 60)%Z, (minute_of_day t d mod 60)%Z).
Proof.
  rewrite convert_time_slot_to_time_eq.
  pose proof (minute_of_day_bound t d) as HM.
  assert (0 <= minute_of_day t d / 60 < 100)%Z as Hh
    by (split; [apply Z.div_pos|apply Z.div_lt_upper_bound]; lia).
  assert (0 <= minute_of_day t d mod 60 < 100)%Z as Hm
    by (pose proof (Z.mod_pos_bound (minute_of_day t d) 60); lia).
  unfold hour_and_minute. rewrite (split_two_digits Hh Hm).
  cbn [nth_error]. now rewrite !int_of_str_two_digits.
Qed.

Lemma set_nth_spec {A} (l : list A) (k : nat) (a : A) :
  (k < List.length l)%nat ->
  exists l', set_nth l k a = Some l' /\
    List.length l' = List.length l /\
    nth_error l' k = Some a /\
    forall j, j <> k -> nth_error l' j = nth_error l j.
Proof.
  revert k. induction l as [|b l IH]; intros k Hk; [cbn in Hk; lia|].
  destruct k as [|k].
  - exists (a :: l). cbn. repeat split.
    intros [|j] Hj; [congruence|reflexivity].
  - destruct (IH k) as (l' & E & Hl & Hn & Ho); [cbn in Hk; lia|].
    exists (b :: l'). cbn [set_nth]. rewrite E. cbn.
    repeat split; auto.
    intros [|j] Hj; [reflexivity|]. cbn. apply Ho. lia.
Qed.

(** The loop of lines 282-284. *)
Definition mark_cells (row : list string) (start_index end_index : Z)
  : option (list string) :=
fold_left (fun acc interval =>
    match acc with
    | None => None
    | Some row =>
        if (0 <=? interval)%Z && (interval <? 144)%Z
        then set_nth row (Z.to_nat (interval + 1)) "ON"%string
        else Some row
    end)
  (range start_index end_index) (Some row).

(** What a row becomes: the cells of the intervals of the day from
    [start_index] up to [end_index] hold [ON], the others are kept. *)
Definition marked (row row' : list string) (start_index end_index : Z)
  : Prop :=
List.length row' = 145%nat /\
nth_error row' 0 = nth_error row 0 /\
forall k, (0 <= k < 144)%Z ->
  nth_error row' (Z.to_nat (k + 1))
  = if ((start_index <=? k) && (k <? end_index))%Z then Some "ON"%string
    else nth_error row (Z.to_nat (k + 1)).

Lemma mark_cells_spec (n : nat) :
  forall row start_index end_index,
    n = Z.to_nat (end_index - start_index) ->
    List.length row = 145%nat ->
    exists row', mark_cells row start_index end_index = Some row' /\
                 marked row row' start_index end_index.
Proof.
  unfold mark_cells.
  induction n as [|n IH]; intros row si ei Hn Hlen.
  - rewrite range_empty by lia. exists row. split; [reflexivity|].
    split; [exact Hlen|]. split; [reflexivity|].
    intros k Hk.
    destruct (si <=? k)%Z eqn:E1; [|reflexivity].
    destruct (k <? ei)%Z eqn:E2; [|reflexivity].
    apply Z.leb_le in E1. apply Z.ltb_lt in E2. lia.
  - rewrite range_cons by lia. cbn [fold_left].
    destruct ((0 <=? si)%Z && (si <? 144)%Z) eqn:Hb.
    + apply andb_true_iff in Hb. destruct Hb as [H0 H1].
      apply Z.leb_le in H0. apply Z.ltb_lt in H1.
      destruct (@set_nth_spec _ row (Z.to_nat (si + 1)) "ON"%string)
        as (row1 & E & Hl1 & Hset & Hother); [lia|].
      rewrite E.
      destruct (IH row1 (si + 1)%Z ei) as (row' & E' & Hl' & Hh' & Hc');
        [lia|lia|].
      exists row'. split; [exact E'|]. split; [exact Hl'|].
      split; [rewrite Hh'; apply Hother; lia|].
      intros k Hk. rewrite (Hc' k Hk).
      destruct (Z.eq_dec k si) as [->|Hne].
      * rewrite Hset.
        replace (si <=? si)%Z with true by (symmetry; apply Z.leb_le; lia).
        replace (si <? ei)%Z with true by (symmetry; apply Z.ltb_lt; lia).
        destruct (si + 1 <=? si)%Z; reflexivity.
      * rewrite Hother by lia.
        replace (si + 1 <=? k)%Z with (si <=? k)%Z; [reflexivity|].
        destruct (Z.leb_spec si k), (Z.leb_spec (si + 1) k);
          try reflexivity; lia.
    + destruct (IH row (si + 1)%Z ei) as (row' & E' & Hl' & Hh' & Hc');
        [lia|exact Hlen|].
      exists row'. split; [exact E'|]. split; [exact Hl'|].
      split; [exact Hh'|].
      intros k Hk. rewrite (Hc' k Hk).
      replace (si + 1 <=? k)%Z with (si <=? k)%Z; [reflexivity|].
      apply andb_false_iff in Hb.
      destruct (Z.leb_spec si k), (Z.leb_spec (si + 1) k);
        try reflexivity; lia.
Qed.

Lemma mark_period_timed (d : Q) (row : list string) (p : period) :
  timed d p ->
  mark_period row p = mark_cells row (start_cell d p) (end_cell d p).
Proof.
  intros [Hs He]. unfold mark_period. rewrite Hs, He.
  rewrite !hour_and_minute_convert. cbv zeta. unfold mark_cells.
  set (M := minute_of_day (inject_Z (StartSlot p)) d).
  set (M' := minute_of_day (inject_Z (EndSlot p + 1)) d).
  assert (M / 60 * 6 + M mod 60 / 10 = start_cell d p)%Z as ->.
  { unfold start_cell. fold M. Z.div_mod_to_equations. lia. }
  assert ((if (0 <? (M' mod 60) mod 10)%Z
           then (M' / 60 * 6 + M' mod 60 / 10 + 1)%Z
           else (M' / 60 * 6 + M' mod 60 / 10)%Z) = end_cell d p) as ->.
  { unfold end_cell. fold M'.
    destruct (0 <? (M' mod 60) mod 10)%Z eqn:E;
      [apply Z.ltb_lt in E|apply Z.ltb_ge in E];
      Z.div_mod_to_equations; lia. }
  reflexivity.
Qed.

(** The loop of lines 263-284 over the periods of one machine. *)
Definition mark_periods (row : list string) (ps : list period)
  : option (list string) :=
fold_left (fun acc p =>
    match acc with
    | None => None
    | Some row => mark_period row p
    end) ps (Some row).

Lemma mark_periods_spec (d : Q) (ps : list period) :
  Forall (timed d) ps ->
  forall row, List.length row = 145%nat ->
  exists row', mark_periods row ps = Some row' /\
    List.length row' = 145%nat /\
    nth_error row' 0 = nth_error row 0 /\
    forall k, (0 <= k < 144)%Z ->
      nth_error row' (Z.to_nat (k + 1))
      = if existsb (fun p => (start_cell d p <=? k)%Z
                             && (k <? end_cell d p)%Z) ps
        then Some "ON"%string
        else nth_error row (Z.to_nat (k + 1)).
Proof.
  unfold mark_periods.
  induction 1 as [|p ps Hp Hps IH]; intros row Hlen.
  - exists row. cbn. auto.
  - cbn [fold_left existsb]. rewrite (mark_period_timed row Hp).
    destruct (@mark_cells_spec _ row (start_cell d p) (end_cell d p)
                eq_refl Hlen) as (row1 & E1 & Hl1 & Hh1 & Hc1).
    rewrite E1.
    destruct (IH row1 Hl1) as (row' & E' & Hl' & Hh' & Hc').
    exists row'. split; [exact E'|]. split; [exact Hl'|].
    split; [congruence|].
    intros k Hk. rewrite (Hc' k Hk), (Hc1 k Hk).
    destruct ((start_cell d p <=? k)%Z && (k <? end_cell d p)%Z);
      cbn [orb]; [|reflexivity].
    now destruct (existsb _ ps).
Qed.

Lemma existsb_filter {A} (f g : A -> bool) (l : list A) :
  existsb f (filter g l) = existsb (fun a => g a && f a) l.
Proof.
  induction l as [|a l IH]; [reflexivity|].
  cbn [filter existsb]. destruct (g a); cbn [existsb andb]; now rewrite IH.
Qed.

Lemma Forall_filter_in {A} (P : A -> Prop) (g : A -> bool) (l : list A) :
  Forall P l -> Forall P (filter g l).
Proof.
  rewrite !Forall_forall. intros H a Ha. apply filter_In in Ha. now apply H.
Qed.

Lemma fold_rows (g : Z -> Z -> string -> option (list string))
      (P : Z * Z * string -> list string -> Prop) (ms : list (Z * Z * string)) :
  (forall s i name, In (s, i, name) ms ->
     exists row, g s i name = Some row /\ P (s, i, name) row) ->
  forall acc, exists rows,
    fold_left (fun acc '(system_id, machine_id, machine_name) =>
        match acc with
        | None => None
        | Some data_rows =>
            match g system_id machine_id machine_name with
            | Some row => Some (data_rows ++ [row])
            | None => None
            end
        end) ms (Some acc)
    = Some (acc ++ rows) /\ Forall2 P ms rows.
Proof.
  induction ms as [|[[s i] name] ms IH]; intros Hg acc.
  - exists []. cbn. rewrite app_nil_r. auto.
  - destruct (Hg s i name (or_introl eq_refl)) as (row & E & HP).
    destruct (IH (fun s' i' name' Hin => Hg s' i' name' (or_intror Hin))
                 (acc ++ [row])) as (rows & E' & HF).
    exists (row :: rows). cbn [fold_left]. rewrite E, E'.
    rewrite <- app_assoc. auto.
Qed.

Lemma daily_row (d : Q) (periods_df : list period) (s i : Z) (name : string) :
  Forall (timed d) periods_df ->
  exists row,
    mark_periods (("System " ++ str s ++ " - " ++ name)%string
                  :: repeat EmptyString 144)
      (filter (fun p => (p_SystemID p =? s)%Z && (p_MachineID p =? i)%Z)
              periods_df)
    = Some row /\
    List.length row = 145%nat /\
    nth_error row 0 = Some ("System " ++ str s ++ " - " ++ name)%string /\
    forall k, (0 <= k < 144)%Z ->
      nth_error row (Z.to_nat (k + 1))
      = Some (if covered d periods_df s i k then "ON" else EmptyString)%string.
Proof.
  intros Ht.
  destruct (@mark_periods_spec d _
              (Forall_filter_in
                 (fun p => (p_SystemID p =? s)%Z && (p_MachineID p =? i)%Z)
                 Ht)
              (("System " ++ str s ++ " - " ++ name)%string
               :: repeat EmptyString 144))
    as (row & E & Hl & Hh & Hc).
  { cbn [List.length]. now rewrite repeat_length. }
  exists row. split; [exact E|]. split; [exact Hl|]. split; [exact Hh|].
  intros k Hk. rewrite (Hc k Hk), existsb_filter. unfold covered.
  destruct (existsb _ periods_df); [reflexivity|].
  replace (Z.to_nat (k + 1)) with (S (Z.to_nat k)) by lia.
  cbn [nth_error]. apply nth_error_repeat. lia.
Qed.

(** X24: the daily view reads back, from the time string of a slot, the
    hour and the minute at which the slot starts: the string of
    [convert_time_slot_to_time] splits at its colon into two numbers
    [h < 24] and [m < 60] with [60 h + m] the slot's minute of the day. *)
Theorem time_string_reads_back_as_hour_and_minute (t d : Q) :
  exists h m : Z,
    hour_and_minute (convert_time_slot_to_time t d) = Some (h, m) /\
    (0 <= h < 24)%Z /\ (0 <= m < 60)%Z /\
    (60 * h + m = minute_of_day t d)%Z.
Proof.
  exists (minute_of_day t d / 60)%Z, (minute_of_day t d mod 60)%Z.
  split; [apply hour_and_minute_convert|].
  pose proof (minute_of_day_bound t d). Z.div_mod_to_equations. lia.
Qed.

(** X25: for periods whose time strings are those of their slots, the
    daily view is the header followed by one row of 145 cells per
    machine of the periods, in the order of first appearance; the row
    starts with the machine's title, and its cell of the ten-minute
    interval [k] of the day holds [ON] when [k] lies between the start
    cell and the end cell of one of the machine's periods, and is empty
    otherwise. *)
Theorem daily_view_marks_the_intervals_of_each_period
  (d : Q) (periods_df : list period) :
  Forall (timed d) periods_df ->
  exists data_rows,
    daily_schedule_view periods_df = Some (header :: data_rows) /\
    Forall2 (fun '(s, i, name) row =>
        List.length row = 145%nat /\
        nth_error row 0 = Some ("System " ++ str s ++ " - " ++ name)%string /\
        forall k, (0 <= k < 144)%Z ->
          nth_error row (Z.to_nat (k + 1))
          = Some (if covered d periods_df s i k then "ON" else EmptyString)%string)
      (machines periods_df) data_rows.
Proof.
  intros Ht.
  destruct (@fold_rows
    (fun s i name =>
       mark_periods (("System " ++ str s ++ " - " ++ name)%string
                     :: repeat EmptyString 144)
         (filter (fun p => (p_SystemID p =? s)%Z && (p_MachineID p =? i)%Z)
                 periods_df))
    (fun '(s, i, name) row =>
        List.length row = 145%nat /\
        nth_error row 0 = Some ("System " ++ str s ++ " - " ++ name)%string /\
        forall k, (0 <= k < 144)%Z ->
          nth_error row (Z.to_nat (k + 1))
          = Some (if covered d periods_df s i k then "ON" else EmptyString)%string)
    (machines periods_df)
    (fun s i name _ => daily_row s i name Ht) [])
    as (rows & E & HF).
  exists rows. split; [|exact HF].
  exact (f_equal (option_map (cons header)) E).
Qed.

Lemma daily_view_marks_the_intervals_of_each_period_witness :
  exists data_rows,
    daily_schedule_view
      [period_of dm_two_machines 15 1 1 "Machine 1"%string 1 2] 
    = Some (header :: data_rows) /\
    Forall2 (fun '(s, i, name) row =>
        List.length row = 145%nat /\
        nth_error row 0 = Some ("System " ++ str s ++ " - " ++ name)%string /\
        forall k, (0 <= k < 144)%Z ->
          nth_error row (Z.to_nat (k + 1))
          = Some (if covered 15
                       [period_of dm_two_machines 15 1 1
                          "Machine 1"%string 1 2] s i k
                  then "ON" else EmptyString)%string)
      (machines [period_of dm_two_machines 15 1 1 "Machine 1"%string 1 2])
      data_rows.
Proof.
  apply (@daily_view_marks_the_intervals_of_each_period 15
           [period_of dm_two_machines 15 1 1 "Machine 1"%string 1 2]).
  constructor; [|constructor]. split; reflexivity.
Defined.

Lemma fold_blank (g : Z -> Z -> string -> option (list string))
      (h : Z * Z * string -> list string) (ms : list (Z * Z * string)) :
  (forall s i name, In (s, i, name) ms -> g s i name = Some (h (s, i, name))) ->
  forall acc,
    fold_left (fun acc '(system_id, machine_id, machine_name) =>
        match acc with
        | None => None
        | Some data_rows =>
            match g system_id machine_id machine_name with
            | Some row => Some (data_rows ++ [row])
            | None => None
            end
        end) ms (Some acc)
    = Some (acc ++ map h ms).
Proof.
  induction ms as [|[[s i] name] ms IH]; intros Hg acc.
  - cbn. now rewrite app_nil_r.
  - cbn [fold_left map]. rewrite (Hg s i name (or_introl eq_refl)).
    rewrite IH by (intros s' i' name' Hin; apply Hg; now right).
    now rewrite <- app_assoc.
Qed.

Lemma mark_periods_midnight (d : Q) (ps : list period) (row : list string) :
  Forall (fun p => timed d p /\
            minute_of_day (inject_Z (EndSlot p + 1)) d = 0%Z) ps ->
  mark_periods row ps = Some row.
Proof.
  unfold mark_periods. induction 1 as [|p ps [Hp H0] Hps IH]; [reflexivity|].
  cbn [fold_left]. rewrite (mark_period_timed row Hp).
  unfold mark_cells. rewrite range_empty; [exact IH|].
  unfold end_cell, start_cell. rewrite H0.
  pose proof (minute_of_day_bound (inject_Z (StartSlot p)) d).
  change ((0 + 9) / 10)%Z with 0%Z. apply Z.div_pos; lia.
Qed.

(** X26: periods that end at midnight (the slot after their last one
    starts at minute 0 of a day) leave the daily view blank: every row
    is the machine's title followed by 144 empty cells. *)
Theorem periods_ending_at_midnight_are_not_shown
  (d : Q) (periods_df : list period) :
  Forall (fun p => timed d p /\
            minute_of_day (inject_Z (EndSlot p + 1)) d = 0%Z) periods_df ->
  daily_schedule_view periods_df
  = Some (header ::
          map (fun '(s, i, name) =>
                 ("System " ++ str s ++ " - " ++ name)%string
                 :: repeat EmptyString 144)
              (machines periods_df)).
Proof.
  intros H.
  refine (f_equal (option_map (cons header))
            (@fold_blank
               (fun s i name =>
                  mark_periods (("System " ++ str s ++ " - " ++ name)%string
                                :: repeat EmptyString 144)
                    (filter (fun p => (p_SystemID p =? s)%Z
                                      && (p_MachineID p =? i)%Z)
                            periods_df))
               (fun '(s, i, name) =>
                  ("System " ++ str s ++ " - " ++ name)%string
                  :: repeat EmptyString 144)
               (machines periods_df) _ [])).
  intros s i name _. apply (@mark_periods_midnight d).
  now apply Forall_filter_in.
Qed.

Lemma periods_ending_at_midnight_are_not_shown_witness :
  daily_schedule_view
    [period_of dm_two_machines 15 1 1 "Machine 1"%string 93 96]
  = Some (header ::
          map (fun '(s, i, name) =>
                 ("System " ++ str s ++ " - " ++ name)%string
                 :: repeat EmptyString 144)
              (machines
                 [period_of dm_two_machines 15 1 1 "Machine 1"%string 93 96])).
Proof.
  apply (@periods_ending_at_midnight_are_not_shown 15
           [period_of dm_two_machines 15 1 1 "Machine 1"%string 93 96]).
  constructor; [|constructor]. split; [split|]; reflexivity.
Defined.

End DailyView.

(** ** Loading, comparing, saving ([data_manager.py], [results_manager.py],
    [main.py]) *)

Module Budgets.

Import String.
Import Py PyFacts Spec Utils DataLoading.
#[local] Open Scope list_scope.

Lemma get_set_item_Z {V} (d : dict Z V) (k k' : Z) (v : V) :
  get (set_item d k v) k' = if (k =? k')%Z then Some v else get d k'.
Proof.
  induction d as [|[k0 v0] d IH]; cbn [set_item get keqb Key_Z].
  - reflexivity.
  - destruct (Z.eqb_spec k0 k) as [->|Hne]; cbn [get keqb Key_Z].
    + now destruct (k =? k')%Z.
    + rewrite IH. destruct (Z.eqb_spec k0 k') as [->|Hne'];
        [|reflexivity].
      destruct (Z.eqb_spec k k'); [congruence|reflexivity].
Qed.

Lemma get_budgets {V} (f : Z -> V) (l : list Z) :
  forall (acc : dict Z V) (k : Z),
    get (fold_left (fun A s => set_item A s (f s)) l acc) k
    = if existsb (Z.eqb k) l then Some (f k) else get acc k.
Proof.
  induction l as [|s l IH]; intros acc k; cbn [fold_left existsb];
    [reflexivity|].
  rewrite IH, get_set_item_Z.
  destruct (existsb (Z.eqb k) l); [now rewrite orb_true_r|].
  rewrite orb_false_r, (Z.eqb_sym k s).
  destruct (Z.eqb_spec s k) as [->|]; reflexivity.
Qed.

Lemma existsb_range (k a b : Z) :
  existsb (Z.eqb k) (range a b) = ((a <=? k) && (k <? b))%Z.
Proof.
  destruct (existsb (Z.eqb k) (range a b)) eqn:E.
  - apply existsb_exists in E. destruct E as [x [Hin Hx]].
    apply Z.eqb_eq in Hx. subst x. apply In_range in Hin.
    symmetry. apply andb_true_iff. split; [apply Z.leb_le|apply Z.ltb_lt]; lia.
  - symmetry. apply not_true_is_false. intros Hc.
    apply andb_true_iff in Hc. destruct Hc as [H1 H2].
    apply Z.leb_le in H1. apply Z.ltb_lt in H2.
    assert (existsb (Z.eqb k) (range a b) = true); [|congruence].
    apply existsb_exists. exists k. split; [|apply Z.eqb_refl].
    apply In_range. lia.
Qed.

Lemma fold_left_ext_budget (system_params : dict string Q) (l : list Z) :
  forall acc,
    fold_left (fun A s =>
        let budget_key := ("A_" ++ str s)%string in
        match get system_params budget_key with
        | Some budget => set_item A s budget
        | None => set_item A s lit_5000
        end) l acc
    = fold_left (fun A s =>
        set_item A s
          (get_default system_params ("A_" ++ str s)%string lit_5000))
        l acc.
Proof.
  induction l as [|s l IH]; intros acc; cbn [fold_left]; [reflexivity|].
  rewrite <- IH. cbv zeta. unfold get_default.
  now destruct (get system_params ("A_" ++ str s)%string).
Qed.

(** X27: after [parse_parameters], the budgets are defined exactly for
    the indices [1..S], where [S] counts the distinct system identifiers
    of the [Machines] sheet: the budget of [s] is the system parameter
    [A_s] when the sheet has it and 5000 otherwise. *)
Theorem every_system_index_gets_a_budget
  (machines_df : list machine) (tou_df : list tou)
  (incentive_df : list incentive) (system_params : dict string Q) (s : Z) :
  let dm := parse_parameters machines_df tou_df incentive_df system_params in
  get (DataManager.A dm) s
  = if ((1 <=? s) && (s <=? DataManager.S dm))%Z
    then Some (get_default system_params ("A_" ++ str s)%string lit_5000)
    else None.
Proof.
  cbv zeta. unfold parse_parameters. cbv zeta.
  cbn [DataManager.A DataManager.S].
  set (S := Z.of_nat _).
  rewrite (@fold_left_ext_budget system_params).
  rewrite get_budgets, existsb_range. cbn [get].
  replace (s <? S + 1)%Z with (s <=? S)%Z; [reflexivity|].
  destruct (Z.leb_spec s S), (Z.ltb_spec s (S + 1)); try reflexivity; lia.
Qed.

End Budgets.

Module Comparison.

Import String.
Import Py PyFacts Spec DataLoading ResultsManager.
#[local] Open Scope list_scope.

Lemma all_solved (rs : list (string * ResultExtractor.results)) :
  forallb truth (map snd (items (solved_results rs))) = true.
Proof.
  unfold items, solved_results.
  induction rs as [|[k r] rs IH]; [reflexivity|exact IH].
Qed.

Lemma not_all_solved (d1 d2 : results_dict) (k : string) :
  forallb truth (map snd (items (d1 ++ (k, None) :: d2))) = false.
Proof.
  unfold items. rewrite map_app, forallb_app. cbn [map snd forallb truth].
  now rewrite andb_false_r.
Qed.

Lemma columns_solved (rs : list (string * ResultExtractor.results)) :
  forall c,
    fold_left (fun acc '(approach, results) =>
        match acc, results with
        | Done comparison, Some results =>
            Done {| Approach := Approach comparison ++ [approach];
                    c_EC := c_EC comparison ++ [ResultExtractor.EC results];
                    c_PL := c_PL comparison ++ [ResultExtractor.PL results] |}
        | _, _ => TypeError
        end)
      (solved_results rs) (Done c)
    = Done {| Approach := Approach c ++ map fst rs;
              c_EC := c_EC c
                      ++ map (fun p => ResultExtractor.EC (snd p)) rs;
              c_PL := c_PL c
                      ++ map (fun p => ResultExtractor.PL (snd p)) rs |}.
Proof.
  induction rs as [|[k r] rs IH]; intros c.
  - cbn. rewrite !app_nil_r. now destruct c.
  - cbn [solved_results map fold_left fst snd]. fold (solved_results rs).
    rewrite IH. cbn [Approach c_EC c_PL]. now rewrite <- !app_assoc.
Qed.

Lemma comparison_columns_solved
  (rs : list (string * ResultExtractor.results)) :
  comparison_columns (solved_results rs)
  = Done {| Approach := map fst rs;
            c_EC := map (fun p => ResultExtractor.EC (snd p)) rs;
            c_PL := map (fun p => ResultExtractor.PL (snd p)) rs |}.
Proof. unfold comparison_columns, items. now rewrite columns_solved. Qed.

Lemma get_solved (rs : list (string * ResultExtractor.results)) (k : string) :
  get (solved_results rs) k = option_map Some (get rs k).
Proof.
  induction rs as [|[k0 r] rs IH]; [reflexivity|].
  cbn [solved_results map get]. fold (solved_results rs).
  now destruct (keqb k0 k).
Qed.

(** X28: [compare_approaches] is all or nothing.  When every approach
    has a result, the table has one line per approach, in the order of
    the dictionary, with its cost and its peak load.  When one approach
    has none, there is no table at all, whatever the others found.  It
    never fails on a missing result. *)
Theorem comparison_lists_every_approach_or_none
  (rs : list (string * ResultExtractor.results))
  (d1 d2 : results_dict) (k : string) :
  compare_approaches (solved_results rs)
  = Done (Some {| Approach := map fst rs;
                  c_EC := map (fun p => ResultExtractor.EC (snd p)) rs;
                  c_PL := map (fun p => ResultExtractor.PL (snd p)) rs |})
  /\ compare_approaches (d1 ++ (k, None) :: d2) = Done None.
Proof.
  unfold compare_approaches. split.
  - now rewrite all_solved, comparison_columns_solved.
  - now rewrite not_all_solved.
Qed.

(** X29: [save_results_to_sheets] writes the schedule of the approach
    named WS when the dictionary has one, and of the first approach
    otherwise; it writes no schedule when one approach has no result,
    or when the dictionary is empty. *)
Theorem saved_schedule_is_that_of_the_weighted_sum
  (rs : list (string * ResultExtractor.results))
  (d1 d2 : results_dict) (k : string) :
  save_results_to_sheets (solved_results rs)
  = match get rs "WS"%string, rs with
    | Some results, _ => Some (ResultExtractor.Schedule results)
    | None, (_, results) :: _ => Some (ResultExtractor.Schedule results)
    | None, [] => None
    end
  /\ save_results_to_sheets (d1 ++ (k, None) :: d2) = None.
Proof.
  unfold save_results_to_sheets. split.
  - rewrite all_solved, comparison_columns_solved. cbn [negb].
    unfold contains. rewrite get_solved.
    destruct (get rs "WS"%string) as [r|] eqn:E; cbn [option_map].
    + rewrite get_solved, E. reflexivity.
    + destruct rs as [|[k0 r0] rs]; [reflexivity|].
      cbn [solved_results map items nth_error option_map fst get].
      cbn [keqb Key_string]. now rewrite String.eqb_refl.
  - now rewrite not_all_solved.
Qed.

End Comparison.

Module MainRun.

Import String.
Import Py PyFacts PulpFacts Spec ModelBuilder ModelBuilderFacts.
Import ObjectiveManager OptimizationApproaches Strategies BuildErrors.
Import SoundStrategies DataLoading ResultsManager Main.
#[local] Open Scope list_scope.

Lemma EC_first_None_on_negative_optimum
  (solve : LpProblem -> Solved) (dm : DataManager) (m1 : LpProblem) :
  EC_first_sound solve dm ->
  EC_first_model1 dm = Return m1 ->
  objective_value m1 (varValue (solve m1)) < 0 ->
  solve_preemptive_EC_first solve dm = Return None.
Proof.
  intros Hsound Hm1 Hneg.
  destruct (@EC_first_model1_inv dm m1 Hm1) as (b & ec & Hb & Hec & Em1).
  destruct (@EC_first_returns_or_raises solve dm _ _ Hb)
    as (m1' & Hm1' & [([r|] & Hres & _)|(_ & _ & Hnone)]);
    [|exact Hres|]; exfalso.
  - destruct (@EC_first_within solve dm m1 r Hsound Hm1 Hres)
      as (_ & Hlo & Hhi & _).
    unfold lit_1_001 in Hhi. lra.
  - rewrite Hm1 in Hm1'. injection Hm1' as <-.
    revert Hneg Hnone. rewrite Em1.
    unfold value_of_objective, objective_value.
    cbn [objective set_objective].
    destruct (isNumericalConstant ec) eqn:E; [|discriminate].
    intros Hneg _. rewrite (ValueFacts.value_constant _ _ E) in Hneg.
    rewrite (ValueFacts.constant_EC_expression _ _ _ Hec) in Hneg. lra.
Qed.

(** A cost expression of negative value has a term, so the horizon has a
    slot. *)
Lemma negative_cost_needs_a_slot (dm : DataManager) (xd yd : triple_dict)
      (ec : LpAffineExpression) (v : valuation) :
  calculate_EC_expression dm xd yd = Return ec ->
  value v ec < 0 ->
  (1 <= DataManager.T dm)%Z.
Proof.
  intros Hec Hneg.
  destruct (Z_le_gt_dec 1 (DataManager.T dm)) as [HT|HT]; [exact HT|].
  exfalso. unfold calculate_EC_expression in Hec. cbv zeta in Hec.
  assert (triples (DataManager.S dm) (DataManager.T dm) (DataManager.I dm)
          = []) as Hnil.
  { unfold triples.
    assert (range 1 (DataManager.T dm + 1) = []) as ->.
    { unfold range.
      replace (Z.to_nat (DataManager.T dm + 1 - 1)) with 0%nat by lia.
      reflexivity. }
    induction (range 1 (DataManager.S dm + 1)) as [|s0 l IH];
      [reflexivity|exact IH]. }
  rewrite Hnil in Hec. cbn [comprehension Py.bind] in Hec.
  injection Hec as <-. vm_compute in Hneg. discriminate Hneg.
Qed.

Lemma weighted_sum_returns_or_divides_by_zero
  (solve : LpProblem -> Solved) (dm : DataManager) (nm : model_name)
  (b : base) (w_EC w_PL : Q) :
  build_base_model dm nm = Return b ->
  (1 <= DataManager.T dm)%Z ->
  (exists r, solve_weighted_sum solve dm w_EC w_PL = Return r) \/
  solve_weighted_sum solve dm w_EC w_PL = Raise ZeroDivisionError.
Proof.
  intros Hb HT.
  destruct (get_normalization_factors solve dm) as [e|[[[EI PI] EN] PN]] eqn:Hn.
  - right.
    assert (e = ZeroDivisionError) as ->.
    { unfold get_normalization_factors in Hn.
      destruct (@get_nadir_points_total solve dm nm b Hb HT)
        as (EI & PI & EN & PN & Hnadir).
      rewrite Hnadir in Hn. cbn [Py.bind] in Hn. unfold Py.div in Hn.
      destruct (Qeq_bool (EN - EI) 0); cbn [Py.bind] in Hn;
        [congruence|].
      destruct (Qeq_bool (PN - PI) 0); cbn [Py.bind] in Hn; congruence. }
    unfold solve_weighted_sum. now rewrite Hn.
  - left.
    destruct (@weighted_sum_fails_with_its_last_solve solve dm _ _ Hb
                w_EC w_PL EI PI EN PN HT Hn) as (m & b' & r & _ & Hr & _).
    exists r. exact Hr.
Qed.

(** X30: with a solver that is sound on the EC-first models, a run of
    [main] on data whose optimum cost is negative compares nothing and
    writes no schedule: the EC-first approach has no result, so either
    the weighted sum stops the run with a division by zero, or the
    comparison is [None] and [save_results_to_sheets] writes nothing. *)
Theorem negative_optimum_leaves_nothing_compared_or_saved
  (solve : LpProblem -> Solved)
  (machines_df : list machine) (tou_df : list tou)
  (incentive_df : list incentive) (system_params : dict string Q)
  (m1 : LpProblem) :
  let data_manager :=
    parse_parameters machines_df tou_df incentive_df system_params in
  EC_first_sound solve data_manager ->
  EC_first_model1 data_manager = Return m1 ->
  objective_value m1 (varValue (solve m1)) < 0 ->
  main solve machines_df tou_df incentive_df system_params
  = Return (Done None, None) \/
  main solve machines_df tou_df incentive_df system_params
  = Raise ZeroDivisionError.
Proof.
  intros dm Hsound Hm1 Hneg. unfold main. cbv zeta. fold dm.
  rewrite (@EC_first_None_on_negative_optimum solve dm m1 Hsound Hm1 Hneg).
  destruct (@EC_first_model1_inv dm m1 Hm1) as (b & ec & Hb & Hec & Em1).
  assert (1 <= DataManager.T dm)%Z as HT.
  { apply (@negative_cost_needs_a_slot dm (x b) (y b) ec
             (varValue (solve m1)) Hec).
    rewrite Em1 in Hneg at 1. exact Hneg. }
  destruct (@PL_first_fails_with_its_solves solve dm _ _ Hb)
    as (m2 & b2 & r2 & _ & H2 & _).
  destruct (@compromise_fails_with_its_last_solve solve dm _ _ Hb
              lit_0_5 lit_0_5 HT)
    as (rE & rP & m4 & b4 & r4 & _ & _ & _ & H4 & _).
  cbn [Py.bind]. rewrite H2. cbn [Py.bind].
  destruct (@weighted_sum_returns_or_divides_by_zero solve dm _ b
              lit_0_7 lit_0_3 Hb HT) as [[r3 H3]|H3]; rewrite H3; cbn [Py.bind].
  - rewrite H4. cbn [Py.bind]. left. reflexivity.
  - right. reflexivity.
Qed.

Lemma negative_optimum_leaves_nothing_compared_or_saved_witness :
  let solve := answers_but_EC_first_step2 v_incentive in
  let machines_df :=
    [{| MachineID := 1; SystemID := 1; RatedPower := 1; OperationSlots := 1;
        EarlyTimeSlot := 1; LateTimeSlot := 1; PredecessorMachine := None |}] in
  let tou_df := [{| TimeSlot := 1; Price := 3 |}] in
  let incentive_df := [{| i_TimeSlot := 1; Incentive := 5 |}] in
  let system_params := [("alpha"%string, 1); ("A_1"%string, 0)] in
  main solve machines_df tou_df incentive_df system_params
  = Return (Done None, None) \/
  main solve machines_df tou_df incentive_df system_params
  = Raise ZeroDivisionError.
Proof.
  intros solve machines_df tou_df incentive_df system_params.
  assert (parse_parameters machines_df tou_df incentive_df system_params
          = dm_incentive 5) as Hdm by reflexivity.
  assert (exists m1, EC_first_model1 (dm_incentive 5) = Return m1
                     /\ objective_value m1 v_incentive < 0) as [m1 [Hm1 Hneg]]
    by (eexists; split; vm_compute; reflexivity).
  apply (@negative_optimum_leaves_nothing_compared_or_saved
           solve machines_df tou_df incentive_df system_params m1).
  - rewrite Hdm. exact incentive_EC_first_sound.
  - rewrite Hdm. exact Hm1.
  - assert (p_name m1 = PR_EC_First_Step1) as Hname
      by (vm_compute in Hm1; injection Hm1 as <-; reflexivity).
    unfold solve, answers_but_EC_first_step2. rewrite Hname. exact Hneg.
Defined.

End MainRun.
